(** * Randomized binary search trees (RbstNode.h, RbstSet.h)

    A shallow embedding of the pointer structure of [RbstNode],
    [RbstValuedNode], [RbstTree] and [RbstSet]: the C++ heap is a finite map
    from addresses to node records, every method is a function that threads
    the heap (and the random number generator) explicitly, and a failure
    ([None]) stands for a dereference of a null or dangling pointer or for
    exhausted fuel.  Properties are proved through an abstraction of the
    heap by shape trees. *)

From Stdlib Require Import ZArith Lia.
From stdpp Require Import gmap list sorting.

Open Scope Z_scope.

(** ** Machine integers *)

(** [size_t] and [ptrdiff_t] are taken to be 64 bits wide (LP64).  A value of
    either type is a [Z]; every arithmetic result is reduced explicitly. *)
Definition SIZE_BITS : Z := 64.

(** Conversion to [size_t]: reduction modulo [2^64]. *)
Definition to_size_t (z : Z) : Z := z mod 2 ^ SIZE_BITS.

(** Conversion to [ptrdiff_t]: the two's complement reading of the low 64
    bits. *)
Definition to_ptrdiff_t (z : Z) : Z :=
  (z + 2 ^ (SIZE_BITS - 1)) mod 2 ^ SIZE_BITS - 2 ^ (SIZE_BITS - 1).

(** ** The default random number generator (RbstSet.h) *)

(** [LinearCongruentialGenerator<uint32_t, A, C>::operator()]:
    [state = A*state + C; return state % bound;] with a 32-bit state. *)
Definition lcg (A C : Z) (state : Z) (bound : Z) : Z * Z :=
  let state' := (A * state + C) mod 2 ^ 32 in
  (state' mod bound, state').

(** [DefaultRng], seeded with 1 by its constructor. *)
Definition DefaultRng : Z -> Z -> Z * Z := lcg 1664525 1013904223.
Definition DefaultRng_seed : Z := 1.

(** ** Nodes and the heap *)

Abbreviation ptr := positive (only parsing).

Section Model.

Context {V : Type}.

(** An object of class [RbstNode]; [m_value] is [Some v] for an
    [RbstValuedNode<V>] and [None] for a plain [RbstNode] such as the
    [RbstTree] root holder.  A null pointer is [None]. *)
Record RbstNode : Type := mkRbstNode {
  m_left : option ptr;
  m_right : option ptr;
  m_parent : option ptr;
  m_size : Z;
  m_value : option V
}.

Abbreviation heap := (gmap positive RbstNode).

Definition with_left (n : RbstNode) (p : option ptr) : RbstNode :=
  mkRbstNode p (m_right n) (m_parent n) (m_size n) (m_value n).
Definition with_right (n : RbstNode) (p : option ptr) : RbstNode :=
  mkRbstNode (m_left n) p (m_parent n) (m_size n) (m_value n).
Definition with_parent (n : RbstNode) (p : option ptr) : RbstNode :=
  mkRbstNode (m_left n) (m_right n) p (m_size n) (m_value n).
Definition with_size (n : RbstNode) (s : Z) : RbstNode :=
  mkRbstNode (m_left n) (m_right n) (m_parent n) s (m_value n).

(** Writes through a pointer: the record at the address is altered in place;
    a write through a pointer that is not allocated fails. *)
Definition store_left (h : heap) (x : ptr) (p : option ptr) : option heap :=
  _ ← h !! x; Some (alter (λ n, with_left n p) x h).
Definition store_right (h : heap) (x : ptr) (p : option ptr) : option heap :=
  _ ← h !! x; Some (alter (λ n, with_right n p) x h).
Definition store_parent (h : heap) (x : ptr) (p : option ptr) : option heap :=
  _ ← h !! x; Some (alter (λ n, with_parent n p) x h).
Definition store_size (h : heap) (x : ptr) (s : Z) : option heap :=
  _ ← h !! x; Some (alter (λ n, with_size n s) x h).

(** [static size_t size(const RbstNode *node)]. *)
Definition size (h : heap) (node : option ptr) : option Z :=
  match node with
  | None => Some 0
  | Some x => n ← h !! x; Some (m_size n)
  end.

(** The constructor [RbstNode(left, right, parent)], with the value of an
    [RbstValuedNode] when there is one. *)
Definition construct (h : heap) (value : option V)
    (left right parent : option ptr) : option RbstNode :=
  sl ← size h left; sr ← size h right;
  Some (mkRbstNode left right parent (to_size_t (to_size_t (1 + sl) + sr)) value).

(** ** Navigation (RbstNode.h, lines 35-147) *)

(** [first()] and [last()]. *)
Fixpoint first (fuel : nat) (h : heap) (x : ptr) : option ptr :=
  match fuel with
  | O => None
  | S fuel =>
      n ← h !! x;
      match m_left n with
      | Some l => first fuel h l
      | None => Some x
      end
  end.

Fixpoint last (fuel : nat) (h : heap) (x : ptr) : option ptr :=
  match fuel with
  | O => None
  | S fuel =>
      n ← h !! x;
      match m_right n with
      | Some r => last fuel h r
      | None => Some x
      end
  end.

(** The loop of [previous()]:
    [while (node->m_parent && node == node->m_parent->m_left) node = node->m_parent;
     return node->m_parent;] *)
Fixpoint previous_loop (fuel : nat) (h : heap) (node : ptr) : option (option ptr) :=
  match fuel with
  | O => None
  | S fuel =>
      n ← h !! node;
      match m_parent n with
      | Some p =>
          np ← h !! p;
          if decide (m_left np = Some node) then previous_loop fuel h p
          else Some (Some p)
      | None => Some None
      end
  end.

Definition previous (fuel : nat) (h : heap) (x : ptr) : option (option ptr) :=
  n ← h !! x;
  match m_left n with
  | Some l => r ← last fuel h l; Some (Some r)
  | None => previous_loop fuel h x
  end.

Fixpoint next_loop (fuel : nat) (h : heap) (node : ptr) : option (option ptr) :=
  match fuel with
  | O => None
  | S fuel =>
      n ← h !! node;
      match m_parent n with
      | Some p =>
          np ← h !! p;
          if decide (m_right np = Some node) then next_loop fuel h p
          else Some (Some p)
      | None => Some None
      end
  end.

Definition next (fuel : nat) (h : heap) (x : ptr) : option (option ptr) :=
  n ← h !! x;
  match m_right n with
  | Some r => f ← first fuel h r; Some (Some f)
  | None => next_loop fuel h x
  end.

(** [offset(ptrdiff_t d)].  The comparisons [d <= size(m_right)] and
    [-d <= size(m_left)] mix [ptrdiff_t] and [size_t], so the signed operand
    is converted to [size_t]; the arguments of the recursive calls are
    computed in [size_t] and converted back to [ptrdiff_t]. *)
Fixpoint offset (fuel : nat) (h : heap) (x : ptr) (d : Z) : option (option ptr) :=
  match fuel with
  | O => None
  | S fuel =>
      n ← h !! x;
      let up (_ : unit) :=
        match m_parent n with
        | None => Some None
        | Some p =>
            np ← h !! p;
            if decide (Some x = m_left np)
            then sr ← size h (m_right n);
                 offset fuel h p (to_ptrdiff_t (d - 1 - sr))
            else sl ← size h (m_left n);
                 offset fuel h p (to_ptrdiff_t (d + 1 + sl))
        end in
      if 0 <? d then
        sr ← size h (m_right n);
        if to_size_t d <=? sr then
          r ← m_right n; nr ← h !! r; srl ← size h (m_left nr);
          offset fuel h r (to_ptrdiff_t (d - 1 - srl))
        else up ()
      else if d <? 0 then
        sl ← size h (m_left n);
        if to_size_t (to_ptrdiff_t (- d)) <=? sl then
          l ← m_left n; nl ← h !! l; slr ← size h (m_right nl);
          offset fuel h l (to_ptrdiff_t (d + 1 + slr))
        else up ()
      else Some (Some x)
  end.

(** The loop of [index()], with the accumulator [index]. *)
Fixpoint index_loop (fuel : nat) (h : heap) (node : ptr) (index : Z) : option Z :=
  match fuel with
  | O => None
  | S fuel =>
      n ← h !! node;
      match m_parent n with
      | None => Some index
      | Some p =>
          np ← h !! p;
          if decide (Some node = m_right np)
          then index_loop fuel h p
                 (to_size_t (index + to_size_t (m_size np - m_size n)))
          else index_loop fuel h p index
      end
  end.

Definition index (fuel : nat) (h : heap) (x : ptr) : option Z :=
  n ← h !! x; i ← size h (m_left n); index_loop fuel h x i.

(** [at(size_t index)]. *)
Fixpoint at_ (fuel : nat) (h : heap) (x : ptr) (index : Z) : option ptr :=
  match fuel with
  | O => None
  | S fuel =>
      nd ← h !! x;
      n ← size h (m_left nd);
      if index <? n then l ← m_left nd; at_ fuel h l index
      else if n <? index then
        r ← m_right nd; at_ fuel h r (to_size_t (to_size_t (index - n) - 1))
      else Some x
  end.

(** ** Ordered lookup on valued nodes (RbstNode.h, lines 322-365) *)

Context (comp : V -> V -> bool).

Fixpoint find (fuel : nat) (h : heap) (node : option ptr) (value : V)
    (res : option ptr) : option (option ptr) :=
  match fuel with
  | O => None
  | S fuel =>
      match node with
      | None => Some res
      | Some x =>
          n ← h !! x; v ← m_value n;
          if comp value v then find fuel h (m_left n) value res
          else if comp v value then find fuel h (m_right n) value res
          else Some (Some x)
      end
  end.

Fixpoint lower_bound (fuel : nat) (h : heap) (node : option ptr) (value : V)
    (res : option ptr) : option (option ptr) :=
  match fuel with
  | O => None
  | S fuel =>
      match node with
      | None => Some res
      | Some x =>
          n ← h !! x; v ← m_value n;
          if comp v value then lower_bound fuel h (m_right n) value res
          else lower_bound fuel h (m_left n) value (Some x)
      end
  end.

Fixpoint upper_bound (fuel : nat) (h : heap) (node : option ptr) (value : V)
    (res : option ptr) : option (option ptr) :=
  match fuel with
  | O => None
  | S fuel =>
      match node with
      | None => Some res
      | Some x =>
          n ← h !! x; v ← m_value n;
          if comp value v then upper_bound fuel h (m_left n) value (Some x)
          else upper_bound fuel h (m_right n) value res
      end
  end.

(** ** Structural updates (RbstNode.h, lines 155-275) *)

(** [RbstTree::operator()(RbstNode *left, RbstNode *right)], the node
    comparator handed to [insert] and [split]: both nodes are cast to
    [RbstValuedNode<V>] and their values compared. *)
Definition node_compare (h : heap) (left right : ptr) : option bool :=
  nl ← h !! left; nr ← h !! right;
  vl ← m_value nl; vr ← m_value nr;
  Some (comp vl vr).

(** [this->split(tree, lesser, greater, compare)]. *)
Fixpoint split (fuel : nat) (h : heap) (this tree lesser greater : ptr)
    : option heap :=
  match fuel with
  | O => None
  | S fuel =>
      c ← node_compare h this tree;
      h ← (if c : bool then
             h ← store_left h greater (Some tree);
             h ← store_parent h tree (Some greater);
             t ← h !! tree;
             match m_left t with
             | Some l => split fuel h this l lesser tree
             | None => store_right h lesser None
             end
           else
             h ← store_right h lesser (Some tree);
             h ← store_parent h tree (Some lesser);
             t ← h !! tree;
             match m_right t with
             | Some r => split fuel h this r tree greater
             | None => store_left h greater None
             end);
      t ← h !! tree;
      sl ← size h (m_left t); sr ← size h (m_right t);
      store_size h tree (to_size_t (to_size_t (1 + sl) + sr))
  end.

Context {Rng : Type} (draw : Rng -> Z -> Z * Rng).

(** [this->insert(node, parent, compare, rng)]; returns the new root of the
    subtree. *)
Fixpoint insert (fuel : nat) (h : heap) (this : ptr) (node parent : option ptr)
    (rng : Rng) : option (heap * ptr * Rng) :=
  match fuel with
  | O => None
  | S fuel =>
      match node with
      | None =>
          h ← store_left h this None;
          h ← store_right h this None;
          h ← store_size h this 1;
          h ← store_parent h this parent;
          Some (h, this, rng)
      | Some nd =>
          n ← h !! nd;
          let '(d, rng) := draw rng (to_size_t (1 + m_size n)) in
          if d =? 0 then
            h ← split fuel h this nd this this;
            t ← h !! this;
            h ← store_left h this (m_right t);
            h ← store_right h this (m_left t);
            t ← h !! this;
            sl ← size h (m_left t); sr ← size h (m_right t);
            h ← store_size h this (to_size_t (to_size_t (1 + sl) + sr));
            h ← store_parent h this parent;
            Some (h, this, rng)
          else
            c ← node_compare h this nd;
            if c : bool then
              '(h, r, rng) ← insert fuel h this (m_left n) (Some nd) rng;
              h ← store_left h nd (Some r);
              n ← h !! nd;
              h ← store_size h nd (to_size_t (m_size n + 1));
              Some (h, nd, rng)
            else
              '(h, r, rng) ← insert fuel h this (m_right n) (Some nd) rng;
              h ← store_right h nd (Some r);
              n ← h !! nd;
              h ← store_size h nd (to_size_t (m_size n + 1));
              Some (h, nd, rng)
      end
  end.

(** [join(lesser, greater, rng)]. *)
Fixpoint join (fuel : nat) (h : heap) (lesser greater : option ptr) (rng : Rng)
    : option (heap * option ptr * Rng) :=
  match fuel with
  | O => None
  | S fuel =>
      match lesser, greater with
      | None, _ => Some (h, greater, rng)
      | _, None => Some (h, lesser, rng)
      | Some l, Some g =>
          nl ← h !! l; ng ← h !! g;
          let '(d, rng) := draw rng (to_size_t (m_size nl + m_size ng)) in
          if d <? m_size nl then
            sg ← size h greater;
            h ← store_size h l (to_size_t (m_size nl + sg));
            nl ← h !! l;
            '(h, j, rng) ← join fuel h (m_right nl) greater rng;
            h ← store_right h l j;
            nl ← h !! l; r ← m_right nl;
            h ← store_parent h r (Some l);
            Some (h, Some l, rng)
          else
            sl ← size h lesser;
            h ← store_size h g (to_size_t (m_size ng + sl));
            ng ← h !! g;
            '(h, j, rng) ← join fuel h lesser (m_left ng) rng;
            h ← store_left h g j;
            ng ← h !! g; l' ← m_left ng;
            h ← store_parent h l' (Some g);
            Some (h, Some g, rng)
      end
  end.

(** The loop that ends [erase]:
    [while (parent->m_parent) { parent = parent->m_parent; --parent->m_size; }
     return parent;] *)
Fixpoint erase_loop (fuel : nat) (h : heap) (parent : ptr) : option (heap * ptr) :=
  match fuel with
  | O => None
  | S fuel =>
      n ← h !! parent;
      match m_parent n with
      | Some p =>
          np ← h !! p;
          h ← store_size h p (to_size_t (m_size np - 1));
          erase_loop fuel h p
      | None => Some (h, parent)
      end
  end.

(** [this->erase(rng)]; returns the new root of the whole tree. *)
Definition erase (fuel : nat) (h : heap) (this : ptr) (rng : Rng)
    : option (heap * option ptr * Rng) :=
  n ← h !! this;
  let parent := m_parent n in
  '(h, child, rng) ← join fuel h (m_left n) (m_right n) rng;
  h ← store_right h this None;
  h ← store_left h this None;
  h ← store_parent h this None;
  h ← store_size h this 1;
  h ← match child with
      | Some c => store_parent h c parent
      | None => Some h
      end;
  match parent with
  | Some p =>
      np ← h !! p;
      h ← (if decide (m_left np = Some this) then store_left h p child
           else store_right h p child);
      np ← h !! p;
      h ← store_size h p (to_size_t (m_size np - 1));
      '(h, top) ← erase_loop fuel h p;
      Some (h, Some top, rng)
  | None => Some (h, child, rng)
  end.

(** ** The root holder [RbstTree] (RbstNode.h, lines 372-425) *)

(** [RbstTree(comp, tree)]: an [RbstNode(tree)] without a value. *)
Definition RbstTree_new (h : heap) (tree : option ptr) : option RbstNode :=
  construct h None tree None None.

(** [RbstTree::insert(node, rng)]:
    [++m_size; m_left = node.insert(m_left, this, *this, rng);] *)
Definition RbstTree_insert (fuel : nat) (h : heap) (this node : ptr) (rng : Rng)
    : option (heap * Rng) :=
  t ← h !! this;
  h ← store_size h this (to_size_t (m_size t + 1));
  t ← h !! this;
  '(h, r, rng) ← insert fuel h node (m_left t) (Some this) rng;
  h ← store_left h this (Some r);
  Some (h, rng).

Definition RbstTree_root (h : heap) (this : ptr) : option (option ptr) :=
  t ← h !! this; Some (m_left t).

Definition RbstTree_find (fuel : nat) (h : heap) (this : ptr) (v : V)
    : option (option ptr) :=
  r ← RbstTree_root h this; find fuel h r v (Some this).
Definition RbstTree_lower_bound (fuel : nat) (h : heap) (this : ptr) (v : V)
    : option (option ptr) :=
  r ← RbstTree_root h this; lower_bound fuel h r v (Some this).
Definition RbstTree_upper_bound (fuel : nat) (h : heap) (this : ptr) (v : V)
    : option (option ptr) :=
  r ← RbstTree_root h this; upper_bound fuel h r v (Some this).

End Model.

(** ** Shape trees: the abstraction of a pointer structure *)

(** The shape of a subtree: which node is where.  Sizes, parents and values
    stay in the heap. *)
Inductive tree : Type :=
  | Leaf : tree
  | Node (l : tree) (x : ptr) (r : tree) : tree.

(** The nodes of a subtree in set order (left subtree, node, right
    subtree); the position of a node in this list is its rank. *)
Fixpoint nodes (t : tree) : list ptr :=
  match t with
  | Leaf => []
  | Node l x r => nodes l ++ x :: nodes r
  end.

Definition root (t : tree) : option ptr :=
  match t with
  | Leaf => None
  | Node _ x _ => Some x
  end.

Fixpoint tsize (t : tree) : Z :=
  match t with
  | Leaf => 0
  | Node l _ r => 1 + tsize l + tsize r
  end.

Fixpoint height (t : tree) : nat :=
  match t with
  | Leaf => O
  | Node l _ r => S (Nat.max (height l) (height r))
  end.

(** A one-hole context, innermost frame first: the way from a subtree up to
    the root of the whole tree. *)
Inductive frame : Type :=
  | InLeft (p : ptr) (r : tree) : frame
  | InRight (l : tree) (p : ptr) : frame.

Fixpoint plug (c : list frame) (t : tree) : tree :=
  match c with
  | [] => t
  | InLeft p r :: c => plug c (Node t p r)
  | InRight l p :: c => plug c (Node l p t)
  end.

Definition ctx_parent (c : list frame) (top : option ptr) : option ptr :=
  match c with
  | [] => top
  | InLeft p _ :: _ => Some p
  | InRight _ p :: _ => Some p
  end.

(** The nodes before and after the hole, in set order. *)
Fixpoint ctx_before (c : list frame) : list ptr :=
  match c with
  | [] => []
  | InLeft _ _ :: c => ctx_before c
  | InRight l p :: c => ctx_before c ++ nodes l ++ [p]
  end.

(** The ancestors of the hole, innermost first. *)
Definition ctx_path (c : list frame) : list ptr :=
  map (λ f, match f with InLeft p _ => p | InRight _ p => p end) c.

Fixpoint ctx_after (c : list frame) : list ptr :=
  match c with
  | [] => []
  | InLeft p r :: c => p :: nodes r ++ ctx_after c
  | InRight _ _ :: c => ctx_after c
  end.

Section Abstraction.

Context {V : Type}.

Abbreviation heap := (gmap positive (@RbstNode V)).

(** [rep h t parent]: the heap holds the subtree of shape [t] below
    [parent], with the size invariant (I1) and the parent links (I2). *)
Fixpoint rep (h : heap) (t : tree) (parent : option ptr) : Prop :=
  match t with
  | Leaf => True
  | Node l x r =>
      (∃ v, h !! x = Some (mkRbstNode (root l) (root r) parent (tsize t) v))
      ∧ rep h l (Some x) ∧ rep h r (Some x)
  end.

(** The heap around a hole whose subtree has root [hole] and size [hs]. *)
Fixpoint rep_ctx (h : heap) (c : list frame) (hole : option ptr) (hs : Z)
    (top : option ptr) : Prop :=
  match c with
  | [] => True
  | InLeft p r :: c =>
      (∃ v, h !! p = Some (mkRbstNode hole (root r) (ctx_parent c top)
                             (1 + hs + tsize r) v))
      ∧ rep h r (Some p) ∧ rep_ctx h c (Some p) (1 + hs + tsize r) top
  | InRight l p :: c =>
      (∃ v, h !! p = Some (mkRbstNode (root l) hole (ctx_parent c top)
                             (1 + tsize l + hs) v))
      ∧ rep h l (Some p) ∧ rep_ctx h c (Some p) (1 + tsize l + hs) top
  end.

(** A well-formed tree: no node occurs twice, and the heap represents the
    shape. *)
Definition wf (h : heap) (t : tree) (parent : option ptr) : Prop :=
  NoDup (nodes t) ∧ rep h t parent.

(** Invariant I1 alone, as the specification words it: the size field of
    every node of the subtree is one more than the size fields of its
    children, an absent child counting 0. *)
Fixpoint sized (h : heap) (t : tree) : Prop :=
  match t with
  | Leaf => True
  | Node l x r =>
      (∃ n sl sr, h !! x = Some n ∧ m_left n = root l ∧ m_right n = root r
         ∧ size h (m_left n) = Some sl ∧ size h (m_right n) = Some sr
         ∧ m_size n = 1 + sl + sr)
      ∧ sized h l ∧ sized h r
  end.

Definition value (h : heap) (x : ptr) : option V :=
  n ← h !! x; m_value n.

(** The nodes of [l] are valued nodes. *)
Definition valued (h : heap) (l : list ptr) : Prop :=
  ∀ y, y ∈ l → is_Some (value h y).

(** [key] gives the values of the nodes of [l]. *)
Definition keyed (h : heap) (key : ptr -> V) (l : list ptr) : Prop :=
  ∀ y, y ∈ l → value h y = Some (key y).

End Abstraction.

(** ** The operations as the specification words them, on shapes *)

Section Spec.

Context {V : Type} (comp : V -> V -> bool).
Context {Rng : Type} (draw : Rng -> Z -> Z * Rng).

(** The ordering a comparator has to be (a strict weak ordering, as the
    standard containers require of their [Compare]). *)
Class StrictWeakOrder : Prop := {
  comp_asym : ∀ a b, comp a b = true → comp b a = false;
  comp_negtrans : ∀ a b c, comp a c = true → comp a b = true ∨ comp b c = true
}.

(** Equivalence of keys: neither is less than the other. *)
Definition equiv_key (a b : V) : Prop := comp a b = false ∧ comp b a = false.

(** [key x] is the value held by node [x]. *)
Context (key : ptr -> V).

(** Invariant I3: at every node, no key of the left subtree is greater and
    no key of the right subtree is less than the key of the node. *)
Fixpoint ordered (t : tree) : Prop :=
  match t with
  | Leaf => True
  | Node l x r =>
      (∀ y, y ∈ nodes l → comp (key x) (key y) = false)
      ∧ (∀ y, y ∈ nodes r → comp (key y) (key x) = false)
      ∧ ordered l ∧ ordered r
  end.

(** Split (4.1): the nodes not greater than the pivot, and the nodes
    greater than the pivot. *)
Fixpoint split_tree (pivot : ptr) (t : tree) : tree * tree :=
  match t with
  | Leaf => (Leaf, Leaf)
  | Node l x r =>
      if comp (key pivot) (key x)
      then let '(a, b) := split_tree pivot l in (a, Node b x r)
      else let '(a, b) := split_tree pivot r in (Node l x a, b)
  end.

(** Insert (4.3): at each visited node draw an integer below its size plus
    one; on 0 split here and make the new node the local root, otherwise
    continue in the child the comparison indicates. *)
Fixpoint insert_tree (new : ptr) (t : tree) (rng : Rng) : tree * Rng :=
  match t with
  | Leaf => (Node Leaf new Leaf, rng)
  | Node l x r =>
      let '(d, rng) := draw rng (tsize t + 1) in
      if d =? 0 then
        let '(a, b) := split_tree new t in (Node a new b, rng)
      else if comp (key new) (key x) then
        let '(l', rng) := insert_tree new l rng in (Node l' x r, rng)
      else
        let '(r', rng) := insert_tree new r rng in (Node l x r', rng)
  end.

(** Join (4.2): draw an integer below the sum of the sizes; below the size
    of [lesser] its root wins and [greater] is joined into its right child,
    otherwise the root of [greater] wins symmetrically. *)
Fixpoint join_tree (lesser : tree) : tree -> Rng -> tree * Rng :=
  fix join_lesser (greater : tree) (rng : Rng) {struct greater} : tree * Rng :=
    match lesser, greater with
    | Leaf, _ => (greater, rng)
    | _, Leaf => (lesser, rng)
    | Node ll x lr, Node gl y gr =>
        let '(d, rng) := draw rng (tsize lesser + tsize greater) in
        if d <? tsize lesser then
          let '(j, rng) := join_tree lr greater rng in (Node ll x j, rng)
        else
          let '(j, rng) := join_lesser gl rng in (Node j y gr, rng)
    end.

End Spec.

(** ** The invariants of the specification, read off the heap *)

Section Invariants.

Context {V : Type} (comp : V -> V -> bool).

Abbreviation heap := (gmap positive (@RbstNode V)).

(** [reachable h x y]: [y] is [x] or is reached from [x] through child
    links. *)
Inductive reachable (h : heap) (x : ptr) : ptr -> Prop :=
  | reachable_refl : reachable h x x
  | reachable_left y n z :
      reachable h x y → h !! y = Some n → m_left n = Some z → reachable h x z
  | reachable_right y n z :
      reachable h x y → h !! y = Some n → m_right n = Some z → reachable h x z.

(** I1: the size of a node is one more than the sizes of its subtrees. *)
Definition I1 (h : heap) (x : ptr) : Prop :=
  ∃ n sl sr, h !! x = Some n
    ∧ size h (m_left n) = Some sl ∧ size h (m_right n) = Some sr
    ∧ m_size n = 1 + sl + sr.

(** I2: the parent pointer of every child refers to the node holding it. *)
Definition I2 (h : heap) (x : ptr) : Prop :=
  ∃ n, h !! x = Some n
    ∧ ∀ c, m_left n = Some c ∨ m_right n = Some c →
           ∃ nc, h !! c = Some nc ∧ m_parent nc = Some x.

(** I3: no value of the left subtree is greater, no value of the right
    subtree is less than the value of the node. *)
Definition I3 (h : heap) (x : ptr) : Prop :=
  ∃ n v, h !! x = Some n ∧ m_value n = Some v
    ∧ (∀ c y, m_left n = Some c → reachable h c y →
              ∃ w, value h y = Some w ∧ comp v w = false)
    ∧ (∀ c y, m_right n = Some c → reachable h c y →
              ∃ w, value h y = Some w ∧ comp w v = false).

(** The values of the nodes as a total function, for a default [d]. *)
Definition key_of (h : heap) (d : V) (y : ptr) : V := default d (value h y).

(** The first node of a list that satisfies [P], or the fallback [res]. *)
Definition first_such (P : ptr -> bool) (l : list ptr) (res : option ptr)
    : option ptr :=
  match List.find P l with
  | Some y => Some y
  | None => res
  end.

(** The invariant of an [RbstTree] at address [this]: a well-formed tree of
    valued nodes below the root holder, in order; the size of the root
    holder is a [size_t]. *)
Definition RbstTree_rep (h : heap) (this : ptr) (t : tree) : Prop :=
  wf h (Node t this Leaf) None
  ∧ tsize (Node t this Leaf) < 2 ^ SIZE_BITS
  ∧ valued h (nodes t)
  ∧ ∀ d, ordered comp (key_of h d) t.

Context {Rng : Type} (draw : Rng -> Z -> Z * Rng).

(** The heaps an [RbstTree] at address [tree] goes through, from the empty
    tree on: nodes are allocated and released outside the tree, a valued
    node that is not in the tree is inserted, a node of the tree is erased.
    An insertion needs [++m_size] of the root holder not to wrap around. *)
Inductive tree_state (tree : ptr) : heap -> Prop :=
  | state_empty h n :
      RbstTree_new h None = Some n → h !! tree = Some n → tree_state tree h
  | state_allocate h node n v :
      tree_state tree h → h !! node = None →
      construct h (Some v) None None None = Some n →
      tree_state tree (<[node := n]> h)
  | state_release h node :
      tree_state tree h → ¬ reachable h tree node →
      tree_state tree (delete node h)
  | state_insert h node fuel rng h' rng' :
      tree_state tree h →
      is_Some (value h node) → ¬ reachable h tree node →
      (∃ s, size h (Some tree) = Some s ∧ s + 1 < 2 ^ SIZE_BITS) →
      RbstTree_insert comp draw fuel h tree node rng = Some (h', rng') →
      tree_state tree h'
  | state_erase h node fuel rng h' top rng' :
      tree_state tree h →
      reachable h tree node → node ≠ tree →
      erase draw fuel h node rng = Some (h', top, rng') →
      tree_state tree h'.

(** ** [RbstSetIterator] (RbstSet.h, lines 50-93) *)

(** An iterator is its [m_node]. *)
Definition iterator_index (fuel : nat) (h : heap) (m_node : option ptr)
    : option Z :=
  x ← m_node; index fuel h x.

(** [operator-(const RbstSetIterator &other)]:
    [(ptrdiff_t)index() - (ptrdiff_t)other.index()]. *)
Definition iterator_minus (fuel : nat) (h : heap) (it other : option ptr)
    : option Z :=
  i ← iterator_index fuel h it; j ← iterator_index fuel h other;
  Some (to_ptrdiff_t (to_ptrdiff_t i - to_ptrdiff_t j)).

(** ** [RbstSet] (RbstSet.h, lines 102-324) *)

(** The set object: the address of its [m_tree] member and its [m_rng];
    the nodes live in the heap. *)
Record RbstSet : Type := mkRbstSet { m_tree : ptr; m_rng : Rng }.

(** [m_node_alloc.allocate(1)]: the allocator picks an address. *)
Context (allocate : heap -> ptr).

Definition RbstSet_end (s : RbstSet) : option ptr := Some (m_tree s).

Definition RbstSet_find (fuel : nat) (h : heap) (s : RbstSet) (key : V)
    : option (option ptr) :=
  RbstTree_find comp fuel h (m_tree s) key.

Definition RbstSet_lower_bound (fuel : nat) (h : heap) (s : RbstSet) (key : V)
    : option (option ptr) :=
  RbstTree_lower_bound comp fuel h (m_tree s) key.

Definition RbstSet_upper_bound (fuel : nat) (h : heap) (s : RbstSet) (key : V)
    : option (option ptr) :=
  RbstTree_upper_bound comp fuel h (m_tree s) key.

(** [insert(const value_type &value)]; the result is the set, the position
    and the flag. *)
Definition RbstSet_insert (fuel : nat) (h : heap) (s : RbstSet) (value : V)
    : option (heap * RbstSet * (option ptr * bool)) :=
  node ← RbstTree_find comp fuel h (m_tree s) value;
  if decide (node ≠ Some (m_tree s)) then Some (h, s, (node, false))
  else
    let new_node := allocate h in
    n ← construct h (Some value) None None None;
    let h := <[new_node := n]> h in
    '(h, rng) ← RbstTree_insert comp draw fuel h (m_tree s) new_node (m_rng s);
    Some (h, mkRbstSet (m_tree s) rng, (Some new_node, true)).

(** [erase(iterator pos)]: the node is erased from the tree, destroyed and
    deallocated. *)
Definition RbstSet_erase_at (fuel : nat) (h : heap) (s : RbstSet)
    (pos : option ptr) : option (heap * RbstSet) :=
  node ← pos;
  '(h, _, rng) ← erase draw fuel h node (m_rng s);
  Some (delete node h, mkRbstSet (m_tree s) rng).

(** [erase(const key_type &key)]; the result is the set and the count. *)
Definition RbstSet_erase (fuel : nat) (h : heap) (s : RbstSet) (key : V)
    : option (heap * RbstSet * Z) :=
  it ← RbstSet_find fuel h s key;
  if decide (it = RbstSet_end s) then Some (h, s, 0)
  else
    '(h, s) ← RbstSet_erase_at fuel h s it;
    Some (h, s, 1).

(** The invariant of a set: the tree below the root holder, without two
    equivalent values. *)
Definition RbstSet_rep (h : heap) (s : RbstSet) (t : tree) : Prop :=
  RbstTree_rep h (m_tree s) t
  ∧ ∀ d a b, a ∈ nodes t → b ∈ nodes t →
             equiv_key comp (key_of h d a) (key_of h d b) → a = b.

End Invariants.

(** * A worked example

    A set of integers ordered by [<] with the default generator.  Node 1 is
    the root holder; the values 10, 20, 30 and 40 are inserted in this order
    in the nodes 2, 3, 4 and 5; node 6 is allocated with the value 25 and
    not inserted. *)

Definition ex_new (v : Z) : @RbstNode Z := mkRbstNode None None None 1 (Some v).

Definition ex_h0 : gmap positive (@RbstNode Z) :=
  {[ 1%positive := mkRbstNode None None None 1 None ]}.

(** The heap after [insert(10)]. *)
Definition ex_h1 : gmap positive (@RbstNode Z) :=
  list_to_map
    [(1%positive, mkRbstNode (Some 2%positive) None None 2 None);
     (2%positive, mkRbstNode None None (Some 1%positive) 1 (Some 10))].

(** The heap after [insert(20)]. *)
Definition ex_h2 : gmap positive (@RbstNode Z) :=
  list_to_map
    [(1%positive, mkRbstNode (Some 3%positive) None None 3 None);
     (2%positive, mkRbstNode None None (Some 3%positive) 1 (Some 10));
     (3%positive, mkRbstNode (Some 2%positive) None (Some 1%positive) 2 (Some 20))].

(** The heap after [insert(30)]. *)
Definition ex_h3 : gmap positive (@RbstNode Z) :=
  list_to_map
    [(1%positive, mkRbstNode (Some 4%positive) None None 4 None);
     (2%positive, mkRbstNode None None (Some 3%positive) 1 (Some 10));
     (3%positive, mkRbstNode (Some 2%positive) None (Some 4%positive) 2 (Some 20));
     (4%positive, mkRbstNode (Some 3%positive) None (Some 1%positive) 3 (Some 30))].

(** The heap after [insert(40)]. *)
Definition ex_h4 : gmap positive (@RbstNode Z) :=
  list_to_map
    [(1%positive, mkRbstNode (Some 4%positive) None None 5 None);
     (2%positive, mkRbstNode None None (Some 3%positive) 1 (Some 10));
     (3%positive, mkRbstNode (Some 2%positive) None (Some 4%positive) 2 (Some 20));
     (4%positive, mkRbstNode (Some 3%positive) (Some 5%positive) (Some 1%positive)
                    4 (Some 30));
     (5%positive, mkRbstNode None None (Some 4%positive) 1 (Some 40))].

(** The states of the generator after the insertions. *)
Definition ex_rng2 : Z := 1015568748.
Definition ex_rng3 : Z := 1586005467.
Definition ex_rng4 : Z := 2165703038.

(** Node 6 is allocated. *)
Definition ex_heap : gmap positive (@RbstNode Z) := <[6%positive := ex_new 25]> ex_h4.

(** The shape of the tree below the root holder, and with it. *)
Definition ex_tree : tree :=
  Node (Node (Node Leaf 2%positive Leaf) 3%positive Leaf) 4%positive
       (Node Leaf 5%positive Leaf).
Definition ex_holder : tree := Node ex_tree 1%positive Leaf.

(** The values of the nodes. *)
Definition ex_key : positive → Z := key_of ex_heap 0.

(** The set, and an allocator that picks the address after the last one in
    use. *)
Definition ex_set : @RbstSet Z := mkRbstSet 1%positive ex_rng4.
Definition ex_allocate (h : gmap positive (@RbstNode Z)) : positive :=
  Pos.succ (map_fold (λ k _ m, Pos.max k m) 1%positive h).

(** * The rest of the iterator and of the set (RbstSet.h) *)

Section Iterator.

Context {V : Type}.

Abbreviation heap := (gmap positive (@RbstNode V)).

(** [operator++] and [operator--]: [m_node = m_node->next()],
    [m_node = m_node->previous()]. *)
Definition iterator_next (fuel : nat) (h : heap) (m_node : option ptr)
    : option (option ptr) :=
  x ← m_node; next fuel h x.
Definition iterator_previous (fuel : nat) (h : heap) (m_node : option ptr)
    : option (option ptr) :=
  x ← m_node; previous fuel h x.

(** [operator+(ptrdiff_t n)] and [operator-(ptrdiff_t n)]:
    [m_node->offset(+n)], [m_node->offset(-n)]. *)
Definition iterator_plus (fuel : nat) (h : heap) (m_node : option ptr) (n : Z)
    : option (option ptr) :=
  x ← m_node; offset fuel h x n.
Definition iterator_sub (fuel : nat) (h : heap) (m_node : option ptr) (n : Z)
    : option (option ptr) :=
  x ← m_node; offset fuel h x (to_ptrdiff_t (- n)).

(** The comparisons: [==] compares the nodes, [<] and [>] the indices, [<=]
    and [>=] the nodes first and then the indices. *)
Definition iterator_eq (it other : option ptr) : bool :=
  bool_decide (it = other).
Definition iterator_lt (fuel : nat) (h : heap) (it other : option ptr)
    : option bool :=
  i ← iterator_index fuel h it; j ← iterator_index fuel h other; Some (i <? j).
Definition iterator_gt (fuel : nat) (h : heap) (it other : option ptr)
    : option bool :=
  i ← iterator_index fuel h it; j ← iterator_index fuel h other; Some (j <? i).
Definition iterator_le (fuel : nat) (h : heap) (it other : option ptr)
    : option bool :=
  if decide (it = other) then Some true
  else i ← iterator_index fuel h it; j ← iterator_index fuel h other;
       Some (i <=? j).
Definition iterator_ge (fuel : nat) (h : heap) (it other : option ptr)
    : option bool :=
  if decide (it = other) then Some true
  else i ← iterator_index fuel h it; j ← iterator_index fuel h other;
       Some (j <=? i).

(** The dereference operator: the value of the node, which has to be a
    valued node; and the subscript operator with [ptrdiff_t n]: the
    dereference of [this + n]. *)
Definition iterator_deref (h : heap) (m_node : option ptr) : option V :=
  x ← m_node; value h x.
Definition iterator_at (fuel : nat) (h : heap) (m_node : option ptr) (n : Z)
    : option V :=
  it ← iterator_plus fuel h m_node n; iterator_deref h it.

End Iterator.

Section SetMore.

Context {V : Type} (comp : V -> V -> bool).
Context {Rng : Type}.

Abbreviation heap := (gmap positive (@RbstNode V)).

(** [begin()]: [m_tree.first()]. *)
Definition RbstSet_begin (fuel : nat) (h : heap) (s : @RbstSet Rng)
    : option (option ptr) :=
  x ← first fuel h (m_tree s); Some (Some x).

(** [empty()]: [m_tree.root() == NULL]; [size()]: [m_tree.size() - 1]. *)
Definition RbstSet_empty (h : heap) (s : @RbstSet Rng) : option bool :=
  r ← RbstTree_root h (m_tree s); Some (bool_decide (r = None)).
Definition RbstSet_size (h : heap) (s : @RbstSet Rng) : option Z :=
  n ← size h (Some (m_tree s)); Some (to_size_t (n - 1)).

(** [equal_range(key)]:
    [lo = lower_bound(key), hi = lo;
     if (hi != end() && !m_tree.comp()(key, *hi)) ++hi;] *)
Definition RbstSet_equal_range (fuel : nat) (h : heap) (s : @RbstSet Rng)
    (key : V) : option (option ptr * option ptr) :=
  lo ← RbstSet_lower_bound comp fuel h s key;
  if decide (lo ≠ RbstSet_end s) then
    v ← iterator_deref h lo;
    if negb (comp key v) then hi ← iterator_next fuel h lo; Some (lo, hi)
    else Some (lo, lo)
  else Some (lo, lo).

End SetMore.

Section TreeMore.

Context {V : Type}.

Abbreviation heap := (gmap positive (@RbstNode V)).

(** [RbstTree::set_root(node)]:
    [if (node) node->m_parent = this; m_left = node; m_size = 1 + size(node);] *)
Definition RbstTree_set_root (h : heap) (this : ptr) (node : option ptr)
    : option heap :=
  h ← match node with
      | Some x => store_parent h x (Some this)
      | None => Some h
      end;
  h ← store_left h this node;
  sn ← size h node;
  store_size h this (to_size_t (1 + sn)).

(** [RbstTree::swap(other)]: [m_left] and [m_size] are exchanged, and the
    roots get their new root holders as parents.  The comparator objects,
    which are exchanged too, are not part of the heap: the ordering is a
    parameter of the model. *)
Definition RbstTree_swap (h : heap) (this other : ptr) : option heap :=
  t ← h !! this; o ← h !! other;
  h ← store_left h this (m_left o);
  h ← store_left h other (m_left t);
  h ← store_size h this (m_size o);
  h ← store_size h other (m_size t);
  t ← h !! this;
  h ← match m_left t with
      | Some l => store_parent h l (Some this)
      | None => Some h
      end;
  o ← h !! other;
  match m_left o with
  | Some l => store_parent h l (Some other)
  | None => Some h
  end.

End TreeMore.

Section SetStorage.

Context {V : Type} (comp : V -> V -> bool).
Context {Rng : Type} (draw : Rng -> Z -> Z * Rng).

Abbreviation heap := (gmap positive (@RbstNode V)).

Context (allocate : heap -> ptr).

(** The constructor of an empty set whose [m_tree] is at [this]:
    [m_tree(comp)], [m_rng(rng)]. *)
Definition RbstSet_new (h : heap) (this : ptr) (rng : Rng)
    : option (heap * @RbstSet Rng) :=
  n ← RbstTree_new h None;
  Some (<[this := n]> h, mkRbstSet this rng).

(** [free(node)]: the nodes of the subtree are destroyed and deallocated,
    children first. *)
Fixpoint RbstSet_free (fuel : nat) (h : heap) (node : option ptr)
    : option heap :=
  match fuel with
  | O => None
  | S fuel =>
      match node with
      | None => Some h
      | Some x =>
          n ← h !! x;
          h ← RbstSet_free fuel h (m_left n);
          n ← h !! x;
          h ← RbstSet_free fuel h (m_right n);
          _ ← h !! x;
          Some (delete x h)
      end
  end.

(** [clear()]: [free(m_tree.root()); m_tree.set_root(NULL);] *)
Definition RbstSet_clear (fuel : nat) (h : heap) (s : @RbstSet Rng)
    : option heap :=
  r ← RbstTree_root h (m_tree s);
  h ← RbstSet_free fuel h r;
  RbstTree_set_root h (m_tree s) None.

(** [insert(first, last)]: [while (first != last) insert( *first++ );],
    the input range being the list of its values. *)
Fixpoint RbstSet_insert_range (fuel : nat) (h : heap) (s : @RbstSet Rng)
    (values : list V) : option (heap * @RbstSet Rng) :=
  match values with
  | [] => Some (h, s)
  | value :: values =>
      '(h, s, _) ← RbstSet_insert comp draw allocate fuel h s value;
      RbstSet_insert_range fuel h s values
  end.

(** The constructor from a range: the empty set, then [insert(first, last)]. *)
Definition RbstSet_new_range (fuel : nat) (h : heap) (this : ptr) (rng : Rng)
    (values : list V) : option (heap * @RbstSet Rng) :=
  '(h, s) ← RbstSet_new h this rng;
  RbstSet_insert_range fuel h s values.

(** [erase(first, last)]: [while (first != last) erase(first++);] where
    [first++] moves [first] on before its old position is erased; [steps]
    bounds the iterations of the loop. *)
Fixpoint RbstSet_erase_range (steps fuel : nat) (h : heap) (s : @RbstSet Rng)
    (first last : option ptr) : option (heap * @RbstSet Rng) :=
  match steps with
  | O => None
  | S steps =>
      if decide (first ≠ last) then
        next ← iterator_next fuel h first;
        '(h, s) ← RbstSet_erase_at draw fuel h s first;
        RbstSet_erase_range steps fuel h s next last
      else Some (h, s)
  end.

(** [swap(that)]: [if (this != &that) m_tree.swap(that.m_tree);] the
    allocators are exchanged too, the generators are not. *)
Definition RbstSet_swap (h : heap) (s that : @RbstSet Rng) : option heap :=
  if decide (m_tree s ≠ m_tree that)
  then RbstTree_swap h (m_tree s) (m_tree that)
  else Some h.

(** Storage that is allocated and not yet constructed holds an
    indeterminate node. *)
Context (indeterminate : @RbstNode V).

(** [clone(node, parent)]: the copy is allocated, then constructed from the
    value of [node] and the clones of its children.  The two recursive
    calls are arguments of the constructor, and C++ does not say which is
    evaluated first: [left_first] chooses. *)
Fixpoint RbstSet_clone (left_first : bool) (fuel : nat) (h : heap)
    (node parent : option ptr) : option (heap * option ptr) :=
  match fuel with
  | O => None
  | S fuel =>
      match node with
      | None => Some (h, None)
      | Some x =>
          n ← h !! x;
          let copy := allocate h in
          let h := <[copy := indeterminate]> h in
          v ← m_value n;
          '(h, l, r) ←
            (if left_first then
               '(h, l) ← RbstSet_clone left_first fuel h (m_left n) (Some copy);
               '(h, r) ← RbstSet_clone left_first fuel h (m_right n) (Some copy);
               Some (h, l, r)
             else
               '(h, r) ← RbstSet_clone left_first fuel h (m_right n) (Some copy);
               '(h, l) ← RbstSet_clone left_first fuel h (m_left n) (Some copy);
               Some (h, l, r));
          c ← construct h (Some v) l r parent;
          Some (<[copy := c]> h, Some copy)
      end
  end.

(** The copy constructor, for a new set whose [m_tree] is at [this]:
    [m_tree(that.m_tree.comp())], [m_rng(that.m_rng)], and then
    [m_tree.set_root(clone(that.m_tree.root()))]. *)
Definition RbstSet_copy (left_first : bool) (fuel : nat) (h : heap)
    (this : ptr) (that : @RbstSet Rng) : option (heap * @RbstSet Rng) :=
  n ← RbstTree_new h None;
  let h := <[this := n]> h in
  r ← RbstTree_root h (m_tree that);
  '(h, c) ← RbstSet_clone left_first fuel h r None;
  h ← RbstTree_set_root h this c;
  Some (h, mkRbstSet this (m_rng that)).

(** The assignment operator:
    [if (this != &that) { clear(); m_tree.set_comp(that.m_tree.comp());
     m_tree.set_root(clone(that.m_tree.root())); }] *)
Definition RbstSet_assign (left_first : bool) (fuel : nat) (h : heap)
    (s that : @RbstSet Rng) : option heap :=
  if decide (m_tree s ≠ m_tree that) then
    h ← RbstSet_clear fuel h s;
    r ← RbstTree_root h (m_tree that);
    '(h, c) ← RbstSet_clone left_first fuel h r None;
    RbstTree_set_root h (m_tree s) c
  else Some h.

End SetStorage.

(** * The checks of RbstCheck.h *)

Section Check.

Context {V : Type} (comp : V -> V -> bool).

Abbreviation heap := (gmap positive (@RbstNode V)).

(** [rbst_check_structure(node, parent, index, os)]; the messages written to
    [os] are left out, [index] only serves them. *)
Fixpoint rbst_check_structure (fuel : nat) (h : heap) (node parent : option ptr)
    (index : Z) : option bool :=
  match fuel with
  | O => None
  | S fuel =>
      match node with
      | None => Some true
      | Some x =>
          n ← h !! x;
          let left := m_left n in
          let right := m_right n in
          ok ← match left with
               | Some _ => rbst_check_structure fuel h left node index
               | None => Some true
               end;
          if negb ok then Some false
          else
            sl ← size h left; sr ← size h right;
            let node_index := to_size_t (index + sl) in
            let node_size := to_size_t (to_size_t (1 + sl) + sr) in
            if decide (m_parent n ≠ parent) then Some false
            else if decide (m_size n ≠ node_size) then Some false
            else
              match right with
              | Some _ =>
                  ok ← rbst_check_structure fuel h right node
                         (to_size_t (node_index + 1));
                  Some ok
              | None => Some true
              end
      end
  end.

(** [rbst_check_values(node, comp, index, os)]. *)
Fixpoint rbst_check_values (fuel : nat) (h : heap) (node : option ptr)
    (index : Z) : option bool :=
  match fuel with
  | O => None
  | S fuel =>
      match node with
      | None => Some true
      | Some x =>
          n ← h !! x;
          let left := m_left n in
          let right := m_right n in
          ok ← match left with
               | Some _ => rbst_check_values fuel h left index
               | None => Some true
               end;
          if negb ok then Some false
          else
            sl ← size h left;
            let node_index := to_size_t (index + sl) in
            bad_left ← match left with
                       | Some l =>
                           v ← m_value n; vl ← value h l; Some (comp v vl)
                       | None => Some false
                       end;
            if bad_left : bool then Some false
            else
              bad_right ← match right with
                          | Some r =>
                              vr ← value h r; v ← m_value n; Some (comp vr v)
                          | None => Some false
                          end;
              if bad_right : bool then Some false
              else
                match right with
                | Some _ =>
                    rbst_check_values fuel h right (to_size_t (node_index + 1))
                | None => Some true
                end
      end
  end.

(** [rbst_max_depth(node)], a [size_t]. *)
Fixpoint rbst_max_depth (fuel : nat) (h : heap) (node : option ptr) : option Z :=
  match fuel with
  | O => None
  | S fuel =>
      match node with
      | None => Some 0
      | Some x =>
          n ← h !! x;
          dl ← rbst_max_depth fuel h (m_left n);
          dr ← rbst_max_depth fuel h (m_right n);
          Some (to_size_t (1 + Z.max dl dr))
      end
  end.

(** [rbst_total_depth(node, depth)], an [unsigned long long]. *)
Fixpoint rbst_total_depth (fuel : nat) (h : heap) (node : option ptr) (depth : Z)
    : option Z :=
  match fuel with
  | O => None
  | S fuel =>
      match node with
      | None => Some 0
      | Some x =>
          n ← h !! x;
          tl ← rbst_total_depth fuel h (m_left n) (to_size_t (depth + 1));
          tr ← rbst_total_depth fuel h (m_right n) (to_size_t (depth + 1));
          Some (to_size_t (to_size_t (to_size_t (1 + depth) + tl) + tr))
      end
  end.

End Check.

(** [copy_of h h' t t']: the shape [t'] in the heap [h'] is the shape [t]
    in the heap [h] with the same values at other addresses. *)
Fixpoint copy_of {V : Type} (h h' : gmap positive (@RbstNode V))
    (t t' : tree) : Prop :=
  match t, t' with
  | Leaf, Leaf => True
  | Node l x r, Node l' x' r' =>
      value h' x' = value h x ∧ copy_of h h' l l' ∧ copy_of h h' r r'
  | _, _ => False
  end.

(** What [clone] leaves: the copy [t'] of [t] is represented below
    [parent] in the new heap [h'], its nodes are new, and the heap [h] is
    still there. *)
Definition cloned {V : Type} (h h' : gmap positive (@RbstNode V))
    (t t' : tree) (parent : option ptr) : Prop :=
  rep h' t' parent ∧ copy_of h h' t t' ∧ NoDup (nodes t')
  ∧ (∀ y, y ∈ nodes t' → h !! y = None)
  ∧ (∀ y, is_Some (h !! y) → h' !! y = h !! y).

(** The sum of the depths of the nodes of a shape, the root being at depth
    [depth + 1]. *)
Fixpoint total_depth (t : tree) (depth : Z) : Z :=
  match t with
  | Leaf => 0
  | Node l x r =>
      (1 + depth) + total_depth l (depth + 1) + total_depth r (depth + 1)
  end.

(** [rep_size_t h t parent]: the heap holds the subtree of shape [t] below
    [parent] as [rep] says, the size fields being those of [size_t]
    arithmetic: the size of the subtree modulo [2^64]. *)
Fixpoint rep_size_t {V : Type} (h : gmap positive (@RbstNode V)) (t : tree)
    (parent : option positive) : Prop :=
  match t with
  | Leaf => True
  | Node l x r =>
      (∃ v, h !! x = Some (mkRbstNode (root l) (root r) parent
                             (to_size_t (tsize t)) v))
      ∧ rep_size_t h l (Some x) ∧ rep_size_t h r (Some x)
  end.

(** A shape is in order locally when no node is less than its left child
    and no right child is less than its node. *)
Fixpoint locally_ordered {V : Type} (comp : V -> V -> bool)
    (key : positive -> V) (t : tree) : Prop :=
  match t with
  | Leaf => True
  | Node l x r =>
      locally_ordered comp key l
      ∧ (∀ y, root l = Some y → comp (key x) (key y) = false)
      ∧ (∀ y, root r = Some y → comp (key y) (key x) = false)
      ∧ locally_ordered comp key r
  end.

(** A tree that is not in order: 10 at the root (node 1), 5 as its left
    child (node 2), 20 as the right child of 5 (node 3). *)
Definition ex_unordered_heap : gmap positive (@RbstNode Z) :=
  list_to_map
    [(1%positive, mkRbstNode (Some 2%positive) None None 3 (Some 10));
     (2%positive, mkRbstNode None (Some 3%positive) (Some 1%positive) 2 (Some 5));
     (3%positive, mkRbstNode None None (Some 2%positive) 1 (Some 20))].
Definition ex_unordered_tree : tree :=
  Node (Node Leaf 2%positive (Node Leaf 3%positive Leaf)) 1%positive Leaf.

(** A second set in the heap of the example: its root holder is node 10 and
    its one element, 7, is in node 11. *)
Definition ex_heap2 : gmap positive (@RbstNode Z) :=
  <[10%positive := mkRbstNode (Some 11%positive) None None 2 None]>
    (<[11%positive := mkRbstNode None None (Some 10%positive) 1 (Some 7)]>
       ex_heap).
Definition ex_set2 : @RbstSet Z := mkRbstSet 10%positive 1.
Definition ex_tree2 : tree := Node Leaf 11%positive Leaf.

(** The content of storage that is not constructed, in the example. *)
Definition ex_indeterminate : @RbstNode Z := mkRbstNode None None None 0 None.

(** * Properties *)

Section Basics.

Context {V : Type}.

Abbreviation heap := (gmap positive (@RbstNode V)).

(** ** Basic facts on shapes *)

Lemma tsize_nodes t : tsize t = Z.of_nat (length (nodes t)).
Proof.
  induction t as [|l IHl x r IHr]; simpl; [done|].
  rewrite length_app. simpl. lia.
Qed.

Lemma tsize_nonneg t : 0 <= tsize t.
Proof. rewrite tsize_nodes. lia. Qed.

Lemma tsize_root_None t : root t = None → tsize t = 0.
Proof. by destruct t. Qed.

Lemma tsize_pos l x r : 0 < tsize (Node l x r).
Proof. simpl. pose proof (tsize_nonneg l). pose proof (tsize_nonneg r). lia. Qed.

Lemma root_elem t x : root t = Some x → x ∈ nodes t.
Proof. destruct t; simpl; [done|]. intros [= ->]. set_solver. Qed.

Lemma plug_app c1 c2 t : plug (c1 ++ c2) t = plug c2 (plug c1 t).
Proof.
  revert t. induction c1 as [|[p r|l p] c1 IH]; intros t; simpl; auto.
Qed.

Lemma nodes_plug c t :
  nodes (plug c t) = ctx_before c ++ nodes t ++ ctx_after c.
Proof.
  revert t. induction c as [|[p r|l p] c IH]; intros t; simpl.
  - by rewrite app_nil_r.
  - rewrite IH. simpl. by rewrite <- !app_assoc.
  - rewrite IH. simpl. rewrite <- !app_assoc. simpl. done.
Qed.

Lemma ctx_before_app c1 c2 :
  ctx_before (c1 ++ c2) = ctx_before c2 ++ ctx_before c1.
Proof.
  induction c1 as [|[p r|l p] c1 IH]; simpl.
  - by rewrite app_nil_r.
  - done.
  - rewrite IH. by rewrite <- !app_assoc.
Qed.

Lemma ctx_after_app c1 c2 :
  ctx_after (c1 ++ c2) = ctx_after c1 ++ ctx_after c2.
Proof.
  induction c1 as [|[p r|l p] c1 IH]; simpl; [done| |done].
  rewrite IH. by rewrite <- !app_assoc.
Qed.

(** Every position of the set order is the root of a subtree in a context. *)
Lemma nodes_lookup_plug t i x :
  nodes t !! i = Some x →
  ∃ c l r, t = plug c (Node l x r)
           ∧ i = (length (ctx_before c) + length (nodes l))%nat.
Proof.
  revert i. induction t as [|tl IHl y tr IHr]; intros i; simpl; [done|].
  intros Hi.
  destruct (decide (i < length (nodes tl))%nat) as [Hlt|Hge].
  - rewrite lookup_app_l in Hi by done.
    destruct (IHl _ Hi) as (c & l & r & -> & ->).
    exists (c ++ [InLeft y tr]), l, r. split.
    + by rewrite plug_app.
    + rewrite ctx_before_app. simpl. done.
  - rewrite lookup_app_r in Hi by lia.
    destruct (i - length (nodes tl))%nat as [|j] eqn:Hj; simpl in Hi.
    + injection Hi as ->. exists [], tl, tr. split; [done|]. simpl. lia.
    + destruct (IHr _ Hi) as (c & l & r & -> & ->).
      exists (c ++ [InRight tl y]), l, r. split.
      * by rewrite plug_app.
      * rewrite ctx_before_app. simpl. rewrite !length_app. simpl. lia.
Qed.

Lemma elem_of_nodes_plug t x :
  x ∈ nodes t → ∃ c l r, t = plug c (Node l x r).
Proof.
  intros Hx. apply list_elem_of_lookup in Hx as [i Hi].
  destruct (nodes_lookup_plug _ _ _ Hi) as (c & l & r & ? & _). eauto.
Qed.

(** ** Basic facts on the representation *)

Lemma rep_frame (h h' : heap) t parent :
  (∀ y, y ∈ nodes t → h' !! y = h !! y) → rep h t parent → rep h' t parent.
Proof.
  revert parent. induction t as [|l IHl x r IHr]; intros parent Hf; simpl; [done|].
  intros ([v Hx] & Hl & Hr). split_and!.
  - exists v. rewrite Hf; [done|]. simpl. set_solver.
  - apply IHl; [|done]. intros y Hy. apply Hf. simpl. set_solver.
  - apply IHr; [|done]. intros y Hy. apply Hf. simpl. set_solver.
Qed.

Lemma rep_Node_intro (h : heap) l x r parent v :
  h !! x = Some (mkRbstNode (root l) (root r) parent (tsize (Node l x r)) v) →
  rep h l (Some x) → rep h r (Some x) → rep h (Node l x r) parent.
Proof. intros Hx Hl Hr. split; [by exists v|done]. Qed.

Lemma rep_is_Some (h : heap) t parent x : rep h t parent → x ∈ nodes t → is_Some (h !! x).
Proof.
  revert parent. induction t as [|l IHl y r IHr]; intros parent; simpl.
  - intros _ Hx. by apply elem_of_nil in Hx.
  - intros ([v Hy] & Hl & Hr) Hx.
    apply elem_of_app in Hx as [Hx|Hx]; [by eapply IHl|].
    apply elem_of_cons in Hx as [->|Hx]; [by eexists|by eapply IHr].
Qed.

Lemma rep_size (h : heap) t parent : rep h t parent → size h (root t) = Some (tsize t).
Proof.
  destruct t as [|l x r]; [done|]. intros ([v Hx] & _). simpl.
  by rewrite Hx.
Qed.

Lemma rep_plug (h : heap) c t top :
  rep h (plug c t) top ↔
  rep h t (ctx_parent c top) ∧ rep_ctx h c (root t) (tsize t) top.
Proof.
  revert t. induction c as [|[p r|l p] c IH]; intros t; simpl.
  - tauto.
  - rewrite IH. simpl. tauto.
  - rewrite IH. simpl. tauto.
Qed.

Lemma rep_sized (h : heap) t parent : rep h t parent → sized h t.
Proof.
  revert parent. induction t as [|l IHl x r IHr]; intros parent; simpl; [done|].
  intros ([v Hx] & Hl & Hr). split_and!; [|by eapply IHl|by eapply IHr].
  eexists _, (tsize l), (tsize r). split; [exact Hx|]. simpl.
  split_and!; try done; by eapply rep_size.
Qed.

Lemma sized_size (h : heap) t : sized h t → size h (root t) = Some (tsize t).
Proof.
  induction t as [|l IHl x r IHr]; simpl; [done|].
  intros ((n & sl & sr & Hx & Hnl & Hnr & Hsl & Hsr & Hs) & Hl & Hr).
  rewrite Hx. simpl. rewrite Hnl, (IHl Hl) in Hsl. rewrite Hnr, (IHr Hr) in Hsr.
  congruence.
Qed.

End Basics.

(** ** Machine arithmetic *)

Lemma to_size_t_small z : 0 <= z < 2 ^ SIZE_BITS → to_size_t z = z.
Proof. intros Hz. unfold to_size_t. by apply Z.mod_small. Qed.

Lemma to_ptrdiff_t_small z :
  - 2 ^ (SIZE_BITS - 1) <= z < 2 ^ (SIZE_BITS - 1) → to_ptrdiff_t z = z.
Proof.
  intros Hz. unfold to_ptrdiff_t.
  rewrite Z.mod_small; [lia|]. unfold SIZE_BITS in *. simpl in *. lia.
Qed.

Lemma size_sum3 a b :
  0 <= a → 0 <= b → 1 + a + b < 2 ^ SIZE_BITS →
  to_size_t (to_size_t (1 + a) + b) = 1 + a + b.
Proof. intros. rewrite (to_size_t_small (1 + a)) by lia. apply to_size_t_small. lia. Qed.

(** ** Descending: [at], [first], [last] *)

Section Descent.

Context {V : Type}.

Abbreviation heap := (gmap positive (@RbstNode V)).

Lemma at_sized (h : heap) t : ∀ fuel x i,
  sized h t → root t = Some x →
  0 <= i < tsize t → i < 2 ^ SIZE_BITS → (height t <= fuel)%nat →
  at_ fuel h x i = nodes t !! Z.to_nat i.
Proof.
  induction t as [|l IHl y r IHr]; intros fuel x i Hs Hroot Hi Hi64 Hfuel;
    [done|].
  simpl in Hroot. injection Hroot as ->.
  pose proof (sized_size _ _ Hs) as Hsz.
  destruct Hs as ((n & sl & sr & Hx & Hnl & Hnr & Hsl & Hsr & Hsize) & Hl & Hr).
  pose proof (sized_size _ _ Hl) as Hszl. pose proof (sized_size _ _ Hr) as Hszr.
  rewrite <- Hnl, Hsl in Hszl. rewrite <- Hnr, Hsr in Hszr.
  injection Hszl as ->. injection Hszr as ->.
  pose proof (tsize_nonneg l). pose proof (tsize_nonneg r).
  simpl in Hi, Hfuel. destruct fuel as [|fuel]; [lia|].
  simpl. rewrite Hx. simpl. rewrite Hsl. simpl.
  pose proof (tsize_nodes l) as Hlen.
  destruct (Z.ltb_spec i (tsize l)) as [Hlt|Hge].
  - rewrite Hnl. destruct l as [|ll z lr]; [simpl in *; lia|]. simpl root. simpl mbind.
    rewrite (IHl fuel z i); [|done|done|lia|done|lia].
    rewrite lookup_app_l; [done|]. lia.
  - destruct (Z.ltb_spec (tsize l) i) as [Hgt|Hle].
    + rewrite Hnr. destruct r as [|rl z rr]; [simpl in *; lia|]. simpl root. simpl mbind.
      rewrite (to_size_t_small (i - tsize l)) by lia.
      rewrite (to_size_t_small (i - tsize l - 1)) by lia.
      rewrite (IHr fuel z (i - tsize l - 1)); [|done|done|simpl in *; lia|lia|lia].
      rewrite lookup_app_r by lia.
      replace (Z.to_nat i - length (nodes l))%nat
        with (S (Z.to_nat (i - tsize l - 1))) by lia.
      done.
    + assert (Z.to_nat i = length (nodes l)) as -> by lia.
      by rewrite list_lookup_middle.
Qed.

Lemma first_rep (h : heap) t : ∀ fuel parent x,
  rep h t parent → root t = Some x → (height t <= fuel)%nat →
  first fuel h x = head (nodes t).
Proof.
  induction t as [|l IHl y r IHr]; intros fuel parent x Hrep Hroot Hfuel; [done|].
  simpl in Hroot. injection Hroot as ->.
  destruct Hrep as ([v Hx] & Hl & Hr).
  simpl in Hfuel. destruct fuel as [|fuel]; [lia|].
  simpl. rewrite Hx. simpl.
  destruct l as [|ll z lr]; [done|]. cbn [root].
  rewrite (IHl fuel (Some x) z); [|done|done|lia].
  simpl. by destruct (nodes ll).
Qed.

Lemma last_app_nonempty {A} (l1 : list A) y l2 :
  list.last (l1 ++ y :: l2) = list.last (y :: l2).
Proof.
  induction l1 as [|a l1 IH]; [done|].
  simpl. rewrite <- IH. by destruct l1.
Qed.

Lemma last_cons_app_cons {A} (x : A) l1 y l2 :
  list.last (x :: l1 ++ y :: l2) = list.last (y :: l2).
Proof. by rewrite app_comm_cons, last_app_nonempty. Qed.

Lemma last_rep (h : heap) t : ∀ fuel parent x,
  rep h t parent → root t = Some x → (height t <= fuel)%nat →
  last fuel h x = list.last (nodes t).
Proof.
  induction t as [|l IHl y r IHr]; intros fuel parent x Hrep Hroot Hfuel; [done|].
  simpl in Hroot. injection Hroot as ->.
  destruct Hrep as ([v Hx] & Hl & Hr).
  simpl in Hfuel. destruct fuel as [|fuel]; [lia|].
  simpl. rewrite Hx. simpl.
  destruct r as [|rl z rr].
  - simpl. by rewrite last_snoc.
  - cbn [root]. rewrite (IHr fuel (Some x) z); [|done|done|lia].
    cbn [nodes]. by rewrite (last_app_nonempty (nodes l)), (last_app_nonempty (nodes rl)),
      last_cons_app_cons.
Qed.

End Descent.

(** ** Climbing: contexts *)

Lemma height_plug c t : (length c + height t <= height (plug c t))%nat.
Proof.
  revert t. induction c as [|[p r|l p] c IH]; intros t; simpl; [lia| |].
  - specialize (IH (Node t p r)). simpl in IH. lia.
  - specialize (IH (Node l p t)). simpl in IH. lia.
Qed.

Lemma tsize_plug c t :
  tsize (plug c t)
  = Z.of_nat (length (ctx_before c)) + tsize t + Z.of_nat (length (ctx_after c)).
Proof. rewrite !tsize_nodes, nodes_plug, !length_app. lia. Qed.

Lemma tsize_plug_le c t : tsize t <= tsize (plug c t).
Proof. rewrite !tsize_nodes, nodes_plug, !length_app. lia. Qed.

Lemma NoDup_plug_sub c t : NoDup (nodes (plug c t)) → NoDup (nodes t).
Proof.
  rewrite nodes_plug. intros H%NoDup_app. destruct H as (_ & _ & H).
  apply NoDup_app in H. tauto.
Qed.

Lemma NoDup_Node l x r :
  NoDup (nodes (Node l x r)) →
  NoDup (nodes l) ∧ NoDup (nodes r) ∧ (x ∉ nodes l) ∧ (x ∉ nodes r)
  ∧ (∀ y, y ∈ nodes l → y ∉ nodes r).
Proof.
  simpl. intros H%NoDup_app. destruct H as (Hl & Hd & H).
  apply NoDup_cons in H as [Hx Hr]. split_and!; try done.
  - intros Hxl. apply (Hd _ Hxl). set_solver.
  - intros y Hy Hyr. apply (Hd _ Hy). set_solver.
Qed.

Lemma elem_Node y l x r :
  y ∈ nodes (Node l x r) ↔ y ∈ nodes l ∨ y = x ∨ y ∈ nodes r.
Proof. simpl. rewrite elem_of_app, elem_of_cons. tauto. Qed.

Lemma not_elem_Node y l x r :
  y ∉ nodes (Node l x r) ↔ (y ∉ nodes l) ∧ y ≠ x ∧ (y ∉ nodes r).
Proof. rewrite elem_Node. tauto. Qed.

(** Disequalities between a node inside and a node outside a list. *)
Ltac ne :=
  first [ done | congruence | by intros -> | by intros <- ].

Lemma NoDup_root_ne l x r :
  NoDup (nodes (Node l x r)) → root l ≠ Some x ∧ root r ≠ Some x.
Proof.
  intros (_ & _ & Hl & Hr & _)%NoDup_Node.
  split; intros H%root_elem; done.
Qed.

Lemma NoDup_root_lr_ne l x r y :
  NoDup (nodes (Node l x r)) → root l = Some y → root r ≠ Some y.
Proof.
  intros (_ & _ & _ & _ & Hd)%NoDup_Node Hl%root_elem Hr%root_elem.
  by apply (Hd y).
Qed.

Section Climb.

Context {V : Type}.

Abbreviation heap := (gmap positive (@RbstNode V)).

Lemma rep_root (h : heap) t parent x :
  rep h t parent → root t = Some x →
  ∃ l r v, t = Node l x r
    ∧ h !! x = Some (mkRbstNode (root l) (root r) parent (tsize t) v)
    ∧ rep h l (Some x) ∧ rep h r (Some x).
Proof.
  destruct t as [|l y r]; [done|]. simpl. intros ([v Hx] & Hl & Hr) [= ->].
  by exists l, r, v.
Qed.

(** What a well-formed tree says about the innermost frame of a context. *)
Lemma wf_plug_sub (h : heap) c t top :
  wf h (plug c t) top → wf h t (ctx_parent c top).
Proof.
  intros [Hnd Hrep]. split; [by eapply NoDup_plug_sub|].
  by apply rep_plug in Hrep as [? _].
Qed.

Lemma wf_plug_InLeft (h : heap) c t p r top x :
  wf h (plug (InLeft p r :: c) t) top → root t = Some x →
  ∃ v, h !! p = Some (mkRbstNode (Some x) (root r) (ctx_parent c top)
                         (1 + tsize t + tsize r) v)
       ∧ root r ≠ Some x ∧ p ≠ x.
Proof.
  intros Hwf Hroot. simpl in Hwf.
  apply wf_plug_sub in Hwf as [Hnd Hrep].
  destruct Hrep as ([v Hp] & _). rewrite Hroot in Hp. exists v. split; [done|].
  split.
  - eapply NoDup_root_lr_ne; done.
  - apply NoDup_root_ne in Hnd as [Hne _]. congruence.
Qed.

Lemma wf_plug_InRight (h : heap) c t l p top x :
  wf h (plug (InRight l p :: c) t) top → root t = Some x →
  ∃ v, h !! p = Some (mkRbstNode (root l) (Some x) (ctx_parent c top)
                         (1 + tsize l + tsize t) v)
       ∧ root l ≠ Some x ∧ p ≠ x.
Proof.
  intros Hwf Hroot. simpl in Hwf.
  apply wf_plug_sub in Hwf as [Hnd Hrep].
  destruct Hrep as ([v Hp] & _). rewrite Hroot in Hp. exists v. split; [done|].
  split.
  - intros Hl. by eapply NoDup_root_lr_ne.
  - apply NoDup_root_ne in Hnd as [_ Hne]. congruence.
Qed.

Lemma wf_plug_root (h : heap) c t top x :
  wf h (plug c t) top → root t = Some x →
  ∃ l r v, t = Node l x r
    ∧ h !! x = Some (mkRbstNode (root l) (root r) (ctx_parent c top) (tsize t) v).
Proof.
  intros [_ Hrep]%wf_plug_sub Hroot.
  destruct (rep_root _ _ _ _ Hrep Hroot) as (l & r & v & ? & ? & _). eauto.
Qed.

(** *** [index] *)

Lemma index_loop_ctx (h : heap) c : ∀ t x acc fuel,
  wf h (plug c t) None → root t = Some x →
  0 <= acc → acc + Z.of_nat (length (ctx_before c)) < 2 ^ SIZE_BITS →
  (length c < fuel)%nat →
  index_loop fuel h x acc = Some (acc + Z.of_nat (length (ctx_before c))).
Proof.
  induction c as [|[p r|l p] c IH]; intros t x acc fuel Hwf Hroot Hacc Hmax Hfuel;
    (destruct fuel as [|fuel]; [simpl in Hfuel; lia|]);
    destruct (wf_plug_root _ _ _ _ _ Hwf Hroot) as (tl & tr & v & -> & Hx);
    simpl; rewrite Hx; simpl.
  - f_equal. lia.
  - destruct (wf_plug_InLeft _ _ _ _ _ _ _ Hwf Hroot) as (vp & Hp & Hne & _).
    rewrite Hp. simpl. rewrite decide_False by congruence.
    apply (IH (Node (Node tl x tr) p r)); simpl in *; try done; lia.
  - destruct (wf_plug_InRight _ _ _ _ _ _ _ Hwf Hroot) as (vp & Hp & Hne & _).
    rewrite Hp. simpl. rewrite decide_True by done.
    simpl in Hmax. rewrite !length_app in Hmax. simpl in Hmax.
    pose proof (tsize_nodes l). pose proof (tsize_nonneg tl).
    pose proof (tsize_nonneg tr).
    rewrite (to_size_t_small (1 + tsize l + _ - _)) by lia.
    rewrite to_size_t_small by lia.
    rewrite (IH (Node l p (Node tl x tr))); simpl in *; try done; try lia.
    f_equal. rewrite !length_app. simpl. lia.
Qed.

Lemma index_ctx (h : heap) c l x r fuel :
  wf h (plug c (Node l x r)) None →
  tsize (plug c (Node l x r)) <= 2 ^ SIZE_BITS →
  (length c < fuel)%nat →
  index fuel h x
  = Some (Z.of_nat (length (ctx_before c) + length (nodes l))).
Proof.
  intros Hwf Hmax Hfuel.
  destruct (wf_plug_root _ _ _ _ _ Hwf eq_refl) as (tl & tr & v & [= <- <-] & Hx).
  pose proof (wf_plug_sub _ _ _ _ Hwf) as [_ (_ & Hl & _)].
  unfold index. rewrite Hx. simpl.
  rewrite (rep_size _ _ _ Hl). simpl.
  rewrite tsize_nodes, nodes_plug in Hmax. simpl in Hmax.
  rewrite !length_app in Hmax. simpl in Hmax.
  pose proof (tsize_nodes l).
  rewrite (index_loop_ctx h c (Node l x r)); try done; try lia.
  f_equal. lia.
Qed.

(** *** [next] and [previous] *)

Lemma next_loop_ctx (h : heap) c : ∀ t x fuel,
  wf h (plug c t) None → root t = Some x → (length c < fuel)%nat →
  next_loop fuel h x = Some (head (ctx_after c)).
Proof.
  induction c as [|[p r|l p] c IH]; intros t x fuel Hwf Hroot Hfuel;
    (destruct fuel as [|fuel]; [simpl in Hfuel; lia|]);
    destruct (wf_plug_root _ _ _ _ _ Hwf Hroot) as (tl & tr & v & -> & Hx);
    simpl; rewrite Hx; simpl.
  - done.
  - destruct (wf_plug_InLeft _ _ _ _ _ _ _ Hwf Hroot) as (vp & Hp & Hne & _).
    rewrite Hp. simpl. by rewrite decide_False by congruence.
  - destruct (wf_plug_InRight _ _ _ _ _ _ _ Hwf Hroot) as (vp & Hp & Hne & _).
    rewrite Hp. simpl. rewrite decide_True by done.
    apply (IH (Node l p (Node tl x tr))); simpl in *; try done; lia.
Qed.

Lemma previous_loop_ctx (h : heap) c : ∀ t x fuel,
  wf h (plug c t) None → root t = Some x → (length c < fuel)%nat →
  previous_loop fuel h x = Some (list.last (ctx_before c)).
Proof.
  induction c as [|[p r|l p] c IH]; intros t x fuel Hwf Hroot Hfuel;
    (destruct fuel as [|fuel]; [simpl in Hfuel; lia|]);
    destruct (wf_plug_root _ _ _ _ _ Hwf Hroot) as (tl & tr & v & -> & Hx);
    simpl; rewrite Hx; simpl.
  - done.
  - destruct (wf_plug_InLeft _ _ _ _ _ _ _ Hwf Hroot) as (vp & Hp & Hne & _).
    rewrite Hp. simpl. rewrite decide_True by done.
    apply (IH (Node (Node tl x tr) p r)); simpl in *; try done; lia.
  - destruct (wf_plug_InRight _ _ _ _ _ _ _ Hwf Hroot) as (vp & Hp & Hne & _).
    rewrite Hp. simpl. rewrite decide_False by congruence.
    by rewrite app_assoc, last_snoc.
Qed.

Lemma next_ctx (h : heap) c l x r fuel :
  wf h (plug c (Node l x r)) None →
  (length c + height r < fuel)%nat →
  next fuel h x = Some (head (nodes r ++ ctx_after c)).
Proof.
  intros Hwf Hfuel.
  destruct (wf_plug_root _ _ _ _ _ Hwf eq_refl) as (tl & tr & v & [= <- <-] & Hx).
  pose proof (wf_plug_sub _ _ _ _ Hwf) as [_ (_ & _ & Hr)].
  unfold next. rewrite Hx. simpl.
  destruct r as [|rl y rr].
  - simpl. eapply next_loop_ctx; [done..|lia].
  - cbn [root]. rewrite (first_rep h (Node rl y rr) fuel (Some x) y); [|done|done|lia].
    simpl. by destruct (nodes rl).
Qed.

Lemma previous_ctx (h : heap) c l x r fuel :
  wf h (plug c (Node l x r)) None →
  (length c + height l < fuel)%nat →
  previous fuel h x = Some (list.last (ctx_before c ++ nodes l)).
Proof.
  intros Hwf Hfuel.
  destruct (wf_plug_root _ _ _ _ _ Hwf eq_refl) as (tl & tr & v & [= <- <-] & Hx).
  pose proof (wf_plug_sub _ _ _ _ Hwf) as [_ (_ & Hl & _)].
  unfold previous. rewrite Hx. simpl.
  destruct l as [|ll y lr].
  - simpl. rewrite app_nil_r. eapply previous_loop_ctx; [done..|lia].
  - cbn [root]. rewrite (last_rep h (Node ll y lr) fuel (Some x) y); [|done|done|lia].
    cbn [nodes]. rewrite app_assoc, !last_app_nonempty.
    destruct (proj2 (last_is_Some (y :: nodes lr))) as [z Hz]; [done|].
    by rewrite Hz.
Qed.

End Climb.

(** ** Neighbours in the set order *)

Lemma lookup_plug_next c l x r :
  nodes (plug c (Node l x r)) !! S (length (ctx_before c) + length (nodes l))
  = head (nodes r ++ ctx_after c).
Proof.
  rewrite nodes_plug. cbn [nodes].
  rewrite lookup_app_r by lia. rewrite <- app_assoc.
  rewrite lookup_app_r by lia.
  replace (S (length (ctx_before c) + length (nodes l)) - length (ctx_before c)
           - length (nodes l))%nat with 1%nat by lia.
  simpl. by rewrite head_lookup.
Qed.

Lemma lookup_plug_previous c l x r :
  list.last (ctx_before c ++ nodes l)
  = match (length (ctx_before c) + length (nodes l))%nat with
    | O => None
    | S i => nodes (plug c (Node l x r)) !! i
    end.
Proof.
  rewrite nodes_plug. cbn [nodes]. rewrite last_lookup, length_app.
  destruct (length (ctx_before c) + length (nodes l))%nat as [|i] eqn:E.
  - apply lookup_ge_None. rewrite length_app. simpl. lia.
  - simpl. rewrite (app_assoc (ctx_before c)), app_assoc.
    rewrite <- (app_assoc _ (x :: nodes r)).
    rewrite (lookup_app_l (ctx_before c ++ nodes l)); [done|].
    rewrite length_app. lia.
Qed.

(** ** [offset] *)

(** Two's complement arithmetic on offsets. *)
Lemma to_ptrdiff_t_add a b : to_ptrdiff_t (to_ptrdiff_t a + b) = to_ptrdiff_t (a + b).
Proof.
  unfold to_ptrdiff_t.
  replace (a + 2 ^ (SIZE_BITS - 1) - 2 ^ (SIZE_BITS - 1) + b) with (a + b) by lia.
  f_equal.
  replace ((a + 2 ^ (SIZE_BITS - 1)) mod 2 ^ SIZE_BITS - 2 ^ (SIZE_BITS - 1) + b
           + 2 ^ (SIZE_BITS - 1))
    with ((a + 2 ^ (SIZE_BITS - 1)) mod 2 ^ SIZE_BITS + b) by lia.
  rewrite Zplus_mod_idemp_l. f_equal. lia.
Qed.

(** Away from the subtree of the current node the tests of [offset] fail,
    also when the offset has wrapped around. *)
Lemma offset_tests_outside delta sl sr N :
  0 <= sl < N → 0 <= sr < N → N <= 2 ^ (SIZE_BITS - 2) →
  - 2 ^ (SIZE_BITS - 1) - N < delta < 2 ^ (SIZE_BITS - 1) + N →
  delta < - sl ∨ sr < delta →
  let d := to_ptrdiff_t delta in
  ((0 <? d) = true ∧ (to_size_t d <=? sr) = false)
  ∨ ((0 <? d) = false ∧ (d <? 0) = true
     ∧ (to_size_t (to_ptrdiff_t (- d)) <=? sl) = false).
Proof.
  intros Hsl Hsr HN Hdelta Hout. unfold to_ptrdiff_t, to_size_t, SIZE_BITS in *.
  change (2 ^ (64 - 2)) with 4611686018427387904 in *.
  change (2 ^ (64 - 1)) with 9223372036854775808 in *.
  change (2 ^ 64) with 18446744073709551616 in *.
  cbv zeta.
  rewrite !Z.ltb_lt, !Z.ltb_ge, !Z.leb_gt.
  Z.div_mod_to_equations. lia.
Qed.

Section Offset.

Context {V : Type}.

Abbreviation heap := (gmap positive (@RbstNode V)).

(** Inside the subtree of the current node [offset] only descends. *)
Lemma offset_inside (h : heap) t : ∀ fuel parent l x r delta,
  rep h t parent → t = Node l x r →
  - tsize l <= delta <= tsize r → tsize t <= 2 ^ (SIZE_BITS - 2) →
  (height t <= fuel)%nat →
  offset fuel h x delta = Some (nodes t !! Z.to_nat (tsize l + delta)).
Proof.
  induction t as [|tl IHl y tr IHr];
    intros fuel parent l x r delta Hrep Heq Hdelta Hmax Hfuel; [done|].
  injection Heq as -> -> ->.
  destruct Hrep as ([v Hx] & Hl & Hr).
  pose proof (tsize_nonneg l). pose proof (tsize_nonneg r).
  pose proof (tsize_nodes l) as Hlen.
  assert (2 ^ (SIZE_BITS - 2) = 4611686018427387904) as E62 by done.
  assert (2 ^ (SIZE_BITS - 1) = 9223372036854775808) as E63 by done.
  assert (2 ^ SIZE_BITS = 18446744073709551616) as E64 by done.
  simpl in Hmax, Hfuel. destruct fuel as [|fuel]; [lia|].
  simpl. rewrite Hx. simpl.
  destruct (Z.ltb_spec 0 delta) as [Hpos|Hnpos].
  - rewrite (rep_size _ _ _ Hr). simpl.
    rewrite to_size_t_small by lia.
    destruct (Z.leb_spec delta (tsize r)) as [_|?]; [|lia].
    destruct r as [|rl z rr]; [simpl in *; lia|].
    pose proof Hr as ([vz Hz] & Hrl & Hrr).
    cbn [root mbind option_bind]. rewrite Hz. simpl.
    rewrite (rep_size _ _ _ Hrl). simpl.
    pose proof (tsize_nonneg rl). pose proof (tsize_nonneg rr).
    rewrite to_ptrdiff_t_small by (simpl in *; lia).
    rewrite (IHr fuel (Some x) rl z rr); [|done|done|simpl in *; lia..].
    f_equal. rewrite lookup_app_r by lia.
    replace (Z.to_nat (tsize l + delta) - length (nodes l))%nat
      with (S (Z.to_nat (tsize rl + (delta - 1 - tsize rl)))) by lia.
    done.
  - destruct (Z.ltb_spec delta 0) as [Hneg|Hnneg].
    + rewrite (rep_size _ _ _ Hl). simpl.
      rewrite (to_ptrdiff_t_small (- delta)) by lia.
      rewrite to_size_t_small by lia.
      destruct (Z.leb_spec (- delta) (tsize l)) as [_|?]; [|lia].
      destruct l as [|ll z lr]; [simpl in *; lia|].
      pose proof Hl as ([vz Hz] & Hll & Hlr).
      cbn [root mbind option_bind]. rewrite Hz. simpl.
      rewrite (rep_size _ _ _ Hlr). simpl.
      pose proof (tsize_nonneg ll). pose proof (tsize_nonneg lr).
      rewrite to_ptrdiff_t_small by (simpl in *; lia).
      rewrite (IHl fuel (Some x) ll z lr); [|done|done|simpl in *; lia..].
      f_equal. rewrite lookup_app_l by (simpl in *; lia).
      f_equal. simpl. lia.
    + assert (delta = 0) as -> by lia. f_equal.
      rewrite Z.add_0_r, Hlen, Nat2Z.id. by rewrite list_lookup_middle.
Qed.

(** Outside the subtree of the current node [offset] moves to the parent,
    or returns null at the root. *)
Lemma offset_outside (h : heap) c l x r delta fuel :
  wf h (plug c (Node l x r)) None →
  tsize (plug c (Node l x r)) <= 2 ^ (SIZE_BITS - 2) →
  - 2 ^ (SIZE_BITS - 1) - tsize (plug c (Node l x r)) < delta
    < 2 ^ (SIZE_BITS - 1) + tsize (plug c (Node l x r)) →
  delta < - tsize l ∨ tsize r < delta →
  offset (S fuel) h x (to_ptrdiff_t delta)
  = match c with
    | [] => Some None
    | InLeft p _ :: _ => offset fuel h p (to_ptrdiff_t (delta - 1 - tsize r))
    | InRight _ p :: _ => offset fuel h p (to_ptrdiff_t (delta + 1 + tsize l))
    end.
Proof.
  intros Hwf Hmax Hdelta Hout.
  destruct (wf_plug_root _ _ _ _ _ Hwf eq_refl) as (? & ? & v & [= <- <-] & Hx).
  pose proof (wf_plug_sub _ _ _ _ Hwf) as [_ (_ & Hl & Hr)].
  pose proof (tsize_nonneg l). pose proof (tsize_nonneg r).
  assert (tsize (Node l x r) <= tsize (plug c (Node l x r))) as Hsub.
  { rewrite !tsize_nodes, nodes_plug, !length_app. lia. }
  simpl in Hsub.
  assert (offset (S fuel) h x (to_ptrdiff_t delta)
          = match ctx_parent c None with
            | None => Some None
            | Some p =>
                np ← h !! p;
                if decide (Some x = m_left np)
                then offset fuel h p (to_ptrdiff_t (to_ptrdiff_t delta - 1 - tsize r))
                else offset fuel h p (to_ptrdiff_t (to_ptrdiff_t delta + 1 + tsize l))
            end) as ->.
  { destruct (offset_tests_outside delta (tsize l) (tsize r)
                (tsize (plug c (Node l x r)))) as [[E1 E2]|(E1 & E2 & E3)];
      [lia..|done| |];
      simpl; rewrite Hx; simpl; rewrite E1, ?E2;
      rewrite ?(rep_size _ _ _ Hl), ?(rep_size _ _ _ Hr); simpl;
      rewrite ?E2, ?E3; destruct (ctx_parent c None); try done;
      simpl; destruct (h !! _); try done; simpl; case_decide; try done;
      by rewrite ?(rep_size _ _ _ Hl), ?(rep_size _ _ _ Hr). }
  destruct c as [|[p r'|l' p] c]; simpl; [done| |].
  - destruct (wf_plug_InLeft _ _ _ _ _ _ _ Hwf eq_refl) as (vp & Hp & _).
    rewrite Hp. simpl. rewrite decide_True by done.
    replace (to_ptrdiff_t delta - 1 - tsize r)
      with (to_ptrdiff_t delta + (- 1 - tsize r)) by lia.
    rewrite to_ptrdiff_t_add. do 2 f_equal. lia.
  - destruct (wf_plug_InRight _ _ _ _ _ _ _ Hwf eq_refl) as (vp & Hp & Hne & _).
    rewrite Hp. simpl. rewrite decide_False by congruence.
    replace (to_ptrdiff_t delta + 1 + tsize l)
      with (to_ptrdiff_t delta + (1 + tsize l)) by lia.
    rewrite to_ptrdiff_t_add. do 2 f_equal. lia.
Qed.

(** From a node in its context: [offset] climbs until the target rank [T]
    falls into the subtree of the current node, then descends. *)
Lemma offset_ctx (h : heap) c : ∀ l x r T fuel,
  wf h (plug c (Node l x r)) None →
  tsize (plug c (Node l x r)) <= 2 ^ (SIZE_BITS - 2) →
  - 2 ^ (SIZE_BITS - 1) <= T
    < 2 ^ (SIZE_BITS - 1) + tsize (plug c (Node l x r)) →
  (length c + height (plug c (Node l x r)) < fuel)%nat →
  offset fuel h x
    (to_ptrdiff_t (T - Z.of_nat (length (ctx_before c) + length (nodes l))))
  = Some (if decide (0 <= T) then nodes (plug c (Node l x r)) !! Z.to_nat T
          else None).
Proof.
  induction c as [|f c IH]; intros l x r T fuel Hwf Hmax HT Hfuel.
  all: match type of Hwf with wf _ (plug ?c' ?t) _ =>
         pose proof (wf_plug_sub _ _ _ _ Hwf) as [_ Hrep];
         pose proof (height_plug c' t) as Hh;
         assert (tsize (plug c' t)
                 = Z.of_nat (length (ctx_before c')) + tsize t
                   + Z.of_nat (length (ctx_after c'))) as HN
           by (rewrite !tsize_nodes, nodes_plug, !length_app; lia);
         set (i := Z.of_nat (length (ctx_before c') + length (nodes l))) in *
       end.
  all: cbn [tsize] in HN.
  all: pose proof (tsize_nonneg l); pose proof (tsize_nonneg r).
  all: pose proof (tsize_nodes l) as Hlen; pose proof (tsize_nodes r) as Hlenr.
  all: assert (2 ^ (SIZE_BITS - 2) = 4611686018427387904) as E62 by done.
  all: assert (2 ^ (SIZE_BITS - 1) = 9223372036854775808) as E63 by done.
  all: destruct (decide (- tsize l <= T - i <= tsize r)) as [Hin|Hout];
    [ rewrite to_ptrdiff_t_small by lia;
      rewrite (offset_inside h (Node l x r) fuel _ l x r _ Hrep eq_refl);
        [|lia|simpl in *; lia|simpl in *; lia];
      f_equal; rewrite decide_True by lia;
      rewrite nodes_plug, lookup_app_r by lia;
      rewrite lookup_app_l by (simpl in *; rewrite length_app; simpl; lia);
      f_equal; lia
    | destruct fuel as [|fuel]; [simpl in Hfuel; lia|];
      match type of Hwf with wf _ (plug ?c' _) _ =>
        rewrite (offset_outside h c' l x r); [|done|done|lia|lia]
      end ].
  - (* at the root of the whole tree *)
    f_equal. case_decide; [|done].
    symmetry; apply lookup_ge_None. simpl in *. rewrite length_app; simpl; lia.
  - destruct f as [p r'|l' p].
    + specialize (IH (Node l x r) p r' T fuel Hwf Hmax HT).
      simpl plug. rewrite <- IH; [|simpl in *; lia].
      do 2 f_equal. subst i. simpl. rewrite length_app. simpl. lia.
    + specialize (IH l' p (Node l x r) T fuel Hwf Hmax HT).
      simpl plug. rewrite <- IH; [|simpl in *; lia].
      do 2 f_equal. subst i. simpl. rewrite !length_app. simpl. lia.
Qed.

End Offset.

(** ** Updates of the heap *)

(** Unfolding the field updates of a record. *)
Ltac setters := unfold with_left, with_right, with_parent, with_size; cbn.

Ltac heap_lookup :=
  repeat first
    [ rewrite lookup_alter_eq
    | rewrite lookup_alter_ne by (done || congruence) ].

(** Lookups in a chain of updates, by case analysis on the addresses. *)
Ltac heap_cases :=
  rewrite !lookup_alter; repeat case_decide; simplify_eq; try done;
  repeat match goal with
         | |- context [?h !! ?y] => is_var h; destruct (h !! y)
         end; done.

Ltac heap_alloc :=
  rewrite ?lookup_alter_is_Some; first [done | by eexists | eauto].

Section Update.

Context {V : Type} (comp : V -> V -> bool).

Abbreviation heap := (gmap positive (@RbstNode V)).

Lemma store_left_alter (h : heap) x p :
  is_Some (h !! x) → store_left h x p = Some (alter (λ n, with_left n p) x h).
Proof. intros [n Hn]. unfold store_left. by rewrite Hn. Qed.

Lemma store_right_alter (h : heap) x p :
  is_Some (h !! x) → store_right h x p = Some (alter (λ n, with_right n p) x h).
Proof. intros [n Hn]. unfold store_right. by rewrite Hn. Qed.

Lemma store_parent_alter (h : heap) x p :
  is_Some (h !! x) → store_parent h x p = Some (alter (λ n, with_parent n p) x h).
Proof. intros [n Hn]. unfold store_parent. by rewrite Hn. Qed.

Lemma store_size_alter (h : heap) x s :
  is_Some (h !! x) → store_size h x s = Some (alter (λ n, with_size n s) x h).
Proof. intros [n Hn]. unfold store_size. by rewrite Hn. Qed.

(** The structural updates leave the values alone. *)
Lemma value_alter (h : heap) f x y :
  (∀ n, m_value (f n) = m_value n) → value (alter f x h) y = value h y.
Proof.
  intros Hf. unfold value. rewrite lookup_alter. case_decide; [subst|done].
  destruct (h !! y); simpl; [apply Hf|done].
Qed.

Lemma value_alter_left (h : heap) x p y :
  value (alter (λ n, with_left n p) x h) y = value h y.
Proof. by apply value_alter. Qed.
Lemma value_alter_right (h : heap) x p y :
  value (alter (λ n, with_right n p) x h) y = value h y.
Proof. by apply value_alter. Qed.
Lemma value_alter_parent (h : heap) x p y :
  value (alter (λ n, with_parent n p) x h) y = value h y.
Proof. by apply value_alter. Qed.
Lemma value_alter_size (h : heap) x s y :
  value (alter (λ n, with_size n s) x h) y = value h y.
Proof. by apply value_alter. Qed.

Lemma size_alter_ne (h : heap) f x p :
  p ≠ Some x → size (alter f x h) p = size h p.
Proof.
  intros Hp. destruct p as [y|]; [|done]. simpl.
  rewrite lookup_alter_ne; [done|congruence].
Qed.

Lemma root_not_elem t x : x ∉ nodes t → root t ≠ Some x.
Proof. intros Hx Hr. by apply Hx, root_elem. Qed.

Lemma node_compare_value (h : heap) a b :
  node_compare comp h a b
  = va ← value h a; vb ← value h b; Some (comp va vb).
Proof.
  unfold node_compare, value.
  destruct (h !! a) as [na|]; simpl; [|done].
  destruct (h !! b) as [nb|]; simpl; [|by destruct (m_value na)].
  done.
Qed.

Lemma node_compare_keyed (h : heap) key l a b :
  keyed h key l → a ∈ l → b ∈ l →
  node_compare comp h a b = Some (comp (key a) (key b)).
Proof.
  intros Hk Ha Hb. rewrite node_compare_value, (Hk a Ha), (Hk b Hb). done.
Qed.

Lemma keyed_values (h h' : heap) key l :
  (∀ y, value h' y = value h y) → keyed h key l → keyed h' key l.
Proof. intros Hv Hk y Hy. rewrite Hv. by apply Hk. Qed.

Lemma keyed_Node (h : heap) key this l x r :
  keyed h key (this :: nodes (Node l x r)) →
  keyed h key (this :: nodes l) ∧ keyed h key (this :: nodes r)
  ∧ value h this = Some (key this) ∧ value h x = Some (key x).
Proof.
  intros Hk. split_and!.
  - intros y Hy. apply Hk. rewrite elem_of_cons, elem_Node.
    apply elem_of_cons in Hy. tauto.
  - intros y Hy. apply Hk. rewrite elem_of_cons, elem_Node.
    apply elem_of_cons in Hy. tauto.
  - apply Hk. by left.
  - apply Hk. rewrite elem_of_cons, elem_Node. tauto.
Qed.

Lemma keyed_sub (h : heap) key l l' :
  l' ⊆ l → keyed h key l → keyed h key l'.
Proof. intros Hsub Hk y Hy. apply Hk. by apply Hsub. Qed.

End Update.

(** ** Split *)

Section SplitTree.

Context {V : Type} (comp : V -> V -> bool) (key : ptr -> V).

Lemma split_tree_nodes pivot t :
  nodes (split_tree comp key pivot t).1 ++ nodes (split_tree comp key pivot t).2
  = nodes t.
Proof.
  induction t as [|l IHl x r IHr]; simpl; [done|].
  destruct (comp _ _).
  - destruct (split_tree comp key pivot l) as [a b]. simpl in *.
    by rewrite app_assoc, IHl.
  - destruct (split_tree comp key pivot r) as [a b]. simpl in *.
    by rewrite <- app_assoc, <- IHr.
Qed.

Lemma split_tree_size pivot t :
  tsize (split_tree comp key pivot t).1 + tsize (split_tree comp key pivot t).2
  = tsize t.
Proof.
  rewrite !tsize_nodes, <- (split_tree_nodes pivot t), length_app. lia.
Qed.

Lemma split_tree_elem pivot t y :
  y ∈ nodes t ↔
  y ∈ nodes (split_tree comp key pivot t).1
  ∨ y ∈ nodes (split_tree comp key pivot t).2.
Proof. by rewrite <- (split_tree_nodes pivot t), elem_of_app. Qed.

End SplitTree.

Section Split.

Context {V : Type} (comp : V -> V -> bool) (key : ptr -> V).

Abbreviation heap := (gmap positive (@RbstNode V)).

(** [split] on a represented subtree: afterwards the right slot of [lesser]
    and the left slot of [greater] hold the two parts; nothing else outside
    the subtree changes. *)
Lemma split_rep this t : ∀ fuel (h : heap) x lesser greater parent,
  rep h t parent → root t = Some x → NoDup (nodes t) →
  lesser ∉ nodes t → greater ∉ nodes t →
  is_Some (h !! lesser) → is_Some (h !! greater) →
  keyed h key (this :: nodes t) →
  tsize t < 2 ^ SIZE_BITS → (height t <= fuel)%nat →
  ∃ h', split comp fuel h this x lesser greater = Some h'
    ∧ rep h' (split_tree comp key this t).1 (Some lesser)
    ∧ rep h' (split_tree comp key this t).2 (Some greater)
    ∧ (∀ y, y ∉ nodes t →
         h' !! y
         = alter (λ n, with_right n (root (split_tree comp key this t).1)) lesser
             (alter (λ n, with_left n (root (split_tree comp key this t).2))
                greater h) !! y)
    ∧ (∀ y, value h' y = value h y).
Proof.
  induction t as [|l IHl x' r IHr];
    intros fuel h x lesser greater parent Hrep Hroot Hnd Hnl Hng Hal Hag Hkey
      Hmax Hfuel; [done|].
  simpl in Hroot. injection Hroot as ->.
  destruct Hrep as ([v Hx] & Hrl & Hrr).
  apply NoDup_Node in Hnd as (Hndl & Hndr & Hxl & Hxr & Hlr).
  apply not_elem_Node in Hnl as (Hnl1 & Hxne1 & Hnl2).
  apply not_elem_Node in Hng as (Hng1 & Hxne2 & Hng2).
  destruct (keyed_Node _ _ _ _ _ _ Hkey) as (Hkl & Hkr & Hkthis & Hkx).
  pose proof (tsize_nonneg l). pose proof (tsize_nonneg r).
  simpl in Hmax, Hfuel. destruct fuel as [|fuel]; [lia|].
  cbn [split].
  rewrite node_compare_value, Hkthis, Hkx.
  cbn [mbind option_bind].
  cbn [split_tree].
  destruct (comp (key this) (key x)) eqn:Hc.
  - rewrite store_left_alter by done. cbn [mbind option_bind].
    rewrite store_parent_alter by (heap_alloc). cbn [mbind option_bind].
    set (h2 := alter (λ n, with_parent n (Some greater)) x
                 (alter (λ n, with_left n (Some x)) greater h)).
    assert (h2 !! x = Some (mkRbstNode (root l) (root r) (Some greater)
                              (tsize (Node l x r)) v)) as Hx2.
    { unfold h2. heap_lookup. by rewrite Hx. }
    assert (∀ y, value h2 y = value h y) as Hv2.
    { intros y. unfold h2. by rewrite value_alter_parent, value_alter_left. }
    assert (∀ y, y ≠ x → y ≠ greater → h2 !! y = h !! y) as Hf2.
    { intros y ??. unfold h2. by heap_lookup. }
    rewrite Hx2. cbn [mbind option_bind m_left].
    destruct l as [|ll z lr].
    + (* nothing on the left: the lesser part is empty *)
      cbn [root].
      rewrite store_right_alter by (unfold h2; heap_alloc).
      cbn [mbind option_bind].
      set (h3 := alter (λ n, with_right n None) lesser h2).
      assert (h3 !! x = h2 !! x) as Hx3 by (unfold h3; by heap_lookup).
      assert (rep h3 r (Some x)) as Hrr3.
      { eapply rep_frame; [|exact Hrr]. intros y Hy.
        unfold h3. rewrite lookup_alter_ne by ne.
        apply Hf2; ne. }
      rewrite Hx3, Hx2. cbn [mbind option_bind m_left m_right size root].
      rewrite (rep_size _ _ _ Hrr3). cbn [mbind option_bind].
      rewrite store_size_alter by (rewrite Hx3, Hx2; done).
      eexists. split; [reflexivity|]. cbn [split_tree fst snd]. split_and!.
      * done.
      * cbn [rep]. split_and!; [|done|].
        -- exists v. heap_lookup. rewrite Hx3, Hx2. cbn.
           rewrite size_sum3 by (cbn [tsize] in *; lia). done.
        -- eapply rep_frame; [|exact Hrr3]. intros y Hy.
           rewrite lookup_alter_ne by ne. done.
      * intros y (_ & Hyx & _)%not_elem_Node. unfold h3, h2. cbn [root].
        heap_cases.
      * intros y. unfold h3.
        by rewrite value_alter_size, value_alter_right, Hv2.
    + (* split the left subtree between [lesser] and this node *)
      cbn [root].
      destruct (IHl fuel h2 z lesser x (Some x))
        as (h3 & Hsplit & Hra & Hrb & Hf3 & Hv3).
      { eapply rep_frame; [|exact Hrl]. intros y Hy. apply Hf2; ne. }
      { done. }
      { done. }
      { done. }
      { done. }
      { unfold h2. heap_alloc. }
      { by rewrite Hx2. }
      { eapply keyed_values; [exact Hv2|]. done. }
      { pose proof (tsize_nonneg (Node ll z lr)). lia. }
      { lia. }
      rewrite Hsplit. cbn [mbind option_bind].
      pose proof (split_tree_elem comp key this (Node ll z lr)) as Helem.
      pose proof (split_tree_size comp key this (Node ll z lr)) as Hsize.
      destruct (split_tree comp key this (Node ll z lr)) as [a b].
      cbn [fst snd] in *.
      assert (h3 !! x = Some (mkRbstNode (root b) (root r) (Some greater)
                                (tsize (Node (Node ll z lr) x r)) v)) as Hx3.
      { rewrite Hf3 by done. heap_lookup. by rewrite Hx2. }
      assert (rep h3 r (Some x)) as Hrr3.
      { eapply rep_frame; [|exact Hrr]. intros y Hy.
        assert (y ∉ nodes (Node ll z lr)) by (intros ?; by eapply Hlr).
        rewrite Hf3 by done.
        rewrite !lookup_alter_ne by ne. apply Hf2; ne. }
      rewrite Hx3. cbn [mbind option_bind m_left m_right].
      rewrite (rep_size _ _ _ Hrb), (rep_size _ _ _ Hrr3). cbn [mbind option_bind].
      rewrite store_size_alter by (by rewrite Hx3).
      eexists. split; [reflexivity|]. split_and!.
      * eapply rep_frame; [|exact Hra]. intros y Hy.
        rewrite lookup_alter_ne; [done|]. intros ->. apply Hxl, Helem. by left.
      * pose proof (tsize_nonneg a). pose proof (tsize_nonneg b).
        cbn [rep]. split_and!.
        -- exists v. heap_lookup. rewrite Hx3. cbn.
           rewrite size_sum3 by (cbn [tsize] in *; lia). done.
        -- eapply rep_frame; [|exact Hrb]. intros y Hy.
           rewrite lookup_alter_ne; [done|]. intros ->. apply Hxl, Helem. by right.
        -- eapply rep_frame; [|exact Hrr3]. intros y Hy.
           rewrite lookup_alter_ne by ne. done.
      * intros y (Hyl & Hyx & _)%not_elem_Node. cbn [root].
        rewrite lookup_alter_ne by done. rewrite Hf3 by done. unfold h2.
        heap_cases.
      * intros y. by rewrite value_alter_size, Hv3, Hv2.
  - rewrite store_right_alter by done. cbn [mbind option_bind].
    rewrite store_parent_alter by (heap_alloc). cbn [mbind option_bind].
    set (h2 := alter (λ n, with_parent n (Some lesser)) x
                 (alter (λ n, with_right n (Some x)) lesser h)).
    assert (h2 !! x = Some (mkRbstNode (root l) (root r) (Some lesser)
                              (tsize (Node l x r)) v)) as Hx2.
    { unfold h2. heap_lookup. by rewrite Hx. }
    assert (∀ y, value h2 y = value h y) as Hv2.
    { intros y. unfold h2. by rewrite value_alter_parent, value_alter_right. }
    assert (∀ y, y ≠ x → y ≠ lesser → h2 !! y = h !! y) as Hf2.
    { intros y ??. unfold h2. by heap_lookup. }
    rewrite Hx2. cbn [mbind option_bind m_right].
    destruct r as [|rl z rr].
    + (* nothing on the right: the greater part is empty *)
      cbn [root].
      rewrite store_left_alter by (unfold h2; heap_alloc).
      cbn [mbind option_bind].
      set (h3 := alter (λ n, with_left n None) greater h2).
      assert (h3 !! x = h2 !! x) as Hx3 by (unfold h3; by heap_lookup).
      assert (rep h3 l (Some x)) as Hrl3.
      { eapply rep_frame; [|exact Hrl]. intros y Hy.
        unfold h3. rewrite lookup_alter_ne by ne.
        apply Hf2; ne. }
      rewrite Hx3, Hx2. cbn [mbind option_bind m_left m_right size root].
      rewrite (rep_size _ _ _ Hrl3). cbn [mbind option_bind].
      rewrite store_size_alter by (rewrite Hx3, Hx2; done).
      eexists. split; [reflexivity|]. cbn [split_tree fst snd]. split_and!.
      * cbn [rep]. split_and!; [| |done].
        -- exists v. heap_lookup. rewrite Hx3, Hx2. cbn.
           rewrite size_sum3 by (cbn [tsize] in *; lia). done.
        -- eapply rep_frame; [|exact Hrl3]. intros y Hy.
           rewrite lookup_alter_ne by ne. done.
      * done.
      * intros y (_ & Hyx & _)%not_elem_Node. unfold h3, h2. cbn [root].
        heap_cases.
      * intros y. unfold h3.
        by rewrite value_alter_size, value_alter_left, Hv2.
    + (* split the right subtree between this node and [greater] *)
      cbn [root].
      destruct (IHr fuel h2 z x greater (Some x))
        as (h3 & Hsplit & Hra & Hrb & Hf3 & Hv3).
      { eapply rep_frame; [|exact Hrr]. intros y Hy. apply Hf2; ne. }
      { done. }
      { done. }
      { done. }
      { done. }
      { by rewrite Hx2. }
      { unfold h2. heap_alloc. }
      { eapply keyed_values; [exact Hv2|]. done. }
      { pose proof (tsize_nonneg (Node rl z rr)). lia. }
      { lia. }
      rewrite Hsplit. cbn [mbind option_bind].
      pose proof (split_tree_elem comp key this (Node rl z rr)) as Helem.
      pose proof (split_tree_size comp key this (Node rl z rr)) as Hsize.
      destruct (split_tree comp key this (Node rl z rr)) as [a b].
      cbn [fst snd] in *.
      assert (h3 !! x = Some (mkRbstNode (root l) (root a) (Some lesser)
                                (tsize (Node l x (Node rl z rr))) v)) as Hx3.
      { rewrite Hf3 by done. heap_lookup. by rewrite Hx2. }
      assert (rep h3 l (Some x)) as Hrl3.
      { eapply rep_frame; [|exact Hrl]. intros y Hy.
        assert (y ∉ nodes (Node rl z rr)) by (intros ?; by eapply Hlr).
        rewrite Hf3 by done.
        rewrite !lookup_alter_ne by ne. apply Hf2; ne. }
      rewrite Hx3. cbn [mbind option_bind m_left m_right].
      rewrite (rep_size _ _ _ Hra), (rep_size _ _ _ Hrl3). cbn [mbind option_bind].
      rewrite store_size_alter by (by rewrite Hx3).
      eexists. split; [reflexivity|]. split_and!.
      * pose proof (tsize_nonneg a). pose proof (tsize_nonneg b).
        cbn [rep]. split_and!.
        -- exists v. heap_lookup. rewrite Hx3. cbn.
           rewrite size_sum3 by (cbn [tsize] in *; lia). done.
        -- eapply rep_frame; [|exact Hrl3]. intros y Hy.
           rewrite lookup_alter_ne by ne. done.
        -- eapply rep_frame; [|exact Hra]. intros y Hy.
           rewrite lookup_alter_ne; [done|]. intros ->. apply Hxr, Helem. by left.
      * eapply rep_frame; [|exact Hrb]. intros y Hy.
        rewrite lookup_alter_ne; [done|]. intros ->. apply Hxr, Helem. by right.
      * intros y (_ & Hyx & Hyl)%not_elem_Node. cbn [root].
        rewrite lookup_alter_ne by done. rewrite Hf3 by done. unfold h2.
        heap_cases.
      * intros y. by rewrite value_alter_size, Hv3, Hv2.
Qed.

End Split.

(** ** Insert *)

Section InsertTree.

Context {V : Type} (comp : V -> V -> bool).
Context {Rng : Type} (draw : Rng -> Z -> Z * Rng).
Context (key : ptr -> V).

(** The new node lands somewhere in the set order; nothing else moves. *)
Lemma insert_tree_nodes new t rng :
  ∃ l1 l2, nodes t = l1 ++ l2
    ∧ nodes (insert_tree comp draw key new t rng).1 = l1 ++ new :: l2.
Proof.
  revert rng. induction t as [|l IHl x r IHr]; intros rng.
  - by exists [], [].
  - cbn [insert_tree]. destruct (draw rng _) as [d rng1].
    destruct (d =? 0).
    + pose proof (split_tree_nodes comp key new (Node l x r)) as Hn.
      destruct (split_tree comp key new (Node l x r)) as [a b].
      exists (nodes a), (nodes b). by split.
    + destruct (comp (key new) (key x)).
      * destruct (IHl rng1) as (l1 & l2 & Hl & Hl').
        destruct (insert_tree comp draw key new l rng1) as [l' rng2].
        exists l1, (l2 ++ x :: nodes r). cbn [fst nodes] in *.
        rewrite Hl, Hl'. by rewrite <- !app_assoc.
      * destruct (IHr rng1) as (l1 & l2 & Hr & Hr').
        destruct (insert_tree comp draw key new r rng1) as [r' rng2].
        exists (nodes l ++ x :: l1), l2. cbn [fst nodes] in *.
        rewrite Hr, Hr'. by rewrite <- !app_assoc.
Qed.

Lemma insert_tree_elem new t rng y :
  y ∈ nodes (insert_tree comp draw key new t rng).1 ↔ y = new ∨ y ∈ nodes t.
Proof.
  destruct (insert_tree_nodes new t rng) as (l1 & l2 & -> & ->).
  rewrite !elem_of_app, elem_of_cons. tauto.
Qed.

Lemma insert_tree_size new t rng :
  tsize (insert_tree comp draw key new t rng).1 = tsize t + 1.
Proof.
  destruct (insert_tree_nodes new t rng) as (l1 & l2 & Ht & Ht').
  rewrite !tsize_nodes, Ht, Ht', !length_app. simpl. lia.
Qed.

Lemma insert_tree_NoDup new t rng :
  NoDup (nodes t) → new ∉ nodes t →
  NoDup (nodes (insert_tree comp draw key new t rng).1).
Proof.
  destruct (insert_tree_nodes new t rng) as (l1 & l2 & -> & ->).
  rewrite !NoDup_app, NoDup_cons, not_elem_of_app.
  intros (H1 & H12 & H2) [Hn1 Hn2]. split_and!; try done.
  intros y Hy [->|Hy2]%elem_of_cons; [done|]. by eapply H12.
Qed.

End InsertTree.

Section Insert.

Context {V : Type} (comp : V -> V -> bool).
Context {Rng : Type} (draw : Rng -> Z -> Z * Rng).
Context (key : ptr -> V).

Abbreviation heap := (gmap positive (@RbstNode V)).

Lemma insert_rep this t : ∀ fuel (h : heap) parent rng,
  rep h t parent → NoDup (nodes t) → this ∉ nodes t → is_Some (h !! this) →
  keyed h key (this :: nodes t) →
  tsize t + 1 < 2 ^ SIZE_BITS → (height t < fuel)%nat →
  ∃ h' r,
    insert comp draw fuel h this (root t) parent rng
    = Some (h', r, (insert_tree comp draw key this t rng).2)
    ∧ root (insert_tree comp draw key this t rng).1 = Some r
    ∧ rep h' (insert_tree comp draw key this t rng).1 parent
    ∧ (∀ y, y ∉ nodes t → y ≠ this → h' !! y = h !! y)
    ∧ (∀ y, value h' y = value h y).
Proof.
  induction t as [|l IHl x r IHr];
    intros fuel h parent rng Hrep Hnd Hthis [nt Hnt] Hkey Hmax Hfuel;
    (destruct fuel as [|fuel]; [simpl in Hfuel; lia|]).
  - (* an absent subtree *)
    cbn [insert root insert_tree fst snd].
    rewrite store_left_alter by heap_alloc. cbn [mbind option_bind].
    rewrite store_right_alter by heap_alloc. cbn [mbind option_bind].
    rewrite store_size_alter by heap_alloc. cbn [mbind option_bind].
    rewrite store_parent_alter by heap_alloc. cbn [mbind option_bind].
    eexists _, this. split; [reflexivity|]. split_and!.
    + done.
    + cbn [rep]. split_and!; [|done..].
      exists (m_value nt). heap_lookup. by rewrite Hnt.
    + intros y _ Hy. by heap_lookup.
    + intros y.
      by rewrite value_alter_parent, value_alter_size, value_alter_right,
        value_alter_left.
  - pose proof Hrep as ([v Hx] & Hrl & Hrr).
    pose proof Hnd as (Hndl & Hndr & Hxl & Hxr & Hlr)%NoDup_Node.
    pose proof Hthis as (Hthl & Hthx & Hthr)%not_elem_Node.
    destruct (keyed_Node _ _ _ _ _ _ Hkey) as (Hkl & Hkr & Hkthis & Hkx).
    pose proof (tsize_nonneg l). pose proof (tsize_nonneg r).
    cbn [insert root]. rewrite Hx. cbn [mbind option_bind m_size].
    cbn [insert_tree].
    rewrite to_size_t_small by (cbn [tsize] in *; lia).
    replace (1 + tsize (Node l x r)) with (tsize (Node l x r) + 1) by lia.
    destruct (draw rng (tsize (Node l x r) + 1)) as [d rng1].
    destruct (d =? 0) eqn:Hd.
    + (* insert here: split the subtree around the new node *)
      destruct (split_rep comp key this (Node l x r) fuel h x this this parent)
        as (h1 & Hsplit & Hra & Hrb & Hf1 & Hv1);
        [done|done|done|done|done|by eexists|by eexists|done|lia|lia|].
      rewrite Hsplit. cbn [mbind option_bind].
      pose proof (split_tree_elem comp key this (Node l x r)) as Helem.
      pose proof (split_tree_size comp key this (Node l x r)) as Hsize.
      destruct (split_tree comp key this (Node l x r)) as [a b].
      cbn [fst snd] in *.
      assert ((this ∉ nodes a) ∧ (this ∉ nodes b)) as [Hna Hnb].
      { split; intros ?; apply Hthis, Helem; tauto. }
      assert (h1 !! this = Some (mkRbstNode (root b) (root a) (m_parent nt)
                                   (m_size nt) (m_value nt))) as Hth1.
      { rewrite Hf1 by done. heap_lookup. by rewrite Hnt. }
      rewrite Hth1. cbn [mbind option_bind m_left m_right].
      rewrite store_left_alter by (by rewrite Hth1). cbn [mbind option_bind].
      rewrite store_right_alter by (heap_alloc; by rewrite Hth1).
      cbn [mbind option_bind].
      heap_lookup. rewrite Hth1. cbn [fmap option_fmap option_map mbind option_bind
        with_left with_right m_left m_right m_parent m_size m_value].
      rewrite !size_alter_ne by (by apply root_not_elem).
      rewrite (rep_size _ _ _ Hra), (rep_size _ _ _ Hrb). cbn [mbind option_bind].
      rewrite store_size_alter by (heap_alloc; by rewrite Hth1).
      cbn [mbind option_bind].
      rewrite store_parent_alter by (heap_alloc; by rewrite Hth1).
      cbn [mbind option_bind].
      pose proof (tsize_nonneg a). pose proof (tsize_nonneg b).
      eexists _, this. split; [reflexivity|]. split_and!.
      * done.
      * cbn [rep]. split_and!.
        -- exists (m_value nt). heap_lookup. rewrite Hth1. cbn.
           rewrite size_sum3 by (cbn [tsize] in *; lia). done.
        -- eapply rep_frame; [|exact Hra]. intros y Hy.
           rewrite !lookup_alter_ne by ne. done.
        -- eapply rep_frame; [|exact Hrb]. intros y Hy.
           rewrite !lookup_alter_ne by ne. done.
      * intros y Hy Hyt. rewrite !lookup_alter_ne by done.
        rewrite Hf1 by done. by rewrite !lookup_alter_ne by done.
      * intros y.
        by rewrite value_alter_parent, value_alter_size, value_alter_right,
          value_alter_left, Hv1.
    + (* insert below *)
      rewrite node_compare_value, Hkthis, Hkx. cbn [mbind option_bind].
      destruct (comp (key this) (key x)) eqn:Hc.
      * destruct (IHl fuel h (Some x) rng1)
          as (h1 & r1 & Hins & Hroot1 & Hrep1 & Hf1 & Hv1);
          [done|done|done|by eexists|done|cbn [tsize] in *; lia
          |simpl in Hfuel; lia|].
        cbn [m_left]. rewrite Hins. cbn [mbind option_bind].
        pose proof (insert_tree_elem comp draw key this l rng1) as Helem.
        pose proof (insert_tree_size comp draw key this l rng1) as Hsize.
        destruct (insert_tree comp draw key this l rng1) as [l' rng2].
        cbn [fst snd] in *.
        assert (h1 !! x = h !! x) as Hx1 by (apply Hf1; [done|ne]).
        rewrite store_left_alter by (by rewrite Hx1, Hx).
        cbn [mbind option_bind]. heap_lookup. rewrite Hx1, Hx.
        cbn [fmap option_fmap option_map mbind option_bind with_left m_size].
        rewrite store_size_alter by (heap_alloc; by rewrite Hx1, Hx).
        cbn [mbind option_bind].
        eexists _, x. split; [reflexivity|]. split_and!.
        -- done.
        -- cbn [rep]. split_and!.
           ++ exists v. heap_lookup. rewrite Hx1, Hx. cbn.
              rewrite to_size_t_small by (cbn [tsize] in *; lia).
              rewrite Hroot1, Hsize. unfold with_size, with_left. cbn.
              do 2 f_equal. lia.
           ++ eapply rep_frame; [|exact Hrep1]. intros y Hy.
              rewrite !lookup_alter_ne; [done|..];
                intros ->; apply Helem in Hy as [->|?]; done.
           ++ eapply rep_frame; [|exact Hrr]. intros y Hy.
              rewrite !lookup_alter_ne by ne. apply Hf1; [|ne].
              intros ?. by eapply Hlr.
        -- intros y (Hyl & Hyx & Hyr)%not_elem_Node Hyt.
           rewrite !lookup_alter_ne by done. by apply Hf1.
        -- intros y. by rewrite value_alter_size, value_alter_left, Hv1.
      * destruct (IHr fuel h (Some x) rng1)
          as (h1 & r1 & Hins & Hroot1 & Hrep1 & Hf1 & Hv1);
          [done|done|done|by eexists|done|cbn [tsize] in *; lia
          |simpl in Hfuel; lia|].
        cbn [m_right]. rewrite Hins. cbn [mbind option_bind].
        pose proof (insert_tree_elem comp draw key this r rng1) as Helem.
        pose proof (insert_tree_size comp draw key this r rng1) as Hsize.
        destruct (insert_tree comp draw key this r rng1) as [r' rng2].
        cbn [fst snd] in *.
        assert (h1 !! x = h !! x) as Hx1 by (apply Hf1; [done|ne]).
        rewrite store_right_alter by (by rewrite Hx1, Hx).
        cbn [mbind option_bind]. heap_lookup. rewrite Hx1, Hx.
        cbn [fmap option_fmap option_map mbind option_bind with_right m_size].
        rewrite store_size_alter by (heap_alloc; by rewrite Hx1, Hx).
        cbn [mbind option_bind].
        eexists _, x. split; [reflexivity|]. split_and!.
        -- done.
        -- cbn [rep]. split_and!.
           ++ exists v. heap_lookup. rewrite Hx1, Hx. cbn.
              rewrite to_size_t_small by (cbn [tsize] in *; lia).
              rewrite Hroot1, Hsize. unfold with_size, with_right. cbn.
              do 2 f_equal. lia.
           ++ eapply rep_frame; [|exact Hrl]. intros y Hy.
              rewrite !lookup_alter_ne by ne. apply Hf1; [|ne].
              by apply Hlr.
           ++ eapply rep_frame; [|exact Hrep1]. intros y Hy.
              rewrite !lookup_alter_ne; [done|..];
                intros ->; apply Helem in Hy as [->|?]; done.
        -- intros y (Hyl & Hyx & Hyr)%not_elem_Node Hyt.
           rewrite !lookup_alter_ne by done. by apply Hf1.
        -- intros y. by rewrite value_alter_size, value_alter_right, Hv1.
Qed.

End Insert.

(** ** Join *)

Section JoinTree.

Context {Rng : Type} (draw : Rng -> Z -> Z * Rng).

Lemma join_tree_Leaf_l g rng : join_tree draw Leaf g rng = (g, rng).
Proof. by destruct g. Qed.

Lemma join_tree_Leaf_r l rng : join_tree draw l Leaf rng = (l, rng).
Proof. by destruct l. Qed.

Lemma join_tree_Node ll x lr gl y gr rng :
  join_tree draw (Node ll x lr) (Node gl y gr) rng
  = let '(d, rng) := draw rng (tsize (Node ll x lr) + tsize (Node gl y gr)) in
    if d <? tsize (Node ll x lr) then
      let '(j, rng) := join_tree draw lr (Node gl y gr) rng in (Node ll x j, rng)
    else
      let '(j, rng) := join_tree draw (Node ll x lr) gl rng in (Node j y gr, rng).
Proof. reflexivity. Qed.

(** The set order of the join is the set order of [lesser] followed by
    that of [greater]. *)
Lemma join_tree_nodes l : ∀ g rng,
  nodes (join_tree draw l g rng).1 = nodes l ++ nodes g.
Proof.
  induction l as [|ll IHll x lr IHlr]; intros g rng.
  - by rewrite join_tree_Leaf_l.
  - revert rng. induction g as [|gl IHgl y gr IHgr]; intros rng.
    + rewrite join_tree_Leaf_r. by rewrite app_nil_r.
    + rewrite join_tree_Node. destruct (draw rng _) as [d rng1].
      destruct (d <? _).
      * specialize (IHlr (Node gl y gr) rng1).
        destruct (join_tree draw lr (Node gl y gr) rng1) as [j rng2].
        cbn [fst nodes] in *. rewrite IHlr. by rewrite <- !app_assoc.
      * specialize (IHgl rng1).
        destruct (join_tree draw (Node ll x lr) gl rng1) as [j rng2].
        cbn [fst nodes] in *. rewrite IHgl. by rewrite <- !app_assoc.
Qed.

Lemma join_tree_size l g rng :
  tsize (join_tree draw l g rng).1 = tsize l + tsize g.
Proof. rewrite !tsize_nodes, join_tree_nodes, length_app. lia. Qed.

End JoinTree.

Section Join.

Context {V : Type}.
Context {Rng : Type} (draw : Rng -> Z -> Z * Rng).

Abbreviation heap := (gmap positive (@RbstNode V)).

(** Re-parenting the root of a represented subtree. *)
Lemma rep_set_parent (h : heap) t p q x :
  rep h t p → root t = Some x → NoDup (nodes t) →
  rep (alter (λ n, with_parent n q) x h) t q.
Proof.
  destruct t as [|l x' r]; [done|]. intros ([v Hx] & Hl & Hr) [= ->] Hnd.
  apply NoDup_Node in Hnd as (_ & _ & Hxl & Hxr & _).
  cbn [rep]. split_and!.
  - exists v. rewrite lookup_alter_eq, Hx. done.
  - eapply rep_frame; [|exact Hl]. intros y Hy. by rewrite lookup_alter_ne by ne.
  - eapply rep_frame; [|exact Hr]. intros y Hy. by rewrite lookup_alter_ne by ne.
Qed.

Lemma join_rep : ∀ fuel (h : heap) l g pl pg rng,
  rep h l pl → rep h g pg → NoDup (nodes l ++ nodes g) →
  tsize l + tsize g < 2 ^ SIZE_BITS → (height l + height g < fuel)%nat →
  ∃ h' p,
    join draw fuel h (root l) (root g) rng
    = Some (h', root (join_tree draw l g rng).1, (join_tree draw l g rng).2)
    ∧ rep h' (join_tree draw l g rng).1 p
    ∧ (∀ y, y ∉ nodes l → y ∉ nodes g → h' !! y = h !! y)
    ∧ (∀ y, value h' y = value h y).
Proof.
  induction fuel as [|fuel IH]; intros h l g pl pg rng Hl Hg Hnd Hmax Hfuel;
    [lia|].
  destruct l as [|ll x lr].
  { rewrite join_tree_Leaf_l. exists h, pg. by destruct g. }
  destruct g as [|gl y gr].
  { rewrite join_tree_Leaf_r. exists h, pl. done. }
  pose proof Hl as ([vx Hx] & Hll & Hlr).
  pose proof Hg as ([vy Hy] & Hgl & Hgr).
  apply NoDup_app in Hnd as (Hndl & Hdisj & Hndg).
  pose proof Hndl as (Hndll & Hndlr & Hxll & Hxlr & Hdl)%NoDup_Node.
  pose proof Hndg as (Hndgl & Hndgr & Hygl & Hygr & Hdg)%NoDup_Node.
  assert (x ≠ y) as Hxy.
  { intros ->. apply (Hdisj y); apply elem_Node; tauto. }
  pose proof (tsize_nonneg ll). pose proof (tsize_nonneg lr).
  pose proof (tsize_nonneg gl). pose proof (tsize_nonneg gr).
  rewrite join_tree_Node.
  cbn [join root]. rewrite Hx, Hy. cbn [mbind option_bind m_size].
  rewrite to_size_t_small by (cbn [tsize] in *; lia).
  destruct (draw rng _) as [d rng1].
  destruct (d <? tsize (Node ll x lr)) eqn:Hd.
  - (* the root of [lesser] wins *)
    cbn [size]. rewrite Hy. cbn [mbind option_bind m_size].
    rewrite to_size_t_small by (cbn [tsize] in *; lia).
    rewrite store_size_alter by (by rewrite Hx). cbn [mbind option_bind].
    rewrite lookup_alter_eq, Hx.
    cbn [fmap option_fmap option_map mbind option_bind with_size m_right].
    set (h1 := alter _ x h).
    destruct (IH h1 lr (Node gl y gr) (Some x) pg rng1)
      as (h2 & p & Hjoin & Hrj & Hf2 & Hv2).
    { eapply rep_frame; [|exact Hlr]. intros z Hz. unfold h1.
      by rewrite lookup_alter_ne by ne. }
    { eapply rep_frame; [|exact Hg]. intros z Hz. unfold h1.
      rewrite lookup_alter_ne; [done|]. intros ->.
      apply (Hdisj z); [|done]. apply elem_Node; tauto. }
    { apply NoDup_app. split_and!; [done| |done].
      intros z Hz. apply Hdisj, elem_Node. tauto. }
    { cbn [tsize] in *. lia. }
    { simpl in Hfuel |- *. lia. }
    cbn [root] in Hjoin. rewrite Hjoin. cbn [mbind option_bind].
    pose proof (join_tree_nodes draw lr (Node gl y gr) rng1) as Hnodes.
    pose proof (join_tree_size draw lr (Node gl y gr) rng1) as Hsize.
    destruct (join_tree draw lr (Node gl y gr) rng1) as [j rng2].
    cbn [fst snd] in *.
    assert (x ∉ nodes j) as Hxj.
    { rewrite Hnodes, not_elem_of_app. split; [done|].
      intros ?. apply (Hdisj x); [|done]. apply elem_Node; tauto. }
    assert (NoDup (nodes j)) as Hndj.
    { rewrite Hnodes. apply NoDup_app. split_and!; [done| |done].
      intros z Hz. apply Hdisj, elem_Node. tauto. }
    assert (h2 !! x = h1 !! x) as Hx2.
    { apply Hf2; [done|]. intros ?. apply (Hdisj x); [|done].
      apply elem_Node; tauto. }
    assert (h1 !! x = Some (mkRbstNode (root ll) (root lr) pl
              (tsize (Node ll x lr) + tsize (Node gl y gr)) vx)) as Hx1.
    { unfold h1. by rewrite lookup_alter_eq, Hx. }
    rewrite store_right_alter by (by rewrite Hx2, Hx1).
    cbn [mbind option_bind]. rewrite lookup_alter_eq, Hx2, Hx1.
    cbn [fmap option_fmap option_map mbind option_bind with_right m_right].
    destruct j as [|jl rj jr].
    { exfalso. apply (f_equal length) in Hnodes.
      rewrite length_app in Hnodes. simpl in Hnodes.
      rewrite length_app in Hnodes. simpl in Hnodes. lia. }
    cbn [root mbind option_bind].
    assert (rj ≠ x) as Hrjx.
    { intros ->. apply Hxj, elem_Node. tauto. }
    rewrite store_parent_alter
      by (rewrite lookup_alter_is_Some; eapply rep_is_Some;
          [exact Hrj|apply elem_Node; tauto]).
    cbn [mbind option_bind].
    eexists _, pl. split; [reflexivity|]. split_and!.
    + apply (rep_Node_intro _ _ _ _ _ vx).
      * rewrite lookup_alter_ne by done.
        rewrite lookup_alter_eq, Hx2, Hx1. setters. do 2 f_equal.
        cbn [tsize] in *. lia.
      * eapply rep_frame; [|exact Hll]. intros z Hz.
        assert (z ∉ nodes (Node jl rj jr)) as Hzj.
        { rewrite Hnodes, not_elem_of_app. split; [by apply Hdl|].
          apply Hdisj, elem_Node. tauto. }
        apply not_elem_Node in Hzj as (? & ? & ?).
        rewrite !lookup_alter_ne by ne.
        rewrite Hf2.
        -- unfold h1. by rewrite lookup_alter_ne by ne.
        -- by apply Hdl.
        -- apply Hdisj, elem_Node. tauto.
      * eapply (rep_set_parent _ _ p); [|done|done].
        eapply rep_frame; [|exact Hrj]. intros z Hz.
        by rewrite lookup_alter_ne by ne.
    + intros z (? & ? & ?)%not_elem_Node Hzg.
      assert (z ∉ nodes (Node jl rj jr)) as (? & ? & ?)%not_elem_Node.
      { rewrite Hnodes, not_elem_of_app. done. }
      rewrite !lookup_alter_ne by ne. rewrite Hf2 by done.
      unfold h1. by rewrite lookup_alter_ne by ne.
    + intros z. rewrite value_alter_parent, value_alter_right, Hv2.
      unfold h1. by rewrite value_alter_size.
  - (* the root of [greater] wins *)
    cbn [size]. rewrite Hx. cbn [mbind option_bind m_size].
    rewrite to_size_t_small by (cbn [tsize] in *; lia).
    rewrite store_size_alter by (by rewrite Hy). cbn [mbind option_bind].
    rewrite lookup_alter_eq, Hy.
    cbn [fmap option_fmap option_map mbind option_bind with_size m_left].
    set (h1 := alter _ y h).
    destruct (IH h1 (Node ll x lr) gl pl (Some y) rng1)
      as (h2 & p & Hjoin & Hrj & Hf2 & Hv2).
    { eapply rep_frame; [|exact Hl]. intros z Hz. unfold h1.
      rewrite lookup_alter_ne; [done|]. intros ->.
      apply (Hdisj z); [done|]. apply elem_Node; tauto. }
    { eapply rep_frame; [|exact Hgl]. intros z Hz. unfold h1.
      by rewrite lookup_alter_ne by ne. }
    { apply NoDup_app. split_and!; [done| |done].
      intros z Hz Hzg. apply (Hdisj z); [done|]. apply elem_Node. tauto. }
    { cbn [tsize] in *. lia. }
    { simpl in Hfuel |- *. lia. }
    cbn [root] in Hjoin. rewrite Hjoin. cbn [mbind option_bind].
    pose proof (join_tree_nodes draw (Node ll x lr) gl rng1) as Hnodes.
    pose proof (join_tree_size draw (Node ll x lr) gl rng1) as Hsize.
    destruct (join_tree draw (Node ll x lr) gl rng1) as [j rng2].
    cbn [fst snd] in *.
    assert (y ∉ nodes j) as Hyj.
    { rewrite Hnodes, not_elem_of_app. split; [|done].
      intros ?. apply (Hdisj y); [done|]. apply elem_Node; tauto. }
    assert (NoDup (nodes j)) as Hndj.
    { rewrite Hnodes. apply NoDup_app. split_and!; [done| |done].
      intros z Hz Hzg. apply (Hdisj z); [done|]. apply elem_Node. tauto. }
    assert (h2 !! y = h1 !! y) as Hy2.
    { apply Hf2; [|done]. intros ?. apply (Hdisj y); [done|].
      apply elem_Node; tauto. }
    assert (h1 !! y = Some (mkRbstNode (root gl) (root gr) pg
              (tsize (Node gl y gr) + tsize (Node ll x lr)) vy)) as Hy1.
    { unfold h1. by rewrite lookup_alter_eq, Hy. }
    rewrite store_left_alter by (by rewrite Hy2, Hy1).
    cbn [mbind option_bind]. rewrite lookup_alter_eq, Hy2, Hy1.
    cbn [fmap option_fmap option_map mbind option_bind with_left m_left].
    destruct j as [|jl rj jr].
    { exfalso. apply (f_equal length) in Hnodes.
      rewrite length_app in Hnodes. simpl in Hnodes.
      rewrite length_app in Hnodes. simpl in Hnodes. lia. }
    cbn [root mbind option_bind].
    assert (rj ≠ y) as Hrjy.
    { intros ->. apply Hyj, elem_Node. tauto. }
    rewrite store_parent_alter
      by (rewrite lookup_alter_is_Some; eapply rep_is_Some;
          [exact Hrj|apply elem_Node; tauto]).
    cbn [mbind option_bind].
    eexists _, pg. split; [reflexivity|]. split_and!.
    + apply (rep_Node_intro _ _ _ _ _ vy).
      * rewrite lookup_alter_ne by done.
        rewrite lookup_alter_eq, Hy2, Hy1. setters. do 2 f_equal.
        cbn [tsize] in *. lia.
      * eapply (rep_set_parent _ _ p); [|done|done].
        eapply rep_frame; [|exact Hrj]. intros z Hz.
        by rewrite lookup_alter_ne by ne.
      * eapply rep_frame; [|exact Hgr]. intros z Hz.
        assert (z ∉ nodes (Node jl rj jr)) as Hzj.
        { rewrite Hnodes, not_elem_of_app. split.
          - intros ?. apply (Hdisj z); [done|]. apply elem_Node. tauto.
          - intros ?. by eapply Hdg. }
        apply not_elem_Node in Hzj as (? & ? & ?).
        rewrite !lookup_alter_ne by ne.
        rewrite Hf2.
        -- unfold h1. by rewrite lookup_alter_ne by ne.
        -- intros ?. apply (Hdisj z); [done|]. apply elem_Node. tauto.
        -- intros ?. by eapply Hdg.
    + intros z Hzl (? & ? & ?)%not_elem_Node.
      assert (z ∉ nodes (Node jl rj jr)) as (? & ? & ?)%not_elem_Node.
      { rewrite Hnodes, not_elem_of_app. done. }
      rewrite !lookup_alter_ne by ne. rewrite Hf2 by done.
      unfold h1. by rewrite lookup_alter_ne by ne.
    + intros z. rewrite value_alter_parent, value_alter_left, Hv2.
      unfold h1. by rewrite value_alter_size.
Qed.

End Join.

(** ** Erase *)

Lemma NoDup_plug_ctx c t y :
  NoDup (nodes (plug c t)) → y ∈ nodes t →
  (y ∉ ctx_before c) ∧ (y ∉ ctx_after c).
Proof.
  rewrite nodes_plug. intros (_ & Hd1 & (_ & Hd2 & _)%NoDup_app)%NoDup_app Hy.
  split.
  - intros Hb. apply (Hd1 _ Hb). apply elem_of_app. by left.
  - by apply Hd2.
Qed.

Lemma NoDup_plug_replace c t t' :
  NoDup (nodes (plug c t)) → nodes t' `sublist_of` nodes t →
  NoDup (nodes (plug c t')).
Proof.
  rewrite !nodes_plug. intros Hnd Hsub. eapply sublist_NoDup; [exact Hnd|].
  apply sublist_app; [done|]. by apply sublist_app.
Qed.

Lemma ctx_path_elem c y :
  y ∈ ctx_path c → y ∈ ctx_before c ∨ y ∈ ctx_after c.
Proof.
  induction c as [|[p r|l p] c IH]; simpl.
  - by intros ?%elem_of_nil.
  - intros [->|Hy]%elem_of_cons.
    + right. by left.
    + destruct (IH Hy); [by left|right].
      rewrite elem_of_cons, elem_of_app. tauto.
  - intros [->|Hy]%elem_of_cons.
    + left. rewrite !elem_of_app, list_elem_of_singleton. tauto.
    + destruct (IH Hy); [left|by right].
      rewrite !elem_of_app. tauto.
Qed.

Section Erase.

Context {V : Type}.
Context {Rng : Type} (draw : Rng -> Z -> Z * Rng).

Abbreviation heap := (gmap positive (@RbstNode V)).

Lemma rep_ctx_frame (h h' : heap) c hole hs top :
  (∀ y, y ∈ ctx_before c ∨ y ∈ ctx_after c → h' !! y = h !! y) →
  rep_ctx h c hole hs top → rep_ctx h' c hole hs top.
Proof.
  revert hole hs. induction c as [|[p r|l p] c IH]; intros hole hs Hf; [done|..];
    cbn [rep_ctx ctx_before ctx_after] in *; intros ([v Hp] & Hr & Hc).
  - split_and!.
    + exists v. rewrite Hf; [done|]. right. by left.
    + eapply rep_frame; [|exact Hr]. intros y Hy. apply Hf. right.
      rewrite elem_of_cons, elem_of_app. tauto.
    + apply IH; [|done]. intros y [Hy|Hy]; apply Hf; [by left|right].
      rewrite elem_of_cons, elem_of_app. tauto.
  - split_and!.
    + exists v. rewrite Hf; [done|]. left.
      rewrite !elem_of_app, list_elem_of_singleton. tauto.
    + eapply rep_frame; [|exact Hr]. intros y Hy. apply Hf. left.
      rewrite !elem_of_app. tauto.
    + apply IH; [|done]. intros y [Hy|Hy]; apply Hf; [left|by right].
      rewrite !elem_of_app. tauto.
Qed.

Lemma rep_ctx_size (h : heap) c hole hs hs' top :
  hs = hs' → rep_ctx h c hole hs top → rep_ctx h c hole hs' top.
Proof. by intros ->. Qed.

(** When the subtree in the hole loses a node, every ancestor loses one
    from its size. *)
Lemma rep_ctx_size_dec (h h' : heap) c : ∀ hole hole' hs top,
  rep_ctx h c hole hs top → rep_ctx h' c hole' (hs - 1) top →
  ∀ p, p ∈ ctx_path c →
       ∃ n n', h !! p = Some n ∧ h' !! p = Some n' ∧ m_size n' = m_size n - 1.
Proof.
  induction c as [|[q r|l q] c IH]; intros hole hole' hs top Hc Hc' p Hp;
    [by apply elem_of_nil in Hp|..];
    cbn [rep_ctx ctx_path map] in *;
    destruct Hc as ([v Hq] & _ & Hc), Hc' as ([v' Hq'] & _ & Hc');
    apply elem_of_cons in Hp as [->|Hp].
  - eexists _, _. split_and!; [done..|]. simpl. lia.
  - eapply (IH _ _ _ _ Hc); [|done].
    eapply rep_ctx_size; [|exact Hc']. lia.
  - eexists _, _. split_and!; [done..|]. simpl. lia.
  - eapply (IH _ _ _ _ Hc); [|done].
    eapply rep_ctx_size; [|exact Hc']. lia.
Qed.

(** The loop that ends [erase]: every remaining ancestor loses one from its
    size. *)
Lemma erase_loop_ctx c : ∀ t p fuel (h : heap),
  root t = Some p → rep h t (ctx_parent c None) →
  rep_ctx h c (Some p) (tsize t + 1) None →
  NoDup (nodes (plug c t)) →
  tsize (plug c t) + 1 < 2 ^ SIZE_BITS → (length c < fuel)%nat →
  ∃ h' top,
    erase_loop fuel h p = Some (h', top)
    ∧ root (plug c t) = Some top
    ∧ rep h' (plug c t) None
    ∧ (∀ y, y ∉ ctx_path c → h' !! y = h !! y)
    ∧ (∀ y, value h' y = value h y).
Proof.
  induction c as [|f c IH]; intros t p fuel h Hroot Hrep Hctx Hnd Hmax Hfuel;
    (destruct fuel as [|fuel]; [simpl in Hfuel; lia|]);
    destruct (rep_root _ _ _ _ Hrep Hroot) as (tl & tr & v & -> & Hp & _).
  - cbn [erase_loop]. rewrite Hp. cbn. by exists h, p.
  - pose proof (tsize_pos tl p tr) as Hpos.
    pose proof (NoDup_plug_sub _ _ Hnd) as Hndt.
    destruct f as [q r|l q]; cbn [plug] in Hnd, Hmax |- *;
      match type of Hmax with context [plug c ?t'] =>
        pose proof (tsize_plug_le c t') as HN; cbn [tsize] in HN end;
      pose proof (NoDup_plug_sub _ _ Hnd) as (_&_&Hq1&Hq2&_)%NoDup_Node;
      destruct Hctx as ([vq Hq] & Hr & Hctx);
      pose proof (NoDup_plug_ctx c _ q Hnd ltac:(apply elem_Node; tauto))
        as [Hqb Hqa];
      cbn [erase_loop]; rewrite Hp; cbn [mbind option_bind m_parent ctx_parent];
      rewrite Hq; cbn [mbind option_bind m_size];
      rewrite store_size_alter by (by rewrite Hq); cbn [mbind option_bind];
      set (h1 := alter _ q h).
    + destruct (IH (Node (Node tl p tr) q r) q fuel h1)
        as (h' & top & Hloop & Htop & Hrep' & Hf' & Hv'); [done| | |done|lia|simpl in Hfuel; lia|].
      { apply (rep_Node_intro _ _ _ _ _ vq).
        - unfold h1. rewrite lookup_alter_eq, Hq. setters.
          pose proof (tsize_nonneg tl). pose proof (tsize_nonneg tr).
          pose proof (tsize_nonneg r).
          rewrite to_size_t_small by (cbn [tsize] in *; lia).
          do 2 f_equal. cbn [tsize]. lia.
        - eapply rep_frame; [|exact Hrep]. intros y Hy. unfold h1.
          by rewrite lookup_alter_ne by ne.
        - eapply rep_frame; [|exact Hr]. intros y Hy. unfold h1.
          by rewrite lookup_alter_ne by ne. }
      { eapply rep_ctx_size; [|eapply rep_ctx_frame; [|exact Hctx]].
        - cbn [tsize]. lia.
        - intros y Hy. unfold h1. rewrite lookup_alter_ne; [done|].
          intros ->. tauto. }
      rewrite Hloop. exists h', top. split_and!; [done..| |].
      * intros y [Hyq Hy]%not_elem_of_cons. rewrite Hf' by done.
        unfold h1. by rewrite lookup_alter_ne by ne.
      * intros y. rewrite Hv'. unfold h1. by rewrite value_alter_size.
    + destruct (IH (Node l q (Node tl p tr)) q fuel h1)
        as (h' & top & Hloop & Htop & Hrep' & Hf' & Hv'); [done| | |done|lia|simpl in Hfuel; lia|].
      { apply (rep_Node_intro _ _ _ _ _ vq).
        - unfold h1. rewrite lookup_alter_eq, Hq. setters.
          pose proof (tsize_nonneg tl). pose proof (tsize_nonneg tr).
          pose proof (tsize_nonneg l).
          rewrite to_size_t_small by (cbn [tsize] in *; lia).
          do 2 f_equal. cbn [tsize]. lia.
        - eapply rep_frame; [|exact Hr]. intros y Hy. unfold h1.
          by rewrite lookup_alter_ne by ne.
        - eapply rep_frame; [|exact Hrep]. intros y Hy. unfold h1.
          by rewrite lookup_alter_ne by ne. }
      { eapply rep_ctx_size; [|eapply rep_ctx_frame; [|exact Hctx]].
        - cbn [tsize]. lia.
        - intros y Hy. unfold h1. rewrite lookup_alter_ne; [done|].
          intros ->. tauto. }
      rewrite Hloop. exists h', top. split_and!; [done..| |].
      * intros y [Hyq Hy]%not_elem_of_cons. rewrite Hf' by done.
        unfold h1. by rewrite lookup_alter_ne by ne.
      * intros y. rewrite Hv'. unfold h1. by rewrite value_alter_size.
Qed.

Lemma sublist_nodes_join l x r :
  nodes l ++ nodes r `sublist_of` nodes (Node l x r).
Proof. simpl. apply sublist_app; [done|]. by apply sublist_cons. Qed.

(** [erase] on a node of a well-formed tree: the node is replaced by the
    join of its children, the sizes on the way to the root are adjusted,
    and the node is left detached. *)
Lemma erase_rep (h : heap) c l x r rng fuel :
  wf h (plug c (Node l x r)) None →
  tsize (plug c (Node l x r)) < 2 ^ SIZE_BITS →
  (length c + height l + height r < fuel)%nat →
  ∃ h' v,
    erase draw fuel h x rng
    = Some (h', root (plug c (join_tree draw l r rng).1),
            (join_tree draw l r rng).2)
    ∧ wf h' (plug c (join_tree draw l r rng).1) None
    ∧ h' !! x = Some (mkRbstNode None None None 1 v)
    ∧ (∀ y, y ∉ nodes (plug c (Node l x r)) → h' !! y = h !! y)
    ∧ (∀ y, value h' y = value h y).
Proof.
  intros [Hnd Hrep] Hmax Hfuel.
  pose proof Hrep as [Hsub Hctx]%rep_plug.
  pose proof Hsub as ([v Hx] & Hl & Hr).
  pose proof (NoDup_plug_sub _ _ Hnd) as Hndx.
  pose proof Hndx as (Hndl & Hndr & Hxl & Hxr & Hlr)%NoDup_Node.
  pose proof (tsize_plug_le c (Node l x r)) as Hle.
  pose proof (tsize_nonneg l). pose proof (tsize_nonneg r).
  unfold erase. rewrite Hx. cbn [mbind option_bind m_left m_right m_parent].
  destruct (join_rep draw fuel h l r (Some x) (Some x) rng)
    as (h1 & p' & Hjoin & Hrj & Hf1 & Hv1);
    [done|done| |cbn [tsize] in *; lia|lia|].
  { apply NoDup_app. by split_and!. }
  rewrite Hjoin. cbn [mbind option_bind].
  pose proof (join_tree_nodes draw l r rng) as Hnodes.
  pose proof (join_tree_size draw l r rng) as Hsize.
  destruct (join_tree draw l r rng) as [j rng'].
  cbn [fst snd] in *.
  assert (x ∉ nodes j) as Hxj by (rewrite Hnodes, not_elem_of_app; done).
  assert (NoDup (nodes j)) as Hndj.
  { rewrite Hnodes. apply NoDup_app. by split_and!. }
  assert (h1 !! x = h !! x) as Hx1 by (by apply Hf1).
  rewrite store_right_alter by (by rewrite Hx1, Hx). cbn [mbind option_bind].
  rewrite store_left_alter by (heap_alloc; by rewrite Hx1, Hx).
  cbn [mbind option_bind].
  rewrite store_parent_alter by (heap_alloc; by rewrite Hx1, Hx).
  cbn [mbind option_bind].
  rewrite store_size_alter by (heap_alloc; by rewrite Hx1, Hx).
  cbn [mbind option_bind].
  set (h2 := alter (λ n, with_size n 1) x _).
  assert (h2 !! x = Some (mkRbstNode None None None 1 v)) as Hx2.
  { unfold h2. heap_lookup. by rewrite Hx1, Hx. }
  assert (∀ y, y ≠ x → h2 !! y = h1 !! y) as Hf2.
  { intros y Hy. unfold h2. by rewrite !lookup_alter_ne by done. }
  assert (∀ y, value h2 y = value h y) as Hv2.
  { intros y. unfold h2.
    by rewrite value_alter_size, value_alter_parent, value_alter_left,
      value_alter_right, Hv1. }
  clearbody h2.
  (* the new child is attached to the former parent *)
  assert (∃ h3,
    match root j with
    | Some c0 => store_parent h2 c0 (ctx_parent c None)
    | None => Some h2
    end = Some h3
    ∧ rep h3 j (ctx_parent c None)
    ∧ (∀ y, y ∉ nodes j → h3 !! y = h2 !! y)
    ∧ (∀ y, value h3 y = value h2 y)) as (h3 & -> & Hrj3 & Hf3 & Hv3).
  { assert (rep h2 j p') as Hrj2.
    { eapply rep_frame; [|exact Hrj]. intros y Hy. apply Hf2. ne. }
    destruct j as [|jl c0 jr]; [by exists h2|]. cbn [root].
    rewrite store_parent_alter
      by (eapply rep_is_Some; [exact Hrj2|apply elem_Node; tauto]).
    eexists. split; [reflexivity|]. split_and!.
    - by eapply rep_set_parent.
    - intros y (? & ? & ?)%not_elem_Node. by rewrite lookup_alter_ne by ne.
    - intros y. by rewrite value_alter_parent. }
  cbn [mbind option_bind].
  assert (h3 !! x = Some (mkRbstNode None None None 1 v)) as Hx3
    by (by rewrite Hf3).
  assert (∀ y, y ∉ nodes (Node l x r) → h3 !! y = h !! y) as Hf3'.
  { intros y (? & ? & ?)%not_elem_Node.
    rewrite Hf3 by (rewrite Hnodes, not_elem_of_app; done).
    rewrite Hf2 by done. by apply Hf1. }
  assert (NoDup (nodes (plug c j))) as Hnd'.
  { eapply NoDup_plug_replace; [exact Hnd|]. rewrite Hnodes.
    apply sublist_nodes_join. }
  destruct c as [|f c].
  - (* the erased node was the root *)
    cbn [ctx_parent plug] in *. exists h3, v. split_and!; try done.
    intros y. by rewrite Hv3, Hv2.
  - pose proof (tsize_plug_le (f :: c) j) as Hle'.
    destruct f as [q r'|l' q]; cbn [ctx_parent plug] in *;
      destruct Hctx as ([vq Hq] & Hr' & Hctx);
      pose proof (NoDup_plug_sub _ _ Hnd) as Hndq;
      pose proof Hndq as (_ & _ & Hq1 & Hq2 & Hq3)%NoDup_Node;
      pose proof (NoDup_plug_ctx c _ q Hnd ltac:(apply elem_Node; tauto))
        as [Hqb Hqa];
      pose proof Hq1 as Hq1'; pose proof Hq2 as Hq2';
      try apply not_elem_Node in Hq1' as (? & ? & ?);
      try apply not_elem_Node in Hq2' as (? & ? & ?);
      (assert (q ∉ nodes j) as Hqj by (rewrite Hnodes, not_elem_of_app; done));
      (assert (h3 !! q = h !! q) as Hq3'
         by (apply Hf3'; apply not_elem_Node; split_and!; ne));
      rewrite Hq3', Hq; cbn [mbind option_bind m_left].
    + rewrite decide_True by done.
      rewrite store_left_alter by (by rewrite Hq3', Hq). cbn [mbind option_bind].
      rewrite lookup_alter_eq, Hq3', Hq.
      cbn [fmap option_fmap option_map mbind option_bind with_left m_size].
      rewrite store_size_alter by (heap_alloc; by rewrite Hq3', Hq).
      cbn [mbind option_bind].
      pose proof (tsize_nonneg r').
      pose proof (tsize_plug c (Node (Node l x r) q r')) as Hle2.
      pose proof (tsize_plug c (Node j q r')) as Hle3.
      rewrite to_size_t_small by (cbn [tsize] in *; lia).
      set (h5 := alter (λ n, with_size n _) q _).
      destruct (erase_loop_ctx c (Node j q r') q fuel h5)
        as (h' & top & Hloop & Htop & Hrep' & Hf' & Hv');
        [done| | |done|cbn [tsize] in *; lia|simpl in Hfuel; lia|].
      { apply (rep_Node_intro _ _ _ _ _ vq).
        - unfold h5. heap_lookup. rewrite Hq3', Hq. setters. do 2 f_equal.
          cbn [tsize]. lia.
        - eapply rep_frame; [|exact Hrj3]. intros y Hy. unfold h5.
          by rewrite !lookup_alter_ne by ne.
        - eapply rep_frame; [|exact Hr']. intros y Hy. unfold h5.
          rewrite !lookup_alter_ne by ne. apply Hf3'.
          intros Hy'. by apply (Hq3 y). }
      { eapply rep_ctx_size; [|eapply rep_ctx_frame; [|exact Hctx]].
        - cbn [tsize]. lia.
        - intros y Hy. unfold h5.
          rewrite !lookup_alter_ne by (intros ->; tauto). apply Hf3'.
          intros Hy'.
          destruct (NoDup_plug_ctx c _ y Hnd ltac:(apply elem_Node; left; exact Hy')).
          tauto. }
      rewrite Hloop. cbn [mbind option_bind]. rewrite Htop.
      exists h', v. split_and!; try done.
      * assert (x ∉ ctx_path c) as Hxp.
        { intros Hxp%ctx_path_elem.
          destruct (NoDup_plug_ctx c _ x Hnd
                      ltac:(apply elem_Node; left; apply elem_Node; tauto)).
          tauto. }
        rewrite Hf' by done. unfold h5. by rewrite !lookup_alter_ne by ne.
      * intros y Hy.
        rewrite nodes_plug, !not_elem_of_app in Hy. destruct Hy as (Hyb & Hyt & Hya).
        pose proof Hyt as (? & ? & ?)%not_elem_Node.
        rewrite Hf' by (intros ?%ctx_path_elem; tauto).
        unfold h5. rewrite !lookup_alter_ne by ne. by apply Hf3'.
      * intros y. rewrite Hv'. unfold h5.
        by rewrite value_alter_size, value_alter_left, Hv3, Hv2.
    + assert (root l' ≠ Some x) as Hl'x.
      { intros Hr0%root_elem. apply (Hq3 x Hr0). apply elem_Node. tauto. }
      rewrite decide_False by done.
      rewrite store_right_alter by (by rewrite Hq3', Hq). cbn [mbind option_bind].
      rewrite lookup_alter_eq, Hq3', Hq.
      cbn [fmap option_fmap option_map mbind option_bind with_right m_size].
      rewrite store_size_alter by (heap_alloc; by rewrite Hq3', Hq).
      cbn [mbind option_bind].
      pose proof (tsize_nonneg l').
      pose proof (tsize_plug c (Node l' q (Node l x r))) as Hle2.
      pose proof (tsize_plug c (Node l' q j)) as Hle3.
      rewrite to_size_t_small by (cbn [tsize] in *; lia).
      set (h5 := alter (λ n, with_size n _) q _).
      destruct (erase_loop_ctx c (Node l' q j) q fuel h5)
        as (h' & top & Hloop & Htop & Hrep' & Hf' & Hv');
        [done| | |done|cbn [tsize] in *; lia|simpl in Hfuel; lia|].
      { apply (rep_Node_intro _ _ _ _ _ vq).
        - unfold h5. heap_lookup. rewrite Hq3', Hq. setters. do 2 f_equal.
          cbn [tsize]. lia.
        - eapply rep_frame; [|exact Hr']. intros y Hy. unfold h5.
          rewrite !lookup_alter_ne by ne. apply Hf3'. by apply Hq3.
        - eapply rep_frame; [|exact Hrj3]. intros y Hy. unfold h5.
          by rewrite !lookup_alter_ne by ne. }
      { eapply rep_ctx_size; [|eapply rep_ctx_frame; [|exact Hctx]].
        - cbn [tsize]. lia.
        - intros y Hy. unfold h5.
          rewrite !lookup_alter_ne by (intros ->; tauto). apply Hf3'.
          intros Hy'.
          destruct (NoDup_plug_ctx c _ y Hnd
                      ltac:(apply elem_Node; right; right; exact Hy')).
          tauto. }
      rewrite Hloop. cbn [mbind option_bind]. rewrite Htop.
      exists h', v. split_and!; try done.
      * assert (x ∉ ctx_path c) as Hxp.
        { intros Hxp%ctx_path_elem.
          destruct (NoDup_plug_ctx c _ x Hnd
                      ltac:(apply elem_Node; right; right; apply elem_Node; tauto)).
          tauto. }
        rewrite Hf' by done. unfold h5. by rewrite !lookup_alter_ne by ne.
      * intros y Hy.
        rewrite nodes_plug, !not_elem_of_app in Hy. destruct Hy as (Hyb & Hyt & Hya).
        pose proof Hyt as (? & ? & ?)%not_elem_Node.
        rewrite Hf' by (intros ?%ctx_path_elem; tauto).
        unfold h5. rewrite !lookup_alter_ne by ne. by apply Hf3'.
      * intros y. rewrite Hv'. unfold h5.
        by rewrite value_alter_size, value_alter_right, Hv3, Hv2.
Qed.

End Erase.

(** ** The order invariant *)

Section Ordered.

Context {V : Type} (comp : V -> V -> bool) (Hswo : StrictWeakOrder comp).

Lemma comp_irrefl a : comp a a = false.
Proof.
  destruct (comp a a) eqn:E; [|done]. by rewrite (comp_asym comp a a E) in E.
Qed.

(** [a <= b] and [b <= c] give [a <= c]. *)
Lemma comp_le_trans a b c :
  comp b a = false → comp c b = false → comp c a = false.
Proof.
  intros Hba Hcb. destruct (comp c a) eqn:E; [|done].
  destruct (comp_negtrans comp c b a E); congruence.
Qed.

(** [a < b] and [b <= c] give [a < c]. *)
Lemma comp_lt_le a b c : comp a b = true → comp c b = false → comp a c = true.
Proof. intros Hab Hcb. destruct (comp_negtrans comp a c b Hab); congruence. Qed.

(** [a <= b] and [b < c] give [a < c]. *)
Lemma comp_le_lt a b c : comp b a = false → comp b c = true → comp a c = true.
Proof. intros Hba Hbc. destruct (comp_negtrans comp b a c Hbc); congruence. Qed.

Lemma equiv_key_sym a b : equiv_key comp a b → equiv_key comp b a.
Proof. intros [? ?]. by split. Qed.

Lemma equiv_key_trans a b c :
  equiv_key comp a b → equiv_key comp b c → equiv_key comp a c.
Proof.
  intros [Hab Hba] [Hbc Hcb]. split.
  - by apply (comp_le_trans c b a).
  - by apply (comp_le_trans a b c).
Qed.

Context {Rng : Type} (draw : Rng -> Z -> Z * Rng).
Context (key : ptr -> V).

Lemma ordered_ext key' t :
  (∀ y, y ∈ nodes t → key' y = key y) → ordered comp key t →
  ordered comp key' t.
Proof.
  induction t as [|l IHl x r IHr]; [done|]. intros He (Hl & Hr & Hol & Hor).
  assert (∀ y, y ∈ nodes l → key' y = key y) as Hel
    by (intros y Hy; apply He, elem_Node; tauto).
  assert (∀ y, y ∈ nodes r → key' y = key y) as Her
    by (intros y Hy; apply He, elem_Node; tauto).
  assert (key' x = key x) as Hex by (apply He, elem_Node; tauto).
  cbn [ordered]. split_and!.
  - intros y Hy. rewrite Hex, Hel by done. by apply Hl.
  - intros y Hy. rewrite Hex, Her by done. by apply Hr.
  - by apply IHl.
  - by apply IHr.
Qed.

(** Split keeps both parts in order: what is not greater than the pivot on
    one side, what is greater on the other. *)
Lemma split_tree_ordered pivot t :
  ordered comp key t →
  ordered comp key (split_tree comp key pivot t).1
  ∧ ordered comp key (split_tree comp key pivot t).2
  ∧ (∀ y, y ∈ nodes (split_tree comp key pivot t).1 →
          comp (key pivot) (key y) = false)
  ∧ (∀ y, y ∈ nodes (split_tree comp key pivot t).2 →
          comp (key pivot) (key y) = true).
Proof.
  induction t as [|l IHl x r IHr]; intros Ho.
  - cbn. split_and!; try done; by intros y ?%elem_of_nil.
  - destruct Ho as (Hl & Hr & Hol & Hor). cbn [split_tree].
    destruct (comp (key pivot) (key x)) eqn:Hc.
    + destruct (IHl Hol) as (Ha & Hb & Hna & Hnb).
      pose proof (split_tree_elem comp key pivot l) as Helem.
      destruct (split_tree comp key pivot l) as [a b]. cbn [fst snd] in *.
      split_and!; [done| |done|].
      * cbn [ordered]. split_and!; [|done..].
        intros y Hy. apply Hl, Helem. by right.
      * intros y [Hy|[->|Hy]]%elem_Node; [by apply Hnb|done|].
        eapply comp_lt_le; [exact Hc|]. by apply Hr.
    + destruct (IHr Hor) as (Ha & Hb & Hna & Hnb).
      pose proof (split_tree_elem comp key pivot r) as Helem.
      destruct (split_tree comp key pivot r) as [a b]. cbn [fst snd] in *.
      split_and!; [|done| |done].
      * cbn [ordered]. split_and!; [done| |done..].
        intros y Hy. apply Hr, Helem. by left.
      * intros y [Hy|[->|Hy]]%elem_Node; [|done|by apply Hna].
        eapply (comp_le_trans _ (key x)); [by apply Hl|done].
Qed.

Lemma insert_tree_ordered new t rng :
  ordered comp key t → ordered comp key (insert_tree comp draw key new t rng).1.
Proof.
  revert rng. induction t as [|l IHl x r IHr]; intros rng Ho.
  - cbn. split_and!; try done; by intros y ?%elem_of_nil.
  - cbn [insert_tree]. destruct (draw rng _) as [d rng1].
    destruct (d =? 0).
    + destruct (split_tree_ordered new (Node l x r) Ho) as (Ha & Hb & Hna & Hnb).
      destruct (split_tree comp key new (Node l x r)) as [a b].
      cbn [fst snd ordered] in *. split_and!; try done.
      intros y Hy. apply (comp_asym comp). by apply Hnb.
    + destruct Ho as (Hl & Hr & Hol & Hor).
      destruct (comp (key new) (key x)) eqn:Hc.
      * specialize (IHl rng1 Hol).
        pose proof (insert_tree_elem comp draw key new l rng1) as Helem.
        destruct (insert_tree comp draw key new l rng1) as [l' rng2].
        cbn [fst snd ordered] in *. split_and!; try done.
        intros y [->|Hy]%Helem; [by apply (comp_asym comp)|by apply Hl].
      * specialize (IHr rng1 Hor).
        pose proof (insert_tree_elem comp draw key new r rng1) as Helem.
        destruct (insert_tree comp draw key new r rng1) as [r' rng2].
        cbn [fst snd ordered] in *. split_and!; try done.
        intros y [->|Hy]%Helem; [done|by apply Hr].
Qed.

Lemma join_tree_ordered l : ∀ g rng,
  ordered comp key l → ordered comp key g →
  (∀ a b, a ∈ nodes l → b ∈ nodes g → comp (key b) (key a) = false) →
  ordered comp key (join_tree draw l g rng).1.
Proof.
  induction l as [|ll IHll x lr IHlr]; intros g rng Hol Hog Hlg.
  - by rewrite join_tree_Leaf_l.
  - revert rng Hog Hlg. induction g as [|gl IHgl y gr IHgr]; intros rng Hog Hlg.
    + by rewrite join_tree_Leaf_r.
    + rewrite join_tree_Node. destruct (draw rng _) as [d rng1].
      destruct Hol as (Hl1 & Hl2 & Hl3 & Hl4).
      destruct Hog as (Hg1 & Hg2 & Hg3 & Hg4).
      destruct (d <? _).
      * pose proof (join_tree_nodes draw lr (Node gl y gr) rng1) as Hn.
        specialize (IHlr (Node gl y gr) rng1 Hl4).
        destruct (join_tree draw lr (Node gl y gr) rng1) as [j rng2].
        cbn [fst snd] in *. cbn [ordered]. split_and!; [done| |done|].
        -- intros z Hz. rewrite Hn in Hz. apply elem_of_app in Hz as [Hz|Hz].
           ++ by apply Hl2.
           ++ apply Hlg; [|done]. apply elem_Node. tauto.
        -- apply IHlr; [by split_and!|].
           intros a b Ha Hb. apply Hlg; [|done]. apply elem_Node. tauto.
      * pose proof (join_tree_nodes draw (Node ll x lr) gl rng1) as Hn.
        specialize (IHgl rng1 Hg3).
        destruct (join_tree draw (Node ll x lr) gl rng1) as [j rng2].
        cbn [fst snd] in *. cbn [ordered]. split_and!; [|done| |done].
        -- intros z Hz. rewrite Hn in Hz. apply elem_of_app in Hz as [Hz|Hz].
           ++ apply Hlg; [done|]. apply elem_Node. tauto.
           ++ by apply Hg1.
        -- apply IHgl.
           intros a b Ha Hb. apply Hlg; [done|]. apply elem_Node. tauto.
Qed.

(** In a node in order, nothing on the left is greater than anything on
    the right: the children can be joined. *)
Lemma ordered_children l x r a b :
  ordered comp key (Node l x r) → a ∈ nodes l → b ∈ nodes r →
  comp (key b) (key a) = false.
Proof.
  intros (Hl & Hr & _) Ha Hb.
  eapply (comp_le_trans _ (key x)); [by apply Hl|by apply Hr].
Qed.

Lemma ordered_plug_sub c t : ordered comp key (plug c t) → ordered comp key t.
Proof.
  revert t. induction c as [|[p r|l p] c IH]; intros t Ho; [done|..];
    specialize (IH _ Ho); cbn [ordered] in IH; tauto.
Qed.

Lemma ordered_plug_replace c t t' :
  ordered comp key (plug c t) → ordered comp key t' →
  (∀ y, y ∈ nodes t' → y ∈ nodes t) → ordered comp key (plug c t').
Proof.
  revert t t'. induction c as [|[p r|l p] c IH]; intros t t' Ho Ho' Hsub; [done|..];
    cbn [plug] in *; apply (IH _ _ Ho);
    pose proof (ordered_plug_sub _ _ Ho) as (H1 & H2 & H3 & H4).
  - cbn [ordered]. split_and!; try done. intros y Hy. by apply H1, Hsub.
  - intros y. rewrite !elem_Node. intros [?|[?|?]]; auto.
  - cbn [ordered]. split_and!; try done. intros y Hy. by apply H2, Hsub.
  - intros y. rewrite !elem_Node. intros [?|[?|?]]; auto.
Qed.

(** The set order of a tree in order is sorted. *)
Lemma ordered_sorted t :
  ordered comp key t →
  StronglySorted (λ a b, comp (key b) (key a) = false) (nodes t).
Proof.
  induction t as [|l IHl x r IHr]; [constructor|].
  intros (Hl & Hr & Hol & Hor). cbn [nodes].
  apply StronglySorted_app_2; [|by apply IHl|].
  - intros a b Ha [->|Hb]%elem_of_cons; [by apply Hl|].
    eapply (comp_le_trans _ (key x)); [by apply Hl|by apply Hr].
  - apply StronglySorted_cons. split; [|by apply IHr].
    apply Forall_forall. intros b Hb. by apply Hr.
Qed.

End Ordered.

(** ** Ordered lookup *)

Lemma first_such_cons P x l res :
  first_such P (x :: l) res = if P x then Some x else first_such P l res.
Proof. unfold first_such. simpl. by destruct (P x). Qed.

Lemma first_such_app P l1 l2 res :
  first_such P (l1 ++ l2) res = first_such P l1 (first_such P l2 res).
Proof.
  induction l1 as [|x l1 IH]; [done|].
  rewrite <- app_comm_cons, !first_such_cons, IH. done.
Qed.

Lemma first_such_none P l res :
  (∀ y, y ∈ l → P y = false) → first_such P l res = res.
Proof.
  induction l as [|x l IH]; intros Hl; [done|].
  rewrite first_such_cons, Hl by (by left). apply IH. intros y Hy.
  apply Hl. by right.
Qed.

Lemma first_such_ext P Q l res :
  (∀ y, y ∈ l → P y = Q y) → first_such P l res = first_such Q l res.
Proof.
  induction l as [|x l IH]; intros Hl; [done|].
  rewrite !first_such_cons, Hl by (by left). rewrite IH; [done|].
  intros y Hy. apply Hl. by right.
Qed.

Lemma first_such_elem P l res y :
  first_such P l res = Some y → (y ∈ l ∧ P y = true) ∨ res = Some y.
Proof.
  induction l as [|x l IH]; [by right|].
  rewrite first_such_cons. destruct (P x) eqn:HP.
  - intros [= ->]. left. split; [by left|done].
  - intros [[? ?]|?]%IH; [left|by right]. split; [by right|done].
Qed.

Section Lookup.

Context {V : Type} (comp : V -> V -> bool) (Hswo : StrictWeakOrder comp).
Context (key : ptr -> V).

Abbreviation heap := (gmap positive (@RbstNode V)).

Lemma keyed_rep_value (h : heap) l x r parent :
  rep h (Node l x r) parent → keyed h key (nodes (Node l x r)) →
  h !! x = Some (mkRbstNode (root l) (root r) parent (tsize (Node l x r))
                   (Some (key x)))
  ∧ keyed h key (nodes l) ∧ keyed h key (nodes r).
Proof.
  intros ([v Hx] & _) Hk. split_and!.
  - pose proof (Hk x ltac:(apply elem_Node; tauto)) as Hv.
    unfold value in Hv. rewrite Hx in Hv. simpl in Hv. by rewrite Hv in Hx.
  - intros y Hy. apply Hk, elem_Node. tauto.
  - intros y Hy. apply Hk, elem_Node. tauto.
Qed.

(** [lower_bound]: the first node in set order whose value is not less than
    the key. *)
Lemma lower_bound_rep t : ∀ fuel (h : heap) parent res k,
  rep h t parent → keyed h key (nodes t) → ordered comp key t →
  (height t < fuel)%nat →
  lower_bound comp fuel h (root t) k res
  = Some (first_such (λ y, negb (comp (key y) k)) (nodes t) res).
Proof.
  induction t as [|l IHl x r IHr]; intros fuel h parent res k Hrep Hk Ho Hfuel;
    (destruct fuel as [|fuel]; [simpl in Hfuel; lia|]); [done|].
  destruct (keyed_rep_value _ _ _ _ _ Hrep Hk) as (Hx & Hkl & Hkr).
  destruct Hrep as (_ & Hrl & Hrr). destruct Ho as (Hl & Hr & Hol & Hor).
  cbn [lower_bound root nodes]. rewrite Hx. cbn [mbind option_bind m_value m_left m_right].
  rewrite first_such_app, first_such_cons.
  destruct (comp (key x) k) eqn:Hc; cbn [negb].
  - rewrite (IHr fuel h (Some x)); [|done|done|done|simpl in Hfuel; lia].
    f_equal. symmetry. apply first_such_none. intros y Hy.
    rewrite (comp_le_lt comp Hswo (key y) (key x) k); [done|by apply Hl|done].
  - rewrite (IHl fuel h (Some x)); [done|done|done|done|simpl in Hfuel; lia].
Qed.

(** [upper_bound]: the first node in set order whose value is greater than
    the key. *)
Lemma upper_bound_rep t : ∀ fuel (h : heap) parent res k,
  rep h t parent → keyed h key (nodes t) → ordered comp key t →
  (height t < fuel)%nat →
  upper_bound comp fuel h (root t) k res
  = Some (first_such (λ y, comp k (key y)) (nodes t) res).
Proof.
  induction t as [|l IHl x r IHr]; intros fuel h parent res k Hrep Hk Ho Hfuel;
    (destruct fuel as [|fuel]; [simpl in Hfuel; lia|]); [done|].
  destruct (keyed_rep_value _ _ _ _ _ Hrep Hk) as (Hx & Hkl & Hkr).
  destruct Hrep as (_ & Hrl & Hrr). destruct Ho as (Hl & Hr & Hol & Hor).
  cbn [upper_bound root nodes]. rewrite Hx. cbn [mbind option_bind m_value m_left m_right].
  rewrite first_such_app, first_such_cons.
  destruct (comp k (key x)) eqn:Hc.
  - rewrite (IHl fuel h (Some x)); [done|done|done|done|simpl in Hfuel; lia].
  - rewrite (IHr fuel h (Some x)); [|done|done|done|simpl in Hfuel; lia].
    f_equal. symmetry. apply first_such_none. intros y Hy.
    apply (comp_le_trans comp Hswo (key y) (key x) k); [by apply Hl|done].
Qed.

(** [find]: a node with an equivalent value when there is one, the fallback
    otherwise. *)
Lemma find_rep t : ∀ fuel (h : heap) parent res k,
  rep h t parent → keyed h key (nodes t) → ordered comp key t →
  (height t < fuel)%nat →
  ∃ r', find comp fuel h (root t) k res = Some r'
    ∧ ((∃ y, r' = Some y ∧ y ∈ nodes t ∧ equiv_key comp (key y) k)
       ∨ (r' = res ∧ ∀ y, y ∈ nodes t → ¬ equiv_key comp (key y) k)).
Proof.
  induction t as [|l IHl x r IHr]; intros fuel h parent res k Hrep Hk Ho Hfuel;
    (destruct fuel as [|fuel]; [simpl in Hfuel; lia|]).
  { exists res. split; [done|]. right. split; [done|]. by intros y ?%elem_of_nil. }
  destruct (keyed_rep_value _ _ _ _ _ Hrep Hk) as (Hx & Hkl & Hkr).
  destruct Hrep as (_ & Hrl & Hrr). destruct Ho as (Hl & Hr & Hol & Hor).
  cbn [find root]. rewrite Hx. cbn [mbind option_bind m_value m_left m_right].
  destruct (comp k (key x)) eqn:Hc1.
  - destruct (IHl fuel h (Some x) res k) as (r' & -> & Hr');
      [done|done|done|simpl in Hfuel; lia|].
    exists r'. split; [done|].
    destruct Hr' as [(y & -> & Hy & He)|[-> Hn]].
    + left. exists y. split_and!; [done| |done]. apply elem_Node. tauto.
    + right. split; [done|].
      intros y [Hy|[->|Hy]]%elem_Node [He1 He2]; [by eapply Hn| |]; try congruence.
      pose proof (comp_lt_le comp Hswo k (key x) (key y) Hc1 (Hr y Hy)).
      congruence.
  - destruct (comp (key x) k) eqn:Hc2.
    + destruct (IHr fuel h (Some x) res k) as (r' & -> & Hr');
        [done|done|done|simpl in Hfuel; lia|].
      exists r'. split; [done|].
      destruct Hr' as [(y & -> & Hy & He)|[-> Hn]].
      * left. exists y. split_and!; [done| |done]. apply elem_Node. tauto.
      * right. split; [done|].
        intros y [Hy|[->|Hy]]%elem_Node [He1 He2]; [| |by eapply Hn]; try congruence.
        pose proof (comp_le_lt comp Hswo (key y) (key x) k (Hl y Hy) Hc2).
        congruence.
    + exists (Some x). split; [done|]. left. exists x.
      split_and!; [done| |done]. apply elem_Node. tauto.
Qed.

(** On a sorted list without repetition, the two bounds coincide exactly
    when no value is equivalent to the key. *)
Lemma bounds_coincide l res k :
  StronglySorted (λ a b, comp (key b) (key a) = false) l → NoDup l →
  (∀ y, res = Some y → y ∉ l) →
  first_such (λ y, negb (comp (key y) k)) l res
  = first_such (λ y, comp k (key y)) l res
  ↔ ∀ y, y ∈ l → ¬ equiv_key comp (key y) k.
Proof.
  intros Hs Hnd Hres. split.
  - induction l as [|a l IH]; intros Heq y Hy; [by apply elem_of_nil in Hy|].
    apply StronglySorted_cons in Hs as [Ha Hs]. rewrite Forall_forall in Ha.
    apply NoDup_cons in Hnd as [Hal Hnd].
    rewrite !first_such_cons in Heq.
    destruct (comp (key a) k) eqn:Hlo; cbn [negb] in Heq.
    + destruct (comp k (key a)) eqn:Hup.
      { by rewrite (comp_asym comp _ _ Hup) in Hlo. }
      apply elem_of_cons in Hy as [->|Hy].
      * intros [? ?]. congruence.
      * apply IH; try done. intros z Hz Hzl. apply (Hres z Hz). by right.
    + destruct (comp k (key a)) eqn:Hup.
      * (* every later value is greater than the key as well *)
        intros [He1 He2]. apply elem_of_cons in Hy as [->|Hy]; [congruence|].
        pose proof (comp_lt_le comp Hswo k (key a) (key y) Hup (Ha y Hy)).
        congruence.
      * symmetry in Heq. apply first_such_elem in Heq as [[Hin _]|Hr];
          [done|]. exfalso. apply (Hres a Hr). by left.
  - intros Hne. apply first_such_ext. intros y Hy.
    specialize (Hne y Hy). unfold equiv_key in Hne.
    destruct (comp (key y) k) eqn:Hlo, (comp k (key y)) eqn:Hup; cbn; try done.
    + by rewrite (comp_asym comp _ _ Hup) in Hlo.
    + tauto.
Qed.

End Lookup.

(** ** Fuel: a result does not depend on the fuel that produced it *)

(** A computation that succeeded is taken apart into its steps; the
    recursive calls among them are moved to the larger fuel by the induction
    hypothesis [IH]; the goal then follows the same steps. *)
Ltac mono_decomp :=
  repeat match goal with
         | H : (_ ≫= _) = Some _ |- _ => apply bind_Some in H as (? & ? & ?)
         | H : None = Some _ |- _ => discriminate H
         | H : Some _ = Some _ |- _ => injection H as ?; subst
         | H : (match ?e with _ => _ end) = Some _ |- _ => destruct e eqn:?
         end.

Ltac mono_close IH fuel' :=
  repeat match goal with
         | E : _ = Some _ |- _ => apply (IH fuel') in E; [|lia]
         end;
  repeat match goal with
         | E : ?lhs = _ |- context [?lhs] => rewrite E; simpl
         end;
  try done.

Section Fuel.

Context {V : Type} (comp : V -> V -> bool).
Context {Rng : Type} (draw : Rng -> Z -> Z * Rng).

Abbreviation heap := (gmap positive (@RbstNode V)).

Lemma split_fuel : ∀ fuel fuel' (h : heap) this x lesser greater h',
  (fuel <= fuel')%nat →
  split comp fuel h this x lesser greater = Some h' →
  split comp fuel' h this x lesser greater = Some h'.
Proof.
  induction fuel as [|fuel IH]; intros fuel' h this x lesser greater h' Hle H;
    [done|].
  destruct fuel' as [|fuel']; [lia|]. simpl in H |- *.
  mono_decomp; mono_close IH fuel'.
Qed.

Lemma insert_fuel : ∀ fuel fuel' (h : heap) this node parent rng res,
  (fuel <= fuel')%nat →
  insert comp draw fuel h this node parent rng = Some res →
  insert comp draw fuel' h this node parent rng = Some res.
Proof.
  induction fuel as [|fuel IH]; intros fuel' h this node parent rng res Hle H;
    [done|].
  destruct fuel' as [|fuel']; [lia|]. simpl in H |- *.
  mono_decomp;
    repeat match goal with
           | E : split _ fuel _ _ _ _ _ = Some _ |- _ =>
               apply (split_fuel fuel fuel') in E; [|lia]
           end;
    mono_close IH fuel'.
Qed.

Lemma join_fuel : ∀ fuel fuel' (h : heap) lesser greater rng res,
  (fuel <= fuel')%nat →
  join draw fuel h lesser greater rng = Some res →
  join draw fuel' h lesser greater rng = Some res.
Proof.
  induction fuel as [|fuel IH]; intros fuel' h lesser greater rng res Hle H;
    [done|].
  destruct fuel' as [|fuel']; [lia|]. simpl in H |- *.
  mono_decomp; mono_close IH fuel'.
Qed.

Lemma erase_loop_fuel : ∀ fuel fuel' (h : heap) parent res,
  (fuel <= fuel')%nat →
  erase_loop fuel h parent = Some res → erase_loop fuel' h parent = Some res.
Proof.
  induction fuel as [|fuel IH]; intros fuel' h parent res Hle H; [done|].
  destruct fuel' as [|fuel']; [lia|]. simpl in H |- *.
  mono_decomp; mono_close IH fuel'.
Qed.

Lemma erase_fuel fuel fuel' (h : heap) this rng res :
  (fuel <= fuel')%nat →
  erase draw fuel h this rng = Some res → erase draw fuel' h this rng = Some res.
Proof.
  intros Hle H. unfold erase in *.
  mono_decomp;
    repeat match goal with
           | E : join _ fuel _ _ _ _ = Some _ |- _ =>
               apply (join_fuel fuel fuel') in E; [|lia]
           | E : erase_loop fuel _ _ = Some _ |- _ =>
               apply (erase_loop_fuel fuel fuel') in E; [|lia]
           end;
    repeat match goal with
           | E : ?lhs = _ |- context [?lhs] => rewrite E; simpl
           end;
    try done.
Qed.

Lemma RbstTree_insert_fuel fuel fuel' (h : heap) this node rng res :
  (fuel <= fuel')%nat →
  RbstTree_insert comp draw fuel h this node rng = Some res →
  RbstTree_insert comp draw fuel' h this node rng = Some res.
Proof.
  intros Hle H. unfold RbstTree_insert in *.
  mono_decomp;
    repeat match goal with
           | E : insert _ _ fuel _ _ _ _ _ = Some _ |- _ =>
               apply (insert_fuel fuel fuel') in E; [|lia]
           end;
    repeat match goal with
           | E : ?lhs = _ |- context [?lhs] => rewrite E; simpl
           end;
    try done.
Qed.

End Fuel.

(** ** Reachability and the invariants on the heap *)

Lemma height_le_length t : (height t <= length (nodes t))%nat.
Proof.
  induction t as [|l IHl x r IHr]; simpl; [lia|].
  rewrite length_app. simpl. lia.
Qed.

Lemma elem_remove_middle (a l r b : list positive) x y :
  NoDup (a ++ (l ++ x :: r) ++ b) →
  y ∈ a ++ (l ++ r) ++ b ↔ y ∈ a ++ (l ++ x :: r) ++ b ∧ y ≠ x.
Proof.
  intros Hnd.
  assert (x ∉ a ++ (l ++ r) ++ b) as Hx.
  { apply NoDup_app in Hnd as (_ & Hd1 & Hnd).
    apply NoDup_app in Hnd as (Hnd & Hd2 & _).
    apply NoDup_app in Hnd as (_ & Hd3 & [Hd4 _]%NoDup_cons).
    rewrite !not_elem_of_app. split_and!; try done.
    - intros Ha. apply (Hd1 _ Ha). rewrite !elem_of_app, elem_of_cons. tauto.
    - intros Hl. apply (Hd3 _ Hl). by left.
    - apply Hd2. rewrite !elem_of_app, elem_of_cons. tauto. }
  split.
  - intros Hy. split; [|by intros ->].
    rewrite !elem_of_app, elem_of_cons. rewrite !elem_of_app in Hy. tauto.
  - intros [Hy Hne]. rewrite !elem_of_app. rewrite !elem_of_app, elem_of_cons in Hy.
    tauto.
Qed.

Section Reach.

Context {V : Type} (comp : V -> V -> bool).

Abbreviation heap := (gmap positive (@RbstNode V)).

Lemma reachable_trans (h : heap) x y z :
  reachable h x y → reachable h y z → reachable h x z.
Proof.
  intros Hxy Hyz. induction Hyz as [|y' n z' _ IH Hn Hl|y' n z' _ IH Hn Hr].
  - done.
  - by eapply reachable_left.
  - by eapply reachable_right.
Qed.

(** A node of a represented tree with its own subtree. *)
Lemma rep_elem (h : heap) t parent x :
  rep h t parent → x ∈ nodes t →
  ∃ l r p, rep h (Node l x r) p
    ∧ (∀ y, y ∈ nodes (Node l x r) → y ∈ nodes t)
    ∧ ∃ c, t = plug c (Node l x r).
Proof.
  intros Hrep (c & l & r & ->)%elem_of_nodes_plug.
  apply rep_plug in Hrep as [Hrep _]. exists l, r, (ctx_parent c parent).
  split_and!; [done| |by exists c].
  intros y Hy. rewrite nodes_plug, !elem_of_app. tauto.
Qed.

Lemma reachable_elem (h : heap) t parent r y :
  rep h t parent → root t = Some r → reachable h r y → y ∈ nodes t.
Proof.
  intros Hrep Hroot Hreach.
  induction Hreach as [|z n c _ IH Hn Hl|z n c _ IH Hn Hr].
  - by apply root_elem.
  - destruct (rep_elem _ _ _ _ Hrep IH) as (l & r' & p & ([v Hz] & _) & Hsub & _).
    rewrite Hz in Hn. injection Hn as <-. simpl in Hl.
    apply Hsub, elem_Node. left. by apply root_elem.
  - destruct (rep_elem _ _ _ _ Hrep IH) as (l & r' & p & ([v Hz] & _) & Hsub & _).
    rewrite Hz in Hn. injection Hn as <-. simpl in Hr.
    apply Hsub, elem_Node. right. right. by apply root_elem.
Qed.

Lemma elem_reachable (h : heap) t : ∀ parent r y,
  rep h t parent → root t = Some r → y ∈ nodes t → reachable h r y.
Proof.
  induction t as [|l IHl x r0 IHr]; intros parent r y Hrep Hroot Hy; [done|].
  injection Hroot as ->. destruct Hrep as ([v Hx] & Hl & Hr).
  apply elem_Node in Hy as [Hy|[->|Hy]].
  - destruct l as [|ll z lr]; [by apply elem_of_nil in Hy|].
    eapply reachable_trans; [|by eapply (IHl (Some r) z)].
    eapply reachable_left; [constructor|exact Hx|done].
  - constructor.
  - destruct r0 as [|rl z rr]; [by apply elem_of_nil in Hy|].
    eapply reachable_trans; [|by eapply (IHr (Some r) z)].
    eapply reachable_right; [constructor|exact Hx|done].
Qed.

(** I1 and I2 at every node of a represented tree. *)
Lemma rep_I1 (h : heap) t parent x : rep h t parent → x ∈ nodes t → I1 h x.
Proof.
  intros Hrep Hx.
  destruct (rep_elem _ _ _ _ Hrep Hx) as (l & r & p & ([v Hn] & Hl & Hr) & _).
  eexists _, (tsize l), (tsize r). split; [exact Hn|]. simpl.
  split_and!; [by eapply rep_size|by eapply rep_size|done].
Qed.

Lemma rep_I2 (h : heap) t parent x : rep h t parent → x ∈ nodes t → I2 h x.
Proof.
  intros Hrep Hx.
  destruct (rep_elem _ _ _ _ Hrep Hx) as (l & r & p & ([v Hn] & Hl & Hr) & _).
  eexists. split; [exact Hn|]. simpl. intros c [Hc|Hc].
  - destruct (rep_root _ _ _ _ Hl Hc) as (? & ? & ? & _ & Hc' & _). eauto.
  - destruct (rep_root _ _ _ _ Hr Hc) as (? & ? & ? & _ & Hc' & _). eauto.
Qed.

(** Values as a total function. *)
Lemma key_of_value (h : heap) d y v : value h y = Some v → key_of h d y = v.
Proof. unfold key_of. by intros ->. Qed.

Lemma valued_keyed (h : heap) d l : valued h l → keyed h (key_of h d) l.
Proof.
  intros Hv y Hy. destruct (Hv y Hy) as [v Hvy].
  by rewrite (key_of_value _ _ _ _ Hvy).
Qed.

Lemma key_of_values (h h' : heap) d y :
  value h' y = value h y → key_of h' d y = key_of h d y.
Proof. unfold key_of. by intros ->. Qed.

Lemma key_of_default (h : heap) d d' l y :
  valued h l → y ∈ l → key_of h d y = key_of h d' y.
Proof. intros Hv Hy. destruct (Hv y Hy) as [v Hvy]. unfold key_of. by rewrite Hvy. Qed.

(** I3 at every valued node of a tree in order. *)
Lemma rep_I3 (h : heap) t parent x :
  rep h t parent → valued h (nodes t) → (∀ d, ordered comp (key_of h d) t) →
  x ∈ nodes t → I3 comp h x.
Proof.
  intros Hrep Hval Hord Hx.
  destruct (rep_elem _ _ _ _ Hrep Hx)
    as (l & r & p & ([v Hn] & Hl & Hr) & Hsub & c & ->).
  destruct (Hval x Hx) as [vx Hvx].
  pose proof (ordered_plug_sub comp _ _ _ (Hord vx)) as (Hol & Hor & _).
  assert (v = Some vx) as ->.
  { unfold value in Hvx. rewrite Hn in Hvx. done. }
  eexists _, vx. split; [exact Hn|]. simpl. split_and!; [done|..].
  - intros c0 y Hc0 Hy.
    pose proof (reachable_elem _ _ _ _ _ Hl Hc0 Hy) as Hyl.
    destruct (Hval y) as [w Hw]; [apply Hsub, elem_Node; tauto|].
    exists w. split; [done|].
    specialize (Hol y Hyl).
    by rewrite (key_of_value _ _ _ _ Hvx), (key_of_value _ _ _ _ Hw) in Hol.
  - intros c0 y Hc0 Hy.
    pose proof (reachable_elem _ _ _ _ _ Hr Hc0 Hy) as Hyr.
    destruct (Hval y) as [w Hw]; [apply Hsub, elem_Node; tauto|].
    exists w. split; [done|].
    specialize (Hor y Hyr).
    by rewrite (key_of_value _ _ _ _ Hvx), (key_of_value _ _ _ _ Hw) in Hor.
Qed.

(** The invariants I1, I2 and I3 below a root holder. *)
Lemma RbstTree_rep_invariants (h : heap) this t x :
  RbstTree_rep comp h this t → reachable h this x →
  I1 h x ∧ I2 h x ∧ (x ≠ this → I3 comp h x).
Proof.
  intros ([Hnd Hrep] & _ & Hval & Hord) Hreach.
  pose proof (reachable_elem _ _ _ _ _ Hrep eq_refl Hreach) as Hx.
  split_and!.
  - by eapply rep_I1.
  - by eapply rep_I2.
  - intros Hne. destruct Hrep as (_ & Hrep & _).
    apply elem_Node in Hx as [Hx|[->|Hx]]; [|done|by apply elem_of_nil in Hx].
    by eapply rep_I3.
Qed.

End Reach.

(** ** The root holder *)

Section Holder.

Context {V : Type} (comp : V -> V -> bool) (Hswo : StrictWeakOrder comp).
Context {Rng : Type} (draw : Rng -> Z -> Z * Rng).

Abbreviation heap := (gmap positive (@RbstNode V)).

Lemma RbstTree_insert_rep (h : heap) this t node rng fuel key :
  wf h (Node t this Leaf) None → node ∉ nodes (Node t this Leaf) →
  keyed h key (node :: nodes t) →
  tsize (Node t this Leaf) + 1 < 2 ^ SIZE_BITS → (height t < fuel)%nat →
  ∃ h',
    RbstTree_insert comp draw fuel h this node rng
    = Some (h', (insert_tree comp draw key node t rng).2)
    ∧ wf h' (Node (insert_tree comp draw key node t rng).1 this Leaf) None
    ∧ (∀ y, y ∉ nodes (Node t this Leaf) → y ≠ node → h' !! y = h !! y)
    ∧ (∀ y, value h' y = value h y).
Proof.
  intros [Hnd Hrep] (Hnt & Hnthis & _)%not_elem_Node Hkey Hmax Hfuel.
  pose proof Hrep as ([v Hthis] & Hrt & _).
  pose proof Hnd as (Hndt & _ & Hthist & _)%NoDup_Node.
  pose proof (tsize_nonneg t). cbn [tsize] in Hmax.
  assert (is_Some (h !! node)) as Hnode.
  { pose proof (Hkey node ltac:(by left)) as Hv. unfold value in Hv.
    destruct (h !! node); [by eexists|done]. }
  unfold RbstTree_insert. rewrite Hthis. cbn [mbind option_bind m_size].
  rewrite store_size_alter by (by rewrite Hthis). cbn [mbind option_bind].
  rewrite lookup_alter_eq, Hthis.
  cbn [fmap option_fmap option_map mbind option_bind with_size m_left].
  rewrite to_size_t_small by (cbn [tsize]; lia).
  set (h1 := alter _ this h).
  destruct (insert_rep comp draw key node t fuel h1 (Some this) rng)
    as (h2 & r & Hins & Hroot & Hrep2 & Hf2 & Hv2).
  { eapply rep_frame; [|exact Hrt]. intros y Hy. unfold h1.
    by rewrite lookup_alter_ne by ne. }
  { done. }
  { done. }
  { unfold h1. by heap_alloc. }
  { eapply keyed_values; [|exact Hkey]. intros y. unfold h1.
    by rewrite value_alter_size. }
  { lia. }
  { done. }
  rewrite Hins. cbn [mbind option_bind].
  pose proof (insert_tree_elem comp draw key node t rng) as Helem.
  pose proof (insert_tree_size comp draw key node t rng) as Hsize.
  pose proof (insert_tree_NoDup comp draw key node t rng Hndt Hnt) as Hnd2.
  destruct (insert_tree comp draw key node t rng) as [t' rng'].
  cbn [fst snd] in *.
  assert (h2 !! this = h1 !! this) as Hthis2 by (apply Hf2; [done|ne]).
  assert (h1 !! this = Some (mkRbstNode (root t) None None
            (tsize (Node t this Leaf) + 1) v)) as Hthis1.
  { unfold h1. by rewrite lookup_alter_eq, Hthis. }
  rewrite store_left_alter by (by rewrite Hthis2, Hthis1).
  cbn [mbind option_bind].
  eexists. split; [reflexivity|]. split_and!.
  - split.
    + cbn [nodes]. apply NoDup_app. split_and!; [done| |].
      * intros y [->|Hy]%Helem [->|[]%elem_of_nil]%elem_of_cons; done.
      * apply NoDup_singleton.
    + apply (rep_Node_intro _ _ _ _ _ v).
      * rewrite lookup_alter_eq, Hthis2, Hthis1. setters. rewrite Hroot.
        do 2 f_equal. cbn [tsize]. lia.
      * eapply rep_frame; [|exact Hrep2]. intros y Hy.
        rewrite lookup_alter_ne; [done|]. intros ->.
        apply Helem in Hy as [->|?]; done.
      * done.
  - intros y (Hyt & Hythis & _)%not_elem_Node Hyn.
    rewrite lookup_alter_ne by done. rewrite Hf2 by done.
    unfold h1. by rewrite lookup_alter_ne by done.
  - intros y. rewrite value_alter_left, Hv2. unfold h1.
    by rewrite value_alter_size.
Qed.

(** Insertion of a valued node keeps the invariant of the tree. *)
Lemma RbstTree_rep_insert (h : heap) this t node v rng fuel :
  RbstTree_rep comp h this t → value h node = Some v →
  node ∉ nodes (Node t this Leaf) →
  tsize (Node t this Leaf) + 1 < 2 ^ SIZE_BITS → (height t < fuel)%nat →
  ∃ h' t' rng',
    RbstTree_insert comp draw fuel h this node rng = Some (h', rng')
    ∧ (t', rng') = insert_tree comp draw (key_of h v) node t rng
    ∧ RbstTree_rep comp h' this t'
    ∧ (∀ y, y ∉ nodes (Node t this Leaf) → y ≠ node → h' !! y = h !! y)
    ∧ (∀ y, value h' y = value h y).
Proof.
  intros (Hwf & _ & Hval & Hord) Hv Hnode Hmax Hfuel.
  assert (valued h (node :: nodes t)) as Hval'.
  { intros y [->|Hy]%elem_of_cons; [by eexists|by apply Hval]. }
  destruct (RbstTree_insert_rep h this t node rng fuel (key_of h v) Hwf Hnode)
    as (h' & Hins & Hwf' & Hf' & Hv'); [by apply valued_keyed|done|done|].
  pose proof (insert_tree_elem comp draw (key_of h v) node t rng) as Helem.
  pose proof (insert_tree_size comp draw (key_of h v) node t rng) as Hsize.
  pose proof (insert_tree_ordered comp Hswo draw (key_of h v) node t rng (Hord v))
    as Hord'.
  destruct (insert_tree comp draw (key_of h v) node t rng) as [t' rng'].
  cbn [fst snd] in *. exists h', t', rng'.
  assert (valued h' (nodes t')) as Hvalt'.
  { intros y Hy%Helem. rewrite Hv'. apply Hval'. by apply elem_of_cons. }
  split_and!; try done. split_and!; try done.
  - cbn [tsize] in *. lia.
  - intros d. eapply ordered_ext; [|exact Hord'].
    intros y Hy. rewrite (key_of_values _ _ _ _ (Hv' y)).
    eapply key_of_default; [exact Hval'|]. apply elem_of_cons. by apply Helem.
Qed.

(** Erasing a node of the tree keeps the invariant of the tree. *)
Lemma RbstTree_rep_erase (h : heap) this t x rng fuel :
  RbstTree_rep comp h this t → x ∈ nodes t →
  (2 * length (nodes t) < fuel)%nat →
  ∃ h' t' rng' vx,
    erase draw fuel h x rng = Some (h', Some this, rng')
    ∧ RbstTree_rep comp h' this t'
    ∧ (∀ y, y ∈ nodes t' ↔ y ∈ nodes t ∧ y ≠ x)
    ∧ nodes t' `sublist_of` nodes t
    ∧ length (nodes t) = S (length (nodes t'))
    ∧ h' !! x = Some (mkRbstNode None None None 1 vx)
    ∧ (∀ y, y ∉ nodes (Node t this Leaf) → h' !! y = h !! y)
    ∧ (∀ y, value h' y = value h y).
Proof.
  intros ([Hnd Hrep] & Hmax & Hval & Hord) Hx Hfuel.
  destruct (elem_of_nodes_plug _ _ Hx) as (c & l & r & ->).
  pose proof (height_plug c (Node l x r)) as Hh.
  pose proof (height_le_length (plug c (Node l x r))) as Hhl.
  change (Node (plug c (Node l x r)) this Leaf)
    with (plug [InLeft this Leaf] (plug c (Node l x r))) in *.
  rewrite <- plug_app in *.
  destruct (erase_rep draw h (c ++ [InLeft this Leaf]) l x r rng fuel)
    as (h' & vx & Herase & [Hnd' Hrep'] & Hx' & Hf' & Hv').
  { done. }
  { done. }
  { rewrite length_app. simpl in *. lia. }
  pose proof (join_tree_nodes draw l r rng) as Hnodes.
  pose proof (join_tree_ordered comp draw) as Hjo.
  specialize (Hjo) with (l := l) (g := r) (rng := rng).
  destruct (join_tree draw l r rng) as [j rng'].
  cbn [fst snd] in *.
  rewrite plug_app in Herase, Hnd', Hrep', Hf', Hnd, Hmax. cbn [plug root] in *.
  pose proof Hnd as (Hndt & _)%NoDup_Node.
  assert (∀ y, y ∈ nodes (plug c j) ↔ y ∈ nodes (plug c (Node l x r)) ∧ y ≠ x)
    as Helem.
  { intros y. rewrite !nodes_plug, Hnodes. apply elem_remove_middle.
    pose proof Hndt as Hndt'. by rewrite nodes_plug in Hndt'. }
  exists h', (plug c j), rng', vx. split_and!; try done.
  - split_and!; try done.
    + pose proof (tsize_plug c j) as E1.
      pose proof (tsize_plug c (Node l x r)) as E2.
      rewrite (tsize_nodes j), Hnodes, length_app in E1.
      cbn [tsize] in *. rewrite (tsize_nodes l), (tsize_nodes r) in E2. lia.
    + intros y [Hy _]%Helem. rewrite Hv'. by apply Hval.
    + intros d. eapply ordered_ext.
      { intros y Hy. apply key_of_values, Hv'. }
      eapply ordered_plug_replace; [exact (Hord d)| |].
      * pose proof (ordered_plug_sub comp _ _ _ (Hord d)) as Ho.
        apply Hjo; [apply Ho..|].
        intros a b Ha Hb. by eapply ordered_children.
      * intros y. rewrite Hnodes, elem_of_app, elem_Node. tauto.
  - rewrite !nodes_plug, Hnodes. apply sublist_app; [done|].
    apply sublist_app; [|done]. apply sublist_nodes_join.
  - rewrite !nodes_plug, Hnodes. cbn [nodes]. rewrite !length_app. simpl. lia.
  - intros y Hy. apply Hf'. by rewrite plug_app in Hy.
Qed.

(** The invariant of the tree depends on the nodes of the tree only. *)
Lemma RbstTree_rep_frame (h h' : heap) this t :
  (∀ y, y ∈ nodes (Node t this Leaf) → h' !! y = h !! y) →
  RbstTree_rep comp h this t → RbstTree_rep comp h' this t.
Proof.
  intros Hf ([Hnd Hrep] & Hmax & Hval & Hord).
  assert (∀ y, y ∈ nodes t → value h' y = value h y) as Hv'.
  { intros y Hy. unfold value. rewrite Hf; [done|]. apply elem_Node. tauto. }
  split; [split; [done|by eapply rep_frame]|]. split; [done|]. split.
  - intros y Hy. rewrite Hv' by done. by apply Hval.
  - intros d. eapply ordered_ext; [|exact (Hord d)].
    intros y Hy. by apply key_of_values, Hv'.
Qed.

(** Every state of a tree satisfies the invariant of the tree. *)
Lemma tree_state_rep (h : heap) this :
  tree_state comp draw this h → ∃ t, RbstTree_rep comp h this t.
Proof.
  induction 1 as [h n Hnew Hthis
                 |h node n v _ [t IH] Hfresh Hn
                 |h node _ [t IH] Hunreach
                 |h node fuel rng h' rng' _ [t IH] [v Hv] Hunreach Hcap Hins
                 |h node fuel rng h' top rng' _ [t IH] Hreach Hne Herase].
  - exists Leaf. unfold RbstTree_new, construct in Hnew. simpl in Hnew.
    injection Hnew as <-. split_and!.
    + split; [apply NoDup_singleton|].
      apply (rep_Node_intro _ _ _ _ _ None); done.
    + done.
    + by intros y ?%elem_of_nil.
    + done.
  - destruct IH as ([Hnd Hrep] & Hmax & Hval & Hord).
    assert (∀ y, y ∈ nodes (Node t this Leaf) → <[node:=n]> h !! y = h !! y)
      as Hf.
    { intros y Hy. rewrite lookup_insert_ne; [done|]. intros ->.
      destruct (rep_is_Some _ _ _ _ Hrep Hy) as [? ?]. congruence. }
    assert (∀ y, y ∈ nodes t → value (<[node:=n]> h) y = value h y) as Hv'.
    { intros y Hy. unfold value. rewrite Hf; [done|]. apply elem_Node. tauto. }
    exists t. split_and!; try done.
    + split; [done|]. by eapply rep_frame.
    + intros y Hy. rewrite Hv' by done. by apply Hval.
    + intros d. eapply ordered_ext; [|exact (Hord d)].
      intros y Hy. by apply key_of_values, Hv'.
  - destruct IH as ([Hnd Hrep] & Hmax & Hval & Hord).
    assert (∀ y, y ∈ nodes (Node t this Leaf) → delete node h !! y = h !! y)
      as Hf.
    { intros y Hy. rewrite lookup_delete_ne; [done|]. intros ->.
      apply Hunreach. by eapply elem_reachable. }
    assert (∀ y, y ∈ nodes t → value (delete node h) y = value h y) as Hv'.
    { intros y Hy. unfold value. rewrite Hf; [done|]. apply elem_Node. tauto. }
    exists t. split_and!; try done.
    + split; [done|]. by eapply rep_frame.
    + intros y Hy. rewrite Hv' by done. by apply Hval.
    + intros d. eapply ordered_ext; [|exact (Hord d)].
      intros y Hy. by apply key_of_values, Hv'.
  - pose proof IH as ([Hnd Hrep] & Hmax & Hval & Hord).
    destruct Hcap as (s & Hs & Hcap).
    pose proof (rep_size _ _ _ Hrep) as Hs'. cbn [root] in Hs'.
    rewrite Hs' in Hs. injection Hs as <-.
    destruct (RbstTree_rep_insert h this t node v rng
                (Nat.max fuel (S (height t))) IH Hv)
      as (h'' & t' & rng'' & Hins' & _ & Hrep' & _); [|done|lia|].
    { intros Hin. apply Hunreach. by eapply elem_reachable. }
    apply (RbstTree_insert_fuel _ _ _ (Nat.max fuel (S (height t)))) in Hins;
      [|lia].
    rewrite Hins in Hins'. injection Hins' as <- <-. by exists t'.
  - pose proof IH as ([Hnd Hrep] & Hmax & Hval & Hord).
    pose proof (reachable_elem _ _ _ _ _ Hrep eq_refl Hreach) as Hin.
    apply elem_Node in Hin as [Hin|[->|Hin]];
      [|done|by apply elem_of_nil in Hin].
    destruct (RbstTree_rep_erase h this t node rng
                (Nat.max fuel (S (2 * length (nodes t)))) IH Hin)
      as (h'' & t' & rng'' & vx & Herase' & Hrep' & _); [lia|].
    apply (erase_fuel _ _ (Nat.max fuel (S (2 * length (nodes t))))) in Herase;
      [|lia].
    rewrite Herase in Herase'. injection Herase' as <- _ _. by exists t'.
Qed.

End Holder.

(** ** The set *)

Section SetOps.

Context {V : Type} (comp : V -> V -> bool) (Hswo : StrictWeakOrder comp).
Context {Rng : Type} (draw : Rng -> Z -> Z * Rng).

Abbreviation heap := (gmap positive (@RbstNode V)).

(** [RbstTree::find]: a node with an equivalent value, or the root holder
    itself. *)
Lemma RbstTree_find_rep (h : heap) this t k fuel :
  RbstTree_rep comp h this t → (height t < fuel)%nat →
  ∃ r', RbstTree_find comp fuel h this k = Some r'
    ∧ ((∃ y v, r' = Some y ∧ y ∈ nodes t ∧ value h y = Some v
               ∧ equiv_key comp v k)
       ∨ (r' = Some this
          ∧ ∀ y v, y ∈ nodes t → value h y = Some v → ¬ equiv_key comp v k)).
Proof.
  intros ([Hnd Hrep] & _ & Hval & Hord) Hfuel.
  destruct Hrep as ([v Hthis] & Hrt & _).
  unfold RbstTree_find, RbstTree_root. rewrite Hthis. cbn [mbind option_bind m_left].
  destruct (find_rep comp Hswo (key_of h k) t fuel h (Some this) (Some this) k)
    as (r' & -> & Hr'); [done|by apply valued_keyed|done|done|].
  exists r'. split; [done|].
  destruct Hr' as [(y & -> & Hy & He)|[-> Hn]].
  - left. destruct (Hval y Hy) as [vy Hvy]. exists y, vy.
    rewrite (key_of_value _ _ _ _ Hvy) in He. done.
  - right. split; [done|]. intros y vy Hy Hvy He. apply (Hn y Hy).
    by rewrite (key_of_value _ _ _ _ Hvy).
Qed.

Lemma RbstSet_insert_rep (allocate : heap → ptr) (h : heap) s t k fuel :
  RbstSet_rep comp h s t →
  h !! allocate h = None →
  tsize (Node t (m_tree s) Leaf) + 1 < 2 ^ SIZE_BITS →
  (height t < fuel)%nat →
  ∃ h' s' pos inserted,
    RbstSet_insert comp draw allocate fuel h s k = Some (h', s', (pos, inserted))
    ∧ (inserted = false ↔
       ∃ y v, y ∈ nodes t ∧ value h y = Some v ∧ equiv_key comp v k)
    ∧ (inserted = false →
       h' = h ∧ s' = s
       ∧ ∃ y v, pos = Some y ∧ y ∈ nodes t ∧ value h y = Some v
                ∧ equiv_key comp v k)
    ∧ (inserted = true →
       ∃ node, pos = Some node ∧ value h' node = Some k ∧ h !! node = None)
    ∧ ∃ t', RbstSet_rep comp h' s' t'
            ∧ ∀ y, y ∈ nodes t' ↔ y ∈ nodes t ∨ (inserted = true ∧ pos = Some y).
Proof.
  intros [Hrep Huniq] allocate_fresh Hmax Hfuel.
  pose proof Hrep as ([Hnd Hrep0] & _ & Hval & Hord).
  pose proof Hnd as (_ & _ & Hthis & _)%NoDup_Node.
  unfold RbstSet_insert.
  destruct (RbstTree_find_rep h (m_tree s) t k fuel Hrep Hfuel)
    as (r' & -> & [(y & v & -> & Hy & Hv & He)|[-> Hn]]);
    cbn [mbind option_bind].
  - (* an equivalent element is there *)
    rewrite decide_True by (intros [= ->]; done).
    exists h, s, (Some y), false. split_and!; try done.
    + split; [eauto|done].
    + intros _. split_and!; try done. by exists y, v.
    + exists t. split; [done|]. intros z. split; [tauto|]. by intros [?|[? _]].
  - rewrite decide_False by (by intros ?).
    unfold construct. cbn [size mbind option_bind].
    set (node := allocate h).
    set (n := mkRbstNode None None None _ (Some k)).
    assert (h !! node = None) as Hfresh by exact allocate_fresh.
    assert (node ∉ nodes (Node t (m_tree s) Leaf)) as Hnode.
    { intros Hin. destruct (rep_is_Some _ _ _ _ Hrep0 Hin) as [? ?]. congruence. }
    assert (∀ y, y ≠ node → <[node:=n]> h !! y = h !! y) as Hf1
      by (intros y Hy; by rewrite lookup_insert_ne).
    assert (∀ y, y ∈ nodes (Node t (m_tree s) Leaf) → <[node:=n]> h !! y = h !! y)
      as Hf1'.
    { intros y Hy. apply Hf1. by intros ->. }
    assert (∀ y, y ∈ nodes t → value (<[node:=n]> h) y = value h y) as Hv1.
    { intros y Hy. unfold value. rewrite Hf1'; [done|]. apply elem_Node. tauto. }
    assert (value (<[node:=n]> h) node = Some k) as Hvn.
    { unfold value. by rewrite lookup_insert_eq. }
    assert (RbstTree_rep comp (<[node:=n]> h) (m_tree s) t) as Hrep1
      by (by eapply RbstTree_rep_frame).
    destruct (RbstTree_rep_insert comp Hswo draw (<[node:=n]> h) (m_tree s) t
                node k (m_rng s) fuel Hrep1 Hvn Hnode Hmax Hfuel)
      as (h' & t' & rng' & -> & Ht' & Hrep' & Hf' & Hv').
    cbn [mbind option_bind].
    pose proof (insert_tree_elem comp draw (key_of (<[node:=n]> h) k) node t
                  (m_rng s)) as Helem.
    rewrite <- Ht' in Helem. cbn [fst] in Helem.
    eexists h', _, (Some node), true. split_and!; try done.
    + split; [done|]. intros (y & v & Hy & Hv & He). by destruct (Hn y v).
    + intros _. exists node. by rewrite Hv'.
    + exists t'. split.
      * split; [done|]. intros d a b Ha%Helem Hb%Helem.
        pose proof Hrep' as (_ & _ & Hval' & _).
        assert (∀ z, z ∈ nodes t →
                     ¬ equiv_key comp (key_of h' d z) (key_of h' d node)) as Hnew.
        { intros z Hz Hez. destruct (Hval z Hz) as [vz Hvz].
          apply (Hn z vz Hz Hvz).
          rewrite (key_of_value h' d z vz), (key_of_value h' d node k) in Hez;
            [done|by rewrite Hv'|by rewrite Hv', Hv1]. }
        destruct Ha as [->|Ha], Hb as [->|Hb]; try done.
        -- intros He%(equiv_key_sym comp). by destruct (Hnew b).
        -- intros He. by destruct (Hnew a).
        -- intros He. apply (Huniq d a b Ha Hb).
           rewrite (key_of_values h h' d a), (key_of_values h h' d b) in He
             by (rewrite Hv'; by apply Hv1).
           done.
      * intros y. rewrite Helem. split.
        -- intros [->|?]; [right|by left]. done.
        -- intros [?|[_ [= ->]]]; [by right|by left].
Qed.

Lemma RbstSet_erase_rep (h : heap) s t k fuel :
  RbstSet_rep comp h s t → (2 * length (nodes t) + 2 < fuel)%nat →
  (¬ (∃ y v, y ∈ nodes t ∧ value h y = Some v ∧ equiv_key comp v k) →
   RbstSet_erase comp draw fuel h s k = Some (h, s, 0))
  ∧ ((∃ y v, y ∈ nodes t ∧ value h y = Some v ∧ equiv_key comp v k) →
     ∃ h' s' t',
       RbstSet_erase comp draw fuel h s k = Some (h', s', 1)
       ∧ RbstSet_rep comp h' s' t'
       ∧ nodes t' `sublist_of` nodes t
       ∧ (length (nodes t') < length (nodes t))%nat
       ∧ RbstSet_find comp fuel h' s' k = Some (RbstSet_end s')).
Proof.
  intros [Hrep Huniq] Hfuel.
  pose proof Hrep as ([Hnd Hrep0] & _ & Hval & Hord).
  pose proof Hnd as (_ & _ & Hthis & _)%NoDup_Node.
  pose proof (height_le_length t) as Hh.
  unfold RbstSet_erase, RbstSet_find, RbstSet_end.
  destruct (RbstTree_find_rep h (m_tree s) t k fuel Hrep ltac:(lia))
    as (r' & -> & [(y & v & -> & Hy & Hv & He)|[-> Hn]]);
    cbn [mbind option_bind].
  - split; [intros Hno; destruct Hno; eauto|]. intros _.
    rewrite decide_False by (intros [= ->]; done).
    unfold RbstSet_erase_at. cbn [mbind option_bind].
    destruct (RbstTree_rep_erase comp Hswo draw h (m_tree s) t y (m_rng s) fuel
                Hrep Hy ltac:(lia))
      as (h' & t' & rng' & vx & -> & Hrep' & Helem & Hsub & Hlen & Hy' & Hf'
          & Hv').
    cbn [mbind option_bind].
    pose proof Hrep' as ([Hnd' Hrep0'] & Hmax' & Hval' & Hord').
    assert (y ∉ nodes (Node t' (m_tree s) Leaf)) as Hyt'.
    { apply not_elem_Node. split_and!; [|ne|by intros ?%elem_of_nil].
      intros [_ ?]%Helem. done. }
    assert (∀ z, z ∈ nodes (Node t' (m_tree s) Leaf) →
                 delete y h' !! z = h' !! z) as Hfd.
    { intros z Hz. rewrite lookup_delete_ne; [done|]. by intros ->. }
    assert (∀ z, z ∈ nodes t' → value (delete y h') z = value h z) as Hvd.
    { intros z Hz. unfold value at 1. rewrite Hfd by (apply elem_Node; tauto).
      apply Hv'. }
    assert (RbstSet_rep comp (delete y h') (mkRbstSet (m_tree s) rng') t')
      as Hset'.
    { split; [by eapply RbstTree_rep_frame|].
      intros d a b Ha Hb.
      rewrite (key_of_values h (delete y h') d a),
        (key_of_values h (delete y h') d b) by (by apply Hvd).
      apply Huniq; by apply Helem. }
    eexists _, _, t'. split_and!; try done.
    + lia.
    + pose proof (height_le_length t') as Hh'. cbn [m_tree].
      destruct (RbstTree_find_rep (delete y h') (m_tree s) t' k fuel
                  (proj1 Hset') ltac:(lia))
        as (r' & -> & [(z & vz & -> & Hz & Hvz & Hez)|[-> _]]); [|done].
      exfalso. rewrite Hvd in Hvz by done.
      pose proof Hz as [Hzt Hzy]%Helem. apply Hzy.
      apply (Huniq k z y Hzt Hy).
      rewrite (key_of_value _ _ _ _ Hvz), (key_of_value _ _ _ _ Hv).
      eapply equiv_key_trans; [done|exact Hez|by apply equiv_key_sym].
  - split; [|intros (y & v & Hy & Hv & He); by destruct (Hn y v)]. intros _.
    by rewrite decide_True.
Qed.

End SetOps.

(** * The claims *)

Section Claims.

Context {V : Type} (comp : V -> V -> bool).
Context {Rng : Type} (draw : Rng -> Z -> Z * Rng).

Abbreviation heap := (gmap positive (@RbstNode V)).

(** C1. After every sequence of insertions and erasures that starts from the
    empty tree, every node reachable from the root holder satisfies I1 (its
    size is one more than the sizes of its subtrees) and I2 (its children
    point back to it), and every node below the root holder satisfies I3
    (its value is not less than any value in its left subtree and not
    greater than any value in its right subtree); and from every such state
    an insertion of a valued node that is not in the tree and an erasure of
    a node of the tree run to their end and give such a state again. *)
Theorem insert_erase_preserve_invariants (Hswo : StrictWeakOrder comp)
    (this : ptr) (h : heap) :
  tree_state comp draw this h →
  (∀ x, reachable h this x → I1 h x ∧ I2 h x ∧ (x ≠ this → I3 comp h x))
  ∧ (∀ node rng,
       is_Some (value h node) → ¬ reachable h this node →
       (∃ s, size h (Some this) = Some s ∧ s + 1 < 2 ^ SIZE_BITS) →
       ∃ fuel h' rng',
         RbstTree_insert comp draw fuel h this node rng = Some (h', rng')
         ∧ tree_state comp draw this h')
  ∧ (∀ node rng,
       reachable h this node → node ≠ this →
       ∃ fuel h' top rng',
         erase draw fuel h node rng = Some (h', top, rng')
         ∧ tree_state comp draw this h').
Proof.
  intros Hstate.
  destruct (tree_state_rep comp Hswo draw _ _ Hstate) as [t Hrep].
  pose proof Hrep as ([_ Hrep0] & _).
  split_and!.
  - intros x Hreach. by eapply RbstTree_rep_invariants.
  - intros node rng [v Hv] Hunreach (s & Hs & Hcap).
    destruct (RbstTree_rep_insert comp Hswo draw h this t node v rng
                (S (height t)) Hrep Hv)
      as (h' & t' & rng' & Hins & _); [| |lia|].
    + intros Hin. apply Hunreach. by eapply elem_reachable.
    + pose proof (rep_size _ _ _ Hrep0) as Hs'. cbn [root] in Hs'.
      rewrite Hs' in Hs. by injection Hs as <-.
    + exists (S (height t)), h', rng'. split; [done|].
      eapply state_insert; [exact Hstate|by eexists|done|by eexists|exact Hins].
  - intros node rng Hreach Hne.
    pose proof (reachable_elem _ _ _ _ _ Hrep0 eq_refl Hreach) as Hin.
    apply elem_Node in Hin as [Hin|[->|Hin]];
      [|done|by apply elem_of_nil in Hin].
    destruct (RbstTree_rep_erase comp Hswo draw h this t node rng
                (S (2 * length (nodes t))) Hrep Hin)
      as (h' & t' & rng' & vx & Herase & _); [lia|].
    exists (S (2 * length (nodes t))), h', (Some this), rng'.
    split; [done|]. by eapply state_erase.
Qed.

(** C2. [insert] of a new valued node into a represented subtree does what
    [insert_tree] says: at each visited node an integer below the size of
    the node plus one is drawn; on 0 the subtree is split by the new node,
    whose children the two parts become; otherwise the insertion continues
    in the child chosen by the comparison and the size of the visited node
    grows by one; an absent subtree becomes the new node alone, with size
    1. *)
Theorem insert_refines_insert_tree (key : ptr -> V) (h : heap) (t : tree)
    (parent : option ptr) (this : ptr) (rng : Rng) (fuel : nat) :
  wf h t parent → this ∉ nodes t → keyed h key (this :: nodes t) →
  tsize t + 1 < 2 ^ SIZE_BITS → (height t < fuel)%nat →
  ∃ h' r,
    insert comp draw fuel h this (root t) parent rng
    = Some (h', r, (insert_tree comp draw key this t rng).2)
    ∧ root (insert_tree comp draw key this t rng).1 = Some r
    ∧ wf h' (insert_tree comp draw key this t rng).1 parent
    ∧ tsize (insert_tree comp draw key this t rng).1 = tsize t + 1
    ∧ (t = Leaf →
       r = this
       ∧ h' !! this = Some (mkRbstNode None None parent 1 (Some (key this))))
    ∧ (∀ y, y ∉ nodes t → y ≠ this → h' !! y = h !! y).
Proof.
  intros [Hnd Hrep] Hthis Hkey Hmax Hfuel.
  assert (is_Some (h !! this)) as Hal.
  { pose proof (Hkey this ltac:(by left)) as Hv. unfold value in Hv.
    destruct (h !! this); [by eexists|done]. }
  destruct (insert_rep comp draw key this t fuel h parent rng)
    as (h' & r & Hins & Hroot & Hrep' & Hf' & Hv'); try done.
  exists h', r. split_and!; try done.
  - split; [by apply insert_tree_NoDup|done].
  - apply insert_tree_size.
  - intros ->. cbn in Hroot, Hrep'. injection Hroot as <-. split; [done|].
    destruct Hrep' as ([v Hn] & _). rewrite Hn. do 2 f_equal.
    pose proof (Hkey this ltac:(by left)) as Hv.
    rewrite <- Hv' in Hv. unfold value in Hv. rewrite Hn in Hv. done.
Qed.

(** C3. [join] of two represented subtrees in order by the values they
    hold, no value of [lesser] greater than a value of [greater], returns one
    subtree in order by the values it holds, whose nodes are those of
    [lesser] followed by those of [greater], every node with the value it
    had: the elements are those of the two arguments; it does what
    [join_tree] says: an integer below the sum of the sizes is drawn, below
    the size of [lesser] its root wins and [greater] is joined into its
    right child, otherwise the root of [greater] wins symmetrically; when an
    argument is absent the other one is returned and nothing changes. *)
Theorem join_refines_join_tree (key : ptr -> V) (h : heap) (l g : tree)
    (pl pg : option ptr) (rng : Rng) (fuel : nat) :
  rep h l pl → rep h g pg → NoDup (nodes l ++ nodes g) →
  keyed h key (nodes l ++ nodes g) →
  ordered comp key l → ordered comp key g →
  (∀ a b, a ∈ nodes l → b ∈ nodes g → comp (key b) (key a) = false) →
  tsize l + tsize g < 2 ^ SIZE_BITS → (height l + height g < fuel)%nat →
  ∃ h' p,
    join draw fuel h (root l) (root g) rng
    = Some (h', root (join_tree draw l g rng).1, (join_tree draw l g rng).2)
    ∧ wf h' (join_tree draw l g rng).1 p
    ∧ ordered comp key (join_tree draw l g rng).1
    ∧ nodes (join_tree draw l g rng).1 = nodes l ++ nodes g
    ∧ keyed h' key (nodes (join_tree draw l g rng).1)
    ∧ (∀ y, value h' y = value h y)
    ∧ value h' <$> nodes (join_tree draw l g rng).1
      = (value h <$> nodes l) ++ (value h <$> nodes g)
    ∧ (root l = None → h' = h ∧ join_tree draw l g rng = (g, rng))
    ∧ (root g = None → h' = h ∧ join_tree draw l g rng = (l, rng))
    ∧ (∀ y, y ∉ nodes l → y ∉ nodes g → h' !! y = h !! y).
Proof.
  intros Hl Hg Hnd Hkey Hol Hog Hlg Hmax Hfuel.
  destruct (join_rep draw fuel h l g pl pg rng)
    as (h' & p & Hjoin & Hrep' & Hf' & Hv'); try done.
  exists h', p. split_and!; try done.
  - split; [|done]. by rewrite join_tree_nodes.
  - by apply join_tree_ordered.
  - apply join_tree_nodes.
  - intros y Hy. rewrite join_tree_nodes in Hy. rewrite Hv'. by apply Hkey.
  - rewrite join_tree_nodes, fmap_app. f_equal; apply list_fmap_ext; by intros.
  - intros Hroot. destruct l; [|done]. rewrite join_tree_Leaf_l in *.
    destruct fuel; [lia|]. cbn in Hjoin. by injection Hjoin as <-.
  - intros Hroot. destruct g; [|done]. rewrite join_tree_Leaf_r in *.
    destruct fuel; [lia|]. destruct l; cbn in Hjoin; by injection Hjoin as <-.
Qed.

(** C4. [erase] of a node of a well-formed tree replaces the node by the
    join of its children, attached to the former parent in the slot of the
    node, takes one from the size of every node on the way from the former
    parent to the root, and returns the root of the whole tree, which is the
    join itself when the node had no parent; the erased node is left without
    parent and children, with size 1. *)
Theorem erase_replaces_by_join (h : heap) (c : list frame) (l : tree) (x : ptr)
    (r : tree) (rng : Rng) (fuel : nat) :
  wf h (plug c (Node l x r)) None →
  tsize (plug c (Node l x r)) < 2 ^ SIZE_BITS →
  (length c + height l + height r < fuel)%nat →
  ∃ h' v,
    erase draw fuel h x rng
    = Some (h', root (plug c (join_tree draw l r rng).1),
            (join_tree draw l r rng).2)
    ∧ wf h' (plug c (join_tree draw l r rng).1) None
    ∧ (c = [] →
       root (plug c (join_tree draw l r rng).1)
       = root (join_tree draw l r rng).1)
    ∧ (∀ p, p ∈ ctx_path c →
            ∃ n n', h !! p = Some n ∧ h' !! p = Some n'
                    ∧ m_size n' = m_size n - 1)
    ∧ h' !! x = Some (mkRbstNode None None None 1 v)
    ∧ (∀ y, y ∉ nodes (plug c (Node l x r)) → h' !! y = h !! y).
Proof.
  intros Hwf Hmax Hfuel.
  destruct (erase_rep draw h c l x r rng fuel Hwf Hmax Hfuel)
    as (h' & v & Herase & Hwf' & Hx' & Hf' & Hv').
  exists h', v. split_and!; try done.
  - by intros ->.
  - destruct Hwf as [_ [_ Hc]%rep_plug], Hwf' as [_ [_ Hc']%rep_plug].
    eapply rep_ctx_size_dec; [exact Hc|].
    eapply rep_ctx_size; [|exact Hc'].
    rewrite join_tree_size. cbn [tsize]. lia.
Qed.

(** C5. In a well-formed tree, [offset(0)] is the node itself, [offset(1)]
    is [next()], [offset(-1)] is [previous()], and [offset(d)] is absent
    exactly when [index() + d] is not the rank of a node of the tree;
    otherwise it is the node of that rank. *)
Theorem offset_moves_by_rank (h : heap) (w : tree) (x : ptr) (i : nat) (d : Z)
    (fuel : nat) :
  wf h w None → nodes w !! i = Some x →
  tsize w <= 2 ^ (SIZE_BITS - 2) →
  - 2 ^ (SIZE_BITS - 1) <= d < 2 ^ (SIZE_BITS - 1) →
  (2 * height w < fuel)%nat →
  offset fuel h x 0 = Some (Some x)
  ∧ offset fuel h x 1 = next fuel h x
  ∧ offset fuel h x (-1) = previous fuel h x
  ∧ ∃ k res,
      index fuel h x = Some k ∧ k = Z.of_nat i
      ∧ offset fuel h x d = Some res
      ∧ (res = None ↔ ¬ (0 <= k + d < tsize w))
      ∧ (0 <= k + d < tsize w → res = nodes w !! Z.to_nat (k + d)).
Proof.
  intros Hwf Hi Hmax Hd Hfuel.
  destruct (nodes_lookup_plug _ _ _ Hi) as (c & l & r & -> & ->).
  pose proof (height_plug c (Node l x r)) as Hh. cbn [height] in Hh.
  pose proof (tsize_nonneg (plug c (Node l x r))) as Hpos.
  assert (2 ^ (SIZE_BITS - 2) = 4611686018427387904) as E62 by done.
  assert (2 ^ (SIZE_BITS - 1) = 9223372036854775808) as E63 by done.
  assert (2 ^ SIZE_BITS = 18446744073709551616) as E64 by done.
  set (i := (length (ctx_before c) + length (nodes l))%nat) in *.
  assert (Z.of_nat i < tsize (plug c (Node l x r))) as Hlt.
  { rewrite tsize_nodes. apply lookup_lt_Some in Hi. lia. }
  assert (∀ d', - 2 ^ (SIZE_BITS - 1) <= d' < 2 ^ (SIZE_BITS - 1) →
            offset fuel h x d'
            = Some (if decide (0 <= Z.of_nat i + d')
                    then nodes (plug c (Node l x r)) !! Z.to_nat (Z.of_nat i + d')
                    else None)) as Hoff.
  { intros d' Hd'.
    rewrite <- (offset_ctx h c l x r (Z.of_nat i + d') fuel); [|done|done|lia|lia].
    f_equal. rewrite to_ptrdiff_t_small; lia. }
  split_and!.
  - rewrite Hoff by lia. rewrite decide_True by lia.
    rewrite Z.add_0_r, Nat2Z.id. by rewrite Hi.
  - rewrite Hoff by lia. rewrite decide_True by lia.
    rewrite (next_ctx h c l x r fuel); [|done|lia].
    f_equal. rewrite <- (lookup_plug_next c l x r). f_equal. lia.
  - rewrite Hoff by lia.
    rewrite (previous_ctx h c l x r fuel); [|done|lia].
    f_equal. rewrite (lookup_plug_previous c l x r). fold i.
    destruct i as [|j]; [done|]. rewrite decide_True by lia. f_equal. lia.
  - exists (Z.of_nat i).
    eexists. split; [apply (index_ctx h c l x r); [done|lia|lia]|].
    split; [done|]. split; [by apply Hoff|]. split.
    + case_decide as Hk.
      * rewrite lookup_ge_None, tsize_nodes. lia.
      * split; [lia|done].
    + intros Hk. by rewrite decide_True by lia.
Qed.

(** C6. In a well-formed tree with root [top], [at(i)] has [index() = i] for
    every rank [i] below the size of the tree, [at(node->index())] is the
    node for every node of the tree, and the difference of two iterators is
    the difference of the ranks of their nodes. *)
Theorem rank_consistency (h : heap) (w : tree) (top : ptr) (fuel : nat) :
  wf h w None → root w = Some top →
  tsize w < 2 ^ (SIZE_BITS - 1) → (height w < fuel)%nat →
  (∀ i, 0 <= i < tsize w →
        ∃ x, at_ fuel h top i = Some x ∧ index fuel h x = Some i)
  ∧ (∀ x, x ∈ nodes w →
          ∃ i, index fuel h x = Some i ∧ at_ fuel h top i = Some x)
  ∧ (∀ p q rp rq, nodes w !! rp = Some p → nodes w !! rq = Some q →
       iterator_minus fuel h (Some p) (Some q)
       = Some (Z.of_nat rp - Z.of_nat rq)).
Proof.
  intros Hwf Hroot Hmax Hfuel.
  assert (2 ^ (SIZE_BITS - 1) = 9223372036854775808) as E63 by done.
  assert (2 ^ SIZE_BITS = 18446744073709551616) as E64 by done.
  assert (∀ i x, nodes w !! i = Some x → index fuel h x = Some (Z.of_nat i))
    as Hindex.
  { intros i x Hi. destruct (nodes_lookup_plug _ _ _ Hi) as (c & l & r & -> & ->).
    pose proof (height_plug c (Node l x r)) as Hh. cbn [height] in Hh.
    apply (index_ctx h c l x r); [done|lia|lia]. }
  assert (∀ i, 0 <= i < tsize w → at_ fuel h top i = nodes w !! Z.to_nat i)
    as Hat.
  { intros i Hi. destruct Hwf as [_ Hrep].
    apply at_sized; [by eapply rep_sized|done|done|lia|lia]. }
  split_and!.
  - intros i Hi.
    destruct (lookup_lt_is_Some_2 (nodes w) (Z.to_nat i)) as [x Hx].
    { rewrite tsize_nodes in Hi. lia. }
    exists x. split; [by rewrite Hat|].
    rewrite (Hindex _ _ Hx). f_equal. lia.
  - intros x [i Hi]%list_elem_of_lookup. exists (Z.of_nat i).
    split; [by apply Hindex|]. rewrite Hat, Nat2Z.id; [done|].
    apply lookup_lt_Some in Hi. rewrite tsize_nodes. lia.
  - intros p q rp rq Hp Hq. unfold iterator_minus, iterator_index.
    cbn [mbind option_bind]. rewrite (Hindex _ _ Hp), (Hindex _ _ Hq).
    cbn [mbind option_bind].
    apply lookup_lt_Some in Hp, Hq. rewrite tsize_nodes in Hmax.
    rewrite (to_ptrdiff_t_small (Z.of_nat rp)), (to_ptrdiff_t_small (Z.of_nat rq))
      by lia.
    rewrite to_ptrdiff_t_small; [done|lia].
Qed.

(** C7. On a tree in order, searched with the ordering it was built with,
    [lower_bound] returns the first node in set order whose value is not
    less than the key, [upper_bound] the first node whose value is greater,
    each the supplied fallback when there is no such node; and
    [lower_bound(k)] of the tree, whose fallback is the root holder, equals
    [upper_bound(k)] exactly when no value of the tree is equivalent to the
    key, as the two do for every fallback that is not a node of the tree. *)
Theorem bounds_bracket_key (Hswo : StrictWeakOrder comp) (key : ptr -> V)
    (h : heap) (t : tree) (parent : option ptr) (k : V) (fuel : nat) :
  wf h t parent → keyed h key (nodes t) → ordered comp key t →
  (height t < fuel)%nat →
  (∀ res, lower_bound comp fuel h (root t) k res
          = Some (first_such (λ y, negb (comp (key y) k)) (nodes t) res))
  ∧ (∀ res, upper_bound comp fuel h (root t) k res
            = Some (first_such (λ y, comp k (key y)) (nodes t) res))
  ∧ (∀ this n,
       h !! this = Some n → m_left n = root t → this ∉ nodes t →
       (RbstTree_lower_bound comp fuel h this k
        = RbstTree_upper_bound comp fuel h this k
        ↔ ∀ y, y ∈ nodes t → ¬ equiv_key comp (key y) k))
  ∧ (∀ res,
       (∀ y, res = Some y → y ∉ nodes t) →
       (lower_bound comp fuel h (root t) k res
        = upper_bound comp fuel h (root t) k res
        ↔ ∀ y, y ∈ nodes t → ¬ equiv_key comp (key y) k)).
Proof.
  intros [Hnd Hrep] Hkey Hord Hfuel.
  assert (∀ res,
            (∀ y, res = Some y → y ∉ nodes t) →
            (lower_bound comp fuel h (root t) k res
             = upper_bound comp fuel h (root t) k res
             ↔ ∀ y, y ∈ nodes t → ¬ equiv_key comp (key y) k)) as Hiff.
  { intros res Hres.
    rewrite (lower_bound_rep comp Hswo key t fuel h parent) by done.
    rewrite (upper_bound_rep comp Hswo key t fuel h parent) by done.
    rewrite <- (bounds_coincide comp Hswo key (nodes t) res k);
      [|by apply ordered_sorted|done|done].
    split; [by intros [= ->]|by intros ->]. }
  split_and!.
  - intros res. by apply (lower_bound_rep comp Hswo key t fuel h parent).
  - intros res. by apply (upper_bound_rep comp Hswo key t fuel h parent).
  - intros this n Hthis Hleft Hout.
    unfold RbstTree_lower_bound, RbstTree_upper_bound, RbstTree_root.
    rewrite Hthis. cbn [mbind option_bind]. rewrite Hleft.
    apply Hiff. by intros y [= <-].
  - exact Hiff.
Qed.

(** C8. On a set, [insert(key)] reports [inserted = false] exactly when an
    element equivalent to the key is already there, and then nothing is
    changed and the returned position is that element; [erase(key)] returns
    0 and changes nothing when no such element is there, and returns 1 when
    there is one, after which [find(key)] is [end()]. *)
Theorem set_insert_erase_by_key (Hswo : StrictWeakOrder comp)
    (allocate : heap → ptr) (h : heap) (s : RbstSet) (t : tree) (k : V)
    (fuel : nat) :
  RbstSet_rep comp h s t →
  h !! allocate h = None →
  tsize (Node t (m_tree s) Leaf) + 1 < 2 ^ SIZE_BITS →
  (2 * length (nodes t) + 2 < fuel)%nat →
  let present :=
    ∃ y v, y ∈ nodes t ∧ value h y = Some v ∧ equiv_key comp v k in
  (∃ h' s' pos inserted,
     RbstSet_insert comp draw allocate fuel h s k
     = Some (h', s', (pos, inserted))
     ∧ (inserted = false ↔ present)
     ∧ (inserted = false →
        h' = h ∧ s' = s
        ∧ ∃ y v, pos = Some y ∧ y ∈ nodes t ∧ value h y = Some v
                 ∧ equiv_key comp v k))
  ∧ (¬ present → RbstSet_erase comp draw fuel h s k = Some (h, s, 0))
  ∧ (present →
     ∃ h' s', RbstSet_erase comp draw fuel h s k = Some (h', s', 1)
              ∧ RbstSet_find comp fuel h' s' k = Some (RbstSet_end s')).
Proof.
  intros Hrep Hfresh Hmax Hfuel present.
  pose proof (height_le_length t) as Hh.
  split_and!.
  - destruct (RbstSet_insert_rep comp Hswo draw allocate h s t k fuel)
      as (h' & s' & pos & inserted & Hins & Hiff & Hsame & _);
      [done|done|done|lia|].
    by exists h', s', pos, inserted.
  - by apply (RbstSet_erase_rep comp Hswo draw h s t k fuel).
  - intros Hp.
    destruct (RbstSet_erase_rep comp Hswo draw h s t k fuel) as [_ Her];
      [done|done|].
    destruct (Her Hp) as (h' & s' & t' & He & _ & _ & _ & Hf).
    by exists h', s'.
Qed.

(** C10. When the subtree of a node satisfies I1 and [i] is below its size,
    the descent of [at(i)] meets a child that is there: for [i] below the
    size of the left subtree the left child exists and [i] is below its
    size, for [i] above it the right child exists and [i] minus the left
    size minus 1 is below its size; and [at(i)] returns a node of the
    subtree. *)
Theorem at_descends_into_present_children (h : heap) (t : tree) (x : ptr)
    (i : Z) (fuel : nat) :
  sized h t → root t = Some x →
  0 <= i < tsize t → tsize t < 2 ^ SIZE_BITS → (height t <= fuel)%nat →
  (∃ nd n, h !! x = Some nd ∧ size h (m_left nd) = Some n
     ∧ (i < n → ∃ c sc, m_left nd = Some c ∧ size h (Some c) = Some sc
                        ∧ 0 <= i < sc)
     ∧ (n < i → ∃ c sc, m_right nd = Some c ∧ size h (Some c) = Some sc
                        ∧ to_size_t (to_size_t (i - n) - 1) = i - n - 1
                        ∧ 0 <= i - n - 1 < sc))
  ∧ ∃ y, at_ fuel h x i = Some y ∧ y ∈ nodes t.
Proof.
  intros Hs Hroot Hi Hmax Hfuel.
  assert (2 ^ SIZE_BITS = 18446744073709551616) as E64 by done.
  split.
  - destruct t as [|l y r]; [done|]. injection Hroot as ->.
    destruct Hs as ((nd & sl & sr & Hx & Hnl & Hnr & Hsl & Hsr & Hsz) & Hl & Hr).
    pose proof (sized_size _ _ Hl) as Hl'. pose proof (sized_size _ _ Hr) as Hr'.
    rewrite Hnl, Hl' in Hsl. rewrite Hnr, Hr' in Hsr.
    injection Hsl as <-. injection Hsr as <-.
    pose proof (tsize_nonneg l). pose proof (tsize_nonneg r).
    cbn [tsize] in Hi, Hmax.
    exists nd, (tsize l). rewrite Hnl, Hnr. split_and!; [done|done|..].
    + intros Hlt. destruct l as [|ll c lr]; [simpl in Hlt; lia|].
      exists c, (tsize (Node ll c lr)). split_and!; [done|done|lia|lia].
    + intros Hlt. destruct r as [|rl c rr]; [simpl in Hi; lia|].
      exists c, (tsize (Node rl c rr)). split_and!; [done|done|..|lia|lia].
      rewrite (to_size_t_small (i - _)) by lia. apply to_size_t_small. lia.
  - rewrite (at_sized h t) by (done || lia).
    destruct (lookup_lt_is_Some_2 (nodes t) (Z.to_nat i)) as [y Hy].
    { rewrite tsize_nodes in Hi. lia. }
    exists y. split; [done|]. by eapply list_elem_of_lookup_2.
Qed.

End Claims.

(** * The worked example *)

(** A node below another one has a parent. *)
Lemma rep_parent_is_Some {V : Type} (h : gmap positive (@RbstNode V)) t :
  ∀ q y, rep h t (Some q) → y ∈ nodes t →
         ∃ n, h !! y = Some n ∧ is_Some (m_parent n).
Proof.
  induction t as [|l IHl x r IHr]; intros q y Hrep Hy;
    [by apply elem_of_nil in Hy|].
  destruct Hrep as ([v Hx] & Hl & Hr).
  apply elem_Node in Hy as [Hy|[->|Hy]].
  - by eapply IHl.
  - eexists. split; [exact Hx|]. by eexists.
  - by eapply IHr.
Qed.

(** A node without a parent is not in the tree of a root holder. *)
Lemma tree_state_unreachable {V : Type} (comp : V → V → bool)
    (Hswo : StrictWeakOrder comp) {Rng : Type} (draw : Rng → Z → Z * Rng)
    (h : gmap positive (@RbstNode V)) this node n :
  tree_state comp draw this h → h !! node = Some n → m_parent n = None →
  node ≠ this → ¬ reachable h this node.
Proof.
  intros [t ([_ Hrep] & _)]%(tree_state_rep comp Hswo) Hn Hp Hne Hreach.
  pose proof (reachable_elem _ _ _ _ _ Hrep eq_refl Hreach) as Hy.
  apply elem_Node in Hy as [Hy|[->|Hy]]; [|done|by apply elem_of_nil in Hy].
  destruct Hrep as (_ & Hrep & _).
  destruct (rep_parent_is_Some _ _ _ _ Hrep Hy) as (n' & Hn' & [p Hp']).
  congruence.
Qed.

Lemma Z_ltb_StrictWeakOrder : StrictWeakOrder Z.ltb.
Proof.
  split.
  - intros a b. rewrite Z.ltb_lt, Z.ltb_ge. lia.
  - intros a b c. rewrite !Z.ltb_lt. lia.
Qed.

(** Case analysis on the nodes of an explicit list. *)
Ltac elems H :=
  repeat (apply elem_of_cons in H as [->|H]);
  try (by apply elem_of_nil in H).

(** The example heap goes through the states of a tree. *)
Lemma ex_tree_state : tree_state Z.ltb DefaultRng 1%positive ex_heap.
Proof.
  pose proof Z_ltb_StrictWeakOrder as Hswo.
  assert (tree_state Z.ltb DefaultRng 1%positive ex_h0) as H0.
  { by eapply state_empty. }
  assert (tree_state Z.ltb DefaultRng 1%positive ex_h1) as H1.
  { apply (state_allocate _ _ _ _ 2%positive (ex_new 10) 10) in H0; [|done..].
    eapply (state_insert _ _ _ _ 2%positive 10%nat DefaultRng_seed ex_h1 1);
      [exact H0|by eexists| |by eexists|by vm_compute].
    by eapply (tree_state_unreachable _ Hswo). }
  assert (tree_state Z.ltb DefaultRng 1%positive ex_h2) as H2.
  { apply (state_allocate _ _ _ _ 3%positive (ex_new 20) 20) in H1; [|done..].
    eapply (state_insert _ _ _ _ 3%positive 10%nat 1 ex_h2 ex_rng2);
      [exact H1|by eexists| |by eexists|by vm_compute].
    by eapply (tree_state_unreachable _ Hswo). }
  assert (tree_state Z.ltb DefaultRng 1%positive ex_h3) as H3.
  { apply (state_allocate _ _ _ _ 4%positive (ex_new 30) 30) in H2; [|done..].
    eapply (state_insert _ _ _ _ 4%positive 10%nat ex_rng2 ex_h3 ex_rng3);
      [exact H2|by eexists| |by eexists|by vm_compute].
    by eapply (tree_state_unreachable _ Hswo). }
  assert (tree_state Z.ltb DefaultRng 1%positive ex_h4) as H4.
  { apply (state_allocate _ _ _ _ 5%positive (ex_new 40) 40) in H3; [|done..].
    eapply (state_insert _ _ _ _ 5%positive 10%nat ex_rng3 ex_h4 ex_rng4);
      [exact H3|by eexists| |by eexists|by vm_compute].
    by eapply (tree_state_unreachable _ Hswo). }
  by apply (state_allocate _ _ _ _ 6%positive (ex_new 25) 25) in H4.
Qed.

(** The example heap represents the example tree. *)
Lemma ex_rep_holder : rep ex_heap ex_holder None.
Proof. repeat split; by eexists. Qed.

Lemma ex_wf_holder : wf ex_heap ex_holder None.
Proof. split; [by apply (bool_decide_unpack _)|exact ex_rep_holder]. Qed.

Lemma ex_wf_tree : wf ex_heap ex_tree (Some 1%positive).
Proof.
  destruct ex_wf_holder as [Hnd (_ & Hrep & _)].
  split; [|done]. by apply NoDup_Node in Hnd as (? & _).
Qed.

Lemma ex_valued : valued ex_heap (6%positive :: nodes ex_tree).
Proof. intros y Hy. simpl in Hy. elems Hy; by eexists. Qed.

Lemma ex_keyed : keyed ex_heap ex_key (6%positive :: nodes ex_tree).
Proof. apply valued_keyed, ex_valued. Qed.

Lemma ex_ordered d : ordered Z.ltb (key_of ex_heap d) ex_tree.
Proof. repeat split; intros y Hy; simpl in Hy; by elems Hy. Qed.

Lemma ex_tree_rep : RbstTree_rep Z.ltb ex_heap 1%positive ex_tree.
Proof.
  split; [exact ex_wf_holder|]. split; [done|]. split; [|exact ex_ordered].
  intros y Hy. apply ex_valued. by right.
Qed.

Lemma ex_set_rep : RbstSet_rep Z.ltb ex_heap ex_set ex_tree.
Proof.
  split; [exact ex_tree_rep|].
  intros d a b Ha Hb [H1 H2]. simpl in Ha, Hb. by elems Ha; elems Hb.
Qed.

(** The operations on the example heap: ranks, neighbours and bounds. *)
Example ex_at : at_ 10 ex_heap 1%positive 2 = Some 4%positive.
Proof. reflexivity. Qed.

Example ex_index : index 10 ex_heap 5%positive = Some 3.
Proof. reflexivity. Qed.

Example ex_offset_forward : offset 10 ex_heap 3%positive 2 = Some (Some 5%positive).
Proof. reflexivity. Qed.

Example ex_offset_end : offset 10 ex_heap 3%positive 3 = Some (Some 1%positive).
Proof. reflexivity. Qed.

Example ex_offset_past_end : offset 10 ex_heap 3%positive 4 = Some None.
Proof. reflexivity. Qed.

Example ex_offset_before_begin : offset 10 ex_heap 3%positive (-2) = Some None.
Proof. reflexivity. Qed.

Example ex_bounds_absent :
  RbstTree_lower_bound Z.ltb 5 ex_heap 1%positive 25 = Some (Some 4%positive)
  ∧ RbstTree_upper_bound Z.ltb 5 ex_heap 1%positive 25 = Some (Some 4%positive).
Proof. by split. Qed.

Example ex_bounds_present :
  RbstTree_lower_bound Z.ltb 5 ex_heap 1%positive 20 = Some (Some 3%positive)
  ∧ RbstTree_upper_bound Z.ltb 5 ex_heap 1%positive 20 = Some (Some 4%positive).
Proof. by split. Qed.

Example ex_insert_present :
  RbstSet_insert Z.ltb DefaultRng ex_allocate 20 ex_heap ex_set 20
  = Some (ex_heap, ex_set, (Some 3%positive, false)).
Proof. reflexivity. Qed.

Example ex_insert_absent :
  snd <$> RbstSet_insert Z.ltb DefaultRng ex_allocate 20 ex_heap ex_set 25
  = Some (Some 7%positive, true).
Proof. by vm_compute. Qed.

Example ex_erase_absent :
  RbstSet_erase Z.ltb DefaultRng 20 ex_heap ex_set 25 = Some (ex_heap, ex_set, 0).
Proof. reflexivity. Qed.

Example ex_erase_present :
  snd <$> RbstSet_erase Z.ltb DefaultRng 20 ex_heap ex_set 20 = Some 1.
Proof. by vm_compute. Qed.

(** Closing the facts about the example. *)
Ltac ex_fact :=
  first [ exact Z_ltb_StrictWeakOrder | exact ex_tree_state
        | exact ex_wf_holder | exact ex_wf_tree | exact ex_keyed
        | exact ex_tree_rep | exact ex_set_rep | exact (ex_ordered 0)
        | reflexivity | by vm_compute | lia | by (vm_compute; lia) ].

(** ** The claims on the example *)

(** C1 on the example: the heap after the four insertions. *)
Lemma insert_erase_preserve_invariants_witness :
  tree_state Z.ltb DefaultRng 1%positive ex_heap
  ∧ (∀ x, reachable ex_heap 1%positive x →
          I1 ex_heap x ∧ I2 ex_heap x ∧ (x ≠ 1%positive → I3 Z.ltb ex_heap x))
  ∧ (∀ node rng,
       is_Some (value ex_heap node) → ¬ reachable ex_heap 1%positive node →
       (∃ s, size ex_heap (Some 1%positive) = Some s ∧ s + 1 < 2 ^ SIZE_BITS) →
       ∃ fuel h' rng',
         RbstTree_insert Z.ltb DefaultRng fuel ex_heap 1%positive node rng
         = Some (h', rng')
         ∧ tree_state Z.ltb DefaultRng 1%positive h')
  ∧ (∀ node rng,
       reachable ex_heap 1%positive node → node ≠ 1%positive →
       ∃ fuel h' top rng',
         erase DefaultRng fuel ex_heap node rng = Some (h', top, rng')
         ∧ tree_state Z.ltb DefaultRng 1%positive h').
Proof.
  split; [ex_fact|].
  apply (insert_erase_preserve_invariants Z.ltb DefaultRng); ex_fact.
Defined.

(** C2 on the example: node 6 is inserted below the root holder. *)
Lemma insert_refines_insert_tree_witness :
  let it := insert_tree Z.ltb DefaultRng ex_key 6%positive ex_tree ex_rng4 in
  wf ex_heap ex_tree (Some 1%positive)
  ∧ (6%positive ∉ nodes ex_tree)
  ∧ keyed ex_heap ex_key (6%positive :: nodes ex_tree)
  ∧ tsize ex_tree + 1 < 2 ^ SIZE_BITS
  ∧ (height ex_tree < 5)%nat
  ∧ ∃ h' r,
      insert Z.ltb DefaultRng 5 ex_heap 6%positive (root ex_tree)
        (Some 1%positive) ex_rng4
      = Some (h', r, it.2)
      ∧ root it.1 = Some r
      ∧ wf h' it.1 (Some 1%positive)
      ∧ tsize it.1 = tsize ex_tree + 1
      ∧ (ex_tree = Leaf →
         r = 6%positive
         ∧ h' !! 6%positive
           = Some (mkRbstNode None None (Some 1%positive) 1
                     (Some (ex_key 6%positive))))
      ∧ (∀ y, y ∉ nodes ex_tree → y ≠ 6%positive → h' !! y = ex_heap !! y).
Proof.
  intros it.
  assert (6%positive ∉ nodes ex_tree) as Hnew
    by (by apply (bool_decide_unpack _)).
  do 5 (split; [first [exact Hnew|ex_fact]|]).
  apply insert_refines_insert_tree; first [exact Hnew|ex_fact].
Defined.

(** C3 on the example: the children of node 4 are joined. *)
Lemma join_refines_join_tree_witness :
  let l := Node (Node Leaf 2%positive Leaf) 3%positive Leaf in
  let g := Node Leaf 5%positive Leaf in
  let jt := join_tree DefaultRng l g ex_rng4 in
  rep ex_heap l (Some 4%positive)
  ∧ rep ex_heap g (Some 4%positive)
  ∧ NoDup (nodes l ++ nodes g)
  ∧ keyed ex_heap ex_key (nodes l ++ nodes g)
  ∧ ordered Z.ltb ex_key l
  ∧ ordered Z.ltb ex_key g
  ∧ (∀ a b, a ∈ nodes l → b ∈ nodes g → (ex_key b <? ex_key a) = false)
  ∧ tsize l + tsize g < 2 ^ SIZE_BITS
  ∧ (height l + height g < 5)%nat
  ∧ ∃ h' p,
      join DefaultRng 5 ex_heap (root l) (root g) ex_rng4
      = Some (h', root jt.1, jt.2)
      ∧ wf h' jt.1 p
      ∧ ordered Z.ltb ex_key jt.1
      ∧ nodes jt.1 = nodes l ++ nodes g
      ∧ keyed h' ex_key (nodes jt.1)
      ∧ (∀ y, value h' y = value ex_heap y)
      ∧ value h' <$> nodes jt.1
        = (value ex_heap <$> nodes l) ++ (value ex_heap <$> nodes g)
      ∧ (root l = None → h' = ex_heap ∧ jt = (g, ex_rng4))
      ∧ (root g = None → h' = ex_heap ∧ jt = (l, ex_rng4))
      ∧ (∀ y, y ∉ nodes l → y ∉ nodes g → h' !! y = ex_heap !! y).
Proof.
  intros l g jt.
  assert (rep ex_heap l (Some 4%positive)) as Hl by (repeat split; by eexists).
  assert (rep ex_heap g (Some 4%positive)) as Hg by (repeat split; by eexists).
  assert (NoDup (nodes l ++ nodes g)) as Hnd by (by apply (bool_decide_unpack _)).
  assert (keyed ex_heap ex_key (nodes l ++ nodes g)) as Hkey.
  { apply valued_keyed. intros y Hy. simpl in Hy. elems Hy; by eexists. }
  assert (ordered Z.ltb ex_key l) as Hol.
  { repeat split; intros y Hy; simpl in Hy; by elems Hy. }
  assert (ordered Z.ltb ex_key g) as Hog.
  { repeat split; intros y Hy; simpl in Hy; by elems Hy. }
  assert (∀ a b, a ∈ nodes l → b ∈ nodes g → (ex_key b <? ex_key a) = false)
    as Hlg.
  { intros a b Ha Hb. simpl in Ha, Hb. by elems Ha; elems Hb. }
  do 9 (split; [first [done|ex_fact]|]).
  apply (join_refines_join_tree Z.ltb DefaultRng ex_key ex_heap l g
           (Some 4%positive) (Some 4%positive));
    first [done|ex_fact].
Defined.

(** C4 on the example: node 4, the root of the tree, is erased. *)
Lemma erase_replaces_by_join_witness :
  let c := [InLeft 1%positive Leaf] in
  let l := Node (Node Leaf 2%positive Leaf) 3%positive Leaf in
  let r := Node Leaf 5%positive Leaf in
  let jt := join_tree DefaultRng l r ex_rng4 in
  wf ex_heap (plug c (Node l 4%positive r)) None
  ∧ tsize (plug c (Node l 4%positive r)) < 2 ^ SIZE_BITS
  ∧ (length c + height l + height r < 5)%nat
  ∧ ∃ h' v,
      erase DefaultRng 5 ex_heap 4%positive ex_rng4
      = Some (h', root (plug c jt.1), jt.2)
      ∧ wf h' (plug c jt.1) None
      ∧ (c = [] → root (plug c jt.1) = root jt.1)
      ∧ (∀ p, p ∈ ctx_path c →
              ∃ n n', ex_heap !! p = Some n ∧ h' !! p = Some n'
                      ∧ m_size n' = m_size n - 1)
      ∧ h' !! 4%positive = Some (mkRbstNode None None None 1 v)
      ∧ (∀ y, y ∉ nodes (plug c (Node l 4%positive r)) →
              h' !! y = ex_heap !! y).
Proof.
  intros c l r jt.
  do 3 (split; [ex_fact|]).
  apply erase_replaces_by_join; ex_fact.
Defined.

(** C5 on the example: two ranks forward from node 3. *)
Lemma offset_moves_by_rank_witness :
  wf ex_heap ex_holder None
  ∧ nodes ex_holder !! 1%nat = Some 3%positive
  ∧ tsize ex_holder <= 2 ^ (SIZE_BITS - 2)
  ∧ - 2 ^ (SIZE_BITS - 1) <= 2 < 2 ^ (SIZE_BITS - 1)
  ∧ (2 * height ex_holder < 10)%nat
  ∧ offset 10 ex_heap 3%positive 0 = Some (Some 3%positive)
  ∧ offset 10 ex_heap 3%positive 1 = next 10 ex_heap 3%positive
  ∧ offset 10 ex_heap 3%positive (-1) = previous 10 ex_heap 3%positive
  ∧ ∃ k res,
      index 10 ex_heap 3%positive = Some k ∧ k = Z.of_nat 1
      ∧ offset 10 ex_heap 3%positive 2 = Some res
      ∧ (res = None ↔ ¬ (0 <= k + 2 < tsize ex_holder))
      ∧ (0 <= k + 2 < tsize ex_holder →
         res = nodes ex_holder !! Z.to_nat (k + 2)).
Proof.
  do 5 (split; [ex_fact|]).
  apply (offset_moves_by_rank ex_heap ex_holder 3%positive 1 2 10); ex_fact.
Defined.

(** C6 on the example. *)
Lemma rank_consistency_witness :
  wf ex_heap ex_holder None
  ∧ root ex_holder = Some 1%positive
  ∧ tsize ex_holder < 2 ^ (SIZE_BITS - 1)
  ∧ (height ex_holder < 10)%nat
  ∧ (∀ i, 0 <= i < tsize ex_holder →
          ∃ x, at_ 10 ex_heap 1%positive i = Some x
               ∧ index 10 ex_heap x = Some i)
  ∧ (∀ x, x ∈ nodes ex_holder →
          ∃ i, index 10 ex_heap x = Some i
               ∧ at_ 10 ex_heap 1%positive i = Some x)
  ∧ (∀ p q rp rq,
       nodes ex_holder !! rp = Some p → nodes ex_holder !! rq = Some q →
       iterator_minus 10 ex_heap (Some p) (Some q)
       = Some (Z.of_nat rp - Z.of_nat rq)).
Proof.
  do 4 (split; [ex_fact|]).
  apply rank_consistency; ex_fact.
Defined.

(** C7 on the example: the bounds of 25, which is between the values of the
    nodes 3 and 4. *)
Lemma bounds_bracket_key_witness :
  StrictWeakOrder Z.ltb
  ∧ wf ex_heap ex_tree (Some 1%positive)
  ∧ keyed ex_heap ex_key (nodes ex_tree)
  ∧ ordered Z.ltb ex_key ex_tree
  ∧ (height ex_tree < 5)%nat
  ∧ (∀ res, lower_bound Z.ltb 5 ex_heap (root ex_tree) 25 res
            = Some (first_such (λ y, negb (ex_key y <? 25)) (nodes ex_tree)
                      res))
  ∧ (∀ res, upper_bound Z.ltb 5 ex_heap (root ex_tree) 25 res
            = Some (first_such (λ y, 25 <? ex_key y) (nodes ex_tree) res))
  ∧ (∀ this n,
       ex_heap !! this = Some n → m_left n = root ex_tree →
       this ∉ nodes ex_tree →
       (RbstTree_lower_bound Z.ltb 5 ex_heap this 25
        = RbstTree_upper_bound Z.ltb 5 ex_heap this 25
        ↔ ∀ y, y ∈ nodes ex_tree → ¬ equiv_key Z.ltb (ex_key y) 25))
  ∧ (∀ res,
       (∀ y, res = Some y → y ∉ nodes ex_tree) →
       (lower_bound Z.ltb 5 ex_heap (root ex_tree) 25 res
        = upper_bound Z.ltb 5 ex_heap (root ex_tree) 25 res
        ↔ ∀ y, y ∈ nodes ex_tree → ¬ equiv_key Z.ltb (ex_key y) 25)).
Proof.
  assert (keyed ex_heap ex_key (nodes ex_tree)) as Hkey.
  { intros y Hy. apply ex_keyed. by right. }
  do 5 (split; [first [done|ex_fact]|]).
  apply (bounds_bracket_key Z.ltb Z_ltb_StrictWeakOrder ex_key ex_heap ex_tree
           (Some 1%positive));
    first [done|ex_fact].
Defined.

(** C8 on the example: the key 20 is in the set. *)
Lemma set_insert_erase_by_key_witness :
  let present :=
    ∃ y v, y ∈ nodes ex_tree ∧ value ex_heap y = Some v
           ∧ equiv_key Z.ltb v 20 in
  StrictWeakOrder Z.ltb
  ∧ RbstSet_rep Z.ltb ex_heap ex_set ex_tree
  ∧ ex_heap !! ex_allocate ex_heap = None
  ∧ tsize (Node ex_tree (m_tree ex_set) Leaf) + 1 < 2 ^ SIZE_BITS
  ∧ (2 * length (nodes ex_tree) + 2 < 20)%nat
  ∧ (∃ h' s' pos inserted,
       RbstSet_insert Z.ltb DefaultRng ex_allocate 20 ex_heap ex_set 20
       = Some (h', s', (pos, inserted))
       ∧ (inserted = false ↔ present)
       ∧ (inserted = false →
          h' = ex_heap ∧ s' = ex_set
          ∧ ∃ y v, pos = Some y ∧ y ∈ nodes ex_tree
                   ∧ value ex_heap y = Some v ∧ equiv_key Z.ltb v 20))
  ∧ (¬ present →
     RbstSet_erase Z.ltb DefaultRng 20 ex_heap ex_set 20
     = Some (ex_heap, ex_set, 0))
  ∧ (present →
     ∃ h' s',
       RbstSet_erase Z.ltb DefaultRng 20 ex_heap ex_set 20 = Some (h', s', 1)
       ∧ RbstSet_find Z.ltb 20 h' s' 20 = Some (RbstSet_end s')).
Proof.
  intros present.
  do 5 (split; [ex_fact|]).
  apply (set_insert_erase_by_key Z.ltb DefaultRng); ex_fact.
Defined.

(** C10 on the example: rank 2 from the root holder. *)
Lemma at_descends_into_present_children_witness :
  sized ex_heap ex_holder
  ∧ root ex_holder = Some 1%positive
  ∧ 0 <= 2 < tsize ex_holder
  ∧ tsize ex_holder < 2 ^ SIZE_BITS
  ∧ (height ex_holder <= 4)%nat
  ∧ (∃ nd n, ex_heap !! 1%positive = Some nd ∧ size ex_heap (m_left nd) = Some n
       ∧ (2 < n → ∃ c sc, m_left nd = Some c ∧ size ex_heap (Some c) = Some sc
                          ∧ 0 <= 2 < sc)
       ∧ (n < 2 → ∃ c sc, m_right nd = Some c ∧ size ex_heap (Some c) = Some sc
                          ∧ to_size_t (to_size_t (2 - n) - 1) = 2 - n - 1
                          ∧ 0 <= 2 - n - 1 < sc))
  ∧ ∃ y, at_ 4 ex_heap 1%positive 2 = Some y ∧ y ∈ nodes ex_holder.
Proof.
  assert (sized ex_heap ex_holder) as Hs by exact (rep_sized _ _ _ ex_rep_holder).
  do 5 (split; [first [done|ex_fact]|]).
  apply at_descends_into_present_children; first [done|ex_fact].
Defined.

(** * Further properties of the code *)

(** ** Moving by ranks *)

Section Ranks.

Context {V : Type}.

Abbreviation heap := (gmap positive (@RbstNode V)).

Lemma index_by_rank (h : heap) w x i fuel :
  wf h w None → nodes w !! i = Some x →
  tsize w <= 2 ^ SIZE_BITS → (height w < fuel)%nat →
  index fuel h x = Some (Z.of_nat i).
Proof.
  intros Hwf Hi Hmax Hfuel.
  destruct (nodes_lookup_plug _ _ _ Hi) as (c & l & r & -> & ->).
  pose proof (height_plug c (Node l x r)) as Hh. cbn [height] in Hh.
  apply (index_ctx h c l x r); [done|done|lia].
Qed.

Lemma next_by_rank (h : heap) w x i fuel :
  wf h w None → nodes w !! i = Some x → (height w < fuel)%nat →
  next fuel h x = Some (nodes w !! S i).
Proof.
  intros Hwf Hi Hfuel.
  destruct (nodes_lookup_plug _ _ _ Hi) as (c & l & r & -> & ->).
  pose proof (height_plug c (Node l x r)) as Hh. cbn [height] in Hh.
  rewrite (next_ctx h c l x r fuel); [|done|lia].
  by rewrite (lookup_plug_next c l x r).
Qed.

Lemma previous_by_rank (h : heap) w x i fuel :
  wf h w None → nodes w !! i = Some x → (height w < fuel)%nat →
  previous fuel h x
  = Some (match i with O => None | S j => nodes w !! j end).
Proof.
  intros Hwf Hi Hfuel.
  destruct (nodes_lookup_plug _ _ _ Hi) as (c & l & r & -> & ->).
  pose proof (height_plug c (Node l x r)) as Hh. cbn [height] in Hh.
  rewrite (previous_ctx h c l x r fuel); [|done|lia].
  by rewrite (lookup_plug_previous c l x r).
Qed.

Lemma offset_by_rank (h : heap) w x i d fuel :
  wf h w None → nodes w !! i = Some x →
  tsize w <= 2 ^ (SIZE_BITS - 2) →
  - 2 ^ (SIZE_BITS - 1) <= d < 2 ^ (SIZE_BITS - 1) →
  (2 * height w < fuel)%nat →
  offset fuel h x d
  = Some (if decide (0 <= Z.of_nat i + d)
          then nodes w !! Z.to_nat (Z.of_nat i + d) else None).
Proof.
  intros Hwf Hi Hmax Hd Hfuel.
  destruct (nodes_lookup_plug _ _ _ Hi) as (c & l & r & -> & ->).
  pose proof (height_plug c (Node l x r)) as Hh. cbn [height] in Hh.
  pose proof (tsize_nonneg (plug c (Node l x r))) as Hpos.
  assert (2 ^ (SIZE_BITS - 2) = 4611686018427387904) as E62 by done.
  assert (2 ^ (SIZE_BITS - 1) = 9223372036854775808) as E63 by done.
  set (i := (length (ctx_before c) + length (nodes l))%nat) in *.
  assert (Z.of_nat i < tsize (plug c (Node l x r))) as Hlt.
  { rewrite tsize_nodes. apply lookup_lt_Some in Hi. lia. }
  rewrite <- (offset_ctx h c l x r (Z.of_nat i + d) fuel); [|done|done|lia|lia].
  f_equal. rewrite to_ptrdiff_t_small; lia.
Qed.

End Ranks.

(** ** The elements of a set in order *)

Section SetOrder.

Context {V : Type} (comp : V -> V -> bool) (Hswo : StrictWeakOrder comp).
Context {Rng : Type}.

Abbreviation heap := (gmap positive (@RbstNode V)).

(** The nodes of a set and its root holder, in set order. *)
Lemma RbstSet_rep_wf (h : heap) (s : @RbstSet Rng) t :
  RbstSet_rep comp h s t →
  wf h (Node t (m_tree s) Leaf) None
  ∧ nodes (Node t (m_tree s) Leaf) = nodes t ++ [m_tree s]
  ∧ (m_tree s ∉ nodes t) ∧ NoDup (nodes t)
  ∧ tsize (Node t (m_tree s) Leaf) < 2 ^ SIZE_BITS.
Proof.
  intros [(Hwf & Hmax & _) _]. pose proof Hwf as [Hnd _].
  apply NoDup_Node in Hnd as (? & _ & ? & _). by split_and!.
Qed.

(** The values of a set ascend strictly in set order. *)
Lemma RbstSet_rep_ascending (h : heap) (s : @RbstSet Rng) t d :
  RbstSet_rep comp h s t →
  StronglySorted (λ a b, comp (key_of h d a) (key_of h d b) = true) (nodes t).
Proof.
  intros Hrep. pose proof (RbstSet_rep_wf _ _ _ Hrep) as (_ & _ & _ & Hnd & _).
  destruct Hrep as [(_ & _ & _ & Hord) Huniq].
  pose proof (ordered_sorted comp Hswo (key_of h d) t (Hord d)) as Hs.
  specialize (Huniq d).
  induction Hs as [|a l Hs IH Ha]; [constructor|].
  apply NoDup_cons in Hnd as [Hna Hnd].
  constructor.
  - apply IH; [|done]. intros x y Hx Hy. apply Huniq; by right.
  - rewrite Forall_forall in Ha |- *. intros b Hb.
    destruct (comp (key_of h d a) (key_of h d b)) eqn:E; [done|].
    assert (a = b) as ->; [|done].
    apply Huniq; [by left|by right|]. split; [done|by apply Ha].
Qed.

Lemma RbstSet_size_rep (h : heap) (s : @RbstSet Rng) t :
  RbstSet_rep comp h s t →
  RbstSet_size h s = Some (Z.of_nat (length (nodes t))).
Proof.
  intros Hrep.
  pose proof (RbstSet_rep_wf h s t Hrep) as ([_ Hw] & _ & _ & _ & Hmax).
  pose proof Hw as ([v Hthis] & _).
  pose proof (tsize_nonneg t) as Hpos. cbn [tsize] in Hmax, Hthis.
  unfold RbstSet_size, size. rewrite Hthis. cbn [mbind option_bind m_size].
  rewrite to_size_t_small by lia. f_equal. rewrite tsize_nodes. lia.
Qed.

End SetOrder.

(** In a sorted list the element at a lower position is related to the one
    at a higher position. *)
Lemma StronglySorted_lookup_lt {A} (R : relation A) l i j a b :
  StronglySorted R l → l !! i = Some a → l !! j = Some b → (i < j)%nat →
  R a b.
Proof.
  intros Hs Hi Hj Hlt.
  rewrite <- (take_drop j l) in Hs.
  eapply (StronglySorted_app_1_elem_of R _ _ a b Hs).
  - apply list_elem_of_lookup. exists i. by rewrite lookup_take_lt.
  - apply list_elem_of_lookup. exists 0%nat. rewrite lookup_drop.
    by rewrite Nat.add_0_r.
Qed.

Section Navigation.

Context {V : Type} (comp : V -> V -> bool).
Context {Rng : Type}.

Abbreviation heap := (gmap positive (@RbstNode V)).

(** X1. [begin()] of a set is its element of rank 0, whose value no value of
    the set is less than; it is [end()] exactly when the set has no
    element. *)
Theorem begin_is_least (Hswo : StrictWeakOrder comp) (h : heap)
    (s : @RbstSet Rng) (t : tree) (fuel : nat) :
  RbstSet_rep comp h s t → (height t < fuel)%nat →
  ∃ b, RbstSet_begin fuel h s = Some (Some b)
    ∧ (nodes t ++ [m_tree s]) !! 0%nat = Some b
    ∧ (Some b = RbstSet_end s ↔ nodes t = [])
    ∧ ∀ y vb vy, y ∈ nodes t → value h b = Some vb → value h y = Some vy →
                 comp vy vb = false.
Proof.
  intros Hrep Hfuel.
  pose proof (RbstSet_rep_wf comp h s t Hrep) as ([_ Hw] & Hn & Hout & _).
  unfold RbstSet_begin, RbstSet_end.
  rewrite (first_rep h (Node t (m_tree s) Leaf) fuel None (m_tree s));
    [|done|done|simpl; lia].
  rewrite Hn. destruct (nodes t) as [|b l] eqn:Hl.
  - exists (m_tree s). split_and!; try done. intros y vb vy Hy.
    by apply elem_of_nil in Hy.
  - exists b. split_and!; try done.
    + split; [|done]. intros [= ->]. destruct Hout. by left.
    + intros y vb vy Hy Hvb Hvy.
      pose proof (RbstSet_rep_ascending comp Hswo h s t vb Hrep) as Hs.
      rewrite Hl in Hs. apply StronglySorted_cons in Hs as [Hb _].
      rewrite Forall_forall in Hb.
      rewrite <- (key_of_value h vb b vb Hvb), <- (key_of_value h vb y vy Hvy).
      apply elem_of_cons in Hy as [->|Hy]; [by apply comp_irrefl|].
      by apply (comp_asym comp), Hb.
Qed.

(** X2. [--end()] of a set is its element of highest rank, whose value no
    value of the set is greater than, and [last()] of the root of the tree
    is the same node; in a set without elements [--end()] is the null
    iterator. *)
Theorem end_previous_is_greatest (Hswo : StrictWeakOrder comp) (h : heap)
    (s : @RbstSet Rng) (t : tree) (fuel : nat) :
  RbstSet_rep comp h s t → (height t + 1 < fuel)%nat →
  iterator_previous fuel h (RbstSet_end s) = Some (list.last (nodes t))
  ∧ (∀ x, root t = Some x → last fuel h x = list.last (nodes t))
  ∧ ∀ l y vl vy, list.last (nodes t) = Some l → y ∈ nodes t →
                 value h l = Some vl → value h y = Some vy →
                 comp vl vy = false.
Proof.
  intros Hrep Hfuel.
  pose proof (RbstSet_rep_wf comp h s t Hrep) as (Hwf & Hn & Hout & _).
  split_and!.
  - unfold iterator_previous, RbstSet_end. cbn [mbind option_bind].
    rewrite (previous_by_rank h (Node t (m_tree s) Leaf) (m_tree s)
               (length (nodes t)) fuel); [|done| |simpl; lia].
    + f_equal. rewrite last_lookup.
      destruct (length (nodes t)) as [|j] eqn:Hlen.
      * symmetry. apply lookup_ge_None. lia.
      * rewrite Hn, lookup_app_l by lia. done.
    + rewrite Hn. by rewrite list_lookup_middle.
  - intros x Hx. destruct Hwf as [_ (_ & Ht & _)].
    apply (last_rep h t fuel (Some (m_tree s)) x); [done|done|lia].
  - intros l y vl vy Hl Hy Hvl Hvy.
    pose proof (RbstSet_rep_ascending comp Hswo h s t vl Hrep) as Hs.
    rewrite <- (key_of_value h vl l vl Hvl), <- (key_of_value h vl y vy Hvy).
    apply last_Some in Hl as [l' Hl]. rewrite Hl in Hs, Hy.
    apply elem_of_app in Hy as [Hy|Hy].
    + apply (comp_asym comp).
      apply (StronglySorted_app_1_elem_of _ _ _ y l Hs); [done|by left].
    + apply list_elem_of_singleton in Hy as ->. by apply comp_irrefl.
Qed.

(** X3. In a well-formed tree whose root has no parent, [next()] of the node
    of rank [i] is the node of rank [i + 1], the null pointer for the last
    node, and [previous()] is the node of rank [i - 1], the null pointer
    for the first node; so [++] on the last element of a set gives [end()],
    the root holder being the last node. *)
Theorem next_previous_step_rank (h : heap) (w : tree) (x : ptr) (i : nat)
    (fuel : nat) :
  wf h w None → nodes w !! i = Some x → (height w < fuel)%nat →
  iterator_next fuel h (Some x) = Some (nodes w !! S i)
  ∧ iterator_previous fuel h (Some x)
    = Some (match i with O => None | S j => nodes w !! j end)
  ∧ (S i = length (nodes w) → next fuel h x = Some None)
  ∧ (i = O → previous fuel h x = Some None).
Proof.
  intros Hwf Hi Hfuel.
  pose proof (next_by_rank h w x i fuel Hwf Hi Hfuel) as Hn.
  pose proof (previous_by_rank h w x i fuel Hwf Hi Hfuel) as Hp.
  unfold iterator_next, iterator_previous. cbn [mbind option_bind].
  split_and!; [done|done| |].
  - intros Hlast. rewrite Hn. f_equal. apply lookup_ge_None. lia.
  - intros ->. by rewrite Hp.
Qed.

(** X4. At the root of a well-formed tree, [at(i)] is [first()->offset(i)]
    for every rank [i] of the tree, as the comment on [at] says. *)
Theorem at_is_first_offset (h : heap) (w : tree) (top : ptr) (i : Z)
    (fuel : nat) :
  wf h w None → root w = Some top →
  0 <= i < tsize w → tsize w <= 2 ^ (SIZE_BITS - 2) →
  (2 * height w < fuel)%nat →
  ∃ f y, first fuel h top = Some f
    ∧ at_ fuel h top i = Some y
    ∧ offset fuel h f i = Some (Some y).
Proof.
  intros Hwf Hroot Hi Hmax Hfuel.
  assert (2 ^ (SIZE_BITS - 2) = 4611686018427387904) as E62 by done.
  assert (2 ^ (SIZE_BITS - 1) = 9223372036854775808) as E63 by done.
  assert (2 ^ SIZE_BITS = 18446744073709551616) as E64 by done.
  pose proof Hwf as [_ Hrep].
  destruct (lookup_lt_is_Some_2 (nodes w) 0) as [f Hf].
  { rewrite tsize_nodes in Hi. lia. }
  destruct (lookup_lt_is_Some_2 (nodes w) (Z.to_nat i)) as [y Hy].
  { rewrite tsize_nodes in Hi. lia. }
  exists f, y. split_and!.
  - rewrite (first_rep h w fuel None top); [|done|done|lia].
    by rewrite head_lookup.
  - rewrite (at_sized h w) by (done || lia || by eapply rep_sized). done.
  - rewrite (offset_by_rank h w f 0 i fuel) by (done || lia).
    rewrite decide_True by lia. f_equal. rewrite <- Hy. f_equal; lia.
Qed.

(** X5. For an iterator at rank [r] of a well-formed tree and [n] with
    [r + n] a rank of the tree, [it + n] is the iterator at rank [r + n],
    [(it + n) - it] is [n], [(it + n) - n] is [it] again, and [it[n]] is
    the value at rank [r + n]. *)
Theorem iterator_plus_minus (h : heap) (w : tree) (x : ptr) (r : nat) (n : Z)
    (fuel : nat) :
  wf h w None → nodes w !! r = Some x →
  0 <= Z.of_nat r + n < tsize w → tsize w <= 2 ^ (SIZE_BITS - 2) →
  (2 * height w < fuel)%nat →
  ∃ y, iterator_plus fuel h (Some x) n = Some (Some y)
    ∧ nodes w !! Z.to_nat (Z.of_nat r + n) = Some y
    ∧ iterator_minus fuel h (Some y) (Some x) = Some n
    ∧ iterator_sub fuel h (Some y) n = Some (Some x)
    ∧ iterator_at fuel h (Some x) n = value h y.
Proof.
  intros Hwf Hr Hn Hmax Hfuel.
  assert (2 ^ (SIZE_BITS - 2) = 4611686018427387904) as E62 by done.
  assert (2 ^ (SIZE_BITS - 1) = 9223372036854775808) as E63 by done.
  assert (2 ^ SIZE_BITS = 18446744073709551616) as E64 by done.
  pose proof (lookup_lt_Some _ _ _ Hr) as Hlt. rewrite tsize_nodes in Hn, Hmax.
  destruct (lookup_lt_is_Some_2 (nodes w) (Z.to_nat (Z.of_nat r + n)))
    as [y Hy]; [lia|].
  exists y.
  unfold iterator_at, iterator_plus, iterator_sub, iterator_minus, iterator_index.
  cbn [mbind option_bind]. split_and!.
  - rewrite (offset_by_rank h w x r n fuel);
      [|done|done|by rewrite tsize_nodes|lia|done].
    by rewrite decide_True, Hy by lia.
  - done.
  - rewrite (index_by_rank h w y _ fuel Hwf Hy), (index_by_rank h w x _ fuel Hwf Hr);
      [|rewrite tsize_nodes; lia|lia|rewrite tsize_nodes; lia|lia].
    cbn [mbind option_bind]. rewrite !(to_ptrdiff_t_small (Z.of_nat _)) by lia.
    rewrite to_ptrdiff_t_small by lia. f_equal. lia.
  - rewrite (to_ptrdiff_t_small (- n)) by lia.
    rewrite (offset_by_rank h w y _ (- n) fuel Hwf Hy);
      [|by rewrite tsize_nodes|lia|done].
    rewrite decide_True by lia. f_equal. rewrite <- Hr. f_equal. lia.
  - rewrite (offset_by_rank h w x r n fuel);
      [|done|done|by rewrite tsize_nodes|lia|done].
    by rewrite decide_True, Hy by lia.
Qed.

(** X6. [size()] of a set is the number of its elements, and [empty()] holds
    exactly when there is none. *)
Theorem size_counts_elements (h : heap) (s : @RbstSet Rng) (t : tree) :
  RbstSet_rep comp h s t →
  RbstSet_size h s = Some (Z.of_nat (length (nodes t)))
  ∧ RbstSet_empty h s = Some (bool_decide (nodes t = []))
  ∧ (RbstSet_empty h s = Some true ↔ RbstSet_size h s = Some 0).
Proof.
  intros Hrep.
  pose proof (RbstSet_rep_wf comp h s t Hrep) as ([_ Hw] & _).
  pose proof Hw as ([v Hthis] & _).
  pose proof (RbstSet_size_rep comp h s t Hrep) as Hsize.
  assert (RbstSet_empty h s = Some (bool_decide (nodes t = []))) as Hempty.
  { unfold RbstSet_empty, RbstTree_root. rewrite Hthis.
    cbn [mbind option_bind m_left]. f_equal. destruct t; [done|].
    cbn [root nodes]. rewrite !bool_decide_eq_false_2; [done| |done].
    intros Hnil. by apply app_nil in Hnil as [_ ?]. }
  split_and!; [done|done|]. rewrite Hsize, Hempty. split.
  - intros [= Hnil%bool_decide_eq_true_1]. by rewrite Hnil.
  - intros [= Hlen]. f_equal. apply bool_decide_eq_true_2.
    apply length_zero_iff_nil. lia.
Qed.

(** X7. On a set, [end() - begin()] is [size()] and [begin() + size()] is
    [end()]. *)
Theorem end_minus_begin_is_size (h : heap) (s : @RbstSet Rng) (t : tree)
    (fuel : nat) :
  RbstSet_rep comp h s t →
  tsize t < 2 ^ (SIZE_BITS - 2) → (2 * height t + 2 < fuel)%nat →
  ∃ b n, RbstSet_begin fuel h s = Some (Some b)
    ∧ RbstSet_size h s = Some n
    ∧ iterator_minus fuel h (RbstSet_end s) (Some b) = Some n
    ∧ iterator_plus fuel h (Some b) n = Some (RbstSet_end s).
Proof.
  intros Hrep Hmax Hfuel.
  assert (2 ^ (SIZE_BITS - 2) = 4611686018427387904) as E62 by done.
  assert (2 ^ (SIZE_BITS - 1) = 9223372036854775808) as E63 by done.
  assert (2 ^ SIZE_BITS = 18446744073709551616) as E64 by done.
  pose proof (RbstSet_rep_wf comp h s t Hrep) as (Hwf & Hn & _).
  pose proof (RbstSet_size_rep comp h s t Hrep) as Hsize.
  set (w := Node t (m_tree s) Leaf) in *.
  assert (tsize w = 1 + tsize t) as Hw by (cbn [w tsize]; lia).
  assert (height w = S (height t)) as Hh by (cbn [w height]; lia).
  pose proof (tsize_nodes t) as Hlen.
  assert (nodes w !! length (nodes t) = Some (m_tree s)) as Hend.
  { rewrite Hn. by rewrite list_lookup_middle. }
  destruct (lookup_lt_is_Some_2 (nodes w) 0) as [b Hb].
  { rewrite Hn, length_app. simpl. lia. }
  exists b, (Z.of_nat (length (nodes t))).
  unfold RbstSet_begin, RbstSet_end, iterator_minus, iterator_index,
    iterator_plus.
  cbn [mbind option_bind]. split_and!.
  - destruct Hwf as [_ Hrw].
    rewrite (first_rep h w fuel None (m_tree s)); [|done|done|lia].
    by rewrite head_lookup, Hb.
  - done.
  - rewrite (index_by_rank h w _ _ fuel Hwf Hend), (index_by_rank h w _ _ fuel Hwf Hb);
      [|lia..].
    cbn [mbind option_bind]. rewrite !(to_ptrdiff_t_small (Z.of_nat _)) by lia.
    rewrite to_ptrdiff_t_small by lia. f_equal. lia.
  - rewrite (offset_by_rank h w b 0 _ fuel Hwf Hb); [|lia..].
    rewrite decide_True by lia. f_equal. rewrite <- Hend. f_equal. lia.
Qed.

(** X8. The comparisons of two iterators into the same well-formed tree
    compare their ranks. *)
Theorem iterator_order_is_rank_order (h : heap) (w : tree) (p q : ptr)
    (rp rq : nat) (fuel : nat) :
  wf h w None → nodes w !! rp = Some p → nodes w !! rq = Some q →
  tsize w <= 2 ^ SIZE_BITS → (height w < fuel)%nat →
  iterator_eq (Some p) (Some q) = bool_decide (rp = rq)
  ∧ iterator_lt fuel h (Some p) (Some q) = Some (bool_decide (rp < rq)%nat)
  ∧ iterator_gt fuel h (Some p) (Some q) = Some (bool_decide (rq < rp)%nat)
  ∧ iterator_le fuel h (Some p) (Some q) = Some (bool_decide (rp <= rq)%nat)
  ∧ iterator_ge fuel h (Some p) (Some q) = Some (bool_decide (rq <= rp)%nat).
Proof.
  intros Hwf Hp Hq Hmax Hfuel. pose proof Hwf as [Hnd _].
  assert (p = q ↔ rp = rq) as Heq.
  { split; [intros ->; by eapply NoDup_lookup|intros ->; congruence]. }
  unfold iterator_eq, iterator_lt, iterator_gt, iterator_le, iterator_ge,
    iterator_index.
  cbn [mbind option_bind].
  rewrite !(index_by_rank h w p rp fuel Hwf Hp), !(index_by_rank h w q rq fuel Hwf Hq)
    by done.
  cbn [mbind option_bind]. split_and!.
  - apply bool_decide_ext. split; [intros [= ?]; tauto|intros ?; f_equal; tauto].
  - f_equal. destruct (Z.ltb_spec (Z.of_nat rp) (Z.of_nat rq));
      [rewrite bool_decide_eq_true_2|rewrite bool_decide_eq_false_2]; done || lia.
  - f_equal. destruct (Z.ltb_spec (Z.of_nat rq) (Z.of_nat rp));
      [rewrite bool_decide_eq_true_2|rewrite bool_decide_eq_false_2]; done || lia.
  - case_decide as Hd.
    + injection Hd as Hd. apply Heq in Hd as ->.
      by rewrite bool_decide_eq_true_2.
    + f_equal. destruct (Z.leb_spec (Z.of_nat rp) (Z.of_nat rq));
        [rewrite bool_decide_eq_true_2|rewrite bool_decide_eq_false_2]; done || lia.
  - case_decide as Hd.
    + injection Hd as Hd. apply Heq in Hd as ->.
      by rewrite bool_decide_eq_true_2.
    + f_equal. destruct (Z.leb_spec (Z.of_nat rq) (Z.of_nat rp));
        [rewrite bool_decide_eq_true_2|rewrite bool_decide_eq_false_2]; done || lia.
Qed.

End Navigation.

(** ** Lookup in a set *)

Lemma first_such_split P l res y :
  first_such P l res = Some y → res ≠ Some y →
  ∃ l1 l2, l = l1 ++ y :: l2 ∧ P y = true ∧ ∀ z, z ∈ l1 → P z = false.
Proof.
  induction l as [|x l IH]; [done|]. rewrite first_such_cons.
  destruct (P x) eqn:HP.
  - intros [= ->] _. exists [], l. split_and!; [done|done|].
    by intros z ?%elem_of_nil.
  - intros Hf Hres. destruct (IH Hf Hres) as (l1 & l2 & -> & Hy & Hl1).
    exists (x :: l1), l2. split_and!; [done|done|].
    intros z [->|Hz]%elem_of_cons; [done|by apply Hl1].
Qed.

Lemma first_such_fallback P l res :
  first_such P l res = res → (∀ y, res = Some y → y ∉ l) →
  ∀ y, y ∈ l → P y = false.
Proof.
  induction l as [|x l IH]; intros Hf Hres y Hy; [by apply elem_of_nil in Hy|].
  rewrite first_such_cons in Hf. destruct (P x) eqn:HP.
  - destruct (Hres x); [done|by left].
  - apply elem_of_cons in Hy as [->|Hy]; [done|].
    apply IH; [done| |done]. intros z Hz Hin. apply (Hres z Hz). by right.
Qed.

Section SetLookup.

Context {V : Type} (comp : V -> V -> bool) (Hswo : StrictWeakOrder comp).
Context {Rng : Type}.

Abbreviation heap := (gmap positive (@RbstNode V)).

Lemma RbstSet_bounds_rep (h : heap) (s : @RbstSet Rng) t k d fuel :
  RbstSet_rep comp h s t → (height t < fuel)%nat →
  RbstSet_lower_bound comp fuel h s k
  = Some (first_such (λ y, negb (comp (key_of h d y) k)) (nodes t)
            (Some (m_tree s)))
  ∧ RbstSet_upper_bound comp fuel h s k
    = Some (first_such (λ y, comp k (key_of h d y)) (nodes t)
              (Some (m_tree s))).
Proof.
  intros [([_ Hrep] & _ & Hval & Hord) _] Hfuel.
  pose proof Hrep as ([v Hthis] & Ht & _).
  unfold RbstSet_lower_bound, RbstSet_upper_bound, RbstTree_lower_bound,
    RbstTree_upper_bound, RbstTree_root.
  rewrite Hthis. cbn [mbind option_bind m_left]. split.
  - apply (lower_bound_rep comp Hswo (key_of h d) t fuel h (Some (m_tree s)));
      [done|by apply valued_keyed|done|done].
  - apply (upper_bound_rep comp Hswo (key_of h d) t fuel h (Some (m_tree s)));
      [done|by apply valued_keyed|done|done].
Qed.

(** The values around a node of a set. *)
Lemma RbstSet_rep_around (h : heap) (s : @RbstSet Rng) t d l1 y l2 :
  RbstSet_rep comp h s t → nodes t = l1 ++ y :: l2 →
  (∀ z, z ∈ l1 → comp (key_of h d z) (key_of h d y) = true)
  ∧ (∀ z, z ∈ l2 → comp (key_of h d y) (key_of h d z) = true).
Proof.
  intros Hrep Hl.
  pose proof (RbstSet_rep_ascending comp Hswo h s t d Hrep) as Hs.
  rewrite Hl in Hs. split.
  - intros z Hz.
    apply (StronglySorted_app_1_elem_of _ _ _ z y Hs); [done|by left].
  - apply StronglySorted_app_1_r, StronglySorted_cons in Hs as [Hy _].
    by rewrite Forall_forall in Hy.
Qed.

(** X9. [find(key)] on a set returns the one element whose value is
    equivalent to the key, and [end()] exactly when there is none. *)
Theorem find_locates_equivalent (h : heap) (s : @RbstSet Rng) (t : tree)
    (k : V) (fuel : nat) :
  RbstSet_rep comp h s t → (height t < fuel)%nat →
  ∃ it, RbstSet_find comp fuel h s k = Some it
    ∧ (it = RbstSet_end s ↔
       ∀ y v, y ∈ nodes t → value h y = Some v → ¬ equiv_key comp v k)
    ∧ (it ≠ RbstSet_end s →
       ∃ y v, it = Some y ∧ y ∈ nodes t ∧ value h y = Some v
         ∧ equiv_key comp v k
         ∧ ∀ z vz, z ∈ nodes t → value h z = Some vz →
                   equiv_key comp vz k → z = y).
Proof.
  intros Hrep Hfuel.
  pose proof (RbstSet_rep_wf comp h s t Hrep) as (_ & _ & Hout & _).
  destruct Hrep as [Hrep Huniq]. unfold RbstSet_find, RbstSet_end.
  destruct (RbstTree_find_rep comp Hswo h (m_tree s) t k fuel Hrep Hfuel)
    as (r' & -> & [(y & v & -> & Hy & Hv & He)|[-> Hn]]).
  - exists (Some y). split_and!; [done| |].
    + split; [intros [= ->]; done|]. intros Hn. by destruct (Hn y v).
    + intros _. exists y, v. split_and!; try done.
      intros z vz Hz Hvz Hez. apply (Huniq k z y Hz Hy).
      rewrite (key_of_value _ _ _ _ Hvz), (key_of_value _ _ _ _ Hv).
      eapply equiv_key_trans; [done|exact Hez|by apply equiv_key_sym].
  - exists (Some (m_tree s)). split_and!; done.
Qed.

(** X10. [equal_range(key)] on a set is the pair of [lower_bound(key)] and
    [upper_bound(key)]: both are the same position when no value of the set
    is equivalent to the key, and otherwise the first is the element
    equivalent to the key and the second the position after it. *)
Theorem equal_range_brackets_one (h : heap) (s : @RbstSet Rng) (t : tree)
    (k : V) (fuel : nat) :
  RbstSet_rep comp h s t → (height t + 1 < fuel)%nat →
  ∃ lo hi, RbstSet_equal_range comp fuel h s k = Some (lo, hi)
    ∧ RbstSet_lower_bound comp fuel h s k = Some lo
    ∧ RbstSet_upper_bound comp fuel h s k = Some hi
    ∧ ((∀ y v, y ∈ nodes t → value h y = Some v → ¬ equiv_key comp v k) →
       hi = lo)
    ∧ (∀ y v, y ∈ nodes t → value h y = Some v → equiv_key comp v k →
              lo = Some y ∧ iterator_next fuel h lo = Some hi ∧ hi ≠ lo).
Proof.
  intros Hrep Hfuel.
  pose proof (RbstSet_rep_wf comp h s t Hrep) as (Hwf & Hn & Hout & Hnd & _).
  destruct (RbstSet_bounds_rep h s t k k fuel Hrep ltac:(lia)) as [Hlo Hhi].
  pose proof Hrep as [(_ & _ & Hval & _) Huniq].
  set (key := key_of h k) in *.
  set (P := λ y, negb (comp (key y) k)) in *.
  set (Q := λ y, comp k (key y)) in *.
  set (lo := first_such P (nodes t) (Some (m_tree s))) in *.
  set (hi := first_such Q (nodes t) (Some (m_tree s))) in *.
  assert (∀ y v, value h y = Some v → key y = v) as Hkey
    by (intros y v Hv; by apply key_of_value).
  assert ((lo = hi ∧ RbstSet_equal_range comp fuel h s k = Some (lo, lo)
           ∧ ∀ y, y ∈ nodes t → ¬ equiv_key comp (key y) k)
          ∨ (∃ y, lo = Some y ∧ y ∈ nodes t ∧ equiv_key comp (key y) k
               ∧ iterator_next fuel h lo = Some hi ∧ hi ≠ lo
               ∧ RbstSet_equal_range comp fuel h s k = Some (lo, hi)))
    as Hcases.
  { unfold RbstSet_equal_range. rewrite Hlo. cbn [mbind option_bind].
    unfold RbstSet_end. case_decide as Hend.
    - (* the lower bound is an element *)
      destruct lo as [y|] eqn:Elo.
      2:{ unfold lo, first_such in Elo. by destruct (List.find _ _). }
      unfold lo in Elo.
      destruct (first_such_split P _ _ y Elo) as (l1 & l2 & Hl & HPy & HPl1);
        [by intros ?|].
      assert (y ∈ nodes t) as Hy by (rewrite Hl; set_solver).
      destruct (RbstSet_rep_around h s t k l1 y l2 Hrep Hl) as [Hbefore Hafter].
      fold key in Hbefore, Hafter.
      destruct (Hval y Hy) as [v Hv]. unfold iterator_deref.
      cbn [mbind option_bind]. rewrite Hv. cbn [mbind option_bind].
      rewrite <- (Hkey y v Hv).
      assert (∀ z, z ∈ l1 → Q z = false) as HQl1.
      { intros z Hz. specialize (HPl1 z Hz). unfold P, Q in *.
        apply negb_false_iff in HPl1. by apply (comp_asym comp). }
      unfold P in HPy. apply negb_true_iff in HPy.
      destruct (comp k (key y)) eqn:HQy; cbn [negb].
      + left. split_and!; [|done|].
        * unfold hi. rewrite Hl, first_such_app, (first_such_none Q l1) by done.
          rewrite first_such_cons. unfold Q at 1. by rewrite HQy.
        * intros z. rewrite Hl, elem_of_app, elem_of_cons.
          intros [Hz|[->|Hz]] [He1 He2].
          -- specialize (HPl1 z Hz). unfold P in HPl1.
             apply negb_false_iff in HPl1. congruence.
          -- congruence.
          -- assert (comp k (key z) = true); [|congruence].
             apply (comp_lt_le comp Hswo _ (key y)); [done|].
             by apply (comp_asym comp), Hafter.
      + right. exists y.
        assert (hi = (nodes t ++ [m_tree s]) !! S (length l1)) as Ehi.
        { unfold hi. rewrite Hl, first_such_app, (first_such_none Q l1) by done.
          rewrite first_such_cons. unfold Q at 1. rewrite HQy.
          rewrite <- app_assoc, lookup_app_r by lia.
          replace (S (length l1) - length l1)%nat with 1%nat by lia.
          cbn [lookup list_lookup app]. destruct l2 as [|z l2]; [done|].
          rewrite first_such_cons. unfold Q.
          rewrite (comp_le_lt comp Hswo k (key y) (key z)); [done|done|].
          apply Hafter. by left. }
        split_and!; try done.
        * unfold iterator_next. cbn [mbind option_bind].
          rewrite (next_by_rank h (Node t (m_tree s) Leaf) y (length l1) fuel);
            [|done| |cbn [height]; lia].
          -- by rewrite Hn, Ehi.
          -- rewrite Hn, Hl, <- app_assoc. by apply list_lookup_middle.
        * rewrite Ehi. intros Heq.
          assert (NoDup (nodes t ++ [m_tree s])) as Hnd'.
          { rewrite <- Hn. apply Hwf. }
          assert ((nodes t ++ [m_tree s]) !! length l1 = Some y) as Hy'.
          { rewrite Hl, <- app_assoc. by apply list_lookup_middle. }
          pose proof (NoDup_lookup _ _ _ _ Hnd' Heq Hy'). lia.
        * unfold iterator_next. cbn [mbind option_bind].
          rewrite (next_by_rank h (Node t (m_tree s) Leaf) y (length l1) fuel);
            [|done| |cbn [height]; lia].
          -- cbn [mbind option_bind]. by rewrite Hn, Ehi.
          -- rewrite Hn, Hl, <- app_assoc. by apply list_lookup_middle.
    - (* the lower bound is [end()] *)
      assert (∀ y, y ∈ nodes t → P y = false) as HP.
      { apply (first_such_fallback P _ (Some (m_tree s))); [done|].
        by intros y [= <-]. }
      left. split_and!; [|done|].
      + rewrite Hend. unfold hi. symmetry. apply first_such_none.
        intros y Hy. specialize (HP y Hy). unfold P, Q in *.
        apply negb_false_iff in HP. by apply (comp_asym comp).
      + intros y Hy [He _]. specialize (HP y Hy). unfold P in HP.
        apply negb_false_iff in HP. congruence. }
  exists lo, hi.
  destruct Hcases as [(Heq & Her & Hno)|(y & Ely & Hy & He & Hnext & Hne & Her)].
  - split_and!; [by rewrite <- Heq|done|done|done|].
    intros y v Hy Hv Hev. destruct (Hno y Hy). by rewrite (Hkey y v Hv).
  - split_and!; try done.
    + intros Hno. destruct (Hval y Hy) as [v Hv]. destruct (Hno y v Hy Hv).
      by rewrite <- (Hkey y v Hv).
    + intros z vz Hz Hvz Hez. split_and!; try done.
      rewrite Ely. f_equal. apply (Huniq k y z Hy Hz). fold key.
      rewrite (Hkey z vz Hvz).
      eapply equiv_key_trans; [done|exact He|by apply equiv_key_sym].
Qed.

(** X11. [<] on two iterators at elements of a set is the comparison of
    their values: the elements of a set are in strictly ascending order. *)
Theorem iterator_lt_is_value_lt (h : heap) (s : @RbstSet Rng) (t : tree)
    (p q : ptr) (vp vq : V) (fuel : nat) :
  RbstSet_rep comp h s t → p ∈ nodes t → q ∈ nodes t →
  value h p = Some vp → value h q = Some vq → (height t + 1 < fuel)%nat →
  iterator_lt fuel h (Some p) (Some q) = Some (comp vp vq).
Proof.
  intros Hrep [rp Hp]%list_elem_of_lookup [rq Hq]%list_elem_of_lookup Hvp Hvq
    Hfuel.
  pose proof (RbstSet_rep_wf comp h s t Hrep) as (Hwf & Hn & _ & Hnd & Hmax).
  pose proof (RbstSet_rep_ascending comp Hswo h s t vp Hrep) as Hs.
  assert (∀ r y, nodes t !! r = Some y →
                 nodes (Node t (m_tree s) Leaf) !! r = Some y) as Hw.
  { intros r y Hr. rewrite Hn. by apply lookup_app_l_Some. }
  unfold iterator_lt, iterator_index. cbn [mbind option_bind].
  rewrite (index_by_rank h _ p rp fuel Hwf (Hw _ _ Hp)),
    (index_by_rank h _ q rq fuel Hwf (Hw _ _ Hq)); [|lia|cbn [height]; lia..].
  cbn [mbind option_bind]. f_equal.
  rewrite <- (key_of_value h vp p vp Hvp), <- (key_of_value h vp q vq Hvq).
  destruct (Z.ltb_spec (Z.of_nat rp) (Z.of_nat rq)) as [Hlt|Hge]; symmetry.
  - apply (StronglySorted_lookup_lt _ _ rp rq p q Hs Hp Hq). lia.
  - destruct (decide (rp = rq)) as [->|Hne].
    + assert (p = q) as -> by congruence. by apply comp_irrefl.
    + apply (comp_asym comp).
      apply (StronglySorted_lookup_lt _ _ rq rp q p Hs Hq Hp). lia.
Qed.

End SetLookup.

(** ** Updates of a set *)

Lemma sublist_same_length {A} (l' l : list A) :
  l' `sublist_of` l → length l = length l' → l' = l.
Proof.
  induction 1 as [|x l1 l2 Hs IH|x l1 l2 Hs IH]; simpl; intros Hlen.
  - done.
  - f_equal. apply IH. lia.
  - apply sublist_length in Hs. lia.
Qed.

Lemma sublist_remove_one {A} (l' l : list A) x :
  l' `sublist_of` l → length l = S (length l') → x ∈ l → x ∉ l' →
  ∃ l1 l2, l = l1 ++ x :: l2 ∧ l' = l1 ++ l2.
Proof.
  induction 1 as [|y l1 l2 Hs IH|y l1 l2 Hs IH]; simpl; intros Hlen Hx Hnx.
  - done.
  - apply not_elem_of_cons in Hnx as [Hne Hnx].
    apply elem_of_cons in Hx as [->|Hx]; [done|].
    destruct IH as (a & b & -> & ->); [lia|done|done|]. by exists (y :: a), b.
  - assert (l1 = l2) as <- by (apply sublist_same_length; [done|lia]).
    apply elem_of_cons in Hx as [->|Hx]; [|done]. by exists [], l1.
Qed.

Section SetUpdate.

Context {V : Type} (comp : V -> V -> bool) (Hswo : StrictWeakOrder comp).
Context {Rng : Type} (draw : Rng -> Z -> Z * Rng).

Abbreviation heap := (gmap positive (@RbstNode V)).

(** [find] on a set, from the element or from its absence. *)
Lemma RbstSet_find_elem (h : heap) (s : @RbstSet Rng) t y v k fuel :
  RbstSet_rep comp h s t → (height t < fuel)%nat →
  y ∈ nodes t → value h y = Some v → equiv_key comp v k →
  RbstSet_find comp fuel h s k = Some (Some y).
Proof.
  intros [Hrep Huniq] Hfuel Hy Hv He. unfold RbstSet_find.
  destruct (RbstTree_find_rep comp Hswo h (m_tree s) t k fuel Hrep Hfuel)
    as (r' & -> & [(z & vz & -> & Hz & Hvz & Hez)|[-> Hn]]).
  - do 2 f_equal. apply (Huniq k z y Hz Hy).
    rewrite (key_of_value _ _ _ _ Hvz), (key_of_value _ _ _ _ Hv).
    eapply equiv_key_trans; [done|exact Hez|by apply equiv_key_sym].
  - by destruct (Hn y v).
Qed.

Lemma RbstSet_find_none (h : heap) (s : @RbstSet Rng) t k fuel :
  RbstSet_rep comp h s t → (height t < fuel)%nat →
  (∀ y v, y ∈ nodes t → value h y = Some v → ¬ equiv_key comp v k) →
  RbstSet_find comp fuel h s k = Some (RbstSet_end s).
Proof.
  intros [Hrep Huniq] Hfuel Hno. unfold RbstSet_find.
  destruct (RbstTree_find_rep comp Hswo h (m_tree s) t k fuel Hrep Hfuel)
    as (r' & -> & [(z & vz & -> & Hz & Hvz & Hez)|[-> Hn]]); [|done].
  by destruct (Hno z vz).
Qed.

(** [insert] of a value that is not in the set. *)
Lemma RbstSet_insert_absent (allocate : heap → ptr) (h : heap)
    (s : @RbstSet Rng) t k fuel :
  RbstSet_rep comp h s t →
  h !! allocate h = None →
  tsize (Node t (m_tree s) Leaf) + 1 < 2 ^ SIZE_BITS →
  (height t < fuel)%nat →
  (∀ y v, y ∈ nodes t → value h y = Some v → ¬ equiv_key comp v k) →
  ∃ h' rng' t' l1 l2,
    RbstSet_insert comp draw allocate fuel h s k
    = Some (h', mkRbstSet (m_tree s) rng', (Some (allocate h), true))
    ∧ RbstSet_rep comp h' (mkRbstSet (m_tree s) rng') t'
    ∧ nodes t = l1 ++ l2 ∧ nodes t' = l1 ++ allocate h :: l2
    ∧ value h' (allocate h) = Some k
    ∧ (∀ y, y ≠ allocate h → value h' y = value h y)
    ∧ (∀ y, y ∉ nodes (Node t (m_tree s) Leaf) → y ≠ allocate h →
            h' !! y = h !! y).
Proof.
  intros [Hrep Huniq] Hfresh Hmax Hfuel Hn.
  pose proof Hrep as ([Hnd Hrep0] & _ & Hval & Hord).
  unfold RbstSet_insert.
  pose proof (RbstSet_find_none h s t k fuel (conj Hrep Huniq) Hfuel Hn)
    as Hfind.
  unfold RbstSet_find, RbstSet_end in Hfind. rewrite Hfind.
  cbn [mbind option_bind].
  rewrite decide_False by (by intros ?).
  unfold construct. cbn [size mbind option_bind].
  set (node := allocate h) in *.
  set (n := mkRbstNode None None None _ (Some k)).
  assert (node ∉ nodes (Node t (m_tree s) Leaf)) as Hnode.
  { intros Hin. destruct (rep_is_Some _ _ _ _ Hrep0 Hin) as [? ?]. congruence. }
  assert (∀ y, y ≠ node → <[node:=n]> h !! y = h !! y) as Hf1
    by (intros y Hy; by rewrite lookup_insert_ne).
  assert (∀ y, y ≠ node → value (<[node:=n]> h) y = value h y) as Hv1.
  { intros y Hy. unfold value. by rewrite Hf1. }
  assert (value (<[node:=n]> h) node = Some k) as Hvn.
  { unfold value. by rewrite lookup_insert_eq. }
  assert (RbstTree_rep comp (<[node:=n]> h) (m_tree s) t) as Hrep1.
  { eapply RbstTree_rep_frame; [|done]. intros y Hy. apply Hf1. by intros ->. }
  destruct (RbstTree_rep_insert comp Hswo draw (<[node:=n]> h) (m_tree s) t
              node k (m_rng s) fuel Hrep1 Hvn Hnode Hmax Hfuel)
    as (h' & t' & rng' & -> & Ht' & Hrep' & Hf' & Hv').
  cbn [mbind option_bind].
  pose proof (insert_tree_elem comp draw (key_of (<[node:=n]> h) k) node t
                (m_rng s)) as Helem.
  destruct (insert_tree_nodes comp draw (key_of (<[node:=n]> h) k) node t
              (m_rng s)) as (l1 & l2 & Hl & Hl').
  rewrite <- Ht' in Helem, Hl'. cbn [fst] in Helem, Hl'.
  exists h', rng', t', l1, l2. split_and!; try done.
  - split; [done|]. intros d a b Ha%Helem Hb%Helem.
    assert (∀ z, z ∈ nodes t →
                 ¬ equiv_key comp (key_of h' d z) (key_of h' d node)) as Hnew.
    { intros z Hz Hez. destruct (Hval z Hz) as [vz Hvz].
      assert (z ≠ node) as Hzn by (intros ->; apply Hnode, elem_Node; tauto).
      apply (Hn z vz Hz Hvz).
      rewrite (key_of_value h' d z vz), (key_of_value h' d node k) in Hez;
        [done|by rewrite Hv'|by rewrite Hv', Hv1]. }
    destruct Ha as [->|Ha], Hb as [->|Hb]; try done.
    + intros He%(equiv_key_sym comp). by destruct (Hnew b).
    + intros He. by destruct (Hnew a).
    + intros He. apply (Huniq d a b Ha Hb).
      assert (a ≠ node ∧ b ≠ node) as [? ?].
      { split; intros ->; apply Hnode, elem_Node; tauto. }
      rewrite (key_of_values h h' d a), (key_of_values h h' d b) in He
        by (rewrite Hv'; by apply Hv1).
      done.
  - by rewrite Hv'.
  - intros y Hy. rewrite Hv'. by apply Hv1.
  - intros y Hy Hyn. rewrite Hf' by done. by apply Hf1.
Qed.

(** [erase(pos)] at an element of the set. *)
Lemma RbstSet_erase_at_rep (h : heap) (s : @RbstSet Rng) t y fuel :
  RbstSet_rep comp h s t → y ∈ nodes t →
  (2 * length (nodes t) < fuel)%nat →
  ∃ h' rng' t' l1 l2,
    RbstSet_erase_at draw fuel h s (Some y)
    = Some (h', mkRbstSet (m_tree s) rng')
    ∧ RbstSet_rep comp h' (mkRbstSet (m_tree s) rng') t'
    ∧ nodes t = l1 ++ y :: l2 ∧ nodes t' = l1 ++ l2
    ∧ h' !! y = None
    ∧ (∀ z, z ≠ y → value h' z = value h z)
    ∧ (∀ z, z ∉ nodes (Node t (m_tree s) Leaf) → h' !! z = h !! z).
Proof.
  intros [Hrep Huniq] Hy Hfuel.
  pose proof Hrep as ([Hnd Hrep0] & _ & Hval & Hord).
  unfold RbstSet_erase_at. cbn [mbind option_bind].
  destruct (RbstTree_rep_erase comp Hswo draw h (m_tree s) t y (m_rng s) fuel
              Hrep Hy ltac:(lia))
    as (h' & t' & rng' & vx & -> & Hrep' & Helem & Hsub & Hlen & Hy' & Hf'
        & Hv').
  cbn [mbind option_bind].
  pose proof Hrep' as ([Hnd' Hrep0'] & Hmax' & Hval' & Hord').
  assert (y ∉ nodes t') as Hyt' by (by intros [_ ?]%Helem).
  assert (y ≠ m_tree s) as Hys.
  { intros ->. apply NoDup_Node in Hnd as (_ & _ & ? & _). done. }
  assert (∀ z, z ≠ y → value (delete y h') z = value h z) as Hvd.
  { intros z Hz. unfold value at 1. rewrite lookup_delete_ne by done.
    apply Hv'. }
  destruct (sublist_remove_one (nodes t') (nodes t) y) as (l1 & l2 & Hl & Hl');
    [done..|].
  exists (delete y h'), rng', t', l1, l2. split_and!; try done.
  - split.
    + eapply RbstTree_rep_frame; [|done]. intros z Hz.
      rewrite lookup_delete_ne; [done|]. intros <-.
      apply elem_Node in Hz as [?|[?|?%elem_of_nil]]; done.
    + intros d a b Ha Hb.
      assert (a ≠ y ∧ b ≠ y) as [? ?] by (split; intros ->; done).
      rewrite (key_of_values h (delete y h') d a),
        (key_of_values h (delete y h') d b) by (by apply Hvd).
      apply Huniq; by apply Helem.
  - by rewrite lookup_delete_eq.
  - intros z Hz. rewrite lookup_delete_ne; [by apply Hf'|].
    intros <-. apply Hz, elem_Node. tauto.
Qed.

(** X12. [insert(value)] of a value that is not in the set puts it in a
    newly allocated node at its place in the order: [find(value)] is that
    node afterwards, [size()] has grown by one, and every element that was
    there keeps its node and its value and is found as before. *)
Theorem insert_then_find (allocate : heap → ptr) (h : heap)
    (s : @RbstSet Rng) (t : tree) (k : V) (fuel : nat) :
  RbstSet_rep comp h s t →
  h !! allocate h = None →
  tsize (Node t (m_tree s) Leaf) + 1 < 2 ^ SIZE_BITS →
  (length (nodes t) + 1 < fuel)%nat →
  (∀ y v, y ∈ nodes t → value h y = Some v → ¬ equiv_key comp v k) →
  ∃ h' s' node t',
    RbstSet_insert comp draw allocate fuel h s k
    = Some (h', s', (Some node, true))
    ∧ h !! node = None
    ∧ RbstSet_rep comp h' s' t'
    ∧ RbstSet_find comp fuel h' s' k = Some (Some node)
    ∧ iterator_deref h' (Some node) = Some k
    ∧ RbstSet_size h' s' = Some (Z.of_nat (length (nodes t)) + 1)
    ∧ (∃ l1 l2, nodes t = l1 ++ l2 ∧ nodes t' = l1 ++ node :: l2)
    ∧ (∀ y v k', y ∈ nodes t → value h y = Some v →
         value h' y = Some v
         ∧ (equiv_key comp v k' →
            RbstSet_find comp fuel h' s' k' = Some (Some y))).
Proof.
  intros Hrep Hfresh Hmax Hfuel Hno.
  pose proof (height_le_length t) as Hh.
  destruct (RbstSet_insert_absent allocate h s t k fuel Hrep Hfresh Hmax
              ltac:(lia) Hno)
    as (h' & rng' & t' & l1 & l2 & Hins & Hrep' & Hl & Hl' & Hvn & Hv' & Hf').
  pose proof (height_le_length t') as Hh'.
  assert (length (nodes t') = S (length (nodes t))) as Hlen.
  { rewrite Hl, Hl', !length_app. simpl. lia. }
  assert (∀ y, y ∈ nodes t → y ≠ allocate h) as Hold.
  { intros y Hy Heq. destruct Hrep as [([_ Hrep0] & _) _].
    destruct (rep_is_Some _ _ _ y Hrep0) as [? ?]; [|congruence].
    apply elem_Node. tauto. }
  exists h', (mkRbstSet (m_tree s) rng'), (allocate h), t'.
  split_and!; try done.
  - apply (RbstSet_find_elem h' _ t' (allocate h) k); [done|lia| |done|].
    + rewrite Hl'. set_solver.
    + split; by apply comp_irrefl.
  - rewrite (RbstSet_size_rep comp h' _ t' Hrep'), Hlen. f_equal. lia.
  - by exists l1, l2.
  - intros y v k' Hy Hv.
    assert (value h' y = Some v) as Hv'y by (rewrite Hv'; [done|by apply Hold]).
    split; [done|]. intros He.
    apply (RbstSet_find_elem h' _ t' y v); [done|lia| |done|done].
    rewrite Hl'. rewrite Hl in Hy. rewrite elem_of_app in Hy.
    rewrite elem_of_app, elem_of_cons. tauto.
Qed.

(** X13. [erase(pos)] at an element of a set takes exactly this element
    out: its node is deallocated, the other elements keep their nodes,
    their values and their order, [size()] goes down by one, and nothing
    outside the set is written. *)
Theorem erase_at_removes_one (h : heap) (s : @RbstSet Rng) (t : tree)
    (y : ptr) (fuel : nat) :
  RbstSet_rep comp h s t → y ∈ nodes t →
  (2 * length (nodes t) < fuel)%nat →
  ∃ h' s' t',
    RbstSet_erase_at draw fuel h s (Some y) = Some (h', s')
    ∧ RbstSet_rep comp h' s' t'
    ∧ h' !! y = None
    ∧ (∃ l1 l2, nodes t = l1 ++ y :: l2 ∧ nodes t' = l1 ++ l2)
    ∧ RbstSet_size h' s' = Some (Z.of_nat (length (nodes t)) - 1)
    ∧ (∀ z, z ≠ y → value h' z = value h z)
    ∧ (∀ z, z ∉ nodes (Node t (m_tree s) Leaf) → h' !! z = h !! z).
Proof.
  intros Hrep Hy Hfuel.
  destruct (RbstSet_erase_at_rep h s t y fuel Hrep Hy Hfuel)
    as (h' & rng' & t' & l1 & l2 & Her & Hrep' & Hl & Hl' & Hy' & Hv' & Hf').
  exists h', (mkRbstSet (m_tree s) rng'), t'. split_and!; try done.
  - by exists l1, l2.
  - rewrite (RbstSet_size_rep comp h' _ t' Hrep'). f_equal.
    rewrite Hl, Hl', !length_app. simpl. lia.
Qed.

(** X14. [erase(key)] of a value that is in the set removes the one element
    equivalent to it and nothing else: every other element keeps its node
    and its value and is found as before, and [size()] goes down by one. *)
Theorem erase_keeps_other_keys (h : heap) (s : @RbstSet Rng) (t : tree)
    (k : V) (y : ptr) (v : V) (fuel : nat) :
  RbstSet_rep comp h s t →
  y ∈ nodes t → value h y = Some v → equiv_key comp v k →
  (2 * length (nodes t) + 1 < fuel)%nat →
  ∃ h' s' t',
    RbstSet_erase comp draw fuel h s k = Some (h', s', 1)
    ∧ RbstSet_rep comp h' s' t'
    ∧ h' !! y = None
    ∧ RbstSet_size h' s' = Some (Z.of_nat (length (nodes t)) - 1)
    ∧ (∀ z vz k', z ∈ nodes t → z ≠ y → value h z = Some vz →
         value h' z = Some vz
         ∧ (equiv_key comp vz k' →
            RbstSet_find comp fuel h' s' k' = Some (Some z))).
Proof.
  intros Hrep Hy Hv He Hfuel.
  pose proof (height_le_length t) as Hh.
  pose proof (RbstSet_rep_wf comp h s t Hrep) as (_ & _ & Hout & _).
  destruct (RbstSet_erase_at_rep h s t y fuel Hrep Hy ltac:(lia))
    as (h' & rng' & t' & l1 & l2 & Her & Hrep' & Hl & Hl' & Hy' & Hv' & Hf').
  pose proof (height_le_length t') as Hh'.
  assert (length (nodes t) = S (length (nodes t'))) as Hlen.
  { rewrite Hl, Hl', !length_app. simpl. lia. }
  exists h', (mkRbstSet (m_tree s) rng'), t'. split_and!; try done.
  - unfold RbstSet_erase.
    rewrite (RbstSet_find_elem h s t y v k fuel) by (done || lia).
    cbn [mbind option_bind]. unfold RbstSet_end.
    rewrite decide_False by (intros [= ->]; done).
    by rewrite Her.
  - rewrite (RbstSet_size_rep comp h' _ t' Hrep'). f_equal. lia.
  - intros z vz k' Hz Hzy Hvz.
    assert (value h' z = Some vz) as Hvz' by (by rewrite Hv').
    split; [done|]. intros Hez.
    apply (RbstSet_find_elem h' _ t' z vz); [done|lia| |done|done].
    rewrite Hl'. rewrite Hl in Hz. rewrite elem_of_app, elem_of_cons in Hz.
    rewrite elem_of_app. tauto.
Qed.

End SetUpdate.

(** ** The storage of a set *)

Lemma NoDup_split_unique {A} (a b a' b' : list A) y :
  NoDup (a ++ y :: b) → a ++ y :: b = a' ++ y :: b' → a = a' ∧ b = b'.
Proof.
  revert a'. induction a as [|z a IH]; intros [|z' a'] Hnd Heq; simpl in *.
  - by injection Heq as ->.
  - injection Heq as <- ->. apply NoDup_cons in Hnd as [Hy _].
    destruct Hy. rewrite elem_of_app, elem_of_cons. tauto.
  - injection Heq as -> <-. apply NoDup_cons in Hnd as [Hy _].
    destruct Hy. rewrite elem_of_app, elem_of_cons. tauto.
  - injection Heq as -> Heq. apply NoDup_cons in Hnd as [_ Hnd].
    destruct (IH a' Hnd Heq) as [-> ->]. done.
Qed.

Section Storage.

Context {V : Type} (comp : V -> V -> bool) (Hswo : StrictWeakOrder comp).
Context {Rng : Type} (draw : Rng -> Z -> Z * Rng).

Abbreviation heap := (gmap positive (@RbstNode V)).

(** [free] deallocates the nodes of a subtree and nothing else. *)
Lemma free_rep t : ∀ fuel (h : heap) parent,
  rep h t parent → NoDup (nodes t) → (height t < fuel)%nat →
  ∃ h', RbstSet_free fuel h (root t) = Some h'
    ∧ ∀ y, h' !! y = if decide (y ∈ nodes t) then None else h !! y.
Proof.
  induction t as [|l IHl x r IHr]; intros fuel h parent Hrep Hnd Hfuel;
    (destruct fuel as [|fuel]; [simpl in Hfuel; lia|]).
  { exists h. split; [done|]. intros y. rewrite decide_False; [done|].
    by intros ?%elem_of_nil. }
  destruct Hrep as ([v Hx] & Hl & Hr).
  apply NoDup_Node in Hnd as (Hndl & Hndr & Hxl & Hxr & Hlr).
  cbn [height] in Hfuel. cbn [RbstSet_free root]. rewrite Hx.
  cbn [mbind option_bind m_left].
  destruct (IHl fuel h (Some x) Hl Hndl ltac:(lia)) as (h1 & -> & Hh1).
  cbn [mbind option_bind].
  assert (h1 !! x = h !! x) as Hx1 by (by rewrite Hh1, decide_False).
  rewrite Hx1, Hx. cbn [mbind option_bind m_right].
  assert (rep h1 r (Some x)) as Hr1.
  { eapply rep_frame; [|exact Hr]. intros y Hy. rewrite Hh1, decide_False; [done|].
    intros Hyl. by apply (Hlr y). }
  destruct (IHr fuel h1 (Some x) Hr1 Hndr ltac:(lia)) as (h2 & -> & Hh2).
  cbn [mbind option_bind].
  assert (h2 !! x = h !! x) as Hx2 by (by rewrite Hh2, decide_False, Hx1).
  rewrite Hx2, Hx. cbn [mbind option_bind].
  eexists. split; [done|]. intros y.
  destruct (decide (y = x)) as [->|Hne].
  - rewrite lookup_delete_eq, decide_True; [done|]. apply elem_Node. tauto.
  - rewrite lookup_delete_ne by done. rewrite Hh2, Hh1.
    repeat case_decide; try done; exfalso;
      match goal with H : _ ∈ nodes (Node _ _ _) |- _ => apply elem_Node in H
                | H : _ ∉ nodes (Node _ _ _) |- _ => apply H, elem_Node end;
      tauto.
Qed.

(** The set without elements. *)
Lemma RbstSet_rep_Leaf (h : heap) (s : @RbstSet Rng) v :
  h !! m_tree s = Some (mkRbstNode None None None 1 v) →
  RbstSet_rep comp h s Leaf.
Proof.
  intros Hthis. split.
  - split_and!.
    + split; [apply NoDup_singleton|].
      by apply (rep_Node_intro _ Leaf _ Leaf None v).
    + done.
    + by intros y ?%elem_of_nil.
    + done.
  - by intros d a b ?%elem_of_nil.
Qed.

(** X15. A newly constructed set has no element: [size()] is 0, [empty()]
    holds, [begin()] is [end()], the lookups return [end()] for every key,
    and [erase(key)] returns 0 and changes nothing. *)
Theorem new_set_is_empty (h : heap) (this : ptr) (rng : Rng) (k : V)
    (fuel : nat) :
  (0 < fuel)%nat →
  ∃ h' s, RbstSet_new h this rng = Some (h', s)
    ∧ RbstSet_rep comp h' s Leaf
    ∧ RbstSet_size h' s = Some 0
    ∧ RbstSet_empty h' s = Some true
    ∧ RbstSet_begin fuel h' s = Some (RbstSet_end s)
    ∧ RbstSet_find comp fuel h' s k = Some (RbstSet_end s)
    ∧ RbstSet_lower_bound comp fuel h' s k = Some (RbstSet_end s)
    ∧ RbstSet_upper_bound comp fuel h' s k = Some (RbstSet_end s)
    ∧ RbstSet_erase comp draw fuel h' s k = Some (h', s, 0).
Proof.
  intros Hfuel. destruct fuel as [|fuel]; [lia|].
  eexists _, _. split; [done|].
  set (h' := <[this:=_]> h). set (s := mkRbstSet this rng).
  assert (h' !! this = Some (mkRbstNode None None None 1 None)) as Hthis
    by apply lookup_insert_eq.
  split; [by eapply RbstSet_rep_Leaf|].
  unfold RbstSet_size, RbstSet_empty, RbstSet_begin, RbstSet_find,
    RbstSet_lower_bound, RbstSet_upper_bound, RbstSet_erase, RbstSet_find,
    RbstTree_find, RbstTree_lower_bound, RbstTree_upper_bound, RbstTree_root,
    RbstSet_end, size.
  cbn [m_tree s first find lower_bound upper_bound].
  rewrite !Hthis. cbn [mbind option_bind m_left m_size].
  rewrite decide_True by done. done.
Qed.

(** [clear] on a set. *)
Lemma RbstSet_clear_rep (h : heap) (s : @RbstSet Rng) (t : tree)
    (fuel : nat) :
  RbstSet_rep comp h s t → (height t < fuel)%nat →
  ∃ h' v, RbstSet_clear fuel h s = Some h'
    ∧ h' !! m_tree s = Some (mkRbstNode None None None 1 v)
    ∧ (∀ y, y ∈ nodes t → h' !! y = None)
    ∧ (∀ y, y ∉ nodes (Node t (m_tree s) Leaf) → h' !! y = h !! y).
Proof.
  intros Hrep Hfuel.
  pose proof (RbstSet_rep_wf comp h s t Hrep) as ([_ Hw] & _ & Hout & Hnd & _).
  destruct Hw as ([v Hthis] & Ht & _).
  destruct (free_rep t fuel h (Some (m_tree s)) Ht Hnd Hfuel) as (h1 & Hfree & Hh1).
  assert (h1 !! m_tree s = h !! m_tree s) as Hthis1
    by (by rewrite Hh1, decide_False).
  unfold RbstSet_clear, RbstTree_root, RbstTree_set_root.
  rewrite Hthis. cbn [mbind option_bind m_left]. rewrite Hfree.
  cbn [mbind option_bind size].
  rewrite store_left_alter by (rewrite Hthis1, Hthis; by eexists).
  cbn [mbind option_bind].
  rewrite store_size_alter by (heap_alloc; rewrite Hthis1, Hthis; by eexists).
  set (h' := alter _ _ (alter _ _ h1)).
  assert (∀ y, y ≠ m_tree s → h' !! y = h1 !! y) as Hother.
  { intros y Hy. unfold h'. by rewrite !lookup_alter_ne. }
  exists h', v. split_and!.
  - done.
  - unfold h'. rewrite !lookup_alter_eq, Hthis1, Hthis. done.
  - intros y Hy. rewrite Hother by (by intros ->). by rewrite Hh1, decide_True.
  - intros y Hy. apply not_elem_Node in Hy as (Hyt & Hys & _).
    rewrite Hother by done. by rewrite Hh1, decide_False.
Qed.

(** X16. [clear()] deallocates every node of the set and leaves the set
    without elements: [size()] is 0 and [begin()] is [end()]; nothing
    outside the set is written. *)
Theorem clear_frees_all (h : heap) (s : @RbstSet Rng) (t : tree)
    (fuel : nat) :
  RbstSet_rep comp h s t → (height t < fuel)%nat →
  ∃ h', RbstSet_clear fuel h s = Some h'
    ∧ RbstSet_rep comp h' s Leaf
    ∧ RbstSet_size h' s = Some 0
    ∧ RbstSet_begin fuel h' s = Some (RbstSet_end s)
    ∧ (∀ y, y ∈ nodes t → h' !! y = None)
    ∧ (∀ y, y ∉ nodes (Node t (m_tree s) Leaf) → h' !! y = h !! y).
Proof.
  intros Hrep Hfuel.
  destruct (RbstSet_clear_rep h s t fuel Hrep Hfuel)
    as (h' & v & Hclear & Hthis' & Hfreed & Hf).
  exists h'. split_and!; try done.
  - by eapply RbstSet_rep_Leaf.
  - unfold RbstSet_size, size. by rewrite Hthis'.
  - destruct fuel as [|fuel]; [lia|].
    unfold RbstSet_begin, RbstSet_end. cbn [first]. by rewrite Hthis'.
Qed.

(** ** Ranges *)

(** One [insert], whether the value is there or not. *)
Lemma RbstSet_insert_step (allocate : heap → ptr) (h : heap)
    (s : @RbstSet Rng) t k fuel :
  RbstSet_rep comp h s t →
  h !! allocate h = None →
  tsize (Node t (m_tree s) Leaf) + 1 < 2 ^ SIZE_BITS →
  (height t < fuel)%nat →
  ∃ h' s' pos inserted t',
    RbstSet_insert comp draw allocate fuel h s k
    = Some (h', s', (pos, inserted))
    ∧ RbstSet_rep comp h' s' t' ∧ m_tree s' = m_tree s
    ∧ (length (nodes t) <= length (nodes t') <= S (length (nodes t)))%nat
    ∧ (∀ y, y ∈ nodes t → y ∈ nodes t' ∧ value h' y = value h y)
    ∧ (∀ y, y ∈ nodes t' → y ∈ nodes t ∨ value h' y = Some k)
    ∧ (∃ y v, y ∈ nodes t' ∧ value h' y = Some v ∧ equiv_key comp v k).
Proof.
  intros Hrep Hfresh Hmax Hfuel.
  pose proof (RbstSet_rep_wf comp h s t Hrep) as (_ & _ & Hout & _).
  pose proof Hrep as [Htree _].
  destruct (RbstTree_find_rep comp Hswo h (m_tree s) t k fuel Htree Hfuel)
    as (r' & Hfind & [(y & v & -> & Hy & Hv & He)|[-> Hn]]).
  - exists h, s, (Some y), false, t. unfold RbstSet_insert. rewrite Hfind.
    cbn [mbind option_bind]. rewrite decide_True by (intros [= ->]; done).
    split_and!; try done; [lia|tauto|by exists y, v].
  - destruct (RbstSet_insert_absent comp Hswo draw allocate h s t k fuel Hrep
                Hfresh Hmax Hfuel Hn)
      as (h' & rng' & t' & l1 & l2 & Hins & Hrep' & Hl & Hl' & Hvn & Hv' & Hf').
    assert (∀ y, y ∈ nodes t → y ≠ allocate h) as Hold.
    { intros y Hy Heq. destruct Htree as ([_ Hrep0] & _).
      destruct (rep_is_Some _ _ _ y Hrep0) as [? ?]; [|congruence].
      apply elem_Node. tauto. }
    exists h', (mkRbstSet (m_tree s) rng'), (Some (allocate h)), true, t'.
    split_and!; try done.
    + rewrite Hl, Hl', !length_app. simpl. lia.
    + rewrite Hl, Hl', !length_app. simpl. lia.
    + intros y Hy. split; [|by apply Hv', Hold].
      rewrite Hl'. rewrite Hl in Hy. rewrite elem_of_app in Hy.
      rewrite elem_of_app, elem_of_cons. tauto.
    + intros y. rewrite Hl, Hl'. rewrite !elem_of_app, elem_of_cons.
      intros [?|[->|?]]; [tauto|by right|tauto].
    + exists (allocate h), k. split_and!; [rewrite Hl'; set_solver|done|].
      split; by apply comp_irrefl.
Qed.

Lemma RbstSet_insert_range_rep (allocate : heap → ptr) values :
  ∀ (h : heap) (s : @RbstSet Rng) t fuel,
  RbstSet_rep comp h s t →
  (∀ h, h !! allocate h = None) →
  tsize (Node t (m_tree s) Leaf) + Z.of_nat (length values) < 2 ^ SIZE_BITS →
  (length (nodes t) + length values < fuel)%nat →
  ∃ h' s' t',
    RbstSet_insert_range comp draw allocate fuel h s values = Some (h', s')
    ∧ RbstSet_rep comp h' s' t' ∧ m_tree s' = m_tree s
    ∧ (length (nodes t) <= length (nodes t')
       <= length (nodes t) + length values)%nat
    ∧ (∀ y, y ∈ nodes t → y ∈ nodes t' ∧ value h' y = value h y)
    ∧ (∀ k, (∃ y v, y ∈ nodes t' ∧ value h' y = Some v ∧ equiv_key comp v k)
            ↔ (∃ y v, y ∈ nodes t ∧ value h y = Some v ∧ equiv_key comp v k)
              ∨ (∃ v, v ∈ values ∧ equiv_key comp v k)).
Proof.
  induction values as [|k0 values IH]; intros h s t fuel Hrep Hfresh Hmax Hfuel.
  { exists h, s, t. split_and!; try done; [lia|].
    intros k. split; [by left|]. intros [?|(v & ?%elem_of_nil & _)]; done. }
  pose proof (height_le_length t) as Hh. cbn [length] in Hmax, Hfuel.
  destruct (RbstSet_insert_step allocate h s t k0 fuel Hrep (Hfresh h))
    as (h1 & s1 & pos & ins & t1 & Hins & Hrep1 & Hs1 & Hlen1 & Hold1 & Hnew1
        & Hk0); [lia|lia|].
  cbn [RbstSet_insert_range]. rewrite Hins. cbn [mbind option_bind].
  destruct (IH h1 s1 t1 fuel Hrep1 Hfresh)
    as (h' & s' & t' & -> & Hrep' & Hs' & Hlen' & Hold' & Hkeys').
  { rewrite Hs1. cbn [tsize] in *. rewrite (tsize_nodes t1).
    rewrite (tsize_nodes t) in Hmax. lia. }
  { lia. }
  exists h', s', t'. split_and!; try done.
  - congruence.
  - lia.
  - simpl. lia.
  - intros y Hy. destruct (Hold1 y Hy) as [Hy1 Hv1].
    destruct (Hold' y Hy1) as [Hy' Hv']. split; [done|congruence].
  - intros k. rewrite Hkeys'. split.
    + intros [(y & v & Hy & Hv & He)|(v & Hv & He)].
      * destruct (Hnew1 y Hy) as [Hyt|Hvk0].
        -- left. exists y, v. split_and!; [done| |done].
           by rewrite <- (proj2 (Hold1 y Hyt)).
        -- right. exists k0. split; [by left|]. congruence.
      * right. exists v. split; [by right|done].
    + intros [(y & v & Hy & Hv & He)|(v & [->|Hv]%elem_of_cons & He)].
      * left. exists y, v. destruct (Hold1 y Hy) as [Hy1 Hv1].
        split_and!; [done|congruence|done].
      * left. destruct Hk0 as (y & v' & Hy & Hv' & He').
        exists y, v'. split_and!; [done|done|].
        by eapply equiv_key_trans.
      * right. by exists v.
Qed.

(** X17. [insert(first, last)] inserts the values of a range one after the
    other: afterwards the set holds, up to equivalence, the values it held
    and the values of the range, and the elements it held keep their nodes
    and values. *)
Theorem insert_range_adds_values (allocate : heap → ptr) (values : list V)
    (h : heap) (s : @RbstSet Rng) (t : tree) (fuel : nat) :
  RbstSet_rep comp h s t →
  (∀ h, h !! allocate h = None) →
  tsize (Node t (m_tree s) Leaf) + Z.of_nat (length values) < 2 ^ SIZE_BITS →
  (length (nodes t) + length values < fuel)%nat →
  ∃ h' s' t',
    RbstSet_insert_range comp draw allocate fuel h s values = Some (h', s')
    ∧ RbstSet_rep comp h' s' t'
    ∧ (∀ n n', RbstSet_size h s = Some n → RbstSet_size h' s' = Some n' →
               n <= n' <= n + Z.of_nat (length values))
    ∧ (∀ y, y ∈ nodes t → y ∈ nodes t' ∧ value h' y = value h y)
    ∧ (∀ k, RbstSet_find comp fuel h' s' k ≠ Some (RbstSet_end s')
            ↔ RbstSet_find comp fuel h s k ≠ Some (RbstSet_end s)
              ∨ (∃ v, v ∈ values ∧ equiv_key comp v k)).
Proof.
  intros Hrep Hfresh Hmax Hfuel.
  destruct (RbstSet_insert_range_rep allocate values h s t fuel Hrep Hfresh
              Hmax Hfuel)
    as (h' & s' & t' & Hins & Hrep' & Hs' & Hlen & Hold & Hkeys).
  pose proof (height_le_length t) as Hh.
  pose proof (height_le_length t') as Hh'.
  assert (∀ (h0 : heap) (s0 : @RbstSet Rng) t0 k,
            RbstSet_rep comp h0 s0 t0 → (height t0 < fuel)%nat →
            RbstSet_find comp fuel h0 s0 k ≠ Some (RbstSet_end s0)
            ↔ ∃ y v, y ∈ nodes t0 ∧ value h0 y = Some v ∧ equiv_key comp v k)
    as Hfound.
  { intros h0 s0 t0 k Hrep0 Hfuel0.
    pose proof (RbstSet_rep_wf comp h0 s0 t0 Hrep0) as (_ & _ & Hout & _).
    pose proof Hrep0 as [Htree _]. unfold RbstSet_find, RbstSet_end.
    destruct (RbstTree_find_rep comp Hswo h0 (m_tree s0) t0 k fuel Htree Hfuel0)
      as (r' & -> & [(y & v & -> & Hy & Hv & He)|[-> Hn]]).
    - split; [by exists y, v|]. intros _ [= ->]. done.
    - split; [done|]. intros (y & v & Hy & Hv & He). by destruct (Hn y v). }
  exists h', s', t'. split_and!; try done.
  - intros n n'. rewrite (RbstSet_size_rep comp h s t Hrep),
      (RbstSet_size_rep comp h' s' t' Hrep').
    intros [= <-] [= <-].
    lia.
  - intros k. rewrite (Hfound h' s' t' k Hrep') by lia.
    rewrite (Hfound h s t k Hrep) by lia. apply Hkeys.
Qed.

(** X18. The constructor from a range gives the set of the values of the
    range: a key is found exactly when it is equivalent to a value of the
    range, and equivalent values are kept once. *)
Theorem new_range_holds_values (allocate : heap → ptr) (values : list V)
    (h : heap) (this : ptr) (rng : Rng) (fuel : nat) :
  (∀ h, h !! allocate h = None) →
  Z.of_nat (length values) + 1 < 2 ^ SIZE_BITS →
  (length values < fuel)%nat →
  ∃ h' s' t',
    RbstSet_new_range comp draw allocate fuel h this rng values = Some (h', s')
    ∧ RbstSet_rep comp h' s' t'
    ∧ (length (nodes t') <= length values)%nat
    ∧ (∀ k, (∃ y v, y ∈ nodes t' ∧ value h' y = Some v ∧ equiv_key comp v k)
            ↔ ∃ v, v ∈ values ∧ equiv_key comp v k)
    ∧ (∀ k, RbstSet_find comp fuel h' s' k = Some (RbstSet_end s')
            ↔ ¬ ∃ v, v ∈ values ∧ equiv_key comp v k).
Proof.
  intros Hfresh Hmax Hfuel.
  unfold RbstSet_new_range, RbstSet_new, RbstTree_new, construct.
  cbn [size mbind option_bind].
  set (h0 := <[this:=_]> h). set (s0 := mkRbstSet this rng).
  assert (RbstSet_rep comp h0 s0 Leaf) as Hrep0.
  { apply (RbstSet_rep_Leaf h0 s0 None). apply lookup_insert_eq. }
  destruct (RbstSet_insert_range_rep allocate values h0 s0 Leaf fuel Hrep0 Hfresh)
    as (h' & s' & t' & Hins & Hrep' & Hs' & Hlen & Hold & Hkeys).
  { cbn [tsize]. lia. }
  { simpl. lia. }
  pose proof (height_le_length t') as Hh'. simpl in Hlen.
  assert (∀ k, (∃ y v, y ∈ nodes t' ∧ value h' y = Some v ∧ equiv_key comp v k)
            ↔ ∃ v, v ∈ values ∧ equiv_key comp v k) as Hkeys'.
  { intros k. rewrite Hkeys. split; [|by right].
    intros [(y & _ & ?%elem_of_nil & _)|?]; done. }
  exists h', s', t'. split_and!; [done|done|lia|done|].
  intros k. rewrite <- Hkeys'.
  pose proof (RbstSet_rep_wf comp h' s' t' Hrep') as (_ & _ & Hout & _).
  pose proof Hrep' as [Htree _]. unfold RbstSet_find, RbstSet_end.
  destruct (RbstTree_find_rep comp Hswo h' (m_tree s') t' k fuel Htree ltac:(lia))
    as (r' & -> & [(y & v & -> & Hy & Hv & He)|[-> Hn]]).
  - split; [intros [= ->]; done|]. intros Hno. destruct Hno. by exists y, v.
  - split; [|done]. intros _ (y & v & Hy & Hv & He). by destruct (Hn y v).
Qed.

(** The loop of [erase(first, last)]. *)
Lemma RbstSet_erase_range_rep mid : ∀ l1 l2 (h : heap) (s : @RbstSet Rng) t
    steps fuel,
  RbstSet_rep comp h s t → nodes t = l1 ++ mid ++ l2 →
  (length mid < steps)%nat → (2 * length (nodes t) + 1 < fuel)%nat →
  ∃ h' s' t',
    RbstSet_erase_range draw steps fuel h s
      (head (mid ++ l2 ++ [m_tree s])) (head (l2 ++ [m_tree s]))
    = Some (h', s')
    ∧ m_tree s' = m_tree s
    ∧ RbstSet_rep comp h' s' t' ∧ nodes t' = l1 ++ l2
    ∧ (∀ y, y ∈ mid → h' !! y = None)
    ∧ (∀ z, z ∉ mid → value h' z = value h z)
    ∧ (∀ z, z ∉ nodes (Node t (m_tree s) Leaf) → h' !! z = h !! z).
Proof.
  induction mid as [|y mid IH]; intros l1 l2 h s t steps fuel Hrep Hl Hsteps
    Hfuel; (destruct steps as [|steps]; [simpl in Hsteps; lia|]).
  { exists h, s, t. cbn [RbstSet_erase_range app].
    rewrite decide_False by (intros Hne; by apply Hne).
    split_and!; try done. by intros y ?%elem_of_nil. }
  pose proof (RbstSet_rep_wf comp h s t Hrep) as (Hwf & Hn & Hout & Hnd & _).
  pose proof (height_le_length t) as Hh.
  assert (NoDup (nodes t ++ [m_tree s])) as Hndw.
  { rewrite <- Hn. apply Hwf. }
  assert (nodes (Node t (m_tree s) Leaf)
          = l1 ++ y :: (mid ++ l2 ++ [m_tree s])) as Hw.
  { rewrite Hn, Hl. by rewrite <- !app_assoc. }
  assert (y ∈ nodes t) as Hy by (rewrite Hl; set_solver).
  cbn [RbstSet_erase_range app head].
  rewrite decide_True.
  2:{ intros Heq. symmetry in Heq. apply head_Some in Heq as [l' Hl'].
      rewrite Hl, <- !app_assoc in Hndw. cbn [app] in Hndw.
      apply NoDup_app in Hndw as (_ & _ & Hndw).
      apply NoDup_cons in Hndw as [Hy' _]. apply Hy'.
      rewrite Hl'. set_solver. }
  unfold iterator_next. cbn [mbind option_bind].
  rewrite (next_by_rank h (Node t (m_tree s) Leaf) y (length l1) fuel);
    [|done|rewrite Hw; by apply list_lookup_middle|cbn [height]; lia].
  cbn [mbind option_bind].
  destruct (RbstSet_erase_at_rep comp Hswo draw h s t y fuel Hrep Hy ltac:(lia))
    as (h1 & rng1 & t1 & a & b & -> & Hrep1 & Ha & Ha' & Hy1 & Hv1 & Hf1).
  cbn [mbind option_bind].
  destruct (NoDup_split_unique a b l1 (mid ++ l2) y) as [-> ->].
  { by rewrite <- Ha. }
  { by rewrite <- Ha, Hl. }
  assert (length (nodes t) = S (length (nodes t1))) as Hlen.
  { rewrite Ha, Ha', !length_app. simpl. rewrite !length_app. lia. }
  destruct (IH l1 l2 h1 (mkRbstSet (m_tree s) rng1) t1 steps fuel Hrep1 Ha')
    as (h' & s' & t' & Her & Hs' & Hrep' & Hl' & Hmid & Hv' & Hf');
    [simpl in Hsteps; lia|lia|].
  assert (nodes (Node t (m_tree s) Leaf) !! S (length l1)
          = head (mid ++ l2 ++ [m_tree s])) as Hnext.
  { rewrite Hw. rewrite lookup_app_r by lia.
    replace (S (length l1) - length l1)%nat with 1%nat by lia.
    cbn [lookup list_lookup]. by rewrite head_lookup. }
  rewrite Hnext. cbn [m_tree] in Her. rewrite Her.
  assert (y ∉ mid) as Hymid.
  { rewrite Hl in Hnd. apply NoDup_app in Hnd as (_ & _ & Hnd).
    apply NoDup_app in Hnd as (Hnd & _). by apply NoDup_cons in Hnd as [? _]. }
  exists h', s', t'. split_and!; try done.
  - intros z [->|Hz]%elem_of_cons; [|by apply Hmid].
    rewrite Hf'; [done|]. cbn [m_tree]. rewrite not_elem_Node.
    split_and!; [|by intros ->|by intros ?%elem_of_nil].
    rewrite Ha'. rewrite Ha in Hnd. apply NoDup_app in Hnd as (_ & Hd1 & Hnd).
    apply NoDup_cons in Hnd as [Hd2 _]. rewrite elem_of_app.
    intros [Hz|Hz]; [by apply (Hd1 y Hz); left|done].
  - intros z Hz. apply not_elem_of_cons in Hz as [Hzy Hz].
    rewrite Hv' by done. by apply Hv1.
  - intros z Hz. rewrite Hf'.
    + by apply Hf1.
    + cbn [m_tree]. rewrite not_elem_Node in Hz |- *.
      destruct Hz as (Hz & ? & ?). split_and!; try done.
      rewrite Ha'. rewrite Ha in Hz.
      rewrite elem_of_app, elem_of_cons, elem_of_app in Hz.
      rewrite !elem_of_app. tauto.
Qed.

(** X19. [erase(first, last)] on a set removes exactly the elements from
    [first] up to [last], the latter not included: their nodes are
    deallocated, the elements before and after keep their nodes, values and
    order, and [erase(begin(), end())] leaves the set without elements. *)
Theorem erase_range_removes_range (l1 mid l2 : list ptr) (h : heap)
    (s : @RbstSet Rng) (t : tree) (steps fuel : nat) :
  RbstSet_rep comp h s t → nodes t = l1 ++ mid ++ l2 →
  (length mid < steps)%nat → (2 * length (nodes t) + 1 < fuel)%nat →
  ∃ h' s' t',
    RbstSet_erase_range draw steps fuel h s
      (head (mid ++ l2 ++ [m_tree s])) (head (l2 ++ [m_tree s]))
    = Some (h', s')
    ∧ RbstSet_rep comp h' s' t' ∧ nodes t' = l1 ++ l2
    ∧ (∀ y, y ∈ mid → h' !! y = None)
    ∧ (∀ z, z ∉ mid → value h' z = value h z)
    ∧ (∀ z, z ∉ nodes (Node t (m_tree s) Leaf) → h' !! z = h !! z)
    ∧ (l1 = [] → l2 = [] →
       RbstSet_begin fuel h s = Some (head (mid ++ l2 ++ [m_tree s]))
       ∧ RbstSet_size h' s' = Some 0).
Proof.
  intros Hrep Hl Hsteps Hfuel.
  destruct (RbstSet_erase_range_rep mid l1 l2 h s t steps fuel Hrep Hl Hsteps
              Hfuel)
    as (h' & s' & t' & Her & Hs' & Hrep' & Hl' & Hmid & Hv' & Hf').
  exists h', s', t'. split_and!; try done.
  intros -> ->. split.
  - pose proof (RbstSet_rep_wf comp h s t Hrep) as ([_ Hw] & Hn & _).
    pose proof (height_le_length t) as Hh.
    unfold RbstSet_begin.
    rewrite (first_rep h (Node t (m_tree s) Leaf) fuel None (m_tree s));
      [|done|done|cbn [height]; lia].
    rewrite Hn, Hl. cbn [app]. rewrite app_nil_r.
    by destruct (mid ++ [m_tree s]) eqn:E; [destruct mid|].
  - rewrite (RbstSet_size_rep comp h' s' t' Hrep'), Hl'. done.
Qed.

End Storage.

(** ** The checks *)

Section Checks.

Context {V : Type} (comp : V -> V -> bool).

Abbreviation heap := (gmap positive (@RbstNode V)).

Lemma check_structure_complete t : ∀ fuel (h : heap) parent index,
  rep h t parent → tsize t < 2 ^ SIZE_BITS → (height t < fuel)%nat →
  rbst_check_structure fuel h (root t) parent index = Some true.
Proof.
  induction t as [|l IHl x r IHr]; intros fuel h parent index Hrep Hmax Hfuel;
    (destruct fuel as [|fuel]; [simpl in Hfuel; lia|]); [done|].
  destruct Hrep as ([v Hx] & Hl & Hr).
  pose proof (tsize_nonneg l). pose proof (tsize_nonneg r).
  cbn [tsize height] in *.
  cbn [rbst_check_structure root]. rewrite Hx.
  cbn [mbind option_bind m_left m_right m_parent m_size].
  assert (match root l with
          | Some _ => rbst_check_structure fuel h (root l) (Some x) index
          | None => Some true
          end = Some true) as ->.
  { destruct l as [|ll y lr]; [done|]. apply IHl; [done|lia|lia]. }
  cbn [mbind option_bind negb].
  rewrite (rep_size _ _ _ Hl), (rep_size _ _ _ Hr). cbn [mbind option_bind].
  rewrite decide_False by (by intros ?).
  rewrite (to_size_t_small (1 + tsize l)), to_size_t_small by lia.
  rewrite decide_False by (intros ?; lia).
  destruct r as [|rl y rr]; [done|]. cbn [root].
  rewrite (IHr fuel h (Some x)); [done|done|lia|lia].
Qed.

(** In [size_t] arithmetic the size computed by the check is the size of
    the shape. *)
Lemma to_size_t_node_size a b :
  to_size_t (to_size_t (1 + to_size_t a) + to_size_t b) = to_size_t (1 + a + b).
Proof.
  unfold to_size_t.
  rewrite Z.add_mod_idemp_l, Z.add_mod_idemp_r by done.
  replace (1 + a mod 2 ^ SIZE_BITS + b) with (a mod 2 ^ SIZE_BITS + (1 + b))
    by lia.
  rewrite Z.add_mod_idemp_l by done. f_equal. lia.
Qed.

Lemma rep_size_t_size (h : heap) t parent :
  rep_size_t h t parent → size h (root t) = Some (to_size_t (tsize t)).
Proof.
  destruct t as [|l x r]; [done|]. intros ([v Hx] & _).
  cbn [root]. unfold size. by rewrite Hx.
Qed.

Lemma rep_size_t_rep t : ∀ (h : heap) parent,
  tsize t < 2 ^ SIZE_BITS → rep_size_t h t parent ↔ rep h t parent.
Proof.
  induction t as [|l IHl x r IHr]; intros h parent Hmax; [done|].
  pose proof (tsize_nonneg l). pose proof (tsize_nonneg r).
  cbn [tsize] in Hmax. cbn [rep rep_size_t].
  rewrite (IHl h (Some x)), (IHr h (Some x)) by lia.
  rewrite (to_size_t_small (tsize (Node l x r))) by (cbn [tsize]; lia).
  done.
Qed.

Lemma check_structure_wrapped_complete t : ∀ fuel (h : heap) parent index,
  rep_size_t h t parent → (height t <= fuel)%nat → (0 < fuel)%nat →
  rbst_check_structure fuel h (root t) parent index = Some true.
Proof.
  induction t as [|l IHl x r IHr]; intros fuel h parent index Hrep Hfuel Hpos;
    (destruct fuel as [|fuel]; [lia|]); [done|].
  destruct Hrep as ([v Hx] & Hl & Hr). cbn [height] in Hfuel.
  cbn [rbst_check_structure root]. rewrite Hx.
  cbn [mbind option_bind m_left m_right m_parent m_size].
  assert (match root l with
          | Some _ => rbst_check_structure fuel h (root l) (Some x) index
          | None => Some true
          end = Some true) as ->.
  { destruct l as [|ll y lr]; [done|].
    apply IHl; [done|lia|cbn [height] in Hfuel; lia]. }
  cbn [mbind option_bind negb].
  rewrite (rep_size_t_size _ _ _ Hl), (rep_size_t_size _ _ _ Hr).
  cbn [mbind option_bind].
  rewrite decide_False by (by intros ?).
  rewrite to_size_t_node_size. cbn [tsize].
  rewrite decide_False by (by intros ?).
  destruct r as [|rl y rr]; [done|]. cbn [root].
  rewrite (IHr fuel h (Some x)); [done|done|lia|cbn [height] in Hfuel; lia].
Qed.

Lemma check_structure_wrapped_sound fuel : ∀ (h : heap) node parent index,
  rbst_check_structure fuel h node parent index = Some true →
  ∃ t, root t = node ∧ (height t <= fuel)%nat ∧ rep_size_t h t parent.
Proof.
  induction fuel as [|fuel IH]; intros h node parent index Hc; [done|].
  destruct node as [x|]; [|exists Leaf; split_and!; [done|simpl; lia|done]].
  cbn [rbst_check_structure] in Hc.
  destruct (h !! x) as [n|] eqn:Hx; [|done].
  cbn [mbind option_bind] in Hc.
  assert (∃ l, root l = m_left n ∧ (height l <= fuel)%nat
               ∧ rep_size_t h l (Some x)
               ∧ match m_left n with
                 | Some _ => rbst_check_structure fuel h (m_left n) (Some x) index
                 | None => Some true
                 end = Some true) as (l & Hl & Hhl & Hrl & Hcl).
  { destruct (m_left n) as [y|] eqn:Hml.
    - destruct (rbst_check_structure fuel h (Some y) (Some x) index)
        as [[|]|] eqn:Hcl; [|done..].
      destruct (IH _ _ _ _ Hcl) as (l & ? & ? & ?). exists l.
      split_and!; [done|lia|done|done].
    - exists Leaf. split_and!; [done|simpl; lia|done|done]. }
  rewrite Hcl in Hc. cbn [mbind option_bind negb] in Hc.
  destruct (size h (m_left n)) as [sl|] eqn:Hsl; [|done].
  destruct (size h (m_right n)) as [sr|] eqn:Hsr; [|done].
  cbn [mbind option_bind] in Hc.
  case_decide as Hp; [done|]. case_decide as Hs; [done|].
  assert (∃ r, root r = m_right n ∧ (height r <= fuel)%nat
               ∧ rep_size_t h r (Some x)) as (r & Hr & Hhr & Hrr).
  { destruct (m_right n) as [y|] eqn:Hmr.
    - destruct (rbst_check_structure fuel h (Some y) (Some x) _)
        as [[|]|] eqn:Hcr; [|done..].
      destruct (IH _ _ _ _ Hcr) as (r & ? & ? & ?). exists r.
      split_and!; [done|lia|done].
    - exists Leaf. split_and!; [done|simpl; lia|done]. }
  exists (Node l x r). split_and!; [done|simpl; lia|].
  rewrite <- Hl, (rep_size_t_size _ _ _ Hrl) in Hsl. injection Hsl as <-.
  rewrite <- Hr, (rep_size_t_size _ _ _ Hrr) in Hsr. injection Hsr as <-.
  rewrite to_size_t_node_size in Hs.
  split; [|done]. exists (m_value n). rewrite Hx. f_equal.
  destruct n as [nl nr np ns nv]. cbn in *. by rewrite Hl, Hr, Hp, Hs.
Qed.

(** X20. [rbst_check_structure] accepts exactly the structures with correct
    links, parent pointers and sizes: it returns true on [node] if and only
    if the nodes below [node] form a tree that the heap holds with [size_t]
    sizes, which for a tree of fewer than [2^64] nodes is to be represented.
    So it returns true on every represented tree whose size is a
    [size_t]. *)
Theorem check_structure_accepts_represented (h : heap)
    (node parent : option ptr) (index : Z) (fuel : nat) :
  (rbst_check_structure fuel h node parent index = Some true
   ↔ (0 < fuel)%nat
     ∧ ∃ t, root t = node ∧ (height t <= fuel)%nat ∧ rep_size_t h t parent)
  ∧ (∀ t, tsize t < 2 ^ SIZE_BITS → rep_size_t h t parent ↔ rep h t parent)
  ∧ (∀ t, rep h t parent → tsize t < 2 ^ SIZE_BITS → (height t < fuel)%nat →
          rbst_check_structure fuel h (root t) parent index = Some true).
Proof.
  split_and!.
  - split.
    + intros Hc. split; [destruct fuel; [done|lia]|].
      by apply (check_structure_wrapped_sound fuel h node parent index).
    + intros (Hpos & t & <- & Hfuel & Hrep).
      by apply check_structure_wrapped_complete.
  - intros t. apply rep_size_t_rep.
  - intros t. apply check_structure_complete.
Qed.

Lemma check_values_complete (key : ptr → V) t : ∀ fuel (h : heap) parent index,
  rep h t parent → keyed h key (nodes t) → ordered comp key t →
  (height t < fuel)%nat →
  rbst_check_values comp fuel h (root t) index = Some true.
Proof.
  induction t as [|l IHl x r IHr];
    intros fuel h parent index Hrep Hkey Hord Hfuel;
    (destruct fuel as [|fuel]; [simpl in Hfuel; lia|]); [done|].
  destruct (keyed_rep_value key h l x r parent Hrep Hkey) as (Hx & Hkl & Hkr).
  destruct Hrep as (_ & Hl & Hr). destruct Hord as (Hlx & Hrx & Hol & Hor).
  cbn [height] in Hfuel.
  cbn [rbst_check_values root]. rewrite Hx.
  cbn [mbind option_bind m_left m_right m_value].
  assert (match root l with
          | Some _ => rbst_check_values comp fuel h (root l) index
          | None => Some true
          end = Some true) as ->.
  { destruct l as [|ll y lr]; [done|]. apply (IHl _ _ (Some x)); [done..|lia]. }
  cbn [mbind option_bind negb].
  rewrite (rep_size _ _ _ Hl). cbn [mbind option_bind].
  assert (match root l with
          | Some l0 => vl ← value h l0; Some (comp (key x) vl)
          | None => Some false
          end = Some false) as ->.
  { destruct l as [|ll y lr]; [done|]. cbn [root].
    rewrite (Hkl y) by (apply elem_Node; tauto). cbn [mbind option_bind].
    f_equal. apply Hlx, elem_Node. tauto. }
  cbn [mbind option_bind].
  assert (match root r with
          | Some r0 => vr ← value h r0; Some (comp vr (key x))
          | None => Some false
          end = Some false) as ->.
  { destruct r as [|rl y rr]; [done|]. cbn [root].
    rewrite (Hkr y) by (apply elem_Node; tauto). cbn [mbind option_bind].
    f_equal. apply Hrx, elem_Node. tauto. }
  cbn [mbind option_bind].
  destruct r as [|rl y rr]; [done|]. cbn [root].
  apply (IHr _ _ (Some x)); [done..|lia].
Qed.

Lemma check_values_local (key : ptr → V) t : ∀ fuel (h : heap) parent index,
  rep h t parent → keyed h key (nodes t) → (height t < fuel)%nat →
  ∃ ok, rbst_check_values comp fuel h (root t) index = Some ok
    ∧ (ok = true ↔ locally_ordered comp key t).
Proof.
  induction t as [|l IHl x r IHr]; intros fuel h parent index Hrep Hkey Hfuel;
    (destruct fuel as [|fuel]; [simpl in Hfuel; lia|]).
  { exists true. by split. }
  destruct (keyed_rep_value key h l x r parent Hrep Hkey) as (Hx & Hkl & Hkr).
  destruct Hrep as (_ & Hl & Hr). cbn [height] in Hfuel.
  assert (∃ ok, match root l with
                | Some _ => rbst_check_values comp fuel h (root l) index
                | None => Some true
                end = Some ok
                ∧ (ok = true ↔ locally_ordered comp key l)) as (okl & El & Hokl).
  { destruct l as [|ll y lr]; [by exists true|].
    apply (IHl _ _ (Some x)); [done..|lia]. }
  assert (∀ i, ∃ ok, match root r with
                     | Some _ => rbst_check_values comp fuel h (root r) i
                     | None => Some true
                     end = Some ok
                     ∧ (ok = true ↔ locally_ordered comp key r)) as Hokr.
  { intros i. destruct r as [|rl y rr]; [by exists true|].
    apply (IHr _ _ (Some x)); [done..|lia]. }
  cbn [rbst_check_values root locally_ordered]. rewrite Hx.
  cbn [mbind option_bind m_left m_right m_value]. rewrite El.
  cbn [mbind option_bind].
  destruct okl; cbn [negb].
  2:{ exists false. split; [done|]. split; [done|].
      intros (Hll & _). by apply Hokl in Hll. }
  rewrite (rep_size _ _ _ Hl). cbn [mbind option_bind].
  assert (∃ bad, match root l with
                 | Some l0 => vl ← value h l0; Some (comp (key x) vl)
                 | None => Some false
                 end = Some bad
                 ∧ (bad = false ↔
                    ∀ y, root l = Some y → comp (key x) (key y) = false))
    as (badl & Ebl & Hbl).
  { destruct l as [|ll y lr]; [by exists false|]. cbn [root].
    rewrite (Hkl y) by (apply elem_Node; tauto). cbn [mbind option_bind].
    eexists. split; [done|]. split.
    - by intros ? ? [= <-].
    - intros Hy. by apply Hy. }
  rewrite Ebl. cbn [mbind option_bind].
  destruct badl.
  { exists false. split; [done|]. split; [done|].
    intros (_ & Hc & _). by apply Hbl in Hc. }
  assert (∃ bad, match root r with
                 | Some r0 => vr ← value h r0; Some (comp vr (key x))
                 | None => Some false
                 end = Some bad
                 ∧ (bad = false ↔
                    ∀ y, root r = Some y → comp (key y) (key x) = false))
    as (badr & Ebr & Hbr).
  { destruct r as [|rl y rr]; [by exists false|]. cbn [root].
    rewrite (Hkr y) by (apply elem_Node; tauto). cbn [mbind option_bind].
    eexists. split; [done|]. split.
    - by intros ? ? [= <-].
    - intros Hy. by apply Hy. }
  rewrite Ebr. cbn [mbind option_bind].
  destruct badr.
  { exists false. split; [done|]. split; [done|].
    intros (_ & _ & Hc & _). by apply Hbr in Hc. }
  destruct (Hokr (to_size_t (to_size_t (index + tsize l) + 1)))
    as (okr & Er & Hokr').
  exists okr. split; [done|]. rewrite Hokr'. split; [|tauto].
  intros Hlr. split_and!; [by apply Hokl|by apply Hbl|by apply Hbr|done].
Qed.

(** X21. On a set both checks of the test suite succeed:
    [rbst_check_structure] on the root holder and [rbst_check_values] on
    the root of the tree return true. *)
Theorem checks_pass_on_set {Rng : Type} (Hswo : StrictWeakOrder comp)
    (h : heap) (s : @RbstSet Rng) (t : tree) (fuel : nat) :
  RbstSet_rep comp h s t → (height t + 1 < fuel)%nat →
  rbst_check_structure fuel h (Some (m_tree s)) None 0 = Some true
  ∧ rbst_check_values comp fuel h (root t) 0 = Some true.
Proof.
  intros Hrep Hfuel.
  pose proof (RbstSet_rep_wf comp h s t Hrep) as ([_ Hw] & _ & _ & _ & Hmax).
  destruct Hrep as [(_ & _ & Hval & Hord) _]. split.
  - apply (check_structure_complete (Node t (m_tree s) Leaf));
      [done|done|cbn [height]; lia].
  - destruct Hw as (_ & Ht & _).
    destruct (root t) as [x|] eqn:Hroot.
    2:{ destruct fuel; [lia|done]. }
    destruct (Hval x) as [v Hv]; [by apply root_elem|].
    rewrite <- Hroot.
    apply (check_values_complete (key_of h v) t fuel h (Some (m_tree s)));
      [done|by apply valued_keyed|done|lia].
Qed.

(** X22. [rbst_check_values] compares each node with its two children only:
    on a tree of valued nodes it returns true exactly when no node is less
    than its left child and no right child is less than its node. *)
Theorem check_values_is_local (key : ptr → V) (h : heap) (t : tree)
    (parent : option ptr) (index : Z) (fuel : nat) :
  rep h t parent → keyed h key (nodes t) → (height t < fuel)%nat →
  ∃ ok, rbst_check_values comp fuel h (root t) index = Some ok
    ∧ (ok = true ↔ locally_ordered comp key t)
    ∧ (ordered comp key t → ok = true).
Proof.
  intros Hrep Hkey Hfuel.
  destruct (check_values_local key t fuel h parent index Hrep Hkey Hfuel)
    as (ok & E & Hok).
  exists ok. split_and!; [done..|]. intros Hord.
  pose proof (check_values_complete key t fuel h parent index Hrep Hkey Hord
                Hfuel) as E'.
  congruence.
Qed.

(** ** The depth measures *)

Lemma total_depth_bounds t : ∀ d,
  0 <= d →
  tsize t * (d + 1) <= total_depth t d
  ∧ total_depth t d <= tsize t * (d + Z.of_nat (height t)).
Proof.
  induction t as [|l IHl x r IHr]; intros d Hd; [simpl; lia|].
  destruct (IHl (d + 1) ltac:(lia)) as [Hl1 Hl2].
  destruct (IHr (d + 1) ltac:(lia)) as [Hr1 Hr2].
  pose proof (tsize_nonneg l). pose proof (tsize_nonneg r).
  cbn [tsize total_depth height].
  assert (Z.of_nat (S (height l `max` height r))
          = 1 + Z.max (Z.of_nat (height l)) (Z.of_nat (height r))) as -> by lia.
  split; [nia|].
  assert (tsize l * (d + 1 + Z.of_nat (height l))
          <= tsize l * (d + (1 + Z.max (Z.of_nat (height l)) (Z.of_nat (height r)))))
    by (apply Z.mul_le_mono_nonneg_l; lia).
  assert (tsize r * (d + 1 + Z.of_nat (height r))
          <= tsize r * (d + (1 + Z.max (Z.of_nat (height l)) (Z.of_nat (height r)))))
    by (apply Z.mul_le_mono_nonneg_l; lia).
  nia.
Qed.

Lemma height_le_tsize t : Z.of_nat (height t) <= tsize t.
Proof. rewrite tsize_nodes. pose proof (height_le_length t). lia. Qed.

Lemma max_depth_rep t : ∀ fuel (h : heap) parent,
  rep h t parent → tsize t < 2 ^ SIZE_BITS → (height t < fuel)%nat →
  rbst_max_depth fuel h (root t) = Some (Z.of_nat (height t)).
Proof.
  induction t as [|l IHl x r IHr]; intros fuel h parent Hrep Hmax Hfuel;
    (destruct fuel as [|fuel]; [simpl in Hfuel; lia|]); [done|].
  destruct Hrep as ([v Hx] & Hl & Hr).
  pose proof (tsize_nonneg l). pose proof (tsize_nonneg r).
  pose proof (height_le_tsize (Node l x r)) as Hh.
  cbn [tsize height] in *. cbn [rbst_max_depth root]. rewrite Hx.
  cbn [mbind option_bind m_left m_right].
  rewrite (IHl fuel h (Some x)), (IHr fuel h (Some x)) by (done || lia).
  cbn [mbind option_bind]. f_equal. rewrite to_size_t_small; lia.
Qed.

Lemma total_depth_rep t : ∀ fuel (h : heap) parent d,
  rep h t parent →
  (t ≠ Leaf → 0 <= d ∧ tsize t * (d + Z.of_nat (height t)) < 2 ^ SIZE_BITS) →
  (height t < fuel)%nat →
  rbst_total_depth fuel h (root t) d = Some (total_depth t d).
Proof.
  induction t as [|l IHl x r IHr]; intros fuel h parent d Hrep Hmax Hfuel;
    (destruct fuel as [|fuel]; [simpl in Hfuel; lia|]); [done|].
  destruct Hrep as ([v Hx] & Hl & Hr).
  destruct Hmax as [Hd Hmax]; [done|].
  pose proof (tsize_pos l). pose proof (tsize_nonneg l).
  pose proof (tsize_nonneg r).
  pose proof (total_depth_bounds (Node l x r) d Hd) as [Hlow Hup].
  pose proof (total_depth_bounds l (d + 1) ltac:(lia)) as [Hl1 Hl2].
  pose proof (total_depth_bounds r (d + 1) ltac:(lia)) as [Hr1 Hr2].
  cbn [tsize height total_depth] in *.
  assert (Z.of_nat (S (height l `max` height r))
          = 1 + Z.max (Z.of_nat (height l)) (Z.of_nat (height r))) as Emax by lia.
  rewrite Emax in *.
  assert (d + 1 < 2 ^ SIZE_BITS) as Hd1 by nia.
  cbn [rbst_total_depth root]. rewrite Hx.
  cbn [mbind option_bind m_left m_right].
  rewrite (to_size_t_small (d + 1)) by lia.
  rewrite (IHl fuel h (Some x) (d + 1)), (IHr fuel h (Some x) (d + 1));
    [|done| |lia|done| |lia].
  - cbn [mbind option_bind]. f_equal.
    rewrite (to_size_t_small (1 + d)) by lia.
    rewrite (to_size_t_small (1 + d + _)) by nia.
    rewrite to_size_t_small by nia. done.
  - intros _. split; [lia|].
    assert (tsize r * (d + 1 + Z.of_nat (height r))
            <= (1 + tsize l + tsize r)
               * (d + (1 + Z.max (Z.of_nat (height l)) (Z.of_nat (height r)))));
      [|lia].
    apply Z.mul_le_mono_nonneg; lia.
  - intros _. split; [lia|].
    assert (tsize l * (d + 1 + Z.of_nat (height l))
            <= (1 + tsize l + tsize r)
               * (d + (1 + Z.max (Z.of_nat (height l)) (Z.of_nat (height r)))));
      [|lia].
    apply Z.mul_le_mono_nonneg; lia.
Qed.

(** X23. On a represented tree [rbst_max_depth] is the height of the tree,
    which is at most its size, and [rbst_total_depth] is the sum of the
    depths of its nodes, which lies between the size and the size times
    the height: the mean depth is at most the maximal depth. *)
Theorem depth_measures (h : heap) (t : tree) (parent : option ptr)
    (fuel : nat) :
  rep h t parent →
  tsize t * Z.of_nat (height t) < 2 ^ SIZE_BITS → (height t < fuel)%nat →
  ∃ m d, rbst_max_depth fuel h (root t) = Some m
    ∧ rbst_total_depth fuel h (root t) 0 = Some d
    ∧ m = Z.of_nat (height t) ∧ m <= tsize t
    ∧ tsize t <= d <= tsize t * m.
Proof.
  intros Hrep Hmax Hfuel.
  pose proof (height_le_tsize t) as Hh.
  pose proof (total_depth_bounds t 0 ltac:(done)) as [Hlow Hup].
  exists (Z.of_nat (height t)), (total_depth t 0). split_and!; try done.
  - apply (max_depth_rep t fuel h parent); [done| |done].
    destruct t as [|l x r]; [done|].
    pose proof (tsize_pos l). cbn [tsize height] in *. nia.
  - apply (total_depth_rep t fuel h parent); [done| |done].
    intros _. split; [done|]. by rewrite Z.add_0_l.
  - lia.
Qed.

End Checks.

(** So [rbst_check_values] also accepts a tree that is not in order, here the
    tree of 10 with the left child 5 whose right child is 20. *)
Example check_values_accepts_unordered :
  ∃ (h : gmap positive (@RbstNode Z)) (t : tree) (key : ptr → Z),
    wf h t None ∧ keyed h key (nodes t)
    ∧ rbst_check_structure 4 h (root t) None 0 = Some true
    ∧ rbst_check_values Z.ltb 4 h (root t) 0 = Some true
    ∧ ¬ ordered Z.ltb key t.
Proof.
  exists ex_unordered_heap, ex_unordered_tree, (key_of ex_unordered_heap 0).
  split_and!.
  - split; [by apply (bool_decide_unpack _)|]. repeat split; by eexists.
  - apply valued_keyed. intros y Hy. simpl in Hy. elems Hy; by eexists.
  - reflexivity.
  - reflexivity.
  - intros (Hl & _). specialize (Hl 3%positive). simpl in Hl.
    assert (3%positive ∈ [2%positive; 3%positive]) as H3 by set_solver.
    by specialize (Hl H3).
Qed.

(** ** Exchanging and replacing trees *)

Section Reparent.

Context {V : Type} (comp : V -> V -> bool) (Hswo : StrictWeakOrder comp).
Context {Rng : Type}.

Abbreviation heap := (gmap positive (@RbstNode V)).

(** The root of a tree gets a new parent. *)
Lemma reparent_rep (h : heap) t p q :
  rep h t p → NoDup (nodes t) →
  ∃ h', match root t with
        | Some l => store_parent h l q
        | None => Some h
        end = Some h'
    ∧ rep h' t q
    ∧ (∀ y, root t ≠ Some y → h' !! y = h !! y)
    ∧ (∀ y, value h' y = value h y).
Proof.
  intros Hrep Hnd. destruct t as [|l x r]; [by exists h|].
  cbn [root]. pose proof Hrep as ([v Hx] & _).
  rewrite store_parent_alter by (by rewrite Hx).
  eexists. split_and!; [done| | |].
  - by apply (rep_set_parent h (Node l x r) p q x).
  - intros y Hy. rewrite lookup_alter_ne; [done|congruence].
  - intros y. apply value_alter_parent.
Qed.

(** The invariant of a set, from its parts. *)
Lemma RbstSet_rep_intro (h h0 : heap) (s s0 : @RbstSet Rng) t v :
  RbstSet_rep comp h0 s0 t →
  h !! m_tree s = Some (mkRbstNode (root t) None None (1 + tsize t) v) →
  rep h t (Some (m_tree s)) → (m_tree s ∉ nodes t) →
  (∀ y, y ∈ nodes t → value h y = value h0 y) →
  RbstSet_rep comp h s t.
Proof.
  intros Hrep0 Hthis Hrep Hout Hv.
  pose proof (RbstSet_rep_wf comp h0 s0 t Hrep0) as (_ & _ & _ & Hnd & Hmax).
  destruct Hrep0 as [(_ & _ & Hval & Hord) Huniq].
  split; [split_and!|].
  - split.
    + cbn [nodes]. apply NoDup_app. split_and!; [done| |].
      * intros y Hy ->%list_elem_of_singleton. done.
      * apply NoDup_singleton.
    + apply (rep_Node_intro h t (m_tree s) Leaf None v); [|done|done].
      rewrite Hthis. do 2 f_equal. cbn [tsize]. lia.
  - cbn [tsize] in *. lia.
  - intros y Hy. rewrite Hv by done. by apply Hval.
  - intros d. eapply ordered_ext; [|exact (Hord d)].
    intros y Hy. by apply key_of_values, Hv.
  - intros d a b Ha Hb.
    rewrite (key_of_values h0 h d a), (key_of_values h0 h d b) by (by apply Hv).
    by apply Huniq.
Qed.

(** X24. [swap(that)] exchanges the elements of two sets that share no
    node: afterwards each set holds the tree of the other one, with every
    element in the node and with the value it had; swapping a set with
    itself does nothing. *)
Theorem swap_exchanges_sets (h : heap) (a b : @RbstSet Rng) (ta tb : tree) :
  RbstSet_rep comp h a ta → RbstSet_rep comp h b tb →
  (∀ y, y ∈ nodes (Node ta (m_tree a) Leaf) →
        y ∉ nodes (Node tb (m_tree b) Leaf)) →
  RbstSet_swap h a a = Some h
  ∧ ∃ h', RbstSet_swap h a b = Some h'
      ∧ RbstSet_rep comp h' a tb ∧ RbstSet_rep comp h' b ta
      ∧ (∀ y, value h' y = value h y)
      ∧ (∀ y, y ∉ nodes (Node ta (m_tree a) Leaf) →
              y ∉ nodes (Node tb (m_tree b) Leaf) → h' !! y = h !! y).
Proof.
  intros Ha Hb Hdisj.
  split; [unfold RbstSet_swap; by rewrite decide_False by (by intros ?)|].
  pose proof (RbstSet_rep_wf comp h a ta Ha) as ([_ Hwa] & _ & Hoa & Hnda & _).
  pose proof (RbstSet_rep_wf comp h b tb Hb) as ([_ Hwb] & _ & Hob & Hndb & _).
  destruct Hwa as ([va HA] & Hta & _). destruct Hwb as ([vb HB] & Htb & _).
  set (A := m_tree a) in *. set (B := m_tree b) in *.
  assert (A ≠ B) as HAB.
  { intros E. apply (Hdisj A); [apply elem_Node; tauto|].
    rewrite E. apply elem_Node. tauto. }
  assert (A ∉ nodes tb) as HAtb.
  { intros Hin. apply (Hdisj A); apply elem_Node; tauto. }
  assert (B ∉ nodes ta) as HBta.
  { intros Hin. apply (Hdisj B); apply elem_Node; tauto. }
  assert (∀ y, y ∈ nodes ta → y ∉ nodes tb) as Hab.
  { intros y Hy Hy'. apply (Hdisj y); apply elem_Node; tauto. }
  unfold RbstSet_swap. fold A B. rewrite decide_True by done.
  unfold RbstTree_swap. rewrite HA, HB. cbn [mbind option_bind m_left m_size].
  rewrite store_left_alter by (by rewrite HA). cbn [mbind option_bind].
  rewrite store_left_alter by heap_alloc. cbn [mbind option_bind].
  rewrite store_size_alter by heap_alloc. cbn [mbind option_bind].
  rewrite store_size_alter by heap_alloc. cbn [mbind option_bind].
  set (h4 := alter _ B (alter _ A (alter _ B (alter _ A h)))).
  assert (h4 !! A = Some (mkRbstNode (root tb) None None (1 + tsize tb) va))
    as HA4.
  { unfold h4. rewrite lookup_alter_ne, lookup_alter_eq by done.
    rewrite lookup_alter_ne, lookup_alter_eq, HA by done.
    unfold with_size, with_left. cbn. do 2 f_equal. lia. }
  assert (h4 !! B = Some (mkRbstNode (root ta) None None (1 + tsize ta) vb))
    as HB4.
  { unfold h4. rewrite lookup_alter_eq, lookup_alter_ne by done.
    rewrite lookup_alter_eq, lookup_alter_ne, HB by done.
    unfold with_size, with_left. cbn. do 2 f_equal. lia. }
  assert (∀ y, y ≠ A → y ≠ B → h4 !! y = h !! y) as H4.
  { intros y ? ?. unfold h4. by rewrite !lookup_alter_ne. }
  assert (∀ y, value h4 y = value h y) as Hv4.
  { intros y. unfold h4.
    by rewrite !value_alter_size, !value_alter_left. }
  rewrite HA4. cbn [mbind option_bind m_left].
  assert (rep h4 tb (Some B)) as Htb4.
  { eapply rep_frame; [|exact Htb]. intros y Hy. apply H4; by intros ->. }
  assert (rep h4 ta (Some A)) as Hta4.
  { eapply rep_frame; [|exact Hta]. intros y Hy. apply H4; by intros ->. }
  destruct (reparent_rep h4 tb (Some B) (Some A) Htb4 Hndb)
    as (h5 & -> & Htb5 & H5 & Hv5).
  cbn [mbind option_bind].
  assert (∀ y, y ∉ nodes tb → h5 !! y = h4 !! y) as H5'.
  { intros y Hy. apply H5. intros Hr. by apply Hy, root_elem. }
  rewrite (H5' B) by done. rewrite HB4. cbn [mbind option_bind m_left].
  assert (rep h5 ta (Some A)) as Hta5.
  { eapply rep_frame; [|exact Hta4]. intros y Hy. apply H5'. by apply Hab. }
  destruct (reparent_rep h5 ta (Some A) (Some B) Hta5 Hnda)
    as (h6 & -> & Hta6 & H6 & Hv6).
  assert (∀ y, y ∉ nodes ta → h6 !! y = h5 !! y) as H6'.
  { intros y Hy. apply H6. intros Hr. by apply Hy, root_elem. }
  assert (rep h6 tb (Some A)) as Htb6.
  { eapply rep_frame; [|exact Htb5]. intros y Hy. apply H6'.
    intros Hy'. by apply (Hab y). }
  assert (∀ y, value h6 y = value h y) as Hv.
  { intros y. by rewrite Hv6, Hv5, Hv4. }
  exists h6. split_and!; [done| | |done|].
  - apply (RbstSet_rep_intro h6 h a b tb va); [done| |done|done|done].
    fold A. rewrite H6' by done. by rewrite H5' by done.
  - apply (RbstSet_rep_intro h6 h b a ta vb); [done| |done|done|done].
    fold B. rewrite H6' by done. by rewrite H5' by done.
  - intros y Hya Hyb. apply not_elem_Node in Hya as (? & ? & _).
    apply not_elem_Node in Hyb as (? & ? & _).
    rewrite H6', H5', H4 by done. done.
Qed.

(** [set_root] on a holder without a parent and a right child. *)
Lemma set_root_rep (h : heap) (this : ptr) (t : tree) (p : option ptr)
    (n : @RbstNode V) :
  rep h t p → NoDup (nodes t) → (this ∉ nodes t) →
  h !! this = Some n → m_right n = None → m_parent n = None →
  tsize t + 1 < 2 ^ SIZE_BITS →
  ∃ h', RbstTree_set_root h this (root t) = Some h'
    ∧ h' !! this
      = Some (mkRbstNode (root t) None None (1 + tsize t) (m_value n))
    ∧ rep h' t (Some this)
    ∧ (∀ y, value h' y = value h y)
    ∧ (∀ y, y ≠ this → root t ≠ Some y → h' !! y = h !! y).
Proof.
  intros Hrep Hnd Hout Hthis Hr Hp Hmax.
  pose proof (tsize_nonneg t) as Hpos.
  unfold RbstTree_set_root.
  destruct (reparent_rep h t p (Some this) Hrep Hnd) as (h1 & -> & Hrep1 & H1 & Hv1).
  cbn [mbind option_bind].
  assert (h1 !! this = Some n) as Hthis1.
  { rewrite H1; [done|]. intros Hroot. by apply Hout, root_elem. }
  rewrite store_left_alter by (by rewrite Hthis1). cbn [mbind option_bind].
  rewrite size_alter_ne.
  2:{ intros Hroot. by apply Hout, root_elem. }
  rewrite (rep_size _ _ _ Hrep1). cbn [mbind option_bind].
  rewrite store_size_alter by heap_alloc.
  rewrite to_size_t_small by lia.
  set (h' := alter _ this (alter _ this h1)).
  assert (∀ y, y ≠ this → h' !! y = h1 !! y) as H'.
  { intros y Hy. unfold h'. by rewrite !lookup_alter_ne. }
  exists h'. split_and!.
  - done.
  - unfold h'. rewrite !lookup_alter_eq, Hthis1. cbn.
    unfold with_size, with_left. cbn. by rewrite Hr, Hp.
  - eapply rep_frame; [|exact Hrep1]. intros y Hy. apply H'. by intros ->.
  - intros y. unfold h'. by rewrite value_alter_size, value_alter_left, Hv1.
  - intros y Hy Hroot. rewrite H' by done. by apply H1.
Qed.

(** X25. [set_root(node)] on a root holder makes a represented tree the
    tree of the holder: the root gets the holder as parent, [root()] is
    the root of the tree, and the size of the holder is one more than the
    size of the tree; [set_root(NULL)] leaves a holder of size 1. *)
Theorem set_root_adopts_tree (h : heap) (this : ptr) (t : tree)
    (p : option ptr) (n : @RbstNode V) :
  wf h t p → (this ∉ nodes t) →
  h !! this = Some n → m_right n = None → m_parent n = None →
  tsize t + 1 < 2 ^ SIZE_BITS →
  ∃ h', RbstTree_set_root h this (root t) = Some h'
    ∧ wf h' (Node t this Leaf) None
    ∧ RbstTree_root h' this = Some (root t)
    ∧ size h' (Some this) = Some (1 + tsize t)
    ∧ (t = Leaf → size h' (Some this) = Some 1)
    ∧ (∀ y, value h' y = value h y)
    ∧ (∀ y, y ≠ this → root t ≠ Some y → h' !! y = h !! y).
Proof.
  intros [Hnd Hrep] Hout Hthis Hr Hp Hmax.
  destruct (set_root_rep h this t p n Hrep Hnd Hout Hthis Hr Hp Hmax)
    as (h' & Hset & Hthis' & Hrep' & Hv & Hf).
  exists h'. split_and!; try done.
  - split.
    + cbn [nodes]. apply NoDup_app. split_and!; [done| |].
      * intros y Hy ->%list_elem_of_singleton. done.
      * apply NoDup_singleton.
    + apply (rep_Node_intro h' t this Leaf None (m_value n)); [|done|done].
      rewrite Hthis'. do 2 f_equal. cbn [tsize]. lia.
  - unfold RbstTree_root. by rewrite Hthis'.
  - unfold size. by rewrite Hthis'.
  - intros ->. unfold size. by rewrite Hthis'.
Qed.

(** The invariant of a set depends on the nodes of the set only. *)
Lemma RbstSet_rep_frame (h h' : heap) (s : @RbstSet Rng) t :
  (∀ y, y ∈ nodes (Node t (m_tree s) Leaf) → h' !! y = h !! y) →
  RbstSet_rep comp h s t → RbstSet_rep comp h' s t.
Proof.
  intros Hf [Hrep Huniq]. split; [by eapply RbstTree_rep_frame|].
  assert (∀ y, y ∈ nodes t → value h' y = value h y) as Hv.
  { intros y Hy. unfold value. rewrite Hf; [done|]. apply elem_Node. tauto. }
  intros d a b Ha Hb.
  rewrite (key_of_values h h' d a), (key_of_values h h' d b) by (by apply Hv).
  by apply Huniq.
Qed.

End Reparent.

(** ** Splitting *)

Section Splitting.

Context {V : Type} (comp : V -> V -> bool) (Hswo : StrictWeakOrder comp).

Abbreviation heap := (gmap positive (@RbstNode V)).

(** X26. [split(tree, lesser, greater)] of a tree in order by the value of
    [this] hangs the nodes that are not greater than [this] below the
    right slot of [lesser] and the nodes greater than [this] below the left
    slot of [greater]; both parts are in order, keep the nodes of the tree
    in their order, and the values are not touched. *)
Theorem split_partitions_by_pivot (key : ptr → V) (h : heap) (t : tree)
    (parent : option ptr) (this x lesser greater : ptr) (fuel : nat) :
  wf h t parent → root t = Some x →
  (lesser ∉ nodes t) → (greater ∉ nodes t) →
  is_Some (h !! lesser) → is_Some (h !! greater) →
  keyed h key (this :: nodes t) → ordered comp key t →
  tsize t < 2 ^ SIZE_BITS → (height t <= fuel)%nat →
  ∃ h' a b,
    split comp fuel h this x lesser greater = Some h'
    ∧ rep h' a (Some lesser) ∧ rep h' b (Some greater)
    ∧ (∃ n, h' !! lesser = Some n ∧ m_right n = root a)
    ∧ (∃ n, h' !! greater = Some n ∧ m_left n = root b)
    ∧ nodes a ++ nodes b = nodes t
    ∧ (∀ y, y ∈ nodes a → comp (key this) (key y) = false)
    ∧ (∀ y, y ∈ nodes b → comp (key this) (key y) = true)
    ∧ ordered comp key a ∧ ordered comp key b
    ∧ (∀ y, value h' y = value h y).
Proof.
  intros [Hnd Hrep] Hroot Hnl Hng [nl Hl] [ng Hg] Hkey Hord Hmax Hfuel.
  destruct (split_rep comp key this t fuel h x lesser greater parent)
    as (h' & Hsplit & Ha & Hb & Hf & Hv); try done.
  pose proof (split_tree_nodes comp key this t) as Hnodes.
  destruct (split_tree_ordered comp Hswo key this t Hord)
    as (Hoa & Hob & Hna & Hnb).
  destruct (split_tree comp key this t) as [a b]. cbn [fst snd] in *.
  exists h', a, b. split_and!; try done.
  - rewrite (Hf lesser Hnl), lookup_alter_eq.
    destruct (decide (lesser = greater)) as [<-|Hne].
    + rewrite lookup_alter_eq, Hl. by eexists.
    + rewrite lookup_alter_ne, Hl by done. by eexists.
  - rewrite (Hf greater Hng).
    destruct (decide (lesser = greater)) as [<-|Hne].
    + rewrite !lookup_alter_eq, Hl. by eexists.
    + rewrite lookup_alter_ne, lookup_alter_eq, Hg by done. by eexists.
Qed.

End Splitting.

(** ** Copies *)

Section Copies.

Context {V : Type} (comp : V -> V -> bool) (Hswo : StrictWeakOrder comp).
Context {Rng : Type}.

Abbreviation heap := (gmap positive (@RbstNode V)).

Lemma key_of_eq (h h' : heap) d y y' :
  value h' y' = value h y → key_of h' d y' = key_of h d y.
Proof. unfold key_of. by intros ->. Qed.

Lemma copy_of_values (h h' : heap) t : ∀ t',
  copy_of h h' t t' → value h' <$> nodes t' = value h <$> nodes t.
Proof.
  induction t as [|l IHl x r IHr]; intros [|l' x' r']; try done.
  intros (Hx & Hl & Hr). cbn [nodes]. rewrite !fmap_app, !fmap_cons.
  by rewrite (IHl l' Hl), (IHr r' Hr), Hx.
Qed.

Lemma copy_of_shape (h h' : heap) t : ∀ t',
  copy_of h h' t t' → tsize t' = tsize t ∧ height t' = height t.
Proof.
  induction t as [|l IHl x r IHr]; intros [|l' x' r']; try done.
  intros (Hx & Hl & Hr). destruct (IHl l' Hl), (IHr r' Hr).
  cbn [tsize height]. split; [lia|congruence].
Qed.

Lemma copy_of_ext (h h' g g' : heap) t : ∀ t',
  copy_of h h' t t' →
  (∀ y, y ∈ nodes t → value g y = value h y) →
  (∀ y, y ∈ nodes t' → value g' y = value h' y) →
  copy_of g g' t t'.
Proof.
  induction t as [|l IHl x r IHr]; intros [|l' x' r']; try done.
  intros (Hx & Hl & Hr) Hg Hg'. cbn [copy_of]. split_and!.
  - rewrite Hg, Hg' by (apply elem_Node; tauto). done.
  - apply IHl; [done| |]; intros y Hy; [apply Hg|apply Hg'];
      apply elem_Node; tauto.
  - apply IHr; [done| |]; intros y Hy; [apply Hg|apply Hg'];
      apply elem_Node; tauto.
Qed.

(** The node of the copy at a rank has the value of the node of the
    original at this rank. *)
Lemma copy_of_lookup (h h' : heap) t t' i y' :
  copy_of h h' t t' → nodes t' !! i = Some y' →
  ∃ y, nodes t !! i = Some y ∧ value h y = value h' y'.
Proof.
  intros Hc%copy_of_values Hi.
  assert ((value h' <$> nodes t') !! i = Some (value h' y')) as Hv
    by (by rewrite list_lookup_fmap, Hi).
  rewrite Hc, list_lookup_fmap in Hv.
  destruct (nodes t !! i) as [y|]; [|done]. exists y. split; [done|].
  by injection Hv.
Qed.

Lemma copy_of_ordered (h h' : heap) d t : ∀ t',
  copy_of h h' t t' →
  ordered comp (key_of h d) t → ordered comp (key_of h' d) t'.
Proof.
  induction t as [|l IHl x r IHr]; intros [|l' x' r']; try done.
  intros (Hx & Hl & Hr) (Hlx & Hrx & Hol & Hor). cbn [ordered].
  assert (key_of h' d x' = key_of h d x) as Ex by (by apply key_of_eq).
  split_and!; [| |by apply IHl|by apply IHr].
  - intros y' [i Hi]%list_elem_of_lookup.
    destruct (copy_of_lookup h h' l l' i y' Hl Hi) as (y & Hy & Hv).
    rewrite Ex, (key_of_eq h h' d y y') by done.
    apply Hlx. by eapply list_elem_of_lookup_2.
  - intros y' [i Hi]%list_elem_of_lookup.
    destruct (copy_of_lookup h h' r r' i y' Hr Hi) as (y & Hy & Hv).
    rewrite Ex, (key_of_eq h h' d y y') by done.
    apply Hrx. by eapply list_elem_of_lookup_2.
Qed.

(** A well-formed copy of the tree of a set below a root holder is a set. *)
Lemma copy_of_set_rep (h h' : heap) (s s' : @RbstSet Rng) t t' :
  RbstSet_rep comp h s t → copy_of h h' t t' →
  wf h' (Node t' (m_tree s') Leaf) None →
  RbstSet_rep comp h' s' t'.
Proof.
  intros Hrep Hc Hwf.
  pose proof (RbstSet_rep_wf comp h s t Hrep) as (_ & _ & _ & Hnd & Hmax).
  destruct Hrep as [(_ & _ & Hval & Hord) Huniq].
  destruct (copy_of_shape h h' t t' Hc) as [Hsize _].
  split; [split_and!|].
  - done.
  - cbn [tsize] in *. lia.
  - intros y' [i Hi]%list_elem_of_lookup.
    destruct (copy_of_lookup h h' t t' i y' Hc Hi) as (y & Hy & Hv).
    rewrite <- Hv. apply Hval. by eapply list_elem_of_lookup_2.
  - intros d. by apply (copy_of_ordered h h' d t t').
  - intros d a' b' [i Hi]%list_elem_of_lookup [j Hj]%list_elem_of_lookup He.
    destruct (copy_of_lookup h h' t t' i a' Hc Hi) as (a & Ha & Hva).
    destruct (copy_of_lookup h h' t t' j b' Hc Hj) as (b & Hb & Hvb).
    rewrite (key_of_eq h h' d a a'), (key_of_eq h h' d b b') in He by done.
    assert (a = b) as <-.
    { apply (Huniq d); [by eapply list_elem_of_lookup_2..|done]. }
    assert (i = j) as <- by (by eapply NoDup_lookup).
    congruence.
Qed.

End Copies.

Section Clone.

Context {V : Type} (comp : V -> V -> bool) (Hswo : StrictWeakOrder comp).
Context {Rng : Type}.

Abbreviation heap := (gmap positive (@RbstNode V)).

Context (allocate : heap → ptr) (indeterminate : @RbstNode V).
Context (allocate_fresh : ∀ h, h !! allocate h = None).
Context (left_first : bool).

Abbreviation clone := (RbstSet_clone allocate indeterminate left_first).

Lemma rep_frame_allocated (h h' : heap) t p :
  rep h t p → (∀ y, is_Some (h !! y) → h' !! y = h !! y) → rep h' t p.
Proof.
  intros Hrep Hf. eapply rep_frame; [|exact Hrep].
  intros y Hy. apply Hf. by eapply rep_is_Some.
Qed.

Lemma valued_frame_allocated (h h' : heap) l :
  valued h l → (∀ y, is_Some (h !! y) → h' !! y = h !! y) → valued h' l.
Proof.
  intros Hv Hf y Hy. destruct (Hv y Hy) as [v Hvy]. exists v.
  unfold value in *. destruct (h !! y) as [n|] eqn:Hn; [|done].
  by rewrite Hf, Hn by (by rewrite Hn).
Qed.

Lemma value_frame_allocated (h h' : heap) t p y :
  rep h t p → y ∈ nodes t → (∀ y, is_Some (h !! y) → h' !! y = h !! y) →
  value h' y = value h y.
Proof.
  intros Hrep Hy Hf. unfold value. rewrite Hf; [done|]. by eapply rep_is_Some.
Qed.

(** Two clones, one after the other. *)
Lemma clone_pair a b fuel (h : heap) pa pb parent :
  (∀ h p, rep h a p → valued h (nodes a) →
          ∃ h' a', clone fuel h (root a) parent = Some (h', root a')
                   ∧ cloned h h' a a' parent) →
  (∀ h p, rep h b p → valued h (nodes b) →
          ∃ h' b', clone fuel h (root b) parent = Some (h', root b')
                   ∧ cloned h h' b b' parent) →
  rep h a pa → rep h b pb → valued h (nodes a) → valued h (nodes b) →
  ∃ h1 h2 a' b',
    clone fuel h (root a) parent = Some (h1, root a')
    ∧ clone fuel h1 (root b) parent = Some (h2, root b')
    ∧ rep h2 a' parent ∧ rep h2 b' parent
    ∧ copy_of h h2 a a' ∧ copy_of h h2 b b'
    ∧ NoDup (nodes a') ∧ NoDup (nodes b')
    ∧ (∀ y, y ∈ nodes a' → y ∉ nodes b')
    ∧ (∀ y, y ∈ nodes a' ∨ y ∈ nodes b' → h !! y = None)
    ∧ (∀ y, is_Some (h !! y) → h2 !! y = h !! y).
Proof.
  intros IHa IHb Ha Hb Hva Hvb.
  destruct (IHa h pa Ha Hva) as (h1 & a' & Hca & Ha' & Hcopya & Hnda & Hfa & Hf1).
  assert (rep h1 b pb) as Hb1 by (by eapply rep_frame_allocated).
  assert (valued h1 (nodes b)) as Hvb1 by (by eapply valued_frame_allocated).
  destruct (IHb h1 pb Hb1 Hvb1)
    as (h2 & b' & Hcb & Hb' & Hcopyb & Hndb & Hfb & Hf2).
  exists h1, h2, a', b'. split_and!; try done.
  - by eapply rep_frame_allocated.
  - eapply copy_of_ext; [exact Hcopya|done|].
    intros y Hy. exact (value_frame_allocated h1 h2 a' parent y Ha' Hy Hf2).
  - eapply copy_of_ext; [exact Hcopyb| |done].
    intros y Hy. symmetry.
    exact (value_frame_allocated h h1 b pb y Hb Hy Hf1).
  - intros y Hy Hy'. destruct (rep_is_Some _ _ _ _ Ha' Hy) as [n Hn].
    rewrite (Hfb y Hy') in Hn. done.
  - intros y [Hy|Hy]; [by apply Hfa|].
    destruct (h !! y) as [n|] eqn:Hn; [|done].
    rewrite <- (Hf1 y), (Hfb y Hy) in Hn by (by rewrite Hn). done.
  - intros y Hy. rewrite Hf2, Hf1; [done|done|]. by rewrite Hf1.
Qed.

Lemma clone_rep t : ∀ fuel (h : heap) p parent,
  rep h t p → valued h (nodes t) →
  tsize t < 2 ^ SIZE_BITS → (height t < fuel)%nat →
  ∃ h' t', clone fuel h (root t) parent = Some (h', root t')
    ∧ cloned h h' t t' parent.
Proof.
  induction t as [|l IHl x r IHr]; intros fuel h p parent Hrep Hval Hmax Hfuel;
    (destruct fuel as [|fuel]; [simpl in Hfuel; lia|]).
  { exists h, Leaf. split; [done|]. split_and!; try done.
    - apply NoDup_nil_2.
    - by intros y ?%elem_of_nil. }
  destruct Hrep as ([v0 Hx] & Hl & Hr).
  destruct (Hval x) as [v Hv]; [apply elem_Node; tauto|].
  unfold value in Hv. rewrite Hx in Hv. cbn in Hv. subst v0.
  pose proof (tsize_nonneg l). pose proof (tsize_nonneg r).
  cbn [tsize height] in Hmax, Hfuel.
  set (copy := allocate h).
  set (h0 := <[copy := indeterminate]> h).
  assert (h !! copy = None) as Hfresh by apply allocate_fresh.
  assert (∀ y, is_Some (h !! y) → h0 !! y = h !! y) as Hf0.
  { intros y [n Hn]. unfold h0. rewrite lookup_insert_ne; [done|].
    intros <-. congruence. }
  assert (rep h0 l (Some x)) as Hl0 by (by eapply rep_frame_allocated).
  assert (rep h0 r (Some x)) as Hr0 by (by eapply rep_frame_allocated).
  assert (valued h0 (nodes l)) as Hvl0.
  { eapply valued_frame_allocated; [|done]. intros y Hy. apply Hval, elem_Node.
    tauto. }
  assert (valued h0 (nodes r)) as Hvr0.
  { eapply valued_frame_allocated; [|done]. intros y Hy. apply Hval, elem_Node.
    tauto. }
  assert (∀ h p, rep h l p → valued h (nodes l) →
            ∃ h' l', clone fuel h (root l) (Some copy) = Some (h', root l')
                     ∧ cloned h h' l l' (Some copy)) as IHl'.
  { intros h' p' ? ?. apply (IHl fuel h' p'); [done|done|lia|lia]. }
  assert (∀ h p, rep h r p → valued h (nodes r) →
            ∃ h' r', clone fuel h (root r) (Some copy) = Some (h', root r')
                     ∧ cloned h h' r r' (Some copy)) as IHr'.
  { intros h' p' ? ?. apply (IHr fuel h' p'); [done|done|lia|lia]. }
  assert (∃ h2 l' r',
            (if left_first then
               '(h, l0) ← clone fuel h0 (root l) (Some copy);
               '(h, r0) ← clone fuel h (root r) (Some copy);
               Some (h, l0, r0)
             else
               '(h, r0) ← clone fuel h0 (root r) (Some copy);
               '(h, l0) ← clone fuel h (root l) (Some copy);
               Some (h, l0, r0)) = Some (h2, root l', root r')
            ∧ rep h2 l' (Some copy) ∧ rep h2 r' (Some copy)
            ∧ copy_of h0 h2 l l' ∧ copy_of h0 h2 r r'
            ∧ NoDup (nodes l') ∧ NoDup (nodes r')
            ∧ (∀ y, y ∈ nodes l' → y ∉ nodes r')
            ∧ (∀ y, y ∈ nodes l' ∨ y ∈ nodes r' → h0 !! y = None)
            ∧ (∀ y, is_Some (h0 !! y) → h2 !! y = h0 !! y))
    as (h2 & l' & r' & Hboth & Hl2 & Hr2 & Hcl & Hcr & Hndl & Hndr & Hdisj
        & Hnew & Hf2).
  { pose proof (clone_pair l r fuel h0 (Some x) (Some x) (Some copy) IHl' IHr'
                  Hl0 Hr0 Hvl0 Hvr0) as Hlr.
    pose proof (clone_pair r l fuel h0 (Some x) (Some x) (Some copy) IHr' IHl'
                  Hr0 Hl0 Hvr0 Hvl0) as Hrl.
    clear IHl IHr IHl' IHr'. destruct left_first.
    - destruct Hlr as (h1 & h2 & l' & r' & -> & Hc2 & ?).
      cbn [mbind option_bind].
      rewrite Hc2. cbn [mbind option_bind]. exists h2, l', r'. by split.
    - destruct Hrl
        as (h1 & h2 & r' & l' & -> & Hc2 & ? & ? & ? & ? & ? & ? & Hd & Hn & ?).
      cbn [mbind option_bind]. rewrite Hc2. cbn [mbind option_bind].
      exists h2, l', r'. split_and!; try done.
      + intros y Hy Hy'. by apply (Hd y).
      + intros y Hy. apply Hn. tauto. }
  cbn [RbstSet_clone root]. rewrite Hx.
  cbn [mbind option_bind m_left m_right m_value]. fold copy h0.
  rewrite Hboth. cbn [mbind option_bind].
  destruct (copy_of_shape h0 h2 l l' Hcl) as [Hsl _].
  destruct (copy_of_shape h0 h2 r r' Hcr) as [Hsr _].
  unfold construct. rewrite (rep_size _ _ _ Hl2), (rep_size _ _ _ Hr2).
  cbn [mbind option_bind].
  rewrite (to_size_t_small (1 + tsize l')), to_size_t_small by lia.
  set (c := mkRbstNode (root l') (root r') parent _ (Some v)).
  assert (h0 !! copy = Some indeterminate) as Hcopy0 by apply lookup_insert_eq.
  assert ((copy ∉ nodes l') ∧ (copy ∉ nodes r')) as [Hcl' Hcr'].
  { split; intros Hin.
    - rewrite (Hnew copy) in Hcopy0 by tauto. done.
    - rewrite (Hnew copy) in Hcopy0 by tauto. done. }
  assert (∀ y, y ≠ copy → <[copy := c]> h2 !! y = h2 !! y) as Hf3
    by (intros y Hy; by rewrite lookup_insert_ne).
  exists (<[copy := c]> h2), (Node l' copy r'). split; [done|].
  split_and!.
  - apply (rep_Node_intro _ l' copy r' parent (Some v)).
    + by rewrite lookup_insert_eq.
    + eapply rep_frame; [|exact Hl2]. intros y Hy. apply Hf3. by intros ->.
    + eapply rep_frame; [|exact Hr2]. intros y Hy. apply Hf3. by intros ->.
  - cbn [copy_of]. split_and!.
    + unfold value. by rewrite lookup_insert_eq, Hx.
    + eapply copy_of_ext; [exact Hcl| |].
      * intros y Hy. symmetry.
        exact (value_frame_allocated h h0 l (Some x) y Hl Hy Hf0).
      * intros y Hy. unfold value. rewrite Hf3; [done|]. by intros ->.
    + eapply copy_of_ext; [exact Hcr| |].
      * intros y Hy. symmetry.
        exact (value_frame_allocated h h0 r (Some x) y Hr Hy Hf0).
      * intros y Hy. unfold value. rewrite Hf3; [done|]. by intros ->.
  - cbn [nodes]. apply NoDup_app. split_and!; [done| |].
    + intros y Hy [->|Hy']%elem_of_cons; [done|]. by apply (Hdisj y).
    + by apply NoDup_cons.
  - assert (∀ y, h0 !! y = None → h !! y = None) as Hnone.
    { intros y Hy. destruct (h !! y) as [n|] eqn:Hn; [|done].
      rewrite Hf0 in Hy by (by rewrite Hn). congruence. }
    intros y [Hy|[->|Hy]]%elem_Node; [|done|]; apply Hnone, Hnew; tauto.
  - intros y Hy. rewrite Hf3.
    + rewrite Hf2, Hf0; [done|done|]. by rewrite Hf0.
    + intros ->. destruct Hy. congruence.
Qed.

(** The tree of a set is cloned and made the tree of a root holder. *)
Lemma clone_into_holder (h : heap) (this : ptr) (n : @RbstNode V)
    (that : @RbstSet Rng) (t : tree) (rng' : Rng) (fuel : nat) :
  RbstSet_rep comp h that t →
  h !! this = Some n → m_right n = None → m_parent n = None →
  (this ∉ nodes (Node t (m_tree that) Leaf)) → (height t < fuel)%nat →
  ∃ h1 h' t',
    RbstTree_root h (m_tree that) = Some (root t)
    ∧ clone fuel h (root t) None = Some (h1, root t')
    ∧ RbstTree_set_root h1 this (root t') = Some h'
    ∧ RbstSet_rep comp h' (mkRbstSet this rng') t'
    ∧ RbstSet_rep comp h' that t
    ∧ copy_of h h' t t'
    ∧ (∀ y, y ∈ nodes t' → h !! y = None)
    ∧ (∀ y, is_Some (h !! y) → y ≠ this → h' !! y = h !! y).
Proof.
  intros Hrep Hthis Hr Hp Hout Hfuel.
  pose proof (RbstSet_rep_wf comp h that t Hrep) as ([_ Hw] & _ & _ & _ & Hmax).
  pose proof Hrep as [(_ & _ & Hval & _) _].
  pose proof Hw as ([v Hthat] & Ht & _).
  pose proof (tsize_nonneg t). cbn [tsize] in Hmax.
  destruct (clone_rep t fuel h (Some (m_tree that)) None Ht Hval ltac:(lia) Hfuel)
    as (h1 & t' & Hclone & Ht' & Hcopy & Hnd' & Hnew & Hf1).
  destruct (copy_of_shape h h1 t t' Hcopy) as [Hsize _].
  assert (this ∉ nodes t') as Hout'.
  { intros Hin. rewrite (Hnew this Hin) in Hthis. done. }
  destruct (set_root_rep h1 this t' None n Ht' Hnd' Hout')
    as (h' & Hset & Hthis' & Hrep' & Hv' & Hf'); [|done|done|lia|].
  { rewrite Hf1; [done|]. by rewrite Hthis. }
  assert (∀ y, is_Some (h !! y) → y ≠ this → h' !! y = h !! y) as Hf.
  { intros y Hy Hne. rewrite Hf', Hf1; [done|done|done|].
    intros Hroot. destruct Hy as [? Hy]. rewrite Hnew in Hy; [done|].
    by apply root_elem. }
  assert (copy_of h h' t t') as Hcopy'.
  { eapply copy_of_ext; [exact Hcopy|done|]. intros y _. apply Hv'. }
  exists h1, h', t'. split_and!; try done.
  - unfold RbstTree_root. by rewrite Hthat.
  - apply (copy_of_set_rep comp h h' that _ t t'); [done|done|].
    cbn [m_tree]. split.
    + cbn [nodes]. apply NoDup_app. split_and!; [done| |].
      * intros y Hy ->%list_elem_of_singleton. done.
      * apply NoDup_singleton.
    + apply (rep_Node_intro h' t' this Leaf None (m_value n)); [|done|done].
      rewrite Hthis'. do 2 f_equal. cbn [tsize]. lia.
  - eapply RbstSet_rep_frame; [|exact Hrep]. intros y Hy. apply Hf.
    + exact (rep_is_Some _ _ _ _ Hw Hy).
    + by intros ->.
Qed.

(** X27. The copy constructor gives a set with a copy of the tree of the
    original in newly allocated nodes: the same shape with the same values
    in the same order, so [size()] and the sequence of values are those of
    the original, which is left as it is. *)
Theorem copy_constructor_copies (h : heap) (this : ptr) (that : @RbstSet Rng)
    (t : tree) (fuel : nat) :
  RbstSet_rep comp h that t → h !! this = None → (height t < fuel)%nat →
  ∃ h' s' t',
    RbstSet_copy allocate indeterminate left_first fuel h this that
    = Some (h', s')
    ∧ RbstSet_rep comp h' s' t' ∧ RbstSet_rep comp h' that t
    ∧ copy_of h h' t t'
    ∧ value h' <$> nodes t' = value h <$> nodes t
    ∧ RbstSet_size h' s' = RbstSet_size h that
    ∧ (∀ y, y ∈ nodes t' → h !! y = None)
    ∧ (∀ y, is_Some (h !! y) → h' !! y = h !! y).
Proof.
  intros Hrep Hthis Hfuel.
  pose proof (RbstSet_rep_wf comp h that t Hrep) as ([_ Hw] & _).
  set (n := mkRbstNode None None None (to_size_t (to_size_t (1 + 0) + 0))
              (@None V)).
  set (h0 := <[this := n]> h).
  assert (∀ y, is_Some (h !! y) → h0 !! y = h !! y) as Hf0.
  { intros y [? Hy]. unfold h0. rewrite lookup_insert_ne; [done|].
    intros <-. congruence. }
  assert (this ∉ nodes (Node t (m_tree that) Leaf)) as Hout.
  { intros Hin. destruct (rep_is_Some _ _ _ _ Hw Hin). congruence. }
  assert (RbstSet_rep comp h0 that t) as Hrep0.
  { eapply RbstSet_rep_frame; [|exact Hrep]. intros y Hy. apply Hf0.
    by eapply rep_is_Some. }
  destruct (clone_into_holder h0 this n that t (m_rng that) fuel Hrep0)
    as (h1 & h' & t' & Hroot & Hclone & Hset & Hrep' & Hthat & Hcopy & Hnew & Hf);
    [apply lookup_insert_eq|done|done|done|done|].
  assert (∀ y, is_Some (h !! y) → h' !! y = h !! y) as Hf'.
  { intros y Hy. rewrite Hf, Hf0; [done|done|by rewrite Hf0|].
    intros ->. destruct Hy. congruence. }
  assert (copy_of h h' t t') as Hcopy'.
  { eapply copy_of_ext; [exact Hcopy| |done]. intros y Hy. unfold value.
    rewrite Hf0; [done|]. eapply rep_is_Some; [exact Hw|].
    apply elem_Node. tauto. }
  exists h', (mkRbstSet this (m_rng that)), t'. split_and!; try done.
  - unfold RbstSet_copy, RbstTree_new, construct. cbn [size mbind option_bind].
    fold n h0. rewrite Hroot. cbn [mbind option_bind]. rewrite Hclone.
    cbn [mbind option_bind]. by rewrite Hset.
  - by apply copy_of_values.
  - rewrite (RbstSet_size_rep comp h' _ t' Hrep'),
      (RbstSet_size_rep comp h that t Hrep).
    destruct (copy_of_shape h h' t t' Hcopy') as [Hsize _].
    rewrite !tsize_nodes in Hsize. f_equal. lia.
  - intros y Hy. specialize (Hnew y Hy).
    destruct (h !! y) as [m|] eqn:Hm; [|done].
    rewrite Hf0 in Hnew by (by rewrite Hm). congruence.
Qed.

(** X28. The assignment of a set to another one that shares no node with
    it frees the elements of the target and gives it a copy of the tree of
    the source: the same values in the same order, in nodes that were not
    in use or were elements of the target; the source is left as it is,
    and the assignment of a set to itself does nothing. *)
Theorem assignment_copies (h : heap) (s that : @RbstSet Rng) (ts tt : tree)
    (fuel : nat) :
  RbstSet_rep comp h s ts → RbstSet_rep comp h that tt →
  (∀ y, y ∈ nodes (Node ts (m_tree s) Leaf) →
        y ∉ nodes (Node tt (m_tree that) Leaf)) →
  (height ts < fuel)%nat → (height tt < fuel)%nat →
  RbstSet_assign allocate indeterminate left_first fuel h s s = Some h
  ∧ ∃ h' t',
      RbstSet_assign allocate indeterminate left_first fuel h s that = Some h'
      ∧ RbstSet_rep comp h' s t' ∧ RbstSet_rep comp h' that tt
      ∧ copy_of h h' tt t'
      ∧ value h' <$> nodes t' = value h <$> nodes tt
      ∧ (∀ y, y ∈ nodes t' → h !! y = None ∨ y ∈ nodes ts)
      ∧ (∀ y, is_Some (h !! y) → y ∉ nodes (Node ts (m_tree s) Leaf) →
              h' !! y = h !! y).
Proof.
  intros Hs Ht Hdisj Hfs Hft.
  split; [unfold RbstSet_assign; by rewrite decide_False by (by intros ?)|].
  pose proof (RbstSet_rep_wf comp h s ts Hs) as ([_ Hws] & _).
  pose proof (RbstSet_rep_wf comp h that tt Ht) as ([_ Hwt] & _).
  assert (m_tree s ≠ m_tree that) as Hne.
  { intros E. apply (Hdisj (m_tree s)); [apply elem_Node; tauto|].
    rewrite E. apply elem_Node. tauto. }
  destruct (RbstSet_clear_rep comp h s ts fuel Hs Hfs)
    as (h1 & v & Hclear & Hthis1 & Hfreed & Hf1).
  assert (∀ y, y ∈ nodes (Node tt (m_tree that) Leaf) → h1 !! y = h !! y) as Hft1.
  { intros y Hy. apply Hf1. intros Hy'. by apply (Hdisj y). }
  assert (RbstSet_rep comp h1 that tt) as Ht1
    by (by eapply RbstSet_rep_frame).
  destruct (clone_into_holder h1 (m_tree s) _ that tt (m_rng s) fuel Ht1 Hthis1)
    as (h2 & h' & t' & Hroot & Hclone & Hset & Hrep' & Hthat & Hcopy & Hnew & Hf);
    [done|done| |done|].
  { intros Hin. apply (Hdisj (m_tree s)); [apply elem_Node; tauto|done]. }
  assert (copy_of h h' tt t') as Hcopy'.
  { eapply copy_of_ext; [exact Hcopy| |done]. intros y Hy. unfold value.
    rewrite Hft1; [done|]. apply elem_Node. tauto. }
  exists h', t'. split_and!; try done.
  - unfold RbstSet_assign. rewrite decide_True by done. rewrite Hclear.
    cbn [mbind option_bind]. rewrite Hroot. cbn [mbind option_bind].
    rewrite Hclone. cbn [mbind option_bind]. done.
  - by apply copy_of_values.
  - intros y Hy. specialize (Hnew y Hy).
    destruct (decide (y ∈ nodes (Node ts (m_tree s) Leaf))) as [Hin|Hout].
    + apply elem_Node in Hin as [?|[->|?%elem_of_nil]]; [by right| |done].
      congruence.
    + left. by rewrite <- Hf1.
  - intros y Hy Hout. rewrite Hf; [by apply Hf1|by rewrite Hf1|].
    intros ->. apply Hout, elem_Node. tauto.
Qed.

End Clone.

(** ** The further properties on the example *)

(** The allocator of the example returns an address that is not in use. *)
Lemma ex_allocate_fresh (h : gmap positive (@RbstNode Z)) :
  h !! ex_allocate h = None.
Proof.
  unfold ex_allocate.
  assert (∀ k, is_Some (h !! k) →
               (k <= map_fold (λ k _ m, Pos.max k m) 1 h)%positive) as Hmax.
  { apply (map_fold_weak_ind
             (λ r (m : gmap positive (@RbstNode Z)),
                ∀ k, is_Some (m !! k) → (k <= r)%positive)).
    - intros k [? Hk]. by rewrite lookup_empty in Hk.
    - intros i x m r Hi IH k Hk. destruct (decide (k = i)) as [->|Hne]; [lia|].
      rewrite lookup_insert_ne in Hk by done. specialize (IH k Hk). lia. }
  destruct (h !! Pos.succ _) eqn:E; [|done].
  specialize (Hmax _ ltac:(by rewrite E)). lia.
Qed.

(** The two sets of the second heap. *)
Lemma ex_set_rep2 : RbstSet_rep Z.ltb ex_heap2 ex_set ex_tree.
Proof.
  eapply RbstSet_rep_frame; [|exact ex_set_rep]. intros y Hy. simpl in Hy.
  by elems Hy.
Qed.

Lemma ex_set2_rep : RbstSet_rep Z.ltb ex_heap2 ex_set2 ex_tree2.
Proof.
  split; [split_and!|].
  - split; [by apply (bool_decide_unpack _)|]. repeat split; by eexists.
  - done.
  - intros y Hy. simpl in Hy. elems Hy. by eexists.
  - intros d. repeat split; by intros y ?%elem_of_nil.
  - intros d a b Ha Hb _. simpl in Ha, Hb. by elems Ha; elems Hb.
Qed.

(** The tree that is not in order. *)
Lemma ex_unordered_rep : rep ex_unordered_heap ex_unordered_tree None.
Proof. repeat split; by eexists. Qed.

Lemma ex_unordered_keyed :
  keyed ex_unordered_heap (key_of ex_unordered_heap 0) (nodes ex_unordered_tree).
Proof. apply valued_keyed. intros y Hy. simpl in Hy. elems Hy; by eexists. Qed.

(** Closing the further facts about the example. *)
Ltac ex_absent :=
  let y := fresh "y" in let v := fresh "v" in
  let Hy := fresh "Hy" in let Hv := fresh "Hv" in
  let H1 := fresh "H" in let H2 := fresh "H" in
  intros y v Hy Hv [H1 H2]; cbn in Hy; elems Hy;
  vm_compute in Hv; simplify_eq; vm_compute in H1, H2; congruence.

Ltac ex_disjoint :=
  let y := fresh "y" in let Hy := fresh "Hy" in
  intros y Hy; cbn in Hy; elems Hy; by apply (bool_decide_unpack _).

Ltac ex_more :=
  first [ ex_fact | exact ex_rep_holder | exact (proj2 ex_wf_tree)
        | exact ex_set_rep2
        | exact ex_set2_rep | exact ex_allocate_fresh
        | exact ex_unordered_rep | exact ex_unordered_keyed
        | by apply (bool_decide_unpack _) | by eexists
        | ex_absent | ex_disjoint ].

(** ** The further properties on the example, one by one *)

(** X1 on the example: the set of 10, 20, 30 and 40. *)
Lemma begin_is_least_witness :
  let comp := Z.ltb in
  let h := ex_heap in
  let s := ex_set in
  let t := ex_tree in
  let fuel := 10%nat in
  StrictWeakOrder comp
  ∧ RbstSet_rep comp h s t
  ∧ (height t < fuel)%nat
  ∧ (∃ b, RbstSet_begin fuel h s = Some (Some b)
       ∧ (nodes t ++ [m_tree s]) !! 0%nat = Some b
       ∧ (Some b = RbstSet_end s ↔ nodes t = [])
       ∧ ∀ y vb vy, y ∈ nodes t → value h b = Some vb → value h y = Some vy →
                    comp vy vb = false).
Proof.
  cbv zeta. do 3 (split; [ex_more|]).
  apply (begin_is_least Z.ltb Z_ltb_StrictWeakOrder); ex_more.
Defined.

(** X2 on the example: the set of 10, 20, 30 and 40. *)
Lemma end_previous_is_greatest_witness :
  let comp := Z.ltb in
  let h := ex_heap in
  let s := ex_set in
  let t := ex_tree in
  let fuel := 10%nat in
  StrictWeakOrder comp
  ∧ RbstSet_rep comp h s t
  ∧ (height t + 1 < fuel)%nat
  ∧ (iterator_previous fuel h (RbstSet_end s) = Some (list.last (nodes t))
     ∧ (∀ x, root t = Some x → last fuel h x = list.last (nodes t))
     ∧ ∀ l y vl vy, list.last (nodes t) = Some l → y ∈ nodes t →
                    value h l = Some vl → value h y = Some vy →
                    comp vl vy = false).
Proof.
  cbv zeta. do 3 (split; [ex_more|]).
  apply (end_previous_is_greatest Z.ltb Z_ltb_StrictWeakOrder); ex_more.
Defined.

(** X3 on the example: the node of 40, at rank 3. *)
Lemma next_previous_step_rank_witness :
  let h := ex_heap in
  let w := ex_holder in
  let x := 5%positive in
  let i := 3%nat in
  let fuel := 10%nat in
  wf h w None
  ∧ nodes w !! i = Some x
  ∧ (height w < fuel)%nat
  ∧ (iterator_next fuel h (Some x) = Some (nodes w !! S i)
     ∧ iterator_previous fuel h (Some x)
       = Some (match i with O => None | S j => nodes w !! j end)
     ∧ (S i = length (nodes w) → next fuel h x = Some None)
     ∧ (i = O → previous fuel h x = Some None)).
Proof.
  cbv zeta. do 3 (split; [ex_more|]).
  apply (next_previous_step_rank ex_heap ex_holder 5%positive 3%nat
           10%nat); ex_more.
Defined.

(** X4 on the example: rank 2 from the root holder. *)
Lemma at_is_first_offset_witness :
  let h := ex_heap in
  let w := ex_holder in
  let top := 1%positive in
  let i := 2 in
  let fuel := 10%nat in
  wf h w None
  ∧ root w = Some top
  ∧ 0 <= i < tsize w
  ∧ tsize w <= 2 ^ (SIZE_BITS - 2)
  ∧ (2 * height w < fuel)%nat
  ∧ (∃ f y, first fuel h top = Some f
       ∧ at_ fuel h top i = Some y
       ∧ offset fuel h f i = Some (Some y)).
Proof.
  cbv zeta. do 5 (split; [ex_more|]).
  apply (at_is_first_offset ex_heap ex_holder 1%positive 2 10%nat); ex_more.
Defined.

(** X5 on the example: two steps from the node of 20, at rank 1. *)
Lemma iterator_plus_minus_witness :
  let h := ex_heap in
  let w := ex_holder in
  let x := 3%positive in
  let r := 1%nat in
  let n := 2 in
  let fuel := 10%nat in
  wf h w None
  ∧ nodes w !! r = Some x
  ∧ 0 <= Z.of_nat r + n < tsize w
  ∧ tsize w <= 2 ^ (SIZE_BITS - 2)
  ∧ (2 * height w < fuel)%nat
  ∧ (∃ y, iterator_plus fuel h (Some x) n = Some (Some y)
       ∧ nodes w !! Z.to_nat (Z.of_nat r + n) = Some y
       ∧ iterator_minus fuel h (Some y) (Some x) = Some n
       ∧ iterator_sub fuel h (Some y) n = Some (Some x)
       ∧ iterator_at fuel h (Some x) n = value h y).
Proof.
  cbv zeta. do 5 (split; [ex_more|]).
  apply (iterator_plus_minus ex_heap ex_holder 3%positive 1%nat 2
           10%nat); ex_more.
Defined.

(** X6 on the example: the set of 10, 20, 30 and 40. *)
Lemma size_counts_elements_witness :
  let comp := Z.ltb in
  let h := ex_heap in
  let s := ex_set in
  let t := ex_tree in
  RbstSet_rep comp h s t
  ∧ (RbstSet_size h s = Some (Z.of_nat (length (nodes t)))
     ∧ RbstSet_empty h s = Some (bool_decide (nodes t = []))
     ∧ (RbstSet_empty h s = Some true ↔ RbstSet_size h s = Some 0)).
Proof.
  cbv zeta. do 1 (split; [ex_more|]).
  apply (size_counts_elements Z.ltb ex_heap ex_set ex_tree); ex_more.
Defined.

(** X7 on the example: the set of 10, 20, 30 and 40. *)
Lemma end_minus_begin_is_size_witness :
  let comp := Z.ltb in
  let h := ex_heap in
  let s := ex_set in
  let t := ex_tree in
  let fuel := 20%nat in
  RbstSet_rep comp h s t
  ∧ tsize t < 2 ^ (SIZE_BITS - 2)
  ∧ (2 * height t + 2 < fuel)%nat
  ∧ (∃ b n, RbstSet_begin fuel h s = Some (Some b)
       ∧ RbstSet_size h s = Some n
       ∧ iterator_minus fuel h (RbstSet_end s) (Some b) = Some n
       ∧ iterator_plus fuel h (Some b) n = Some (RbstSet_end s)).
Proof.
  cbv zeta. do 3 (split; [ex_more|]).
  apply (end_minus_begin_is_size Z.ltb ex_heap ex_set ex_tree 20%nat); ex_more.
Defined.

(** X8 on the example: the nodes of 20 and of 40. *)
Lemma iterator_order_is_rank_order_witness :
  let h := ex_heap in
  let w := ex_holder in
  let p := 3%positive in
  let q := 5%positive in
  let rp := 1%nat in
  let rq := 3%nat in
  let fuel := 10%nat in
  wf h w None
  ∧ nodes w !! rp = Some p
  ∧ nodes w !! rq = Some q
  ∧ tsize w <= 2 ^ SIZE_BITS
  ∧ (height w < fuel)%nat
  ∧ (iterator_eq (Some p) (Some q) = bool_decide (rp = rq)
     ∧ iterator_lt fuel h (Some p) (Some q) = Some (bool_decide (rp < rq)%nat)
     ∧ iterator_gt fuel h (Some p) (Some q) = Some (bool_decide (rq < rp)%nat)
     ∧ iterator_le fuel h (Some p) (Some q) = Some (bool_decide (rp <= rq)%nat)
     ∧ iterator_ge fuel h (Some p) (Some q)
       = Some (bool_decide (rq <= rp)%nat)).
Proof.
  cbv zeta. do 5 (split; [ex_more|]).
  apply (iterator_order_is_rank_order ex_heap ex_holder 3%positive
           5%positive 1%nat 3%nat 10%nat); ex_more.
Defined.

(** X9 on the example: the key 30. *)
Lemma find_locates_equivalent_witness :
  let comp := Z.ltb in
  let h := ex_heap in
  let s := ex_set in
  let t := ex_tree in
  let k := 30 in
  let fuel := 10%nat in
  StrictWeakOrder comp
  ∧ RbstSet_rep comp h s t
  ∧ (height t < fuel)%nat
  ∧ (∃ it, RbstSet_find comp fuel h s k = Some it
       ∧ (it = RbstSet_end s ↔
          ∀ y v, y ∈ nodes t → value h y = Some v → ¬ equiv_key comp v k)
       ∧ (it ≠ RbstSet_end s →
          ∃ y v, it = Some y ∧ y ∈ nodes t ∧ value h y = Some v
            ∧ equiv_key comp v k
            ∧ ∀ z vz, z ∈ nodes t → value h z = Some vz →
                      equiv_key comp vz k → z = y)).
Proof.
  cbv zeta. do 3 (split; [ex_more|]).
  apply (find_locates_equivalent Z.ltb Z_ltb_StrictWeakOrder ex_heap
           ex_set ex_tree 30 10%nat); ex_more.
Defined.

(** X10 on the example: the key 30. *)
Lemma equal_range_brackets_one_witness :
  let comp := Z.ltb in
  let h := ex_heap in
  let s := ex_set in
  let t := ex_tree in
  let k := 30 in
  let fuel := 10%nat in
  StrictWeakOrder comp
  ∧ RbstSet_rep comp h s t
  ∧ (height t + 1 < fuel)%nat
  ∧ (∃ lo hi, RbstSet_equal_range comp fuel h s k = Some (lo, hi)
       ∧ RbstSet_lower_bound comp fuel h s k = Some lo
       ∧ RbstSet_upper_bound comp fuel h s k = Some hi
       ∧ ((∀ y v, y ∈ nodes t → value h y = Some v → ¬ equiv_key comp v k) →
          hi = lo)
       ∧ (∀ y v, y ∈ nodes t → value h y = Some v → equiv_key comp v k →
                 lo = Some y ∧ iterator_next fuel h lo = Some hi ∧ hi ≠ lo)).
Proof.
  cbv zeta. do 3 (split; [ex_more|]).
  apply (equal_range_brackets_one Z.ltb Z_ltb_StrictWeakOrder
           ex_heap ex_set ex_tree 30 10%nat); ex_more.
Defined.

(** X11 on the example: the nodes of 20 and of 40. *)
Lemma iterator_lt_is_value_lt_witness :
  let comp := Z.ltb in
  let h := ex_heap in
  let s := ex_set in
  let t := ex_tree in
  let p := 3%positive in
  let q := 5%positive in
  let vp := 20 in
  let vq := 40 in
  let fuel := 10%nat in
  StrictWeakOrder comp
  ∧ RbstSet_rep comp h s t
  ∧ p ∈ nodes t
  ∧ q ∈ nodes t
  ∧ value h p = Some vp
  ∧ value h q = Some vq
  ∧ (height t + 1 < fuel)%nat
  ∧ (iterator_lt fuel h (Some p) (Some q) = Some (comp vp vq)).
Proof.
  cbv zeta. do 7 (split; [ex_more|]).
  apply (iterator_lt_is_value_lt Z.ltb Z_ltb_StrictWeakOrder ex_heap
           ex_set ex_tree 3%positive 5%positive 20 40 10%nat); ex_more.
Defined.

(** X12 on the example: the key 35, which is not in the set. *)
Lemma insert_then_find_witness :
  let comp := Z.ltb in
  let draw := DefaultRng in
  let allocate := ex_allocate in
  let h := ex_heap in
  let s := ex_set in
  let t := ex_tree in
  let k := 35 in
  let fuel := 20%nat in
  StrictWeakOrder comp
  ∧ RbstSet_rep comp h s t
  ∧ h !! allocate h = None
  ∧ tsize (Node t (m_tree s) Leaf) + 1 < 2 ^ SIZE_BITS
  ∧ (length (nodes t) + 1 < fuel)%nat
  ∧ (∀ y v, y ∈ nodes t → value h y = Some v → ¬ equiv_key comp v k)
  ∧ (∃ h' s' node t',
       RbstSet_insert comp draw allocate fuel h s k
       = Some (h', s', (Some node, true))
       ∧ h !! node = None
       ∧ RbstSet_rep comp h' s' t'
       ∧ RbstSet_find comp fuel h' s' k = Some (Some node)
       ∧ iterator_deref h' (Some node) = Some k
       ∧ RbstSet_size h' s' = Some (Z.of_nat (length (nodes t)) + 1)
       ∧ (∃ l1 l2, nodes t = l1 ++ l2 ∧ nodes t' = l1 ++ node :: l2)
       ∧ (∀ y v k', y ∈ nodes t → value h y = Some v →
            value h' y = Some v
            ∧ (equiv_key comp v k' →
               RbstSet_find comp fuel h' s' k' = Some (Some y)))).
Proof.
  cbv zeta. do 6 (split; [ex_more|]).
  apply (insert_then_find Z.ltb Z_ltb_StrictWeakOrder DefaultRng
           ex_allocate ex_heap ex_set ex_tree 35 20%nat); ex_more.
Defined.

(** X13 on the example: the node of 20. *)
Lemma erase_at_removes_one_witness :
  let comp := Z.ltb in
  let draw := DefaultRng in
  let h := ex_heap in
  let s := ex_set in
  let t := ex_tree in
  let y := 3%positive in
  let fuel := 20%nat in
  StrictWeakOrder comp
  ∧ RbstSet_rep comp h s t
  ∧ y ∈ nodes t
  ∧ (2 * length (nodes t) < fuel)%nat
  ∧ (∃ h' s' t',
       RbstSet_erase_at draw fuel h s (Some y) = Some (h', s')
       ∧ RbstSet_rep comp h' s' t'
       ∧ h' !! y = None
       ∧ (∃ l1 l2, nodes t = l1 ++ y :: l2 ∧ nodes t' = l1 ++ l2)
       ∧ RbstSet_size h' s' = Some (Z.of_nat (length (nodes t)) - 1)
       ∧ (∀ z, z ≠ y → value h' z = value h z)
       ∧ (∀ z, z ∉ nodes (Node t (m_tree s) Leaf) → h' !! z = h !! z)).
Proof.
  cbv zeta. do 4 (split; [ex_more|]).
  apply (erase_at_removes_one Z.ltb Z_ltb_StrictWeakOrder DefaultRng
           ex_heap ex_set ex_tree 3%positive 20%nat); ex_more.
Defined.

(** X14 on the example: the key 20. *)
Lemma erase_keeps_other_keys_witness :
  let comp := Z.ltb in
  let draw := DefaultRng in
  let h := ex_heap in
  let s := ex_set in
  let t := ex_tree in
  let k := 20 in
  let y := 3%positive in
  let v := 20 in
  let fuel := 20%nat in
  StrictWeakOrder comp
  ∧ RbstSet_rep comp h s t
  ∧ y ∈ nodes t
  ∧ value h y = Some v
  ∧ equiv_key comp v k
  ∧ (2 * length (nodes t) + 1 < fuel)%nat
  ∧ (∃ h' s' t',
       RbstSet_erase comp draw fuel h s k = Some (h', s', 1)
       ∧ RbstSet_rep comp h' s' t'
       ∧ h' !! y = None
       ∧ RbstSet_size h' s' = Some (Z.of_nat (length (nodes t)) - 1)
       ∧ (∀ z vz k', z ∈ nodes t → z ≠ y → value h z = Some vz →
            value h' z = Some vz
            ∧ (equiv_key comp vz k' →
               RbstSet_find comp fuel h' s' k' = Some (Some z)))).
Proof.
  cbv zeta. do 6 (split; [ex_more|]).
  apply (erase_keeps_other_keys Z.ltb Z_ltb_StrictWeakOrder
           DefaultRng ex_heap ex_set ex_tree 20 3%positive 20 20%nat); ex_more.
Defined.

(** X15 on the example: a set constructed at address 20. *)
Lemma new_set_is_empty_witness :
  let comp := Z.ltb in
  let draw := DefaultRng in
  let h := ex_heap in
  let this := 20%positive in
  let rng := DefaultRng_seed in
  let k := 5 in
  let fuel := 1%nat in
  (0 < fuel)%nat
  ∧ (∃ h' s, RbstSet_new h this rng = Some (h', s)
       ∧ RbstSet_rep comp h' s Leaf
       ∧ RbstSet_size h' s = Some 0
       ∧ RbstSet_empty h' s = Some true
       ∧ RbstSet_begin fuel h' s = Some (RbstSet_end s)
       ∧ RbstSet_find comp fuel h' s k = Some (RbstSet_end s)
       ∧ RbstSet_lower_bound comp fuel h' s k = Some (RbstSet_end s)
       ∧ RbstSet_upper_bound comp fuel h' s k = Some (RbstSet_end s)
       ∧ RbstSet_erase comp draw fuel h' s k = Some (h', s, 0)).
Proof.
  cbv zeta. do 1 (split; [ex_more|]).
  apply (new_set_is_empty Z.ltb DefaultRng ex_heap 20%positive
           DefaultRng_seed 5 1%nat); ex_more.
Defined.

(** X16 on the example: the set of 10, 20, 30 and 40. *)
Lemma clear_frees_all_witness :
  let comp := Z.ltb in
  let h := ex_heap in
  let s := ex_set in
  let t := ex_tree in
  let fuel := 10%nat in
  RbstSet_rep comp h s t
  ∧ (height t < fuel)%nat
  ∧ (∃ h', RbstSet_clear fuel h s = Some h'
       ∧ RbstSet_rep comp h' s Leaf
       ∧ RbstSet_size h' s = Some 0
       ∧ RbstSet_begin fuel h' s = Some (RbstSet_end s)
       ∧ (∀ y, y ∈ nodes t → h' !! y = None)
       ∧ (∀ y, y ∉ nodes (Node t (m_tree s) Leaf) → h' !! y = h !! y)).
Proof.
  cbv zeta. do 2 (split; [ex_more|]).
  apply (clear_frees_all Z.ltb ex_heap ex_set ex_tree 10%nat); ex_more.
Defined.

(** X17 on the example: the values 25, 30 and 35. *)
Lemma insert_range_adds_values_witness :
  let comp := Z.ltb in
  let draw := DefaultRng in
  let allocate := ex_allocate in
  let values := [25; 30; 35] in
  let h := ex_heap in
  let s := ex_set in
  let t := ex_tree in
  let fuel := 20%nat in
  StrictWeakOrder comp
  ∧ RbstSet_rep comp h s t
  ∧ (∀ h, h !! allocate h = None)
  ∧ tsize (Node t (m_tree s) Leaf) + Z.of_nat (length values) < 2 ^ SIZE_BITS
  ∧ (length (nodes t) + length values < fuel)%nat
  ∧ (∃ h' s' t',
       RbstSet_insert_range comp draw allocate fuel h s values = Some (h', s')
       ∧ RbstSet_rep comp h' s' t'
       ∧ (∀ n n', RbstSet_size h s = Some n → RbstSet_size h' s' = Some n' →
                  n <= n' <= n + Z.of_nat (length values))
       ∧ (∀ y, y ∈ nodes t → y ∈ nodes t' ∧ value h' y = value h y)
       ∧ (∀ k, RbstSet_find comp fuel h' s' k ≠ Some (RbstSet_end s')
               ↔ RbstSet_find comp fuel h s k ≠ Some (RbstSet_end s)
                 ∨ (∃ v, v ∈ values ∧ equiv_key comp v k))).
Proof.
  cbv zeta. do 5 (split; [ex_more|]).
  apply (insert_range_adds_values Z.ltb Z_ltb_StrictWeakOrder
           DefaultRng ex_allocate [25; 30; 35] ex_heap ex_set
           ex_tree 20%nat); ex_more.
Defined.

(** X18 on the example: a set constructed from 3, 1, 2 and 3. *)
Lemma new_range_holds_values_witness :
  let comp := Z.ltb in
  let draw := DefaultRng in
  let allocate := ex_allocate in
  let values := [3; 1; 2; 3] in
  let h := (∅ : gmap positive (@RbstNode Z)) in
  let this := 1%positive in
  let rng := DefaultRng_seed in
  let fuel := 10%nat in
  StrictWeakOrder comp
  ∧ (∀ h, h !! allocate h = None)
  ∧ Z.of_nat (length values) + 1 < 2 ^ SIZE_BITS
  ∧ (length values < fuel)%nat
  ∧ (∃ h' s' t',
       RbstSet_new_range comp draw allocate fuel h this rng values
         = Some (h', s')
       ∧ RbstSet_rep comp h' s' t'
       ∧ (length (nodes t') <= length values)%nat
       ∧ (∀ k, (∃ y v, y ∈ nodes t' ∧ value h' y = Some v ∧ equiv_key comp v k)
               ↔ ∃ v, v ∈ values ∧ equiv_key comp v k)
       ∧ (∀ k, RbstSet_find comp fuel h' s' k = Some (RbstSet_end s')
               ↔ ¬ ∃ v, v ∈ values ∧ equiv_key comp v k)).
Proof.
  cbv zeta. do 4 (split; [ex_more|]).
  apply (new_range_holds_values Z.ltb Z_ltb_StrictWeakOrder
           DefaultRng ex_allocate [3; 1; 2; 3] ∅ 1%positive
           DefaultRng_seed 10%nat); ex_more.
Defined.

(** X19 on the example: the range of 20 and 30. *)
Lemma erase_range_removes_range_witness :
  let comp := Z.ltb in
  let draw := DefaultRng in
  let l1 := [2%positive] in
  let mid := [3%positive; 4%positive] in
  let l2 := [5%positive] in
  let h := ex_heap in
  let s := ex_set in
  let t := ex_tree in
  let steps := 3%nat in
  let fuel := 20%nat in
  StrictWeakOrder comp
  ∧ RbstSet_rep comp h s t
  ∧ nodes t = l1 ++ mid ++ l2
  ∧ (length mid < steps)%nat
  ∧ (2 * length (nodes t) + 1 < fuel)%nat
  ∧ (∃ h' s' t',
       RbstSet_erase_range draw steps fuel h s
         (head (mid ++ l2 ++ [m_tree s])) (head (l2 ++ [m_tree s]))
       = Some (h', s')
       ∧ RbstSet_rep comp h' s' t' ∧ nodes t' = l1 ++ l2
       ∧ (∀ y, y ∈ mid → h' !! y = None)
       ∧ (∀ z, z ∉ mid → value h' z = value h z)
       ∧ (∀ z, z ∉ nodes (Node t (m_tree s) Leaf) → h' !! z = h !! z)
       ∧ (l1 = [] → l2 = [] →
          RbstSet_begin fuel h s = Some (head (mid ++ l2 ++ [m_tree s]))
          ∧ RbstSet_size h' s' = Some 0)).
Proof.
  cbv zeta. do 5 (split; [ex_more|]).
  apply (erase_range_removes_range Z.ltb Z_ltb_StrictWeakOrder
           DefaultRng [2%positive] [3%positive; 4%positive]
           [5%positive] ex_heap ex_set ex_tree 3%nat 20%nat); ex_more.
Defined.

(** X20 on the example: the root holder with the tree below it. *)
Lemma check_structure_accepts_represented_witness :
  let h := ex_heap in
  let t := ex_holder in
  let fuel := 10%nat in
  rep h t None
  ∧ tsize t < 2 ^ SIZE_BITS
  ∧ (height t < fuel)%nat
  ∧ rbst_check_structure fuel h (root t) None 0 = Some true
  ∧ (rep_size_t h t None ↔ rep h t None)
  ∧ (∃ t', root t' = root t ∧ (height t' <= fuel)%nat ∧ rep_size_t h t' None).
Proof.
  cbv zeta. do 3 (split; [ex_more|]).
  destruct (check_structure_accepts_represented ex_heap (root ex_holder) None
              0 10%nat) as (Hiff & Hrep & Hcomplete).
  assert (rbst_check_structure 10 ex_heap (root ex_holder) None 0 = Some true)
    as Hcheck by (apply Hcomplete; ex_more).
  split; [exact Hcheck|]. split; [apply Hrep; ex_more|].
  exact (proj2 (proj1 Hiff Hcheck)).
Defined.

(** X21 on the example: the set of 10, 20, 30 and 40. *)
Lemma checks_pass_on_set_witness :
  let comp := Z.ltb in
  let h := ex_heap in
  let s := ex_set in
  let t := ex_tree in
  let fuel := 10%nat in
  StrictWeakOrder comp
  ∧ RbstSet_rep comp h s t
  ∧ (height t + 1 < fuel)%nat
  ∧ (rbst_check_structure fuel h (Some (m_tree s)) None 0 = Some true
     ∧ rbst_check_values comp fuel h (root t) 0 = Some true).
Proof.
  cbv zeta. do 3 (split; [ex_more|]).
  apply (checks_pass_on_set Z.ltb Z_ltb_StrictWeakOrder ex_heap
           ex_set ex_tree 10%nat); ex_more.
Defined.

(** X22 on the example: the tree that is not in order. *)
Lemma check_values_is_local_witness :
  let comp := Z.ltb in
  let key := key_of ex_unordered_heap 0 in
  let h := ex_unordered_heap in
  let t := ex_unordered_tree in
  let parent := @None positive in
  let index := 0 in
  let fuel := 4%nat in
  rep h t parent
  ∧ keyed h key (nodes t)
  ∧ (height t < fuel)%nat
  ∧ (∃ ok, rbst_check_values comp fuel h (root t) index = Some ok
       ∧ (ok = true ↔ locally_ordered comp key t)
       ∧ (ordered comp key t → ok = true)).
Proof.
  cbv zeta. do 3 (split; [ex_more|]).
  apply (check_values_is_local Z.ltb (key_of ex_unordered_heap 0)
           ex_unordered_heap ex_unordered_tree None 0 4%nat); ex_more.
Defined.

(** X23 on the example: the tree below the root holder. *)
Lemma depth_measures_witness :
  let h := ex_heap in
  let t := ex_tree in
  let parent := Some 1%positive in
  let fuel := 10%nat in
  rep h t parent
  ∧ tsize t * Z.of_nat (height t) < 2 ^ SIZE_BITS
  ∧ (height t < fuel)%nat
  ∧ (∃ m d, rbst_max_depth fuel h (root t) = Some m
       ∧ rbst_total_depth fuel h (root t) 0 = Some d
       ∧ m = Z.of_nat (height t) ∧ m <= tsize t
       ∧ tsize t <= d <= tsize t * m).
Proof.
  cbv zeta. do 3 (split; [ex_more|]).
  apply (depth_measures ex_heap ex_tree (Some 1%positive) 10%nat); ex_more.
Defined.

(** X24 on the example: the two sets of the second heap. *)
Lemma swap_exchanges_sets_witness :
  let comp := Z.ltb in
  let h := ex_heap2 in
  let a := ex_set in
  let b := ex_set2 in
  let ta := ex_tree in
  let tb := ex_tree2 in
  RbstSet_rep comp h a ta
  ∧ RbstSet_rep comp h b tb
  ∧ (∀ y, y ∈ nodes (Node ta (m_tree a) Leaf) →
      y ∉ nodes (Node tb (m_tree b) Leaf))
  ∧ (RbstSet_swap h a a = Some h
     ∧ ∃ h', RbstSet_swap h a b = Some h'
         ∧ RbstSet_rep comp h' a tb ∧ RbstSet_rep comp h' b ta
         ∧ (∀ y, value h' y = value h y)
         ∧ (∀ y, y ∉ nodes (Node ta (m_tree a) Leaf) →
                 y ∉ nodes (Node tb (m_tree b) Leaf) → h' !! y = h !! y)).
Proof.
  cbv zeta. do 3 (split; [ex_more|]).
  apply (swap_exchanges_sets Z.ltb ex_heap2 ex_set ex_set2 ex_tree
           ex_tree2); ex_more.
Defined.

(** X25 on the example: node 6 adopts the tree. *)
Lemma set_root_adopts_tree_witness :
  let h := ex_heap in
  let this := 6%positive in
  let t := ex_tree in
  let p := Some 1%positive in
  let n := ex_new 25 in
  wf h t p
  ∧ (this ∉ nodes t)
  ∧ h !! this = Some n
  ∧ m_right n = None
  ∧ m_parent n = None
  ∧ tsize t + 1 < 2 ^ SIZE_BITS
  ∧ (∃ h', RbstTree_set_root h this (root t) = Some h'
       ∧ wf h' (Node t this Leaf) None
       ∧ RbstTree_root h' this = Some (root t)
       ∧ size h' (Some this) = Some (1 + tsize t)
       ∧ (t = Leaf → size h' (Some this) = Some 1)
       ∧ (∀ y, value h' y = value h y)
       ∧ (∀ y, y ≠ this → root t ≠ Some y → h' !! y = h !! y)).
Proof.
  cbv zeta. do 6 (split; [ex_more|]).
  apply (set_root_adopts_tree ex_heap 6%positive ex_tree (Some
           1%positive) (ex_new 25)); ex_more.
Defined.

(** X26 on the example: the tree split by node 6, of value 25. *)
Lemma split_partitions_by_pivot_witness :
  let comp := Z.ltb in
  let key := ex_key in
  let h := ex_heap in
  let t := ex_tree in
  let parent := Some 1%positive in
  let this := 6%positive in
  let x := 4%positive in
  let lesser := 6%positive in
  let greater := 6%positive in
  let fuel := 5%nat in
  StrictWeakOrder comp
  ∧ wf h t parent
  ∧ root t = Some x
  ∧ (lesser ∉ nodes t)
  ∧ (greater ∉ nodes t)
  ∧ is_Some (h !! lesser)
  ∧ is_Some (h !! greater)
  ∧ keyed h key (this :: nodes t)
  ∧ ordered comp key t
  ∧ tsize t < 2 ^ SIZE_BITS
  ∧ (height t <= fuel)%nat
  ∧ (∃ h' a b,
       split comp fuel h this x lesser greater = Some h'
       ∧ rep h' a (Some lesser) ∧ rep h' b (Some greater)
       ∧ (∃ n, h' !! lesser = Some n ∧ m_right n = root a)
       ∧ (∃ n, h' !! greater = Some n ∧ m_left n = root b)
       ∧ nodes a ++ nodes b = nodes t
       ∧ (∀ y, y ∈ nodes a → comp (key this) (key y) = false)
       ∧ (∀ y, y ∈ nodes b → comp (key this) (key y) = true)
       ∧ ordered comp key a ∧ ordered comp key b
       ∧ (∀ y, value h' y = value h y)).
Proof.
  cbv zeta. do 11 (split; [ex_more|]).
  apply (split_partitions_by_pivot Z.ltb Z_ltb_StrictWeakOrder
           ex_key ex_heap ex_tree (Some 1%positive) 6%positive
           4%positive 6%positive 6%positive 5%nat); ex_more.
Defined.

(** X27 on the example: a copy of the set at address 20. *)
Lemma copy_constructor_copies_witness :
  let comp := Z.ltb in
  let allocate := ex_allocate in
  let indeterminate := ex_indeterminate in
  let left_first := true in
  let h := ex_heap in
  let this := 20%positive in
  let that := ex_set in
  let t := ex_tree in
  let fuel := 10%nat in
  (∀ h, h !! allocate h = None)
  ∧ RbstSet_rep comp h that t
  ∧ h !! this = None
  ∧ (height t < fuel)%nat
  ∧ (∃ h' s' t',
       RbstSet_copy allocate indeterminate left_first fuel h this that
       = Some (h', s')
       ∧ RbstSet_rep comp h' s' t' ∧ RbstSet_rep comp h' that t
       ∧ copy_of h h' t t'
       ∧ value h' <$> nodes t' = value h <$> nodes t
       ∧ RbstSet_size h' s' = RbstSet_size h that
       ∧ (∀ y, y ∈ nodes t' → h !! y = None)
       ∧ (∀ y, is_Some (h !! y) → h' !! y = h !! y)).
Proof.
  cbv zeta. do 4 (split; [ex_more|]).
  apply (copy_constructor_copies Z.ltb ex_allocate ex_indeterminate
           ex_allocate_fresh true ex_heap 20%positive ex_set ex_tree
           10%nat); ex_more.
Defined.

(** X28 on the example: the first set assigned to the second. *)
Lemma assignment_copies_witness :
  let comp := Z.ltb in
  let allocate := ex_allocate in
  let indeterminate := ex_indeterminate in
  let left_first := true in
  let h := ex_heap2 in
  let s := ex_set2 in
  let that := ex_set in
  let ts := ex_tree2 in
  let tt := ex_tree in
  let fuel := 10%nat in
  (∀ h, h !! allocate h = None)
  ∧ RbstSet_rep comp h s ts
  ∧ RbstSet_rep comp h that tt
  ∧ (∀ y, y ∈ nodes (Node ts (m_tree s) Leaf) →
      y ∉ nodes (Node tt (m_tree that) Leaf))
  ∧ (height ts < fuel)%nat
  ∧ (height tt < fuel)%nat
  ∧ (RbstSet_assign allocate indeterminate left_first fuel h s s = Some h
     ∧ ∃ h' t',
         RbstSet_assign allocate indeterminate left_first fuel h s that
           = Some h'
         ∧ RbstSet_rep comp h' s t' ∧ RbstSet_rep comp h' that tt
         ∧ copy_of h h' tt t'
         ∧ value h' <$> nodes t' = value h <$> nodes tt
         ∧ (∀ y, y ∈ nodes t' → h !! y = None ∨ y ∈ nodes ts)
         ∧ (∀ y, is_Some (h !! y) → y ∉ nodes (Node ts (m_tree s) Leaf) →
                 h' !! y = h !! y)).
Proof.
  cbv zeta. do 6 (split; [ex_more|]).
  apply (assignment_copies Z.ltb ex_allocate ex_indeterminate
           ex_allocate_fresh true ex_heap2 ex_set2 ex_set ex_tree2
           ex_tree 10%nat); ex_more.
Defined.
